(** * zlocalz: the consistency engine (Validator, Fixer, Format Adapter,
      Diff generator) as a shallow embedding.

    Modelling conventions, used throughout.

    - A JavaScript string is a [string]: each [ascii] stands for one UTF-16
      code unit below 256.  Whitespace ([String.prototype.trim], the regular
      expression class \s) is therefore the set 9-13, 32 and 160.
    - A JavaScript object used as an ordered record (the entries of a
      locale file, the raw parsed document, a Map) is an association list
      in own-property order.  This is the order [Object.keys] reports for
      keys that are not canonical array indices and not names found on
      Object.prototype; writing an absent key appends it, writing a present
      key keeps its position, [delete] removes it.  Keys are unique in an
      object; where a statement needs it this is the hypothesis
      [NoDup (obj_keys o)].
    - A thrown exception is the result [None]. *)

From stdpp Require Import base list strings.
From Stdlib Require Import String Ascii ZArith Lia Bool DecimalString List Permutation Sorted.

Open Scope string_scope.
Open Scope list_scope.

(** ** Characters and strings *)

Definition is_open (c : ascii) : bool := Ascii.eqb c "{"%char.
Definition is_close (c : ascii) : bool := Ascii.eqb c "}"%char.
Definition is_brace (c : ascii) : bool := is_open c || is_close c.

(** The class \s and the characters [trim] strips. *)
Definition is_space (c : ascii) : bool :=
  let n := nat_of_ascii c in
  (Nat.leb 9 n && Nat.leb n 13) || Nat.eqb n 32 || Nat.eqb n 160.

Definition str_nonempty (s : string) : bool :=
  match s with EmptyString => false | String _ _ => true end.

(** [value.includes(sub)] *)
Fixpoint includes (sub s : string) : bool :=
  String.prefix sub s ||
  match s with
  | EmptyString => false
  | String _ s' => includes sub s'
  end.

(** [key.startsWith(p)] *)
Definition startsWith (p s : string) : bool := String.prefix p s.

Fixpoint trimStart (s : string) : string :=
  match s with
  | EmptyString => EmptyString
  | String c s' => if is_space c then trimStart s' else s
  end.

Fixpoint trimEnd (s : string) : string :=
  match s with
  | EmptyString => EmptyString
  | String c s' =>
      match trimEnd s' with
      | EmptyString => if is_space c then EmptyString else String c EmptyString
      | r => String c r
      end
  end.

(** [value.trim()] *)
Definition trim (s : string) : string := trimEnd (trimStart s).

(** [value.replace(/\s+/g, ' ')]: [in_run] records that the previous
    character belonged to the whitespace run being replaced. *)
Fixpoint collapse_ws_from (in_run : bool) (s : string) : string :=
  match s with
  | EmptyString => EmptyString
  | String c s' =>
      if is_space c
      then if in_run then collapse_ws_from true s'
           else String " "%char (collapse_ws_from true s')
      else String c (collapse_ws_from false s')
  end.

Definition collapse_ws (s : string) : string := collapse_ws_from false s.

(** [parts.join(sep)] *)
Fixpoint join (sep : string) (l : list string) : string :=
  match l with
  | [] => EmptyString
  | [x] => x
  | x :: rest => x +:+ sep +:+ join sep rest
  end.

(** The double quote character, for the messages that quote a key. *)
Definition dquote : string := String "034"%char EmptyString.

(** [subject.replace(pat, rep)] with a global, literal, non-empty pattern:
    at each position the pattern is tried; on a match the replacement is
    emitted and the scan resumes after the match ([skip] counts the
    characters of the match still to be passed over). *)
Fixpoint replaceAll_from (pat rep : string) (skip : nat) (s : string) : string :=
  match s with
  | EmptyString => EmptyString
  | String c s' =>
      match skip with
      | S k => replaceAll_from pat rep k s'
      | O =>
          if str_nonempty pat && String.prefix pat s
          then rep +:+ replaceAll_from pat rep (String.length pat - 1) s'
          else String c (replaceAll_from pat rep 0 s')
      end
  end.

Definition replaceAll (pat rep s : string) : string := replaceAll_from pat rep 0 s.

(** ** Placeholder extraction

    Both the Validator and the Fixer carry the same private method:
    the loop of [exec] over the global regular expression
    [{([^}]+)}] (an opening brace, one or more characters other than a
    closing brace, a closing brace). *)

(** The characters up to the first closing brace, and what follows it. *)
Fixpoint span_to_close (s : string) : option (string * string) :=
  match s with
  | EmptyString => None
  | String c s' =>
      if is_close c then Some (EmptyString, s')
      else match span_to_close s' with
           | Some (name, rest) => Some (String c name, rest)
           | None => None
           end
  end.

(** A match is tried at every position from [lastIndex]; a successful
    match pushes its group and moves [lastIndex] past the closing brace
    ([skip] characters further), a failed one advances by one. *)
Fixpoint extract_from (skip : nat) (s : string) : list string :=
  match s with
  | EmptyString => []
  | String c s' =>
      match skip with
      | S k => extract_from k s'
      | O =>
          if is_open c then
            match span_to_close s' with
            | Some (String a name, _) =>
                String a name :: extract_from (S (String.length (String a name))) s'
            | _ => extract_from 0 s'
            end
          else extract_from 0 s'
      end
  end.

Definition extractPlaceholders (value : string) : list string := extract_from 0 value.

(** [value.replace(/[^{}]+/g, 'TODO')]: every maximal run of characters
    other than braces becomes the marker. *)
Fixpoint todo_runs_from (in_run : bool) (s : string) : string :=
  match s with
  | EmptyString => EmptyString
  | String c s' =>
      if is_brace c then String c (todo_runs_from false s')
      else if in_run then todo_runs_from true s'
           else "TODO" +:+ todo_runs_from true s'
  end.

Definition replace_nonbrace_runs (s : string) : string := todo_runs_from false s.

(** ** JavaScript objects as ordered records

    A record lists the own properties of an object in the order the object
    enumerates them, and [obj_get] reads an own property.  The code reads
    and lists its objects in this way for the keys that are neither array
    indices nor names of members of [Object.prototype]; these keys are
    named in the vocabulary of the statements. *)

Section JsObject.
Context {V : Type}.

Definition obj_keys (o : list (string * V)) : list string := map fst o.

(** [o[k]], [None] standing for [undefined]. *)
Fixpoint obj_get (k : string) (o : list (string * V)) : option V :=
  match o with
  | [] => None
  | (k', v) :: o' => if String.eqb k' k then Some v else obj_get k o'
  end.

(** [o[k] = v] *)
Fixpoint obj_set (k : string) (v : V) (o : list (string * V)) : list (string * V) :=
  match o with
  | [] => [(k, v)]
  | (k', v') :: o' =>
      if String.eqb k' k then (k', v) :: o' else (k', v') :: obj_set k v o'
  end.

(** [delete o[k]] *)
Fixpoint obj_delete (k : string) (o : list (string * V)) : list (string * V) :=
  match o with
  | [] => []
  | (k', v') :: o' =>
      if String.eqb k' k then obj_delete k o' else (k', v') :: obj_delete k o'
  end.

(** [k in o], also [new Set(Object.keys(o)).has(k)] *)
Definition obj_has (k : string) (o : list (string * V)) : bool :=
  match obj_get k o with Some _ => true | None => false end.
End JsObject.

(** [keys.includes(k)], [set.has(k)] *)
Definition mem_str (k : string) (l : list string) : bool :=
  existsb (String.eqb k) l.

(** [keys.sort()]: the default comparison, by code units. *)
Fixpoint insert_sorted (k : string) (l : list string) : list string :=
  match l with
  | [] => [k]
  | x :: l' => if String.leb k x then k :: l else x :: insert_sorted k l'
  end.

Definition sort_keys (l : list string) : list string :=
  fold_right insert_sorted [] l.

(** ** JavaScript values

    What [JSON.parse] and the YAML parser return, with [undefined] added
    for absent properties.  A number is carried by the text [String(n)]
    gives for it. *)
#[local] Set Warnings "-register-all".

Inductive JValue : Type :=
  | JUndef
  | JNull
  | JBool (b : bool)
  | JNum (repr : string)
  | JStr (s : string)
  | JArr (items : list JValue)
  | JObj (fields : list (string * JValue)).

(** Truthiness, as [if (v)] and [v || w] read it. *)
Definition truthy (v : JValue) : bool :=
  match v with
  | JUndef | JNull => false
  | JBool b => b
  | JNum r => negb (String.eqb r "0" || String.eqb r "NaN")
  | JStr s => str_nonempty s
  | JArr _ | JObj _ => true
  end.

(** Truthiness of an optional string ([undefined] and the empty string
    are falsy). *)
Definition truthy_str (o : option string) : bool :=
  match o with Some s => str_nonempty s | None => false end.

(** [String(v)] *)
Fixpoint js_String (v : JValue) : string :=
  match v with
  | JUndef => "undefined"
  | JNull => "null"
  | JBool true => "true"
  | JBool false => "false"
  | JNum r => r
  | JStr s => s
  | JArr items =>
      join ","
        (map (fun x => match x with
                       | JUndef | JNull => EmptyString
                       | _ => js_String x
                       end) items)
  | JObj _ => "[object Object]"
  end.

(** [v.name] on a value that is not [null] or [undefined]: a property of
    an object, [undefined] on anything else (no property used here is one
    that strings, numbers or arrays own). *)
Definition js_prop (v : JValue) (name : string) : JValue :=
  match v with
  | JObj fields => match obj_get name fields with Some x => x | None => JUndef end
  | _ => JUndef
  end.

(** ** The data model (types/index.ts) *)

Inductive LocaleFileFormat := arb | json | yaml | yml | csv | tsv.

Inductive PreferOrder := mirror_source | alphabetical.

Record LocalzConfig := {
  doAutoFix : bool;
  preferOrder : option PreferOrder
}.

Record LocaleEntry := {
  key : string;
  value : string;
  metadata : JValue;
  description : JValue;
  placeholders : JValue;
  context : JValue;
  tags : JValue
}.

Record LocaleFile := {
  locale : string;
  path : string;
  format : LocaleFileFormat;
  entries : list (string * LocaleEntry);
  raw : list (string * JValue);
  lastModified : option Z
}.

Inductive IssueType :=
  | missing | extra | duplicate | icuError | placeholderMismatch | formatting.

Inductive Severity := error | warning.

Record ValidationIssue := {
  i_type : IssueType;
  i_locale : string;
  i_key : string;
  i_message : string;
  i_severity : Severity;
  i_sourceValue : option string;
  i_targetValue : option string;
  i_suggestion : option string
}.

Inductive FixType :=
  | addMissing | removeExtra | removeDuplicate | fixPlaceholder | fixICU | fixFormatting.

Record Fix := {
  f_type : FixType;
  f_locale : string;
  f_key : string;
  f_oldValue : option string;
  f_newValue : option string;
  f_description : string
}.

Inductive PatchFormat := unified | git.

Record Patch := {
  p_path : string;
  p_diff : string;
  p_format : PatchFormat
}.

Definition IssueType_eqb (a b : IssueType) : bool :=
  match a, b with
  | missing, missing | extra, extra | duplicate, duplicate
  | icuError, icuError | placeholderMismatch, placeholderMismatch
  | formatting, formatting => true
  | _, _ => false
  end.

Definition FixType_eqb (a b : FixType) : bool :=
  match a, b with
  | addMissing, addMissing | removeExtra, removeExtra
  | removeDuplicate, removeDuplicate | fixPlaceholder, fixPlaceholder
  | fixICU, fixICU | fixFormatting, fixFormatting => true
  | _, _ => false
  end.

Record Stats := {
  totalKeys : nat;
  missingKeys : nat;
  extraKeys : nat;
  duplicates : nat;
  icuErrors : nat;
  placeholderMismatches : nat;
  formattingWarnings : nat
}.

Record LocaleReport := {
  r_locale : string;
  r_format : LocaleFileFormat;
  r_issues : list ValidationIssue;
  r_stats : Stats
}.

(** ** What the engine takes from its runtime and its libraries

    [parseICU] is the parser of @messageformat/parser: the syntax tree, or
    the text of the error it throws as a template literal renders it.
    [JSON_stringify v] is [JSON.stringify(v)] and [JSON_stringify_2 v] is
    [JSON.stringify(v, null, 2)].  [createTwoFilesPatch] is the function of
    the diff package, at a context of three lines.
    [regexp_replace_braced old new s] is
    [s.replace(new RegExp('\\{' + old + '\\}', 'g'), '{' + new + '}')],
    [None] when the constructor rejects the pattern; what it does is known
    when [old] holds no syntax character of the pattern language and [new]
    no dollar sign: a global literal replacement. *)

Definition is_regex_syntax (c : ascii) : bool :=
  existsb (Ascii.eqb c)
    (list_ascii_of_string "^$\.*+?()[]{}|").

Fixpoint all_chars (p : ascii -> bool) (s : string) : bool :=
  match s with
  | EmptyString => true
  | String c s' => p c && all_chars p s'
  end.

Definition regex_plain (s : string) : bool :=
  all_chars (fun c => negb (is_regex_syntax c)) s.

Definition dollar_free (s : string) : bool :=
  all_chars (fun c => negb (Ascii.eqb c "$"%char)) s.

Definition braced (name : string) : string := "{" +:+ name +:+ "}".

Class Host := {
  parseICU : string -> string + JValue;
  JSON_stringify : JValue -> string;
  JSON_stringify_2 : JValue -> string;
  createTwoFilesPatch :
    string -> string -> string -> string -> string -> string -> string;
  regexp_replace_braced : string -> string -> string -> option string;
  regexp_replace_braced_plain :
    forall old new s,
      regex_plain old = true -> dollar_free new = true ->
      regexp_replace_braced old new s
      = Some (replaceAll (braced old) (braced new) s)
}.

(** ** Validator *)

Definition quoted (k : string) : string := dquote +:+ k +:+ dquote.

(** [Object.keys(x)] for a truthy [x]. *)
Definition index_strings (n : nat) : list string :=
  map (fun i => NilEmpty.string_of_uint (Nat.to_uint i)) (seq 0 n).

Definition js_Object_keys (v : JValue) : list string :=
  match v with
  | JObj fields => obj_keys fields
  | JArr items => index_strings (List.length items)
  | JStr s => index_strings (String.length s)
  | _ => []
  end.

Fixpoint extractICUStructure (ast : JValue) : JValue :=
  match ast with
  | JArr items => JArr (map extractICUStructure items)
  | JObj _ =>
      let s0 := [("type", js_prop ast "type")] in
      let s1 := if truthy (js_prop ast "argument")
                then obj_set "argument" (js_prop ast "argument") s0 else s0 in
      let s2 := if truthy (js_prop ast "pluralType")
                then obj_set "pluralType" (js_prop ast "pluralType") s1 else s1 in
      let s3 := if truthy (js_prop ast "options")
                then obj_set "options"
                       (JArr (map JStr (sort_keys (js_Object_keys (js_prop ast "options"))))) s2
                else s2 in
      JObj s3
  | _ => JNull
  end.

Definition isICUMessage (v : string) : bool :=
  includes "{" v &&
  (includes ", plural," v || includes ", select," v || includes ", selectordinal," v).

Section Validator.
Context `{Host}.
Variable sourceFile : LocaleFile.

Definition compareICUStructure (ast1 ast2 : JValue) : bool :=
  String.eqb (JSON_stringify (extractICUStructure ast1))
             (JSON_stringify (extractICUStructure ast2)).

(** [entries[key]] for a key taken from [Object.keys(entries)] is the
    entry listed under that key. *)
Definition checkMissingKeys (targetFile : LocaleFile) : list ValidationIssue :=
  let targetKeys := obj_keys (entries targetFile) in
  flat_map (fun '(k, e) =>
    if negb (mem_str k targetKeys) then
      [ {| i_type := missing; i_locale := locale targetFile; i_key := k;
           i_message := "Key " +:+ quoted k +:+ " is missing";
           i_severity := error;
           i_sourceValue := Some (value e);
           i_targetValue := None; i_suggestion := None |} ]
    else []) (entries sourceFile).

Definition checkExtraKeys (targetFile : LocaleFile) : list ValidationIssue :=
  let sourceKeys := obj_keys (entries sourceFile) in
  flat_map (fun '(k, e) =>
    if negb (mem_str k sourceKeys) then
      [ {| i_type := extra; i_locale := locale targetFile; i_key := k;
           i_message := "Key " +:+ quoted k +:+ " not in source locale";
           i_severity := warning;
           i_sourceValue := None;
           i_targetValue := Some (value e); i_suggestion := None |} ]
    else []) (entries targetFile).

(** [seenValues]: a Map from trimmed value to the keys carrying it, in
    order of first occurrence. *)
Fixpoint seen_push (v k : string) (m : list (string * list string))
  : list (string * list string) :=
  match m with
  | [] => [(v, [k])]
  | (v', ks) :: m' =>
      if String.eqb v' v then (v', ks ++ [k]) :: m'
      else (v', ks) :: seen_push v k m'
  end.

Definition seenValues (targetFile : LocaleFile) : list (string * list string) :=
  fold_left (fun m '(k, e) => seen_push (trim (value e)) k m) (entries targetFile) [].

Definition checkDuplicates (targetFile : LocaleFile) : list ValidationIssue :=
  flat_map (fun '(v, keys) =>
    match keys with
    | k0 :: rest =>
        map (fun k =>
          {| i_type := duplicate; i_locale := locale targetFile; i_key := k;
             i_message := "Duplicate value with key " +:+ quoted k0;
             i_severity := warning;
             i_sourceValue := None;
             i_targetValue := Some v;
             i_suggestion :=
               Some ("Remove duplicate or differentiate from " +:+ quoted k0) |}) rest
    | [] => []
    end) (seenValues targetFile).

(** The test of [checkPlaceholders]: the lengths differ, or some source
    name is not in the set of target names. *)
Definition placeholders_differ (sp tp : list string) : bool :=
  negb (Nat.eqb (List.length sp) (List.length tp))
  || negb (forallb (fun p => mem_str p tp) sp).

Definition checkPlaceholders (targetFile : LocaleFile) : list ValidationIssue :=
  flat_map (fun '(k, se) =>
    match obj_get k (entries targetFile) with
    | None => []
    | Some te =>
        let sourcePlaceholders := extractPlaceholders (value se) in
        let targetPlaceholders := extractPlaceholders (value te) in
        if placeholders_differ sourcePlaceholders targetPlaceholders then
          [ {| i_type := placeholderMismatch; i_locale := locale targetFile; i_key := k;
               i_message := "Placeholder mismatch: expected ["
                            +:+ join ", " sourcePlaceholders +:+ "], found ["
                            +:+ join ", " targetPlaceholders +:+ "]";
               i_severity := error;
               i_sourceValue := Some (value se);
               i_targetValue := Some (value te); i_suggestion := None |} ]
        else []
    end) (entries sourceFile).

Definition checkICUMessages (targetFile : LocaleFile) : list ValidationIssue :=
  flat_map (fun '(k, se) =>
    match obj_get k (entries targetFile) with
    | None => []
    | Some te =>
        let sourceValue := value se in
        let targetValue := value te in
        if isICUMessage sourceValue then
          let invalid err :=
            [ {| i_type := icuError; i_locale := locale targetFile; i_key := k;
                 i_message := "Invalid ICU message: " +:+ err;
                 i_severity := error;
                 i_sourceValue := None;
                 i_targetValue := Some targetValue; i_suggestion := None |} ] in
          match parseICU sourceValue with
          | inl err => invalid err
          | inr sourceAST =>
              match parseICU targetValue with
              | inl err => invalid err
              | inr targetAST =>
                  if negb (compareICUStructure sourceAST targetAST) then
                    [ {| i_type := icuError; i_locale := locale targetFile; i_key := k;
                         i_message := "ICU structure mismatch with source";
                         i_severity := error;
                         i_sourceValue := Some sourceValue;
                         i_targetValue := Some targetValue; i_suggestion := None |} ]
                  else []
              end
          end
        else []
    end) (entries sourceFile).

Definition checkFormatting (targetFile : LocaleFile) : list ValidationIssue :=
  flat_map (fun '(k, e) =>
    let v := value e in
    (if negb (String.eqb v (trim v)) then
       [ {| i_type := formatting; i_locale := locale targetFile; i_key := k;
            i_message := "Value has leading or trailing whitespace";
            i_severity := warning;
            i_sourceValue := None;
            i_targetValue := Some v; i_suggestion := Some (trim v) |} ]
     else [])
    ++
    (if includes "  " v then
       [ {| i_type := formatting; i_locale := locale targetFile; i_key := k;
            i_message := "Value contains multiple consecutive spaces";
            i_severity := warning;
            i_sourceValue := None;
            i_targetValue := Some v; i_suggestion := Some (collapse_ws v) |} ]
     else [])) (entries targetFile).

Definition validateTarget (targetFile : LocaleFile) : list ValidationIssue :=
  checkMissingKeys targetFile
  ++ checkExtraKeys targetFile
  ++ checkDuplicates targetFile
  ++ checkPlaceholders targetFile
  ++ checkICUMessages targetFile
  ++ checkFormatting targetFile.

Definition count_issue (st : Stats) (issue : ValidationIssue) : Stats :=
  let '{| totalKeys := t; missingKeys := m; extraKeys := x; duplicates := d;
          icuErrors := i; placeholderMismatches := p; formattingWarnings := f |} := st in
  match i_type issue with
  | missing => Build_Stats t (S m) x d i p f
  | extra => Build_Stats t m (S x) d i p f
  | duplicate => Build_Stats t m x (S d) i p f
  | icuError => Build_Stats t m x d (S i) p f
  | placeholderMismatch => Build_Stats t m x d i (S p) f
  | formatting => Build_Stats t m x d i p (S f)
  end.

Definition calculateStats (issues : list ValidationIssue) : Stats :=
  fold_left count_issue issues
    (Build_Stats (List.length (obj_keys (entries sourceFile))) 0 0 0 0 0 0).

(** The reports, a Map keyed by locale. *)
Definition validate (targetFiles : list LocaleFile) : list (string * LocaleReport) :=
  fold_left (fun reports targetFile =>
    let issues := validateTarget targetFile in
    let stats := calculateStats issues in
    obj_set (locale targetFile)
      {| r_locale := locale targetFile; r_format := format targetFile;
         r_issues := issues; r_stats := stats |} reports)
    targetFiles [].
End Validator.

(** ** Fixer *)

(** The structured-message pattern of [generateICUFix],
    [({[^,]+,\s*(plural|select|selectordinal),)([^}]+)}], read left to
    right.  No choice point can be revisited with success: each starred or
    plussed class stops exactly where the next literal must stand. *)

Fixpoint span_to_comma (s : string) : option (string * string) :=
  match s with
  | EmptyString => None
  | String c s' =>
      if Ascii.eqb c ","%char then Some (EmptyString, s')
      else match span_to_comma s' with
           | Some (a, r) => Some (String c a, r)
           | None => None
           end
  end.

Fixpoint span_ws (s : string) : string * string :=
  match s with
  | EmptyString => (EmptyString, EmptyString)
  | String c s' =>
      if is_space c then let '(w, r) := span_ws s' in (String c w, r)
      else (EmptyString, s)
  end.

Definition strip_prefix (p s : string) : option string :=
  if String.prefix p s
  then Some (String.substring (String.length p) (String.length s - String.length p) s)
  else None.

Definition icu_keyword (s : string) : option (string * string) :=
  match strip_prefix "plural," s with
  | Some r => Some ("plural,", r)
  | None =>
      match strip_prefix "select," s with
      | Some r => Some ("select,", r)
      | None =>
          match strip_prefix "selectordinal," s with
          | Some r => Some ("selectordinal,", r)
          | None => None
          end
      end
  end.

(** The full match of the pattern at the start of [String c s'], after its
    first character. *)
Definition icu_match_here (c : ascii) (s' : string) : option string :=
  if is_open c then
    match span_to_comma s' with
    | Some (String a arg, r1) =>
        let '(ws, r2) := span_ws r1 in
        match icu_keyword r2 with
        | Some (kw, r3) =>
            match span_to_close r3 with
            | Some (String b opts, _) =>
                Some ("{" +:+ String a arg +:+ "," +:+ ws +:+ kw +:+ String b opts +:+ "}")
            | _ => None
            end
        | None => None
        end
    | _ => None
    end
  else None.

(** [[...value.matchAll(icuPattern)]], the full matches. *)
Fixpoint icu_matchAll_from (skip : nat) (s : string) : list string :=
  match s with
  | EmptyString => []
  | String c s' =>
      match skip with
      | S k => icu_matchAll_from k s'
      | O =>
          match icu_match_here c s' with
          | Some full => full :: icu_matchAll_from (String.length full - 1) s'
          | None => icu_matchAll_from 0 s'
          end
      end
  end.

Definition icu_matchAll (s : string) : list string := icu_matchAll_from 0 s.

(** [fullMatch.replace(/[^{}=\s]+(?=[^{}]*[{}])/g, 'TODO')]: a maximal run
    of characters other than braces, the equals sign and whitespace is
    replaced when a brace stands somewhere after it. *)
Definition is_icu_sep (c : ascii) : bool :=
  is_brace c || Ascii.eqb c "="%char || is_space c.

Fixpoint has_brace (s : string) : bool :=
  match s with
  | EmptyString => false
  | String c s' => is_brace c || has_brace s'
  end.

Fixpoint icu_todo_from (in_run : bool) (s : string) : string :=
  match s with
  | EmptyString => EmptyString
  | String c s' =>
      if is_icu_sep c then String c (icu_todo_from false s')
      else if in_run then icu_todo_from true s'
           else if has_brace s' then "TODO" +:+ icu_todo_from true s'
                else String c (icu_todo_from false s')
  end.

Definition icu_structureOnly (fullMatch : string) : string := icu_todo_from false fullMatch.

(** [a || b] on optional strings. *)
Definition or_str (a b : option string) : option string :=
  if truthy_str a then a else b.

Definition set_value (e : LocaleEntry) (v : string) : LocaleEntry :=
  {| key := key e; value := v; metadata := metadata e;
     description := description e; placeholders := placeholders e;
     context := context e; tags := tags e |}.

Definition set_entries (f : LocaleFile) (es : list (string * LocaleEntry)) : LocaleFile :=
  {| locale := locale f; path := path f; format := format f;
     entries := es; raw := raw f; lastModified := lastModified f |}.

Section Fixer.
Context `{Host}.
Variable config : LocalzConfig.
Variable sourceFile : LocaleFile.

(** Reading [sourceEntry.value] throws when the source has no such key. *)
Definition generateMissingKeyFix (issue : ValidationIssue) : option Fix :=
  match obj_get (i_key issue) (entries sourceFile) with
  | None => None
  | Some sourceEntry =>
      let placeholders := extractPlaceholders (value sourceEntry) in
      let newValue :=
        if Nat.ltb 0 (List.length placeholders)
        then replace_nonbrace_runs (value sourceEntry)
        else "TODO" in
      Some {| f_type := addMissing; f_locale := i_locale issue; f_key := i_key issue;
              f_oldValue := None; f_newValue := Some newValue;
              f_description := "Add missing key " +:+ quoted (i_key issue)
                               +:+ " with placeholder structure from source" |}
  end.

Definition generateExtraKeyFix (issue : ValidationIssue) : Fix :=
  {| f_type := removeExtra; f_locale := i_locale issue; f_key := i_key issue;
     f_oldValue := i_targetValue issue; f_newValue := None;
     f_description := "Remove extra key " +:+ quoted (i_key issue)
                      +:+ " not present in source" |}.

Definition generateDuplicateFix (issue : ValidationIssue) (targetFile : LocaleFile) : Fix :=
  {| f_type := removeDuplicate; f_locale := i_locale issue; f_key := i_key issue;
     f_oldValue := option_map value (obj_get (i_key issue) (entries targetFile));
     f_newValue := None;
     f_description := "Remove duplicate key " +:+ quoted (i_key issue) |}.

(** The Map from target name to source name, filled index by index up
    to the shorter list. *)
Definition placeholderMap (sourcePlaceholders targetPlaceholders : list string)
  : list (string * string) :=
  fold_left (fun m '(sp, tp) =>
               if negb (String.eqb sp tp) then obj_set tp sp m else m)
            (combine sourcePlaceholders targetPlaceholders) [].

(** One global replacement per Map entry, in Map order. *)
Fixpoint apply_renames (m : list (string * string)) (fixedValue : string) : option string :=
  match m with
  | [] => Some fixedValue
  | (oldPh, newPh) :: m' =>
      match regexp_replace_braced oldPh newPh fixedValue with
      | Some v => apply_renames m' v
      | None => None
      end
  end.

Definition generatePlaceholderFix (issue : ValidationIssue) : option Fix :=
  match i_sourceValue issue, i_targetValue issue with
  | Some (String a sv), Some (String b tv) =>
      let sourceValue := String a sv in
      let targetValue := String b tv in
      let sourcePlaceholders := extractPlaceholders sourceValue in
      let targetPlaceholders := extractPlaceholders targetValue in
      match apply_renames (placeholderMap sourcePlaceholders targetPlaceholders) targetValue with
      | Some fixedValue =>
          Some {| f_type := fixPlaceholder; f_locale := i_locale issue; f_key := i_key issue;
                  f_oldValue := Some targetValue; f_newValue := Some fixedValue;
                  f_description := "Fix placeholder names to match source" |}
      | None => None
      end
  | _, _ =>
      Some {| f_type := fixPlaceholder; f_locale := i_locale issue; f_key := i_key issue;
              f_oldValue := None; f_newValue := None;
              f_description := "Cannot fix placeholder without source/target values" |}
  end.

Definition generateFormattingFix (issue : ValidationIssue) : Fix :=
  {| f_type := fixFormatting; f_locale := i_locale issue; f_key := i_key issue;
     f_oldValue := i_targetValue issue;
     f_newValue := or_str (i_suggestion issue)
                          (option_map (fun t => collapse_ws (trim t)) (i_targetValue issue));
     f_description := "Fix formatting issues in " +:+ quoted (i_key issue) |}.

Definition generateICUFix (issue : ValidationIssue) : Fix :=
  if truthy_str (i_sourceValue issue) then
    let sourceMatches := icu_matchAll (default EmptyString (i_sourceValue issue)) in
    let fixedValue :=
      fold_left (fun _ fullMatch => icu_structureOnly fullMatch) sourceMatches
                (default EmptyString (or_str (i_targetValue issue) (Some EmptyString))) in
    {| f_type := fixICU; f_locale := i_locale issue; f_key := i_key issue;
       f_oldValue := i_targetValue issue; f_newValue := Some fixedValue;
       f_description := "Fix ICU structure to match source" |}
  else
    {| f_type := fixICU; f_locale := i_locale issue; f_key := i_key issue;
       f_oldValue := None; f_newValue := None;
       f_description := "Cannot fix ICU without source value" |}.

(** Every issue type has its generator, so the result is never [null];
    [None] is an exception. *)
Definition generateFix (issue : ValidationIssue) (targetFile : LocaleFile) : option Fix :=
  match i_type issue with
  | missing => generateMissingKeyFix issue
  | extra => Some (generateExtraKeyFix issue)
  | duplicate => Some (generateDuplicateFix issue targetFile)
  | placeholderMismatch => generatePlaceholderFix issue
  | formatting => Some (generateFormattingFix issue)
  | icuError => Some (generateICUFix issue)
  end.

Definition applyFix (fx : Fix) (targetFile : LocaleFile) : option LocaleFile :=
  match f_type fx with
  | addMissing =>
      match obj_get (f_key fx) (entries sourceFile) with
      | None => None
      | Some sourceEntry =>
          Some (set_entries targetFile
                  (obj_set (f_key fx)
                     {| key := f_key fx;
                        value := default "TODO" (or_str (f_newValue fx) (Some "TODO"));
                        metadata := metadata sourceEntry;
                        description := description sourceEntry;
                        placeholders := placeholders sourceEntry;
                        context := JUndef; tags := JUndef |}
                     (entries targetFile)))
      end
  | removeExtra | removeDuplicate =>
      Some {| locale := locale targetFile; path := path targetFile;
              format := format targetFile;
              entries := obj_delete (f_key fx) (entries targetFile);
              raw := obj_delete ("@" +:+ f_key fx) (obj_delete (f_key fx) (raw targetFile));
              lastModified := lastModified targetFile |}
  | fixPlaceholder | fixFormatting | fixICU =>
      match f_newValue fx, obj_get (f_key fx) (entries targetFile) with
      | Some (String a nv), Some e =>
          Some (set_entries targetFile
                  (obj_set (f_key fx) (set_value e (String a nv)) (entries targetFile)))
      | _, _ => Some targetFile
      end
  end.

Definition reorderToMatchSource (targetFile : LocaleFile) : LocaleFile :=
  let sourceKeys := obj_keys (entries sourceFile) in
  let reordered :=
    fold_left (fun acc k =>
                 match obj_get k (entries targetFile) with
                 | Some e => obj_set k e acc
                 | None => acc
                 end) sourceKeys [] in
  let targetOnly :=
    List.filter (fun '(k, _) => negb (mem_str k sourceKeys)) (entries targetFile) in
  set_entries targetFile
    (fold_left (fun acc '(k, e) => obj_set k e acc) targetOnly reordered).

(** [entries[key]] is defined for every key of [Object.keys(entries)]. *)
Definition reorderAlphabetically (targetFile : LocaleFile) : LocaleFile :=
  let sortedKeys := sort_keys (obj_keys (entries targetFile)) in
  set_entries targetFile
    (fold_left (fun acc k =>
                  match obj_get k (entries targetFile) with
                  | Some e => obj_set k e acc
                  | None => acc
                  end) sortedKeys []).

(** The loop of [autoFix] over the issues, on the copy. *)
Fixpoint fix_loop (issues : list ValidationIssue) (fixedFile : LocaleFile)
         (appliedFixes : list Fix) : option (LocaleFile * list Fix) :=
  match issues with
  | [] => Some (fixedFile, appliedFixes)
  | issue :: rest =>
      match generateFix issue fixedFile with
      | None => None
      | Some fx =>
          if doAutoFix config then
            match applyFix fx fixedFile with
            | None => None
            | Some fixedFile' => fix_loop rest fixedFile' (appliedFixes ++ [fx])
            end
          else fix_loop rest fixedFile appliedFixes
      end
  end.

Definition reorder (fixedFile : LocaleFile) : LocaleFile :=
  match preferOrder config with
  | Some mirror_source => reorderToMatchSource fixedFile
  | Some alphabetical => reorderAlphabetically fixedFile
  | None => fixedFile
  end.

(** [lodash.cloneDeep] of a value is the value. *)
Definition autoFix (targetFile : LocaleFile) (issues : list ValidationIssue)
  : option (LocaleFile * list Fix) :=
  match fix_loop issues targetFile [] with
  | Some (fixedFile, appliedFixes) => Some (reorder fixedFile, appliedFixes)
  | None => None
  end.
End Fixer.

(** ** Format adapter, the key/value formats (universal-parser.ts) *)

Definition plain_entry (k v : string) : LocaleEntry :=
  {| key := k; value := v; metadata := JUndef; description := JUndef;
     placeholders := JUndef; context := JUndef; tags := JUndef |}.

(** [raw[k]] *)
Definition raw_get (k : string) (o : list (string * JValue)) : JValue :=
  match obj_get k o with Some v => v | None => JUndef end.

Definition parseJsonEntries (raw : list (string * JValue)) : list (string * LocaleEntry) :=
  fold_left (fun entries '(k, v) =>
    if startsWith "@" k then entries
    else
      let md := raw_get ("@" +:+ k) raw in
      let entry :=
        if truthy md then
          {| key := k; value := js_String v; metadata := md;
             description := js_prop md "description";
             placeholders := js_prop md "placeholders";
             context := JUndef; tags := JUndef |}
        else plain_entry k (js_String v) in
      obj_set k entry entries) raw [].

(** The own enumerable properties [Object.assign] copies from a truthy
    source. *)
Definition js_own_props (v : JValue) : list (string * JValue) :=
  match v with
  | JObj fields => fields
  | JArr items => combine (index_strings (List.length items)) items
  | JStr s =>
      combine (index_strings (String.length s))
              (map (fun c => JStr (String c EmptyString)) (list_ascii_of_string s))
  | _ => []
  end.

Definition Object_assign (target : list (string * JValue)) (source : JValue)
  : list (string * JValue) :=
  fold_left (fun t '(k, v) => obj_set k v t) (js_own_props source) target.

(** The metadata object written next to an entry. *)
Definition entry_metadata (entry : LocaleEntry) : list (string * JValue) :=
  let m0 := [] in
  let m1 := if truthy (description entry)
            then obj_set "description" (description entry) m0 else m0 in
  let m2 := if truthy (placeholders entry)
            then obj_set "placeholders" (placeholders entry) m1 else m1 in
  if truthy (metadata entry) then Object_assign m2 (metadata entry) else m2.

Definition has_metadata (entry : LocaleEntry) : bool :=
  truthy (metadata entry) || truthy (description entry) || truthy (placeholders entry).

Definition is_arb (f : LocaleFileFormat) : bool :=
  match f with arb => true | _ => false end.

Definition is_alphabetical (config : LocalzConfig) : bool :=
  match preferOrder config with Some alphabetical => true | _ => false end.

(** One round of the loop over the keys: the value, then the metadata
    block when [with_metadata] holds. *)
Definition emit_entry (with_metadata : bool) (entries : list (string * LocaleEntry))
           (output : list (string * JValue)) (k : string) : list (string * JValue) :=
  match obj_get k entries with
  | None => output
  | Some entry =>
      let output := obj_set k (JStr (value entry)) output in
      if with_metadata && has_metadata entry then
        let md := entry_metadata entry in
        if Nat.ltb 0 (List.length (obj_keys md))
        then obj_set ("@" +:+ k) (JObj md) output
        else output
      else output
  end.

(** The object [generateJsonContent] hands to [JSON.stringify]. *)
Definition generateJsonOutput (config : LocalzConfig) (localeFile : LocaleFile)
  : list (string * JValue) :=
  let output0 :=
    if is_arb (format localeFile) && truthy (raw_get "@@locale" (raw localeFile))
    then obj_set "@@locale" (raw_get "@@locale" (raw localeFile)) []
    else [] in
  let keys := obj_keys (entries localeFile) in
  let keys := if is_alphabetical config then sort_keys keys else keys in
  fold_left (emit_entry (is_arb (format localeFile)) (entries localeFile)) keys output0.

Definition newline : string := String "010"%char EmptyString.

Section Writer.
Context `{Host}.

Definition generateJsonContent (config : LocalzConfig) (localeFile : LocaleFile) : string :=
  JSON_stringify_2 (JObj (generateJsonOutput config localeFile)) +:+ newline.

(** ** Diff generator *)

Definition serializeARB_output (file : LocaleFile) : list (string * JValue) :=
  let output0 :=
    if truthy (raw_get "@@locale" (raw file))
    then obj_set "@@locale" (raw_get "@@locale" (raw file)) []
    else [] in
  fold_left (emit_entry true (entries file)) (sort_keys (obj_keys (entries file))) output0.

Definition serializeARB (file : LocaleFile) : string :=
  JSON_stringify_2 (JObj (serializeARB_output file)) +:+ newline.

Definition generatePatch (originalFile modifiedFile : LocaleFile) (fmt : PatchFormat) : Patch :=
  let originalContent := serializeARB originalFile in
  let modifiedContent := serializeARB modifiedFile in
  {| p_path := path modifiedFile;
     p_diff := createTwoFilesPatch (path originalFile) (path modifiedFile)
                 originalContent modifiedContent "original" "modified";
     p_format := fmt |}.

Definition hasChanges (originalFile modifiedFile : LocaleFile) : bool :=
  negb (String.eqb (serializeARB originalFile) (serializeARB modifiedFile)).

(** The loop over the entries of the Map of modified files; [patches]
    is the array being pushed to. *)
Fixpoint patches_loop (originalFiles : list (string * LocaleFile))
         (modifiedFiles : list (string * LocaleFile)) (patches : list Patch) : list Patch :=
  match modifiedFiles with
  | [] => patches
  | (loc, modifiedFile) :: rest =>
      match obj_get loc originalFiles with
      | None => patches_loop originalFiles rest patches
      | Some originalFile =>
          if hasChanges originalFile modifiedFile
          then patches_loop originalFiles rest
                 (patches ++ [generatePatch originalFile modifiedFile unified])
          else patches_loop originalFiles rest patches
      end
  end.

Definition generatePatches (originalFiles modifiedFiles : list (string * LocaleFile))
  : list Patch :=
  patches_loop originalFiles modifiedFiles [].
End Writer.

(** ** The Fixer on the object store

    [autoFix] clones its argument and mutates the clone in place.  Here
    the objects that the Fixer can write to are cells of a store: a locale
    file, its [entries] object (key to entry object), an entry object, a
    [raw] object.  The values held in the fields of an entry and of [raw]
    are never written to by the Fixer and stay values.  A location is an
    index in the store; allocation appends.  A computation returns the
    store it leaves behind together with its result, [None] when it threw
    (for a store whose cells are not of the expected kind, the exception
    stands for the type error). *)

Module Store.

Abbreviation loc := nat.

Inductive cell :=
  | CFile (c_locale c_path : string) (c_format : LocaleFileFormat)
          (c_entries c_raw : loc) (c_lastModified : option Z)
  | CEntries (m : list (string * loc))
  | CEntry (e : LocaleEntry)
  | CRaw (o : list (string * JValue)).

Abbreviation heap := (list cell).

Definition M (A : Type) : Type := heap -> heap * option A.

Definition ret {A} (a : A) : M A := fun h => (h, Some a).
Definition throw {A} : M A := fun h => (h, None).
Definition bind {A B} (m : M A) (k : A -> M B) : M B :=
  fun h => match m h with
           | (h', Some a) => k a h'
           | (h', None) => (h', None)
           end.

Definition alloc (c : cell) : M loc := fun h => (h ++ [c], Some (List.length h)).
Definition store (l : loc) (c : cell) : M unit := fun h => (<[l := c]> h, Some tt).
Definition lift {A} (f : heap -> option A) : M A := fun h => (h, f h).

End Store.

Import Store.

Notation "x <- m ;; k" := (bind m (fun x => k))
  (at level 100, m at next level, right associativity).

(** Reading cells of each kind. *)
Definition get_file (l : loc) (h : heap)
  : option (string * string * LocaleFileFormat * loc * loc * option Z) :=
  match h !! l with
  | Some (CFile lc p f es rw lm) => Some (lc, p, f, es, rw, lm)
  | _ => None
  end.

Definition get_entries (l : loc) (h : heap) : option (list (string * loc)) :=
  match h !! l with Some (CEntries m) => Some m | _ => None end.

Definition get_entry (l : loc) (h : heap) : option LocaleEntry :=
  match h !! l with Some (CEntry e) => Some e | _ => None end.

Definition get_raw (l : loc) (h : heap) : option (list (string * JValue)) :=
  match h !! l with Some (CRaw o) => Some o | _ => None end.

Fixpoint load_entries (m : list (string * loc)) (h : heap)
  : option (list (string * LocaleEntry)) :=
  match m with
  | [] => Some []
  | (k, l) :: m' =>
      match get_entry l h, load_entries m' h with
      | Some e, Some es => Some ((k, e) :: es)
      | _, _ => None
      end
  end.

(** The locale file an object denotes, read through the store. *)
Definition load_file (l : loc) (h : heap) : option LocaleFile :=
  match get_file l h with
  | Some (lc, p, f, es, rw, lm) =>
      match get_entries es h, get_raw rw h with
      | Some m, Some o =>
          match load_entries m h with
          | Some entries =>
              Some {| locale := lc; path := p; format := f; entries := entries;
                      raw := o; lastModified := lm |}
          | None => None
          end
      | _, _ => None
      end
  | None => None
  end.

(** [lodash.cloneDeep]: every object reachable from the file is copied
    once; an entry object met a second time yields the copy already
    made ([memo]). *)
Fixpoint clone_entries (m : list (string * loc)) (memo : list (loc * loc))
  : M (list (string * loc)) :=
  match m with
  | [] => ret []
  | (k, l) :: m' =>
      match List.find (fun p => Nat.eqb (fst p) l) memo with
      | Some (_, l') =>
          rest <- clone_entries m' memo ;;
          ret ((k, l') :: rest)
      | None =>
          e <- lift (get_entry l) ;;
          l' <- alloc (CEntry e) ;;
          rest <- clone_entries m' ((l, l') :: memo) ;;
          ret ((k, l') :: rest)
      end
  end.

Definition cloneDeep (t : loc) : M loc :=
  fc <- lift (get_file t) ;;
    let '(lc, p, f, es, rw, lm) := fc in
  m <- lift (get_entries es) ;;
  m' <- clone_entries m [] ;;
  es' <- alloc (CEntries m') ;;
  o <- lift (get_raw rw) ;;
  rw' <- alloc (CRaw o) ;;
  alloc (CFile lc p f es' rw' lm).

Section FixerStore.
Context `{Host}.
Variable config : LocalzConfig.
Variable source : loc.

Definition applyFix_store (fx : Fix) (target : loc) : M unit :=
  fc <- lift (get_file target) ;;
  let '(_, _, _, es, rw, _) := fc in
  m <- lift (get_entries es) ;;
  match f_type fx with
  | addMissing =>
      sourceFile <- lift (load_file source) ;;
      match obj_get (f_key fx) (entries sourceFile) with
      | None => throw
      | Some sourceEntry =>
          l <- alloc (CEntry
                 {| key := f_key fx;
                    value := default "TODO" (or_str (f_newValue fx) (Some "TODO"));
                    metadata := metadata sourceEntry;
                    description := description sourceEntry;
                    placeholders := placeholders sourceEntry;
                    context := JUndef; tags := JUndef |}) ;;
          store es (CEntries (obj_set (f_key fx) l m))
      end
  | removeExtra | removeDuplicate =>
      _ <- store es (CEntries (obj_delete (f_key fx) m)) ;;
      o <- lift (get_raw rw) ;;
      store rw (CRaw (obj_delete ("@" +:+ f_key fx) (obj_delete (f_key fx) o)))
  | fixPlaceholder | fixFormatting | fixICU =>
      match f_newValue fx, obj_get (f_key fx) m with
      | Some (String a nv), Some l =>
          e <- lift (get_entry l) ;;
          store l (CEntry (set_value e (String a nv)))
      | _, _ => ret tt
      end
  end.

Definition reorderToMatchSource_store (target : loc) : M unit :=
  sourceFile <- lift (load_file source) ;;
  fc <- lift (get_file target) ;;
  let '(lc, p, f, es, rw, lm) := fc in
  m <- lift (get_entries es) ;;
  let sourceKeys := obj_keys (entries sourceFile) in
  let reordered :=
    fold_left (fun acc k =>
                 match obj_get k m with
                 | Some l => obj_set k l acc
                 | None => acc
                 end) sourceKeys [] in
  let targetOnly := List.filter (fun '(k, _) => negb (mem_str k sourceKeys)) m in
  es' <- alloc (CEntries (fold_left (fun acc '(k, l) => obj_set k l acc) targetOnly reordered)) ;;
  store target (CFile lc p f es' rw lm).

Definition reorderAlphabetically_store (target : loc) : M unit :=
  fc <- lift (get_file target) ;;
  let '(lc, p, f, es, rw, lm) := fc in
  m <- lift (get_entries es) ;;
  let sortedKeys := sort_keys (obj_keys m) in
  es' <- alloc (CEntries
           (fold_left (fun acc k =>
                         match obj_get k m with
                         | Some l => obj_set k l acc
                         | None => acc
                         end) sortedKeys [])) ;;
  store target (CFile lc p f es' rw lm).

(** [generateFix] only reads: it is the function of the value model
    applied to what the store holds at that moment. *)
Fixpoint fix_loop_store (issues : list ValidationIssue) (fixedFile : loc)
         (appliedFixes : list Fix) : M (list Fix) :=
  match issues with
  | [] => ret appliedFixes
  | issue :: rest =>
      sourceFile <- lift (load_file source) ;;
      targetFile <- lift (load_file fixedFile) ;;
      match generateFix sourceFile issue targetFile with
      | None => throw
      | Some fx =>
          if doAutoFix config then
            _ <- applyFix_store fx fixedFile ;;
            fix_loop_store rest fixedFile (appliedFixes ++ [fx])
          else fix_loop_store rest fixedFile appliedFixes
      end
  end.

Definition autoFix_store (targetFile : loc) (issues : list ValidationIssue)
  : M (loc * list Fix) :=
  fixedFile <- cloneDeep targetFile ;;
  appliedFixes <- fix_loop_store issues fixedFile [] ;;
  _ <- match preferOrder config with
       | Some mirror_source => reorderToMatchSource_store fixedFile
       | Some alphabetical => reorderAlphabetically_store fixedFile
       | None => ret tt
       end ;;
  ret (fixedFile, appliedFixes).
End FixerStore.

(** ** Report generator (report-generator.ts) *)

(** [String(n)] and the rendering of a number in a template literal. *)
Definition nat_text (n : nat) : string := NilEmpty.string_of_uint (Nat.to_uint n).

(** The part of the configuration the report reads, besides the fields of
    [LocalzConfig] above. *)
Record ReportConfig := {
  rc_config : LocalzConfig;
  rc_domainGlossary : JValue;
  rc_translateMissing : bool
}.

Record Translation := {
  t_locale : string;
  t_key : string;
  t_sourceValue : string;
  t_translatedValue : string;
  t_placeholdersPreserved : bool;
  t_glossaryApplied : option (list string)
}.

Record IssueCounts := {
  n_missing : nat;
  n_extra : nat;
  n_duplicate : nat;
  n_icuError : nat;
  n_placeholderMismatch : nat;
  n_formatting : nat
}.

Record Summary := {
  s_sourceLocale : string;
  s_targetLocales : list string;
  s_filesScanned : nat;
  s_issues : IssueCounts;
  s_autoFixed : bool;
  s_translatedWithGemini : bool;
  s_notes : list string
}.

Definition add_stats (issues : IssueCounts) (report : LocaleReport) : IssueCounts :=
  {| n_missing := n_missing issues + missingKeys (r_stats report);
     n_extra := n_extra issues + extraKeys (r_stats report);
     n_duplicate := n_duplicate issues + duplicates (r_stats report);
     n_icuError := n_icuError issues + icuErrors (r_stats report);
     n_placeholderMismatch :=
       n_placeholderMismatch issues + placeholderMismatches (r_stats report);
     n_formatting := n_formatting issues + formattingWarnings (r_stats report) |}.

Definition generateSummary (config : ReportConfig) (sourceFile : LocaleFile)
           (targetFiles : list (string * LocaleFile))
           (localeReports : list (string * LocaleReport))
           (appliedFixes : list (string * list Fix))
           (translations : list Translation) : Summary :=
  let issues :=
    fold_left (fun issues '(_, report) => add_stats issues report) localeReports
              (Build_IssueCounts 0 0 0 0 0 0) in
  let notes0 := if truthy (rc_domainGlossary config) then ["Glossary applied"] else [] in
  let notes1 :=
    match preferOrder (rc_config config) with
    | Some mirror_source => notes0 ++ ["Mirror source order"]
    | Some alphabetical => notes0 ++ ["Alphabetical order"]
    | None => notes0
    end in
  let notes2 :=
    if Nat.ltb 0 (List.length appliedFixes) then
      let totalFixes :=
        fold_left (fun sum '(_, fixes) => sum + List.length fixes) appliedFixes 0 in
      notes1 ++ [nat_text totalFixes +:+ " fixes applied"]
    else notes1 in
  {| s_sourceLocale := locale sourceFile;
     s_targetLocales := obj_keys targetFiles;
     s_filesScanned := List.length targetFiles + 1;
     s_issues := issues;
     s_autoFixed := doAutoFix (rc_config config) && Nat.ltb 0 (List.length appliedFixes);
     s_translatedWithGemini :=
       rc_translateMissing config && Nat.ltb 0 (List.length translations);
     s_notes := notes2 |}.

Record PlaceholderMismatchLine := {
  pm_key : string;
  pm_source : string;
  pm_target : string
}.

Record IcuIssueLine := {
  icu_key : string;
  icu_message : string
}.

Record PerLocale := {
  pl_missingKeys : list string;
  pl_extraKeys : list string;
  pl_duplicates : list string;
  pl_placeholderMismatches : list PlaceholderMismatchLine;
  pl_icuIssues : list IcuIssueLine;
  pl_formattingWarnings : list string
}.

(** One round of the loop of [generateLocaleReport]. *)
Definition push_issue (result : PerLocale) (issue : ValidationIssue) : PerLocale :=
  let '{| pl_missingKeys := m; pl_extraKeys := x; pl_duplicates := d;
          pl_placeholderMismatches := p; pl_icuIssues := i;
          pl_formattingWarnings := f |} := result in
  match i_type issue with
  | missing => Build_PerLocale (m ++ [i_key issue]) x d p i f
  | extra => Build_PerLocale m (x ++ [i_key issue]) d p i f
  | duplicate => Build_PerLocale m x (d ++ [i_key issue]) p i f
  | placeholderMismatch =>
      Build_PerLocale m x d
        (p ++ [ {| pm_key := i_key issue;
                   pm_source := default EmptyString
                                  (or_str (i_sourceValue issue) (Some EmptyString));
                   pm_target := default EmptyString
                                  (or_str (i_targetValue issue) (Some EmptyString)) |} ])
        i f
  | icuError =>
      Build_PerLocale m x d p
        (i ++ [ {| icu_key := i_key issue; icu_message := i_message issue |} ]) f
  | formatting =>
      Build_PerLocale m x d p i (f ++ [i_key issue +:+ " " +:+ i_message issue])
  end.

Definition generateLocaleReport (report : LocaleReport) : PerLocale :=
  fold_left push_issue (r_issues report) (Build_PerLocale [] [] [] [] [] []).

(** ** The results on the terminal (cli.ts)

    [displayValidationResults], as the list of the lines it logs.  The
    styling functions of chalk and the three marks are parameters. *)

Section Display.
Variables (bold cyan green red yellow : string -> string).
Variables (check_mark cross_mark warn_mark : string).

(** [Object.values(stats)], in the order the literal of [calculateStats]
    lists its fields. *)
Definition stats_values (stats : Stats) : list nat :=
  [ totalKeys stats; missingKeys stats; extraKeys stats; duplicates stats;
    icuErrors stats; placeholderMismatches stats; formattingWarnings stats ].

Definition hasIssues (stats : Stats) : bool :=
  existsb (fun v => Nat.ltb 0 v && negb (Nat.eqb v (totalKeys stats))) (stats_values stats).

Definition counter_line (style : string -> string) (mark label : string) (n : nat)
  : list string :=
  if Nat.ltb 0 n then [style ("  " +:+ mark +:+ " " +:+ label +:+ ": " +:+ nat_text n)] else [].

Definition display_report (lc : string) (report : LocaleReport) : list string :=
  let stats := r_stats report in
  [newline +:+ cyan lc +:+ ":"]
  ++ (if negb (hasIssues stats) then [green ("  " +:+ check_mark +:+ " No issues found")]
      else
        counter_line red cross_mark "Missing keys" (missingKeys stats)
        ++ counter_line yellow warn_mark "Extra keys" (extraKeys stats)
        ++ counter_line yellow warn_mark "Duplicates" (duplicates stats)
        ++ counter_line red cross_mark "ICU errors" (icuErrors stats)
        ++ counter_line red cross_mark "Placeholder mismatches" (placeholderMismatches stats)
        ++ counter_line yellow warn_mark "Formatting warnings" (formattingWarnings stats)).

Definition displayValidationResults (reports : list (string * LocaleReport)) : list string :=
  [newline +:+ bold "Validation Results:"]
  ++ flat_map (fun '(lc, report) => display_report lc report) reports.
End Display.

(** ** The key list of the terminal interface (app.ts) *)

(** [getFilteredKeys], on the fields of the state it reads. *)
Definition getFilteredKeys (currentLocale : option string)
           (targetFiles : list (string * LocaleFile))
           (issues : list (string * list ValidationIssue))
           (filter : option IssueType) : list string :=
  match currentLocale with
  | Some (String a lc) =>
      let currentLocale := String a lc in
      match obj_get currentLocale targetFiles with
      | None => []
      | Some file =>
          let keys := obj_keys (entries file) in
          let keys :=
            match filter with
            | Some t =>
                let issues := default [] (obj_get currentLocale issues) in
                let filteredIssues :=
                  List.filter (fun issue => IssueType_eqb (i_type issue) t) issues in
                List.filter (fun key =>
                               existsb (fun issue => String.eqb (i_key issue) key)
                                       filteredIssues) keys
            | None => keys
            end in
          sort_keys keys
      end
  | _ => []
  end.

(** [getIssueCount] *)
Definition getIssueCount (currentLocale : option string)
           (issues : list (string * list ValidationIssue))
           (filter : option IssueType) : nat :=
  match currentLocale with
  | Some (String a lc) =>
      let issues := default [] (obj_get (String a lc) issues) in
      match filter with
      | Some t => List.length (List.filter (fun issue => IssueType_eqb (i_type issue) t) issues)
      | None => List.length issues
      end
  | _ => 0
  end.

(** ** The patch on the terminal (diff-generator.ts) *)

(** [text.split(sep)] for a separator of one character. *)
Fixpoint split_on (sep : ascii) (s : string) : list string :=
  match s with
  | EmptyString => [EmptyString]
  | String c s' =>
      if Ascii.eqb c sep then EmptyString :: split_on sep s'
      else match split_on sep s' with
           | x :: rest => String c x :: rest
           | [] => [String c EmptyString]
           end
  end.

(** The escape character that opens a colour sequence. *)
Definition esc : string := String "027"%char EmptyString.

Definition ansi (code line : string) : string :=
  esc +:+ "[" +:+ code +:+ "m" +:+ line +:+ esc +:+ "[0m".

(** One round of the loop of [formatPatchForDisplay]. *)
Definition format_line (line : string) : string :=
  if startsWith "+++" line || startsWith "---" line then ansi "36" line
  else if startsWith "@@" line then ansi "35" line
  else if startsWith "+" line then ansi "32" line
  else if startsWith "-" line then ansi "31" line
  else line.

Definition formatPatchForDisplay (patch : Patch) : string :=
  join newline (map format_line (split_on "010"%char (p_diff patch))).

(** ** Translator, the parts that call no service (translator.ts) *)

(** [keys.slice(b, e)] for [b <= e]. *)
Definition slice {A : Type} (b e : nat) (l : list A) : list A := firstn (e - b) (skipn b l).

(** The loop of [chunkKeys]; it runs as long as [i] is below the number of
    keys.  [fuel] bounds the number of rounds: [None] when it runs out. *)
Fixpoint chunk_loop (fuel : nat) (keys : list string) (chunkSize i : nat)
         (chunks : list (list string)) : option (list (list string)) :=
  if Nat.ltb i (List.length keys) then
    match fuel with
    | O => None
    | S fuel' =>
        chunk_loop fuel' keys chunkSize (i + chunkSize)
                   (chunks ++ [slice i (i + chunkSize) keys])
    end
  else Some chunks.

Definition chunkKeys (fuel : nat) (keys : list string) (chunkSize : nat)
  : option (list (list string)) :=
  chunk_loop fuel keys chunkSize 0 [].

(** [validateTranslation]: the flag and the issues. *)
Definition validateTranslation (sourceValue translatedValue : string) : bool * list string :=
  let sourcePlaceholders := extractPlaceholders sourceValue in
  let translatedPlaceholders := extractPlaceholders translatedValue in
  let placeholdersPreserved :=
    Nat.eqb (List.length sourcePlaceholders) (List.length translatedPlaceholders)
    && forallb (fun p => mem_str p translatedPlaceholders) sourcePlaceholders in
  let issues := [] in
  let missing :=
    List.filter (fun p => negb (mem_str p translatedPlaceholders)) sourcePlaceholders in
  let issues :=
    if Nat.ltb 0 (List.length missing)
    then issues ++ ["Missing placeholders: " +:+ join ", " missing] else issues in
  let extra :=
    List.filter (fun p => negb (mem_str p sourcePlaceholders)) translatedPlaceholders in
  let issues :=
    if Nat.ltb 0 (List.length extra)
    then issues ++ ["Extra placeholders: " +:+ join ", " extra] else issues in
  (placeholdersPreserved, issues).

(** ** The files of a run (cli.ts)

    [loadLocaleFiles] once the files are discovered and parsed:
    [allLocaleFiles] is the list of the parsed files.  [None] is the error
    thrown when no file has the source locale. *)
Definition loadLocaleFiles (sourceLocale : string) (targetLocales : list string)
           (allLocaleFiles : list LocaleFile)
  : option (LocaleFile * list (string * LocaleFile)) :=
  match List.find (fun f => String.eqb (locale f) sourceLocale) allLocaleFiles with
  | None => None
  | Some sourceFile =>
      let targetFiles :=
        fold_left (fun targetFiles file =>
                     if mem_str (locale file) targetLocales
                     then obj_set (locale file) file targetFiles
                     else targetFiles) allLocaleFiles [] in
      Some (sourceFile, targetFiles)
  end.

(** ** Format adapter, the YAML format (universal-parser.ts)

    [YAML.parse] and [YAML.stringify] are the library's; the functions
    below work on the value the first returns and build the value handed to
    the second. *)

(** [prefix ? prefix + '.' + key : key] *)
Definition full_key (prefix key : string) : string :=
  if str_nonempty prefix then prefix +:+ "." +:+ key else key.

Definition is_undefined (v : JValue) : bool :=
  match v with JUndef => true | _ => false end.

(** The entry [flatten] stores for an object that has a [value]. *)
Definition yaml_entry (fullKey : string) (valueObj : JValue) : LocaleEntry :=
  {| key := fullKey;
     value := js_String (js_prop valueObj "value");
     metadata := valueObj;
     description := js_prop valueObj "description";
     placeholders := JUndef;
     context := js_prop valueObj "context";
     tags := js_prop valueObj "tags" |}.

(** One round of the loop of [flatten], for the property [value] found
    under the full key [fullKey]; the inner loop is [flatten(value, fullKey)]. *)
Fixpoint flatten_value (fullKey : string) (value : JValue)
         (entries : list (string * LocaleEntry)) {struct value}
  : list (string * LocaleEntry) :=
  match value with
  | JObj fields =>
      if negb (is_undefined (js_prop value "value"))
      then obj_set fullKey (yaml_entry fullKey value) entries
      else
        (fix flatten_fields (l : list (string * JValue))
             (entries : list (string * LocaleEntry)) : list (string * LocaleEntry) :=
           match l with
           | [] => entries
           | (k, v) :: l' => flatten_fields l' (flatten_value (full_key fullKey k) v entries)
           end) fields entries
  | _ => obj_set fullKey (plain_entry fullKey (js_String value)) entries
  end.

(** [parseYamlEntries(raw)]: [flatten(raw)] with the empty prefix. *)
Definition parseYamlEntries (raw : JValue) : list (string * LocaleEntry) :=
  fold_left (fun entries '(k, v) => flatten_value (full_key EmptyString k) v entries)
            (js_own_props raw) [].

(** The object [generateYamlContent] builds: a node is an object the loop
    created on the way to a key, or a value it assigned. *)
Inductive YNode : Type :=
  | YLeaf (v : JValue)
  | YMap (fields : list (string * YNode)).

Fixpoint ynode_json (n : YNode) : JValue :=
  match n with
  | YLeaf v => v
  | YMap fields => JObj (map (fun p => (fst p, ynode_json (snd p))) fields)
  end.

(** What is assigned for an entry: the value, or an object with the value
    and the truthy ones of description, context and tags. *)
Definition yaml_leaf_fields (v : string) (d c t : JValue) : list (string * JValue) :=
  [("value", JStr v)]
  ++ (if truthy d then [("description", d)] else [])
  ++ (if truthy c then [("context", c)] else [])
  ++ (if truthy t then [("tags", t)] else []).

Definition yaml_leaf (entry : LocaleEntry) : JValue :=
  if truthy (description entry) || truthy (context entry) || truthy (tags entry)
     || truthy (metadata entry)
  then JObj (yaml_leaf_fields (value entry) (description entry) (context entry) (tags entry))
  else JStr (value entry).

(** The walk along the first parts of a key and the assignment at the last
    one.  A part that is absent, or holds a falsy value, gets a new object;
    a part that holds an object the loop created is entered.  A part that
    holds a truthy value assigned for another entry is where the model
    stops ([None]): the code then reads and writes properties of a string
    or of a value shared with the entries. *)
Fixpoint assign_path (parts : list string) (finalKey : string) (leaf : JValue)
         (current : list (string * YNode)) : option (list (string * YNode)) :=
  match parts with
  | [] => Some (obj_set finalKey (YLeaf leaf) current)
  | part :: rest =>
      match obj_get part current with
      | Some (YMap fields) =>
          option_map (fun fields' => obj_set part (YMap fields') current)
                     (assign_path rest finalKey leaf fields)
      | Some (YLeaf v) =>
          if truthy v then None
          else option_map (fun fields' => obj_set part (YMap fields') current)
                          (assign_path rest finalKey leaf [])
      | None =>
          option_map (fun fields' => obj_set part (YMap fields') current)
                     (assign_path rest finalKey leaf [])
      end
  end.

Definition yaml_step (output : option (list (string * YNode))) (p : string * LocaleEntry)
  : option (list (string * YNode)) :=
  let '(k, entry) := p in
  match output with
  | None => None
  | Some output =>
      let keyParts := split_on "."%char k in
      assign_path (removelast keyParts) (last keyParts EmptyString) (yaml_leaf entry) output
  end.

(** The value [generateYamlContent] hands to [YAML.stringify]. *)
Definition generateYamlOutput (localeFile : LocaleFile) : option JValue :=
  option_map (fun output => ynode_json (YMap output))
             (fold_left yaml_step (entries localeFile) (Some [])).

(** ** Format adapter, the CSV and TSV formats (universal-parser.ts)

    A record is what csv-parse returns for a line when the first line names
    the columns: an object from column name to the text of the cell. *)

Record CsvOptions := {
  csv_delimiter : option string;
  csv_keyColumn : option string;
  csv_valueColumns : option (list (string * string))
}.

(** [csvOptions?.keyColumn || 'key'] *)
Definition keyColumn_of (csvOptions : option CsvOptions) : string :=
  default "key"
    (or_str (match csvOptions with Some o => csv_keyColumn o | None => None end) (Some "key")).

(** [valueColumns[locale] || locale], where [valueColumns] is
    [csvOptions?.valueColumns || { [locale]: locale }]. *)
Definition valueColumn_of (csvOptions : option CsvOptions) (lc : string) : string :=
  let valueColumns :=
    match csvOptions with
    | Some {| csv_valueColumns := Some m |} => m
    | _ => [(lc, lc)]
    end in
  default lc (or_str (obj_get lc valueColumns) (Some lc)).

Definition csv_cell (record : list (string * string)) (column : string) : JValue :=
  match obj_get column record with Some s => JStr s | None => JUndef end.

(** The entry stored for a record that has a key and a value. *)
Definition csv_entry (k v : string) (record : list (string * string)) : LocaleEntry :=
  {| key := k;
     value := v;
     metadata := JObj (map (fun '(c, s) => (c, JStr s)) record);
     description := csv_cell record "description";
     placeholders := JUndef;
     context := csv_cell record "context";
     tags := if truthy_str (obj_get "tags" record)
             then JArr (map (fun t => JStr (trim t))
                            (split_on ","%char (default EmptyString (obj_get "tags" record))))
             else JUndef |}.

Definition parseCsvEntries (csvOptions : option CsvOptions)
           (records : list (list (string * string))) (lc : string)
  : list (string * LocaleEntry) :=
  let keyColumn := keyColumn_of csvOptions in
  let valueColumn := valueColumn_of csvOptions lc in
  fold_left (fun entries record =>
               match obj_get keyColumn record, obj_get valueColumn record with
               | Some (String a k), Some (String b v) =>
                   obj_set (String a k) (csv_entry (String a k) (String b v) record) entries
               | _, _ => entries
               end) records [].

(** [items.join(sep)]: the texts of the items, [null] and [undefined]
    giving the empty text. *)
Definition js_join (sep : string) (items : list JValue) : string :=
  join sep (map (fun x => match x with
                          | JUndef | JNull => EmptyString
                          | _ => js_String x
                          end) items).

(** [csvOptions?.valueColumns?.[locale] || locale] *)
Definition written_valueColumn (csvOptions : option CsvOptions) (lc : string) : string :=
  default lc
    (or_str (match csvOptions with
             | Some {| csv_valueColumns := Some m |} => obj_get lc m
             | _ => None
             end) (Some lc)).

(** The record [generateCsvContent] builds for an entry: the key and the
    value under their columns, then the truthy ones of description,
    context and tags.  [None] when the tags are truthy and no array:
    [tags.join] is then no function. *)
Definition csv_record (keyColumn valueColumn : string) (entry : LocaleEntry)
  : option (list (string * JValue)) :=
  let r0 := obj_set valueColumn (JStr (value entry))
              (obj_set keyColumn (JStr (key entry)) []) in
  let r1 := if truthy (description entry)
            then obj_set "description" (description entry) r0 else r0 in
  let r2 := if truthy (context entry)
            then obj_set "context" (context entry) r1 else r1 in
  if truthy (tags entry) then
    match tags entry with
    | JArr items => Some (obj_set "tags" (JStr (js_join ", " items)) r2)
    | _ => None
    end
  else Some r2.

(** [entries.map(...)]: the records, unless building one of them fails. *)
Fixpoint csv_records (keyColumn valueColumn : string) (es : list LocaleEntry)
  : option (list (list (string * JValue))) :=
  match es with
  | [] => Some []
  | entry :: es' =>
      match csv_record keyColumn valueColumn entry with
      | Some r => option_map (cons r) (csv_records keyColumn valueColumn es')
      | None => None
      end
  end.

(** The records [generateCsvContent] hands to the CSV writer. *)
Definition generateCsvRecords (csvOptions : option CsvOptions) (localeFile : LocaleFile)
  : option (list (list (string * JValue))) :=
  let keyColumn := keyColumn_of csvOptions in
  let valueColumn := written_valueColumn csvOptions (locale localeFile) in
  csv_records keyColumn valueColumn (map snd (entries localeFile)).

(** ** The locale of a file (universal-parser.ts, arb-parser.ts)

    [extractLocale] on the two names it computes with the path library: the
    base name of the file without its extension, and the base name of its
    directory. *)

Definition is_lower (c : ascii) : bool :=
  let n := nat_of_ascii c in Nat.leb 97 n && Nat.leb n 122.

Definition is_upper (c : ascii) : bool :=
  let n := nat_of_ascii c in Nat.leb 65 n && Nat.leb n 90.

(** What the dot of a pattern matches: any character but a line terminator. *)
Definition is_dot_char (c : ascii) : bool :=
  let n := nat_of_ascii c in negb (Nat.eqb n 10 || Nat.eqb n 13).

Definition is_dash_or_underscore (c : ascii) : bool :=
  Ascii.eqb c "-"%char || Ascii.eqb c "_"%char.

Definition is_slash (c : ascii) : bool :=
  Ascii.eqb c "\"%char || Ascii.eqb c "/"%char.

(** [^(.+)_([a-z]{2}(?:_[A-Z]{2})?)$], the second group.  The name is read
    from its end: the greedy first group leaves the shortest tail that fits,
    and a tail of one shape excludes the other. *)
Definition match_suffixed (name : string) : option string :=
  match rev (list_ascii_of_string name) with
  | l2 :: l1 :: u :: c :: pre =>
      if Ascii.eqb u "_"%char && is_lower l1 && is_lower l2 then
        if forallb is_dot_char (c :: pre)
        then Some (string_of_list_ascii [l1; l2]) else None
      else
        match l2 :: l1 :: u :: c :: pre with
        | r2 :: r1 :: u2 :: b2 :: b1 :: u1 :: d :: pre' =>
            if Ascii.eqb u1 "_"%char && is_lower b1 && is_lower b2
               && Ascii.eqb u2 "_"%char && is_upper r1 && is_upper r2
               && forallb is_dot_char (d :: pre')
            then Some (string_of_list_ascii [b1; b2; u2; r1; r2]) else None
        | _ => None
        end
  | _ => None
  end.

(** A prefix [[a-z]{2}(?:[-_][A-Z]{2})?] of the characters, longest
    alternative first, and what follows it. *)
Definition locale_prefixes (cs : list ascii) : list (list ascii * list ascii) :=
  match cs with
  | l1 :: l2 :: rest =>
      if is_lower l1 && is_lower l2 then
        match rest with
        | s :: r1 :: r2 :: rest' =>
            if is_dash_or_underscore s && is_upper r1 && is_upper r2
            then [([l1; l2; s; r1; r2], rest'); ([l1; l2], rest)]
            else [([l1; l2], rest)]
        | _ => [([l1; l2], rest)]
        end
      else []
  | _ => []
  end.

(** [^([a-z]{2}(?:[-_][A-Z]{2})?)$], the group. *)
Definition match_locale (name : string) : option string :=
  match List.filter (fun p => match snd p with [] => true | _ => false end)
                    (locale_prefixes (list_ascii_of_string name)) with
  | (loc, _) :: _ => Some (string_of_list_ascii loc)
  | [] => None
  end.

(** [^([a-z]{2}(?:[-_][A-Z]{2})?)[\\/](.+)$], the second group. *)
Definition match_foldered (name : string) : option string :=
  match List.filter (fun p => match snd p with
                              | s :: c :: rest => is_slash s && forallb is_dot_char (c :: rest)
                              | _ => false
                              end)
                    (locale_prefixes (list_ascii_of_string name)) with
  | (_, s :: rest) :: _ => Some (string_of_list_ascii rest)
  | _ => None
  end.

(** [text.replace('-', '_')]: the first dash only. *)
Fixpoint replace_first_dash (s : string) : string :=
  match s with
  | EmptyString => EmptyString
  | String c s' =>
      if Ascii.eqb c "-"%char then String "_"%char s' else String c (replace_first_dash s')
  end.

(** [extractLocale] of the format adapter. *)
Definition extractLocale_from (basename parentDir : string) : string :=
  match match_suffixed basename with
  | Some m => replace_first_dash m
  | None =>
      match match_locale basename with
      | Some m => replace_first_dash m
      | None =>
          match match_foldered basename with
          | Some m => replace_first_dash m
          | None =>
              match match_locale parentDir with
              | Some _ => replace_first_dash parentDir
              | None => "unknown"
              end
          end
      end
  end.

(** [extractLocale] of the ARB parser, on the base name without [.arb]. *)
Definition arb_extractLocale_from (basename : string) : string :=
  default "unknown"
    (or_str (Some (last (split_on "_"%char basename) EmptyString)) (Some "unknown")).

(** ** Vocabulary of the statements *)

(** *** The keys an ordered record stands for

    An ordered record stands for the object that owns its pairs and lists
    them in the order of the record.  A JavaScript object lists that way
    its keys other than array indices, which it lists first, by ascending
    number; reading [o[k]] for a key the object does not own gives the
    member of [Object.prototype] of that name, when there is one; and an
    assignment to [__proto__] adds no property.  The statements that
    depend on the order of the keys, or on reading a key that may be
    absent, are made for the keys below. *)

Definition is_digit (c : ascii) : bool :=
  Nat.leb 48 (nat_of_ascii c) && Nat.leb (nat_of_ascii c) 57.

(** The number a string of digits denotes. *)
Fixpoint digits_value (acc : N) (s : string) : N :=
  match s with
  | EmptyString => acc
  | String c s' => digits_value (N.add (N.mul acc 10) (N.of_nat (nat_of_ascii c - 48))) s'
  end.

(** An array index: the canonical numeral of an integer from 0 to
    2^32 - 2. *)
Definition is_array_index (k : string) : bool :=
  match k with
  | EmptyString => false
  | String c rest =>
      all_chars is_digit k
      && (negb (Ascii.eqb c "0"%char) || negb (str_nonempty rest))
      && N.leb (digits_value 0%N k) 4294967294%N
  end.

(** The names every object inherits from [Object.prototype]. *)
Definition object_prototype_names : list string :=
  [ "constructor"; "hasOwnProperty"; "isPrototypeOf"; "propertyIsEnumerable";
    "toLocaleString"; "toString"; "valueOf"; "__proto__";
    "__defineGetter__"; "__defineSetter__"; "__lookupGetter__"; "__lookupSetter__" ].

Definition inherited_name (k : string) : bool := mem_str k object_prototype_names.

(** A key the object lists where it was added. *)
Definition plain_key (k : string) : bool :=
  negb (is_array_index k) && negb (String.eqb k "__proto__").

(** A plain key that names no inherited member: [o[k]] is [undefined]
    unless [o] owns [k]. *)
Definition ordinary_key (k : string) : bool :=
  plain_key k && negb (inherited_name k).

(** The order in which an object lists distinct keys added in the order
    [l]: the array indices by ascending number, then the other keys as
    they were added. *)
Fixpoint insert_index (k : string) (l : list string) : list string :=
  match l with
  | [] => [k]
  | x :: l' =>
      if N.leb (digits_value 0%N k) (digits_value 0%N x) then k :: l
      else x :: insert_index k l'
  end.

Definition js_enumerate (l : list string) : list string :=
  fold_right insert_index [] (filter is_array_index l)
  ++ filter (fun k => negb (is_array_index k)) l.

(** [if (o[k])] for an object whose own values are objects: true for an
    own key and for the name of an inherited member. *)
Definition js_truthy_at {V : Type} (k : string) (o : list (string * V)) : bool :=
  obj_has k o || inherited_name k.

(** *** Issues, hosts and samples *)

(** The issues of one type raised for one key. *)
Definition issues_at (t : IssueType) (k : string) (issues : list ValidationIssue)
  : list ValidationIssue :=
  filter (fun i => IssueType_eqb (i_type i) t && String.eqb (i_key i) k) issues.

(** The position of each check in the pass of [validateTarget]. *)
Definition pass_rank (t : IssueType) : nat :=
  match t with
  | missing => 0
  | extra => 1
  | duplicate => 2
  | placeholderMismatch => 3
  | icuError => 4
  | formatting => 5
  end.

(** What the validator reads of a document: its keys, in their order, each
    with the value of its entry. *)
Definition key_values (f : LocaleFile) : list (string * string) :=
  map (fun '(k, e) => (k, value e)) (entries f).

(** Two entries under the same key with the same value. *)
Definition same_key_value (p q : string * LocaleEntry) : Prop :=
  fst p = fst q /\ value (snd p) = value (snd q).

(** Two documents with the same keys and values, the same locale and the
    same format: they may differ in the metadata of their entries, in
    their path, in the parsed content they keep and in their date. *)
Definition same_target (A B : LocaleFile) : Prop :=
  key_values A = key_values B /\ locale A = locale B /\ format A = format B.

(** A printer of values without escapes nor indentation, for the host
    below. *)
Fixpoint json_text (v : JValue) : string :=
  match v with
  | JUndef => "undefined"
  | JNull => "null"
  | JBool true => "true"
  | JBool false => "false"
  | JNum r => r
  | JStr s => dquote +:+ s +:+ dquote
  | JArr items =>
      "[" +:+ (fix items_text (l : list JValue) : string :=
                 match l with
                 | [] => EmptyString
                 | x :: l' => json_text x +:+ "," +:+ items_text l'
                 end) items +:+ "]"
  | JObj fields =>
      "{" +:+ (fix fields_text (l : list (string * JValue)) : string :=
                 match l with
                 | [] => EmptyString
                 | (k, x) :: l' =>
                     dquote +:+ k +:+ dquote +:+ ":" +:+ json_text x +:+ "," +:+ fields_text l'
                 end) fields +:+ "}"
  end.

(** A host whose pattern replacement is the literal one everywhere, to
    evaluate the statements at concrete inputs. *)
Definition literal_host : Host :=
  {| parseICU := fun _ => inl "SyntaxError";
     JSON_stringify := json_text;
     JSON_stringify_2 := json_text;
     createTwoFilesPatch := fun _ _ a b _ _ => a +:+ b;
     regexp_replace_braced := fun old new s => Some (replaceAll (braced old) (braced new) s);
     regexp_replace_braced_plain := fun _ _ _ _ _ => eq_refl |}.

Definition file_of (l : string) (f : LocaleFileFormat) (es : list (string * string)) : LocaleFile :=
  {| locale := l; path := l +:+ ".json"; format := f;
     entries := map (fun '(k, v) => (k, plain_entry k v)) es;
     raw := map (fun '(k, v) => (k, JStr v)) es; lastModified := None |}.

(** The issues of one type, in the order they were raised. *)
Definition issues_of_type (t : IssueType) (issues : list ValidationIssue)
  : list ValidationIssue :=
  filter (fun i => IssueType_eqb (i_type i) t) issues.

(** The template the specification describes for a missing key: every
    brace-delimited token of the source value is kept as it stands and
    every maximal run of other characters becomes the marker.  [skip]
    counts the characters of the token being copied. *)
Fixpoint spec_template_from (skip : nat) (in_run : bool) (s : string) : string :=
  match s with
  | EmptyString => EmptyString
  | String c s' =>
      let other := if in_run then spec_template_from 0 true s'
                   else "TODO" +:+ spec_template_from 0 true s' in
      match skip with
      | S k => String c (spec_template_from k false s')
      | O =>
          if is_open c then
            match span_to_close s' with
            | Some (String a name, _) =>
                String c (spec_template_from (S (String.length (String a name))) false s')
            | _ => other
            end
          else other
      end
  end.

Definition spec_template (s : string) : string :=
  match extractPlaceholders s with
  | [] => "TODO"
  | _ => spec_template_from 0 false s
  end.

Definition is_value_fix (t : FixType) : bool :=
  match t with
  | fixPlaceholder | fixFormatting | fixICU => true
  | _ => false
  end.

(** C10 as it is worded: a value fix changes nothing when it carries no
    [newValue] or its key has no entry, and otherwise sets the value of
    that entry to the [newValue] it carries. *)
Definition value_fix_as_worded (S : LocaleFile) (fx : Fix) (T : LocaleFile) : Prop :=
  is_value_fix (f_type fx) = true ->
  ((f_newValue fx = None \/ obj_get (f_key fx) (entries T) = None) ->
     applyFix S fx T = Some T)
  /\ (forall nv e, f_newValue fx = Some nv -> obj_get (f_key fx) (entries T) = Some e ->
        exists T', applyFix S fx T = Some T'
                   /\ obj_get (f_key fx) (entries T') = Some (set_value e nv)).

(** The locales that are in both Maps with serializations that differ,
    each with its two files, in the order of the Map of modified files. *)
Definition changed_locales `{Host} (originalFiles modifiedFiles : list (string * LocaleFile))
  : list (string * (LocaleFile * LocaleFile)) :=
  flat_map (fun '(loc, m) =>
              match obj_get loc originalFiles with
              | Some o => if String.eqb (serializeARB o) (serializeARB m) then []
                          else [(loc, (o, m))]
              | None => []
              end) modifiedFiles.

(** The kind of fix each issue type gives rise to. *)
Definition fix_type_of (t : IssueType) : FixType :=
  match t with
  | missing => addMissing
  | extra => removeExtra
  | duplicate => removeDuplicate
  | placeholderMismatch => fixPlaceholder
  | icuError => fixICU
  | formatting => fixFormatting
  end.

(** What one applied fix does to the list of keys of the document. *)
Definition key_step (ks : list string) (i : ValidationIssue) : list string :=
  match i_type i with
  | missing => if mem_str (i_key i) ks then ks else ks ++ [i_key i]
  | extra | duplicate => filter (fun k => negb (String.eqb k (i_key i))) ks
  | _ => ks
  end.

Definition is_removal (i : ValidationIssue) : bool :=
  match i_type i with extra | duplicate => true | _ => false end.

(** C6 as it is worded, for one source, target and configuration: the
    second round of fixes holds no addition, no removal of an extra key
    and no removal of a duplicate. *)
Definition fix_idempotent_as_worded `{Host} (config : LocalzConfig) (S T : LocaleFile) : Prop :=
  forall T1 fixes1 T2 fixes2,
    autoFix config S T (validateTarget S T) = Some (T1, fixes1) ->
    autoFix config S T1 (validateTarget S T1) = Some (T2, fixes2) ->
    forall fx, In fx fixes2 ->
      f_type fx <> addMissing /\ f_type fx <> removeExtra /\ f_type fx <> removeDuplicate.

(** A value seen as a template: text characters and placeholder tokens.
    [render] writes it out, [names] lists its placeholder names. *)
Inductive seg := Txt (c : ascii) | Ph (name : string).

Fixpoint render (segs : list seg) : string :=
  match segs with
  | [] => EmptyString
  | Txt c :: r => String c (render r)
  | Ph n :: r => String "{" (n +:+ String "}" (render r))
  end.

Fixpoint names (segs : list seg) : list string :=
  match segs with
  | [] => []
  | Txt _ :: r => names r
  | Ph n :: r => n :: names r
  end.

(** A placeholder name the pattern language reads literally. *)
Definition plain_name (n : string) : Prop := n <> EmptyString /\ regex_plain n = true.

Definition wf_seg (x : seg) : Prop :=
  match x with
  | Txt c => is_brace c = false
  | Ph n => plain_name n
  end.

(** The renaming by position of the specification: the i-th token takes
    the i-th source name; tokens past the source names are kept. *)
Fixpoint rename_positional (src : list string) (segs : list seg) : list seg :=
  match segs with
  | [] => []
  | Txt c :: r => Txt c :: rename_positional src r
  | Ph n :: r =>
      match src with
      | [] => Ph n :: rename_positional [] r
      | s :: src' => Ph s :: rename_positional src' r
      end
  end.

Definition rename_name (old new n : string) : string :=
  if String.eqb n old then new else n.

Definition rename_all (old new : string) (segs : list seg) : list seg :=
  map (fun x => match x with Txt c => Txt c | Ph n => Ph (rename_name old new n) end) segs.

Definition rename_by_map (m : list (string * string)) (segs : list seg) : list seg :=
  fold_left (fun segs '(old, new) => rename_all old new segs) m segs.

(** Renaming inside tokens, and the renaming one name undergoes when the
    entries of a Map are applied one after the other. *)
Definition map_seg (f : string -> string) (segs : list seg) : list seg :=
  map (fun x => match x with Txt c => Txt c | Ph n => Ph (f n) end) segs.

Definition seq_name (m : list (string * string)) (n : string) : string :=
  fold_left (fun n '(old, new) => rename_name old new n) m n.

(** The positional renaming, on the list of names. *)
Fixpoint pos_names (sp tp : list string) : list string :=
  match tp with
  | [] => []
  | t :: tp' =>
      match sp with
      | [] => t :: pos_names [] tp'
      | s :: sp' => s :: pos_names sp' tp'
      end
  end.

(** The Map built from index-aligned pairs when no target name repeats. *)
Definition map_of_pairs (pairs : list (string * string)) : list (string * string) :=
  flat_map (fun '(s, t) => if String.eqb s t then [] else [(t, s)]) pairs.

(** C5 as it is worded: the new value is the target with its i-th
    placeholder renamed to the i-th source name, nothing else touched. *)
Definition placeholder_fix_as_worded `{Host} (sv : string) (segs : list seg) : Prop :=
  forall issue,
    i_type issue = placeholderMismatch ->
    i_sourceValue issue = Some sv ->
    i_targetValue issue = Some (render segs) ->
    exists fx, generatePlaceholderFix issue = Some fx
      /\ f_newValue fx = Some (render (rename_positional (extractPlaceholders sv) segs)).


(** The cells below [n0] are in [h'] what they are in [h], and no cell
    is lost. *)
Definition frame (n0 : nat) (h h' : heap) : Prop :=
  length h <= length h' /\ forall l, l < n0 -> h' !! l = h !! l.

(** The file object [f] was allocated at or after [n0], and so were its
    entries object, its raw object and its entry objects. *)
Definition owned (n0 : nat) (f : loc) (h : heap) : Prop :=
  n0 <= f /\
  forall lc p fm es rw lm,
    get_file f h = Some (lc, p, fm, es, rw, lm) ->
    n0 <= es /\ n0 <= rw /\
    forall m, get_entries es h = Some m -> Forall (fun kl => n0 <= snd kl) m.

Definition extends (h h' : heap) : Prop :=
  forall l c, h !! l = Some c -> h' !! l = Some c.

(** The object at [f] is the document [T]: its cells hold what [T] holds,
    no entry object is shared between two keys, and no key repeats. *)
Definition denotes (f : loc) (T : LocaleFile) (h : heap) : Prop :=
  exists es rw m,
    h !! f = Some (CFile (locale T) (path T) (format T) es rw (lastModified T))
    /\ h !! es = Some (CEntries m)
    /\ h !! rw = Some (CRaw (raw T))
    /\ load_entries m h = Some (entries T)
    /\ NoDup (map snd m) /\ NoDup (obj_keys m).

Definition sub_obj (acc m : list (string * loc)) : Prop :=
  forall k l, In (k, l) acc -> In (k, l) m.

(** The reordering step of [autoFix], on the store. *)
Definition reorder_store `{Host} (config : LocalzConfig) (source f : loc) : M unit :=
  match preferOrder config with
  | Some mirror_source => reorderToMatchSource_store source f
  | Some alphabetical => reorderAlphabetically_store f
  | None => ret tt
  end.

(** A store with a source file (at 3) and a target file (at 8). *)
Definition wit_heap : heap :=
  [ CEntry (plain_entry "a" "Hi {user}");
    CEntries [("a", 0)];
    CRaw [("a", JStr "Hi {user}")];
    CFile "en" "en.json" json 1 2 None;
    CEntry (plain_entry "x" "old");
    CEntry (plain_entry "a" "Hola {usuario}");
    CEntries [("x", 4); ("a", 5)];
    CRaw [("x", JStr "old"); ("a", JStr "Hola {usuario}")];
    CFile "es" "es.json" json 6 7 None ].

(** *** Round trip of the arb and json formats *)

(** A key of a translation entry: one that [parseJsonEntries] does not skip. *)
Definition is_entry_key (k : string) : bool := negb (startsWith "@" k).

(** The entry keys of an object, in its own order. *)
Definition entry_keys {V : Type} (o : list (string * V)) : list string :=
  filter is_entry_key (obj_keys o).

(** The [LocaleFile] that [parseFile] builds for the arb and json formats from
    the object [raw] returned by [JSON.parse]. *)
Definition parsed_json (lc p : string) (fmt : LocaleFileFormat)
           (raw : list (string * JValue)) (lm : option Z) : LocaleFile :=
  {| locale := lc; path := p; format := fmt; entries := parseJsonEntries raw;
     raw := raw; lastModified := lm |}.

(** A JS object has one value per key. *)
Definition unique_keys (v : JValue) : Prop :=
  match v with
  | JObj fields => NoDup (obj_keys fields)
  | _ => True
  end.

(** Well-formed content of a key/value file: keys are unique, every
    translation is a string, nested objects have unique keys, and the locale
    marker, when present, is not a falsy value. *)
Definition wf_raw (raw : list (string * JValue)) : Prop :=
  NoDup (obj_keys raw)
  /\ (forall k v, In (k, v) raw -> is_entry_key k = true -> exists s, v = JStr s)
  /\ (forall k v, In (k, v) raw -> unique_keys v)
  /\ (obj_get "@@locale" raw = None \/ truthy (raw_get "@@locale" raw) = true).

(** The keys of the content, and those of its metadata blocks, are plain. *)
Definition plain_raw (raw : list (string * JValue)) : bool :=
  forallb (fun p => plain_key (fst p)
                    && match snd p with
                       | JObj fields => forallb plain_key (obj_keys fields)
                       | _ => true
                       end) raw.

(** The entry [parseJsonEntries] builds for the pair [(k, v)] of [raw]. *)
Definition entry_of_raw (raw : list (string * JValue)) (k : string) (v : JValue) : LocaleEntry :=
  let md := raw_get ("@" +:+ k) raw in
  if truthy md then
    {| key := k; value := js_String v; metadata := md;
       description := js_prop md "description";
       placeholders := js_prop md "placeholders";
       context := JUndef; tags := JUndef |}
  else plain_entry k (js_String v).

(** One iteration of the loop of [parseJsonEntries]. *)
Definition parse_step (raw0 : list (string * JValue))
           (entries : list (string * LocaleEntry)) (kv : string * JValue)
  : list (string * LocaleEntry) :=
  let '(k, v) := kv in
  if startsWith "@" k then entries else obj_set k (entry_of_raw raw0 k v) entries.

(** The metadata block [generateJsonContent] writes for an entry, if any. *)
Definition emitted_metadata (wm : bool) (e : LocaleEntry) : option JValue :=
  if wm && has_metadata e && Nat.ltb 0 (length (obj_keys (entry_metadata e)))
  then Some (JObj (entry_metadata e)) else None.

(** The fields of a metadata block that the parser copies to the entry. *)
Definition is_metadata_field (field : string) : Prop :=
  field = "description" \/ field = "placeholders".

(** The entry parsed next to a truthy metadata block [m]. *)
Definition entry_with (k s : string) (m : JValue) : LocaleEntry :=
  {| key := k; value := s; metadata := m;
     description := js_prop m "description";
     placeholders := js_prop m "placeholders";
     context := JUndef; tags := JUndef |}.

(** The written object carries the description and placeholders of every
    entry of [raw] and its locale marker. *)
Definition roundtrip_metadata (raw output : list (string * JValue)) : Prop :=
  (forall k field,
      In k (entry_keys raw) -> is_metadata_field field ->
      js_prop (raw_get ("@" +:+ k) output) field = js_prop (raw_get ("@" +:+ k) raw) field)
  /\ raw_get "@@locale" output = raw_get "@@locale" raw.

(** The written object has the translations of [raw] and no other entry. *)
Definition roundtrip_values (raw output : list (string * JValue)) : Prop :=
  forall k, is_entry_key k = true -> obj_get k output = obj_get k raw.

(** The round trip for one format: values, metadata fields and locale marker
    are those of the parsed content. *)
Definition roundtrip_as_worded (config : LocalzConfig) (fmt : LocaleFileFormat)
           (raw : list (string * JValue)) : Prop :=
  let output := generateJsonOutput config (parsed_json "en" "en.json" fmt raw None) in
  roundtrip_values raw output /\ roundtrip_metadata raw output.

(** A small ARB document with a locale marker and one metadata block. *)
Definition arb_sample : list (string * JValue) :=
  [ ("@@locale", JStr "en");
    ("hello", JStr "Hi {name}");
    ("@hello", JObj [("description", JStr "greeting");
                     ("placeholders", JObj [("name", JObj [("type", JStr "String")])])]);
    ("bye", JStr "Bye") ].


(** *** Vocabulary of the further properties *)

(** The report [validate] stores for one target file. *)
Definition report_of `{Host} (S T : LocaleFile) : LocaleReport :=
  {| r_locale := locale T; r_format := format T;
     r_issues := validateTarget S T;
     r_stats := calculateStats S (validateTarget S T) |}.

(** The keys of the entries of [l] whose trimmed value is [v], in order. *)
Definition keys_with_value (v : string) (l : list (string * LocaleEntry)) : list string :=
  map fst (filter (fun '(_, e) => String.eqb (trim (value e)) v) l).

(** The issue [checkDuplicates] raises for the key [k], whose trimmed value
    [v] was first seen at the key [k0]. *)
Definition duplicate_issue (T : LocaleFile) (v k0 k : string) : ValidationIssue :=
  {| i_type := duplicate; i_locale := locale T; i_key := k;
     i_message := "Duplicate value with key " +:+ quoted k0;
     i_severity := warning;
     i_sourceValue := None;
     i_targetValue := Some v;
     i_suggestion := Some ("Remove duplicate or differentiate from " +:+ quoted k0) |}.

(** One round of the first loop of [checkDuplicates]. *)
Definition seen_step (m : list (string * list string)) (p : string * LocaleEntry)
  : list (string * list string) :=
  let '(k, e) := p in seen_push (trim (value e)) k m.

(** The test of [checkICUMessages] for a key both files have: the source
    value looks like a structured message and either one of the two values
    fails to parse or the structures differ. *)
Definition icu_differs `{Host} (sourceValue targetValue : string) : bool :=
  isICUMessage sourceValue
  && match parseICU sourceValue, parseICU targetValue with
     | inr sourceAST, inr targetAST => negb (compareICUStructure sourceAST targetAST)
     | _, _ => true
     end.

(** A host whose parser answers on four sample messages as the message
    parser does, each token reduced to its type and to the name of its
    argument or to its text; every other text is a syntax error to it. *)
Definition sample_parseICU (s : string) : string + JValue :=
  if String.eqb s "{count, plural, one{# item} other{# items}}"
     || String.eqb s "{count, plural, one{# objet} other{# objets}}"
  then inr (JArr [JObj [("type", JStr "plural"); ("arg", JStr "count")]])
  else if String.eqb s "{sex, select, male{He} other{They}}"
  then inr (JArr [JObj [("type", JStr "select"); ("arg", JStr "sex")]])
  else if String.eqb s "Ils"
  then inr (JArr [JObj [("type", JStr "content"); ("value", JStr "Ils")]])
  else inl "ParseError".

Definition sample_icu_host : Host :=
  {| parseICU := sample_parseICU;
     JSON_stringify := json_text;
     JSON_stringify_2 := json_text;
     createTwoFilesPatch := fun _ _ a b _ _ => a +:+ b;
     regexp_replace_braced := fun old new s => Some (replaceAll (braced old) (braced new) s);
     regexp_replace_braced_plain := fun _ _ _ _ _ => eq_refl |}.

(** The characters a structure-only rewriting can hold: the separators it
    keeps and the letters of the marker. *)
Definition is_skeleton_char (c : ascii) : bool :=
  is_icu_sep c || existsb (Ascii.eqb c) (list_ascii_of_string "TODO").

(** The value begins with a whitespace character. *)
Definition starts_with_space (s : string) : bool :=
  match s with String c _ => is_space c | EmptyString => false end.

(** The value an entry holds once the fixes of its formatting issues have
    been applied in the order the issues are raised. *)
Definition formatted (v : string) : string :=
  if includes "  " v then collapse_ws v
  else if str_nonempty (trim v) then trim v else v.

(** An entry with the value [formatted] gives it. *)
Definition format_entry (p : string * LocaleEntry) : string * LocaleEntry :=
  let '(k, e) := p in (k, set_value e (formatted (value e))).

(** The issues [checkFormatting] raises for one entry. *)
Definition formatting_issues (lc : string) (p : string * LocaleEntry) : list ValidationIssue :=
  let '(k, e) := p in
  let v := value e in
  (if negb (String.eqb v (trim v)) then
     [ {| i_type := formatting; i_locale := lc; i_key := k;
          i_message := "Value has leading or trailing whitespace";
          i_severity := warning;
          i_sourceValue := None;
          i_targetValue := Some v; i_suggestion := Some (trim v) |} ]
   else [])
  ++
  (if includes "  " v then
     [ {| i_type := formatting; i_locale := lc; i_key := k;
          i_message := "Value contains multiple consecutive spaces";
          i_severity := warning;
          i_sourceValue := None;
          i_targetValue := Some v; i_suggestion := Some (collapse_ws v) |} ]
   else []).

(** The order of [sort()] on keys: code unit by code unit. *)
Definition str_le (a b : string) : Prop := String.leb a b = true.

(** The entries of the target listed in the order of the keys [ks]. *)
Definition pick_entries (ks : list string) (es : list (string * LocaleEntry))
  : list (string * LocaleEntry) :=
  flat_map (fun k => match obj_get k es with Some e => [(k, e)] | None => [] end) ks.

(** The line holds no line feed. *)
Definition no_newline (s : string) : bool :=
  all_chars (fun c => negb (Ascii.eqb c "010"%char)) s.

(** The key part holds no dot. *)
Definition dot_free (k : string) : bool :=
  all_chars (fun c => negb (Ascii.eqb c "."%char)) k.

(** A part of a nested key: not empty, no dot. *)
Definition key_part (k : string) : Prop := str_nonempty k = true /\ dot_free k = true.

(** An object that [flatten] reads as an entry with metadata. *)
Definition has_value (v : JValue) : bool := negb (is_undefined (js_prop v "value")).

(** The entries [flatten] stores for the property [value] found under
    [fullKey], in the order it stores them. *)
Fixpoint entries_of (fullKey : string) (value : JValue) {struct value}
  : list (string * LocaleEntry) :=
  match value with
  | JObj fields =>
      if has_value value then [(fullKey, yaml_entry fullKey value)]
      else
        (fix entries_of_fields (l : list (string * JValue)) : list (string * LocaleEntry) :=
           match l with
           | [] => []
           | (k, v) :: l' => entries_of (full_key fullKey k) v ++ entries_of_fields l'
           end) fields
  | _ => [(fullKey, plain_entry fullKey (js_String value))]
  end.

(** A well-formed node of a nested document of translations: a string, an
    object with a string [value] and the truthy ones of description,
    context and tags in that order, or a non-empty object with unique keys
    without dots whose members are well-formed. *)
Fixpoint wf_yaml_node (v : JValue) {struct v} : Prop :=
  match v with
  | JStr _ => True
  | JObj fields =>
      if has_value v then
        exists s, js_prop v "value" = JStr s
                  /\ fields = yaml_leaf_fields s (js_prop v "description")
                                               (js_prop v "context") (js_prop v "tags")
      else
        fields <> [] /\ NoDup (obj_keys fields)
        /\ (fix wf_fields (l : list (string * JValue)) : Prop :=
              match l with
              | [] => True
              | (k, x) :: l' => (key_part k /\ wf_yaml_node x) /\ wf_fields l'
              end) fields
  | _ => False
  end.

(** A well-formed document: an object with unique keys without dots whose
    members are well-formed nodes. *)
Definition wf_yaml (raw : list (string * JValue)) : Prop :=
  NoDup (obj_keys raw)
  /\ Forall (fun p => key_part (fst p) /\ wf_yaml_node (snd p)) raw.

(** Every key of the mappings of the document is ordinary. *)
Fixpoint ordinary_node (v : JValue) {struct v} : bool :=
  match v with
  | JObj fields =>
      has_value v
      || (fix ordinary_fields (l : list (string * JValue)) : bool :=
            match l with
            | [] => true
            | (k, x) :: l' => ordinary_key k && ordinary_node x && ordinary_fields l'
            end) fields
  | _ => true
  end.

Definition ordinary_yaml (raw : list (string * JValue)) : bool :=
  forallb (fun p => ordinary_key (fst p) && ordinary_node (snd p)) raw.

(** The file [parseFile] builds for a YAML document. *)
Definition parsed_yaml (lc p : string) (raw : list (string * JValue)) (lm : option Z)
  : LocaleFile :=
  {| locale := lc; path := p; format := yaml; entries := parseYamlEntries (JObj raw);
     raw := raw; lastModified := lm |}.

(** The node that stands for a well-formed value in the object being built. *)
Fixpoint ynode_of (v : JValue) {struct v} : YNode :=
  match v with
  | JObj fields =>
      if has_value v then YLeaf v
      else YMap (map (fun p => (fst p, ynode_of (snd p))) fields)
  | _ => YLeaf v
  end.

(** The walk of [assign_path] along the parts [P], with the assignment at
    its end replaced by [g]. *)
Fixpoint at_path (P : list string)
         (g : list (string * YNode) -> option (list (string * YNode)))
         (current : list (string * YNode)) : option (list (string * YNode)) :=
  match P with
  | [] => g current
  | part :: rest =>
      match obj_get part current with
      | Some (YMap fields) =>
          option_map (fun fields' => obj_set part (YMap fields') current) (at_path rest g fields)
      | Some (YLeaf v) =>
          if truthy v then None
          else option_map (fun fields' => obj_set part (YMap fields') current)
                          (at_path rest g [])
      | None =>
          option_map (fun fields' => obj_set part (YMap fields') current) (at_path rest g [])
      end
  end.

(** The effect, on the object that holds it, of writing the entries of the
    node [v] found under the key part [k]. *)
Fixpoint node_step (k : string) (v : JValue) (current : list (string * YNode)) {struct v}
  : option (list (string * YNode)) :=
  match v with
  | JObj fields =>
      if has_value v then Some (obj_set k (YLeaf v) current)
      else
        at_path [k]
          ((fix steps (l : list (string * JValue)) (c : list (string * YNode))
              : option (list (string * YNode)) :=
              match l with
              | [] => Some c
              | (k', v') :: l' =>
                  match node_step k' v' c with
                  | Some c' => steps l' c'
                  | None => None
                  end
              end) fields) current
  | _ => Some (obj_set k (YLeaf v) current)
  end.

(** The steps of the members of an object, one after the other. *)
Fixpoint node_steps (l : list (string * JValue)) (c : list (string * YNode))
  : option (list (string * YNode)) :=
  match l with
  | [] => Some c
  | (k', v') :: l' =>
      match node_step k' v' c with
      | Some c' => node_steps l' c'
      | None => None
      end
  end.

(** One step, then the other on its result. *)
Definition then_step (g1 g2 : list (string * YNode) -> option (list (string * YNode)))
           (c : list (string * YNode)) : option (list (string * YNode)) :=
  match g1 c with Some c' => g2 c' | None => None end.

(** A small nested document. *)
Definition yaml_sample : list (string * JValue) :=
  [ ("title", JStr "Hello");
    ("menu", JObj [ ("open", JStr "Open");
                    ("close", JObj [ ("value", JStr "Close");
                                     ("description", JStr "closes the window") ]) ]);
    ("bye", JStr "") ].

(** The record gives the key [k] a value. *)
Definition csv_row_for (keyColumn valueColumn k : string) (record : list (string * string))
  : bool :=
  match obj_get keyColumn record, obj_get valueColumn record with
  | Some k', Some v => String.eqb k' k && str_nonempty k' && str_nonempty v
  | _, _ => false
  end.

(** A record as an object: every cell a string. *)
Definition record_json (record : list (string * string)) : list (string * JValue) :=
  map (fun '(c, s) => (c, JStr s)) record.

(** The file [parseFile] builds for the records of a CSV or TSV file. *)
Definition parsed_csv (csvOptions : option CsvOptions) (lc p : string)
           (fmt : LocaleFileFormat) (records : list (list (string * string)))
           (lm : option Z) : LocaleFile :=
  {| locale := lc; path := p; format := fmt;
     entries := parseCsvEntries csvOptions records lc;
     raw := [("records", JArr (map (fun r => JObj (record_json r)) records));
             ("locale", JStr lc)];
     lastModified := lm |}.

(** A cell of a record, when the line has the column. *)
Definition csv_opt (column : string) (cell : option string) : list (string * string) :=
  match cell with Some s => [(column, s)] | None => [] end.

(** The cells of a line: the key and the value, then those of description,
    context and tags the file has a column for. *)
Definition csv_line (keyColumn valueColumn k v : string) (d c t : option string)
  : list (string * string) :=
  [(keyColumn, k); (valueColumn, v)]
  ++ csv_opt "description" d ++ csv_opt "context" c ++ csv_opt "tags" t.

(** The cells of a record that are not empty. *)
Definition filled_cells (record : list (string * string)) : list (string * string) :=
  filter (fun p => str_nonempty (snd p)) record.

(** Tags in the form they are written in: the items without blanks around
    them, separated by a comma and a space. *)
Definition normal_tags (t : string) : Prop :=
  join ", " (map trim (split_on ","%char t)) = t.

(** A well-formed record: a non-empty plain key, a non-empty value, and no
    column besides description, context and tags. *)
Definition wf_csv_record (keyColumn valueColumn : string) (record : list (string * string))
  : Prop :=
  exists k v d c t,
    record = csv_line keyColumn valueColumn k v d c t
    /\ str_nonempty k = true /\ str_nonempty v = true /\ plain_key k = true
    /\ normal_tags (default EmptyString t).

(** The key of a record. *)
Definition csv_key (keyColumn : string) (record : list (string * string)) : string :=
  default EmptyString (obj_get keyColumn record).

(** Well-formed content of a CSV or TSV file of one locale: the key and
    value columns are two plain names other than description, context and
    tags, the records are well-formed and their keys distinct. *)
Definition wf_csv (csvOptions : option CsvOptions) (lc : string)
           (records : list (list (string * string))) : Prop :=
  let keyColumn := keyColumn_of csvOptions in
  let valueColumn := valueColumn_of csvOptions lc in
  keyColumn <> valueColumn
  /\ ~ In keyColumn ["description"; "context"; "tags"]
  /\ ~ In valueColumn ["description"; "context"; "tags"]
  /\ plain_key keyColumn = true /\ plain_key valueColumn = true
  /\ inherited_name lc = false
  /\ Forall (wf_csv_record keyColumn valueColumn) records
  /\ NoDup (map (csv_key keyColumn) records).

(** Two records of a file with the columns key, en, description and tags. *)
Definition csv_sample : list (list (string * string)) :=
  [ csv_line "key" "en" "hello" "Hi" (Some "greeting") None (Some "home, start");
    csv_line "key" "en" "bye" "Bye" (Some "") None (Some "") ].

(** The name of a locale: two lower-case letters. *)
Definition language_code (l1 l2 : ascii) : string := String l1 (String l2 EmptyString).


(** * Properties *)

(** ** Strings and ordered records *)

(** Plain keys are listed in the order of the record, and an ordinary key
    is read as the record has it. *)
Lemma js_enumerate_plain (l : list string) :
  forallb plain_key l = true -> js_enumerate l = l.
Proof.
  intros Hl. unfold js_enumerate.
  assert (Hidx : forall k, In k l -> is_array_index k = false).
  { intros k Hk. rewrite forallb_forall in Hl. specialize (Hl k Hk).
    unfold plain_key in Hl. apply andb_prop in Hl as [Hi _].
    now destruct (is_array_index k). }
  clear Hl. induction l as [|k l IH]; [reflexivity|].
  cbn [filter]. rewrite (Hidx k (or_introl eq_refl)). cbn [negb].
  specialize (IH (fun k' Hk' => Hidx k' (or_intror Hk'))).
  destruct (fold_right insert_index [] (filter is_array_index l)) as [|x rest] eqn:Hf.
  - cbn [app] in *. now rewrite IH.
  - exfalso. destruct (filter is_array_index l) as [|y ys] eqn:Hy.
    + discriminate Hf.
    + assert (Hin : In y (filter is_array_index l)) by (rewrite Hy; now left).
      apply filter_In in Hin as [Hin Hiy]. rewrite (Hidx y (or_intror Hin)) in Hiy.
      discriminate.
Qed.

Lemma js_truthy_at_ordinary {V : Type} (k : string) (o : list (string * V)) :
  ordinary_key k = true -> js_truthy_at k o = obj_has k o.
Proof.
  unfold ordinary_key, js_truthy_at. intros Hk. apply andb_prop in Hk as [_ Hk].
  destruct (inherited_name k); [discriminate|]. now rewrite orb_false_r.
Qed.

Lemma mem_str_In (k : string) (l : list string) : mem_str k l = true <-> In k l.
Proof.
  unfold mem_str. rewrite existsb_exists. split.
  - intros (x & Hx & He). apply String.eqb_eq in He. now subst.
  - intros Hk. exists k. split; [assumption | apply String.eqb_refl].
Qed.

Lemma mem_str_not_In (k : string) (l : list string) : mem_str k l = false <-> ~ In k l.
Proof.
  rewrite <- mem_str_In. destruct (mem_str k l); split; congruence.
Qed.

Section ObjFacts.
Context {V : Type}.
Implicit Types (o : list (string * V)) (k : string).

Lemma obj_get_In_keys k o : (exists v, obj_get k o = Some v) <-> In k (obj_keys o).
Proof.
  induction o as [|[k' v'] o IH]; simpl.
  - split; [intros [v Hv]; discriminate | tauto].
  - destruct (String.eqb_spec k' k) as [->|Hne].
    + split; [tauto | eauto].
    + rewrite IH. split; [tauto | intros [Hk|Hk]; [congruence | assumption]].
Qed.

Lemma obj_get_None k o : obj_get k o = None <-> ~ In k (obj_keys o).
Proof.
  rewrite <- obj_get_In_keys. destruct (obj_get k o); split.
  - discriminate.
  - intros Hn. exfalso. apply Hn. eauto.
  - intros _ [v Hv]. discriminate.
  - reflexivity.
Qed.

Lemma obj_get_In k v o : obj_get k o = Some v -> In (k, v) o.
Proof.
  induction o as [|[k' v'] o IH]; simpl; [discriminate|].
  destruct (String.eqb_spec k' k) as [->|Hne].
  - intros [= ->]. now left.
  - intros Hg. right. auto.
Qed.

Lemma In_obj_get k v o : NoDup (obj_keys o) -> In (k, v) o -> obj_get k o = Some v.
Proof.
  induction o as [|[k' v'] o IH]; simpl; [tauto|].
  intros Hnd [Heq|Hin].
  - injection Heq as -> ->. now rewrite String.eqb_refl.
  - apply NoDup_cons_iff in Hnd as [Hni Hnd].
    destruct (String.eqb_spec k' k) as [->|Hne].
    + exfalso. apply Hni. change (In k (map fst o)). apply in_map_iff.
      now exists (k, v).
    + auto.
Qed.

Lemma obj_keys_set k v o :
  obj_keys (obj_set k v o) = if obj_has k o then obj_keys o else obj_keys o ++ [k].
Proof.
  unfold obj_has. induction o as [|[k' v'] o IH]; simpl; [reflexivity|].
  destruct (String.eqb_spec k' k) as [->|Hne]; simpl; [reflexivity|].
  rewrite IH. now destruct (obj_get k o).
Qed.

Lemma In_keys_set k k' v o :
  In k' (obj_keys (obj_set k v o)) <-> k' = k \/ In k' (obj_keys o).
Proof.
  rewrite obj_keys_set. unfold obj_has.
  destruct (obj_get k o) eqn:Hg.
  - split; [tauto|]. intros [->|Hin]; [|assumption].
    apply obj_get_In_keys. eauto.
  - rewrite in_app_iff. simpl. split; [intros [Hi|[<-|[]]]; tauto | intros [->|Hi]; tauto].
Qed.

Lemma obj_keys_delete k o :
  obj_keys (obj_delete k o) = List.filter (fun k' => negb (String.eqb k' k)) (obj_keys o).
Proof.
  induction o as [|[k' v'] o IH]; simpl; [reflexivity|].
  destruct (String.eqb k' k); simpl; now rewrite IH.
Qed.

Lemma In_keys_delete k k' o :
  In k' (obj_keys (obj_delete k o)) <-> k' <> k /\ In k' (obj_keys o).
Proof.
  rewrite obj_keys_delete, filter_In.
  destruct (String.eqb_spec k' k); simpl; split; intros; try tauto; intuition congruence.
Qed.

Lemma obj_get_set_eq k v o : obj_get k (obj_set k v o) = Some v.
Proof.
  induction o as [|[k' v'] o IH]; simpl.
  - now rewrite String.eqb_refl.
  - destruct (String.eqb_spec k' k) as [->|Hne]; simpl.
    + now rewrite String.eqb_refl.
    + destruct (String.eqb_spec k' k); [congruence | assumption].
Qed.

Lemma obj_get_set_ne k k' v o : k' <> k -> obj_get k' (obj_set k v o) = obj_get k' o.
Proof.
  intros Hne. induction o as [|[k1 v1] o IH]; simpl.
  - destruct (String.eqb_spec k k'); [congruence | reflexivity].
  - destruct (String.eqb_spec k1 k) as [->|Hne1]; simpl.
    + destruct (String.eqb_spec k k'); [congruence | reflexivity].
    + now rewrite IH.
Qed.

Lemma obj_get_delete_eq k o : obj_get k (obj_delete k o) = None.
Proof.
  induction o as [|[k' v'] o IH]; simpl; [reflexivity|].
  destruct (String.eqb_spec k' k) as [->|Hne]; simpl; [assumption|].
  destruct (String.eqb_spec k' k); [congruence | assumption].
Qed.

Lemma obj_get_delete_ne k k' o : k' <> k -> obj_get k' (obj_delete k o) = obj_get k' o.
Proof.
  intros Hne. induction o as [|[k1 v1] o IH]; simpl; [reflexivity|].
  destruct (String.eqb_spec k1 k) as [->|Hne1]; simpl.
  - destruct (String.eqb_spec k k'); [congruence | assumption].
  - now rewrite IH.
Qed.

Lemma NoDup_keys_set k v o : NoDup (obj_keys o) -> NoDup (obj_keys (obj_set k v o)).
Proof.
  intros Hnd. rewrite obj_keys_set. unfold obj_has.
  destruct (obj_get k o) eqn:Hg; [assumption|].
  apply obj_get_None in Hg.
  apply NoDup_app.
  - assumption.
  - constructor; [simpl; tauto | constructor].
  - intros x Hx [<-|[]]. tauto.
Qed.

Lemma NoDup_keys_delete k o : NoDup (obj_keys o) -> NoDup (obj_keys (obj_delete k o)).
Proof.
  intros Hnd. rewrite obj_keys_delete. now apply NoDup_filter.
Qed.
End ObjFacts.

(** ** Validator *)

Lemma IssueType_eqb_eq (a b : IssueType) : IssueType_eqb a b = true <-> a = b.
Proof. destruct a, b; simpl; split; intros; congruence. Qed.

Lemma issues_at_app t k (l1 l2 : list ValidationIssue) :
  issues_at t k (l1 ++ l2) = issues_at t k l1 ++ issues_at t k l2.
Proof. apply filter_app. Qed.

Lemma issues_at_other_type t t' k (l : list ValidationIssue) :
  t' <> t -> Forall (fun i => i_type i = t') l -> issues_at t k l = [].
Proof.
  intros Hne Hall. induction Hall as [|i l Hi _ IH]; simpl; [reflexivity|].
  rewrite IH. destruct (IssueType_eqb (i_type i) t) eqn:He; [|reflexivity].
  apply IssueType_eqb_eq in He. congruence.
Qed.

Section ValidatorFacts.
Context `{Host}.
Variables (S T : LocaleFile).

Lemma checkMissingKeys_In i :
  In i (checkMissingKeys S T) <->
  exists k e, In (k, e) (entries S) /\ ~ In k (obj_keys (entries T)) /\
    i = {| i_type := missing; i_locale := locale T; i_key := k;
           i_message := "Key " +:+ quoted k +:+ " is missing";
           i_severity := error; i_sourceValue := Some (value e);
           i_targetValue := None; i_suggestion := None |}.
Proof.
  unfold checkMissingKeys. rewrite in_flat_map. split.
  - intros ([k e] & Hin & Hi).
    destruct (mem_str k (obj_keys (entries T))) eqn:Hm; simpl in Hi; [contradiction|].
    destruct Hi as [<-|[]]. exists k, e. repeat split; try assumption.
    now apply mem_str_not_In.
  - intros (k & e & Hin & Hni & ->). exists (k, e). split; [assumption|].
    apply mem_str_not_In in Hni. rewrite Hni. simpl. now left.
Qed.

Lemma checkExtraKeys_In i :
  In i (checkExtraKeys S T) <->
  exists k e, In (k, e) (entries T) /\ ~ In k (obj_keys (entries S)) /\
    i = {| i_type := extra; i_locale := locale T; i_key := k;
           i_message := "Key " +:+ quoted k +:+ " not in source locale";
           i_severity := warning; i_sourceValue := None;
           i_targetValue := Some (value e); i_suggestion := None |}.
Proof.
  unfold checkExtraKeys. rewrite in_flat_map. split.
  - intros ([k e] & Hin & Hi).
    destruct (mem_str k (obj_keys (entries S))) eqn:Hm; simpl in Hi; [contradiction|].
    destruct Hi as [<-|[]]. exists k, e. repeat split; try assumption.
    now apply mem_str_not_In.
  - intros (k & e & Hin & Hni & ->). exists (k, e). split; [assumption|].
    apply mem_str_not_In in Hni. rewrite Hni. simpl. now left.
Qed.

Lemma checkMissingKeys_type : Forall (fun i => i_type i = missing) (checkMissingKeys S T).
Proof.
  apply Forall_forall. intros i Hi. apply checkMissingKeys_In in Hi.
  destruct Hi as (k & e & _ & _ & ->). reflexivity.
Qed.

Lemma checkExtraKeys_type : Forall (fun i => i_type i = extra) (checkExtraKeys S T).
Proof.
  apply Forall_forall. intros i Hi. apply checkExtraKeys_In in Hi.
  destruct Hi as (k & e & _ & _ & ->). reflexivity.
Qed.

Lemma checkDuplicates_type : Forall (fun i => i_type i = duplicate) (checkDuplicates T).
Proof.
  apply Forall_forall. intros i Hi. unfold checkDuplicates in Hi.
  apply in_flat_map in Hi. destruct Hi as ([v ks] & _ & Hi).
  destruct ks as [|k0 rest]; [contradiction|].
  apply in_map_iff in Hi. destruct Hi as (k & <- & _). reflexivity.
Qed.

Lemma checkPlaceholders_type :
  Forall (fun i => i_type i = placeholderMismatch) (checkPlaceholders S T).
Proof.
  apply Forall_forall. intros i Hi. unfold checkPlaceholders in Hi.
  apply in_flat_map in Hi. destruct Hi as ([k se] & _ & Hi).
  destruct (obj_get k (entries T)); [|contradiction].
  destruct (placeholders_differ _ _); [|contradiction].
  destruct Hi as [<-|[]]. reflexivity.
Qed.

Lemma checkICUMessages_type : Forall (fun i => i_type i = icuError) (checkICUMessages S T).
Proof.
  apply Forall_forall. intros i Hi. unfold checkICUMessages in Hi.
  apply in_flat_map in Hi. destruct Hi as ([k se] & _ & Hi).
  destruct (obj_get k (entries T)); [|contradiction].
  destruct (isICUMessage _); [|contradiction].
  destruct (parseICU (value se)); [destruct Hi as [<-|[]]; reflexivity|].
  destruct (parseICU (value l)); [destruct Hi as [<-|[]]; reflexivity|].
  destruct (negb _); [|contradiction].
  destruct Hi as [<-|[]]. reflexivity.
Qed.

Lemma checkFormatting_type : Forall (fun i => i_type i = formatting) (checkFormatting T).
Proof.
  apply Forall_forall. intros i Hi. unfold checkFormatting in Hi.
  apply in_flat_map in Hi. destruct Hi as ([k e] & _ & Hi).
  apply in_app_iff in Hi. destruct Hi as [Hi|Hi].
  - destruct (negb _); [|contradiction]. destruct Hi as [<-|[]]. reflexivity.
  - destruct (includes _ _); [|contradiction]. destruct Hi as [<-|[]]. reflexivity.
Qed.

(** Issues of a given type come from the check of that type only. *)
Lemma validateTarget_In_type i :
  In i (validateTarget S T) ->
  match i_type i with
  | missing => In i (checkMissingKeys S T)
  | extra => In i (checkExtraKeys S T)
  | duplicate => In i (checkDuplicates T)
  | placeholderMismatch => In i (checkPlaceholders S T)
  | icuError => In i (checkICUMessages S T)
  | formatting => In i (checkFormatting T)
  end.
Proof.
  unfold validateTarget. rewrite !in_app_iff.
  pose proof checkMissingKeys_type as H1. pose proof checkExtraKeys_type as H2.
  pose proof checkDuplicates_type as H3. pose proof checkPlaceholders_type as H4.
  pose proof checkICUMessages_type as H5. pose proof checkFormatting_type as H6.
  rewrite Forall_forall in H1, H2, H3, H4, H5, H6.
  intros [Hi|[Hi|[Hi|[Hi|[Hi|Hi]]]]];
    [ rewrite (H1 _ Hi) | rewrite (H2 _ Hi) | rewrite (H3 _ Hi)
    | rewrite (H4 _ Hi) | rewrite (H5 _ Hi) | rewrite (H6 _ Hi) ]; assumption.
Qed.

Lemma issues_at_validateTarget_missing k :
  issues_at missing k (validateTarget S T) = issues_at missing k (checkMissingKeys S T).
Proof.
  unfold validateTarget. rewrite !issues_at_app.
  rewrite (issues_at_other_type missing extra k (checkExtraKeys S T)),
    (issues_at_other_type missing duplicate k (checkDuplicates T)),
    (issues_at_other_type missing placeholderMismatch k (checkPlaceholders S T)),
    (issues_at_other_type missing icuError k (checkICUMessages S T)),
    (issues_at_other_type missing formatting k (checkFormatting T));
    auto using checkExtraKeys_type, checkDuplicates_type, checkPlaceholders_type,
      checkICUMessages_type, checkFormatting_type; try discriminate.
  simpl. now rewrite app_nil_r.
Qed.

Lemma issues_at_validateTarget_extra k :
  issues_at extra k (validateTarget S T) = issues_at extra k (checkExtraKeys S T).
Proof.
  unfold validateTarget. rewrite !issues_at_app.
  rewrite (issues_at_other_type extra missing k (checkMissingKeys S T)),
    (issues_at_other_type extra duplicate k (checkDuplicates T)),
    (issues_at_other_type extra placeholderMismatch k (checkPlaceholders S T)),
    (issues_at_other_type extra icuError k (checkICUMessages S T)),
    (issues_at_other_type extra formatting k (checkFormatting T));
    auto using checkMissingKeys_type, checkDuplicates_type, checkPlaceholders_type,
      checkICUMessages_type, checkFormatting_type; try discriminate.
  simpl. now rewrite app_nil_r.
Qed.
End ValidatorFacts.

Lemma mem_str_cons (k x : string) (l : list string) :
  mem_str k (x :: l) = String.eqb k x || mem_str k l.
Proof. reflexivity. Qed.

Lemma count_keyed_flat_map {A : Type} (t : IssueType) (keep : string -> A -> bool)
      (mk : string -> A -> ValidationIssue) (es : list (string * A)) (k : string) :
  (forall k' a, i_type (mk k' a) = t /\ i_key (mk k' a) = k') ->
  NoDup (map fst es) ->
  length (issues_at t k (flat_map (fun '(k', a) => if keep k' a then [mk k' a] else []) es))
  = match obj_get k es with
    | Some a => if keep k a then 1 else 0
    | None => 0
    end.
Proof.
  intros Hmk. induction es as [|[k' a] es IH]; intros Hnd; [reflexivity|].
  change (map fst ((k', a) :: es)) with (k' :: map fst es) in *.
  apply NoDup_cons_iff in Hnd as [Hni Hnd].
  change (flat_map (fun '(k', a) => if keep k' a then [mk k' a] else []) ((k', a) :: es))
    with ((if keep k' a then [mk k' a] else [])
          ++ flat_map (fun '(k', a) => if keep k' a then [mk k' a] else []) es).
  rewrite issues_at_app, length_app, (IH Hnd). cbn [obj_get].
  destruct (Hmk k' a) as [Ht Hk].
  destruct (String.eqb_spec k' k) as [->|Hne].
  - apply obj_get_None in Hni. rewrite Hni.
    destruct (keep k a); [|reflexivity].
    unfold issues_at. cbn [filter]. rewrite Ht, Hk, String.eqb_refl.
    destruct t; reflexivity.
  - replace (length (issues_at t k (if keep k' a then [mk k' a] else []))) with 0;
      [reflexivity|].
    destruct (keep k' a); [|reflexivity].
    unfold issues_at. cbn [filter]. rewrite Hk.
    destruct (String.eqb_spec k' k); [congruence|].
    now rewrite andb_false_r.
Qed.

Lemma mem_str_obj_get {A : Type} (k : string) (es : list (string * A)) :
  mem_str k (obj_keys es) = match obj_get k es with Some _ => true | None => false end.
Proof.
  destruct (obj_get k es) eqn:Hg.
  - apply mem_str_In, obj_get_In_keys. eauto.
  - apply mem_str_not_In, obj_get_None. assumption.
Qed.

(** C3.  Validation raises exactly one missing issue (an error carrying
    the source value) for each key of the source that the target lacks,
    exactly one extra issue (a warning) for each key of the target that
    the source lacks, and no other issue of these two types. *)
Theorem C3_missing_extra_exact `{Host} (S T : LocaleFile) :
  NoDup (obj_keys (entries S)) ->
  NoDup (obj_keys (entries T)) ->
  (forall k, length (issues_at missing k (validateTarget S T))
             = if mem_str k (obj_keys (entries S)) && negb (mem_str k (obj_keys (entries T)))
               then 1 else 0)
  /\ (forall k, length (issues_at extra k (validateTarget S T))
                = if mem_str k (obj_keys (entries T)) && negb (mem_str k (obj_keys (entries S)))
                  then 1 else 0)
  /\ (forall i, In i (validateTarget S T) -> i_type i = missing ->
        i_severity i = error
        /\ i_sourceValue i = option_map value (obj_get (i_key i) (entries S)))
  /\ (forall i, In i (validateTarget S T) -> i_type i = extra -> i_severity i = warning).
Proof.
  intros HS HT. split; [|split; [|split]].
  - intros k. rewrite issues_at_validateTarget_missing. unfold checkMissingKeys.
    rewrite mem_str_obj_get.
    replace (match obj_get k (entries S) with Some _ => true | None => false end
             && negb (mem_str k (obj_keys (entries T))))
      with (match obj_get k (entries S) with
            | Some _ => negb (mem_str k (obj_keys (entries T)))
            | None => false end) by (now destruct (obj_get k (entries S))).
    rewrite (count_keyed_flat_map missing
             (fun k' _ => negb (mem_str k' (obj_keys (entries T))))
             (fun k' e =>
                {| i_type := missing; i_locale := locale T; i_key := k';
                   i_message := "Key " +:+ quoted k' +:+ " is missing";
                   i_severity := error; i_sourceValue := Some (value e);
                   i_targetValue := None; i_suggestion := None |})).
    + destruct (obj_get k (entries S)); [|reflexivity].
      now destruct (negb (mem_str k (obj_keys (entries T)))).
    + intros; split; reflexivity.
    + exact HS.
  - intros k. rewrite issues_at_validateTarget_extra. unfold checkExtraKeys.
    rewrite mem_str_obj_get.
    replace (match obj_get k (entries T) with Some _ => true | None => false end
             && negb (mem_str k (obj_keys (entries S))))
      with (match obj_get k (entries T) with
            | Some _ => negb (mem_str k (obj_keys (entries S)))
            | None => false end) by (now destruct (obj_get k (entries T))).
    rewrite (count_keyed_flat_map extra
             (fun k' _ => negb (mem_str k' (obj_keys (entries S))))
             (fun k' e =>
                {| i_type := extra; i_locale := locale T; i_key := k';
                   i_message := "Key " +:+ quoted k' +:+ " not in source locale";
                   i_severity := warning; i_sourceValue := None;
                   i_targetValue := Some (value e); i_suggestion := None |})).
    + destruct (obj_get k (entries T)); [|reflexivity].
      now destruct (negb (mem_str k (obj_keys (entries S)))).
    + intros; split; reflexivity.
    + exact HT.
  - intros i Hi Ht. apply validateTarget_In_type in Hi. rewrite Ht in Hi.
    apply checkMissingKeys_In in Hi. destruct Hi as (k & e & Hin & _ & ->). simpl.
    split; [reflexivity|]. now rewrite (In_obj_get k e (entries S) HS Hin).
  - intros i Hi Ht. apply validateTarget_In_type in Hi. rewrite Ht in Hi.
    apply checkExtraKeys_In in Hi. destruct Hi as (k & e & _ & _ & ->). reflexivity.
Qed.

Lemma C3_witness :
  let S := file_of "en" json [("greeting", "Hello {name}"); ("bye", "Bye")] in
  let T := file_of "es" json [("bye", "Adios"); ("old", "Viejo")] in
  length (issues_at missing "greeting" (@validateTarget literal_host S T)) = 1
  /\ length (issues_at extra "old" (@validateTarget literal_host S T)) = 1
  /\ length (issues_at missing "bye" (@validateTarget literal_host S T)) = 0.
Proof.
  intros S T.
  assert (HS : NoDup (obj_keys (entries S))) by (repeat constructor; simpl; intuition discriminate).
  assert (HT : NoDup (obj_keys (entries T))) by (repeat constructor; simpl; intuition discriminate).
  destruct (@C3_missing_extra_exact literal_host S T HS HT) as (Hm & Hx & _).
  split; [exact (Hm "greeting") | split; [exact (Hx "old") | exact (Hm "bye")]].
Defined.

Lemma placeholders_differ_false `{Host} (sp tp : list string) :
  placeholders_differ sp tp = false <->
  length sp = length tp /\ (forall p, In p sp -> In p tp).
Proof.
  unfold placeholders_differ. rewrite orb_false_iff, !negb_false_iff.
  rewrite Nat.eqb_eq, forallb_forall.
  split; intros [Hl Hm]; (split; [assumption|]); intros p Hp.
  - apply mem_str_In. auto.
  - apply mem_str_In. auto.
Qed.

Lemma issues_at_validateTarget_placeholder `{Host} (S T : LocaleFile) k :
  issues_at placeholderMismatch k (validateTarget S T)
  = issues_at placeholderMismatch k (checkPlaceholders S T).
Proof.
  unfold validateTarget. rewrite !issues_at_app.
  rewrite (issues_at_other_type placeholderMismatch missing k (checkMissingKeys S T)),
    (issues_at_other_type placeholderMismatch extra k (checkExtraKeys S T)),
    (issues_at_other_type placeholderMismatch duplicate k (checkDuplicates T)),
    (issues_at_other_type placeholderMismatch icuError k (checkICUMessages S T)),
    (issues_at_other_type placeholderMismatch formatting k (checkFormatting T));
    auto using checkMissingKeys_type, checkExtraKeys_type, checkDuplicates_type,
      checkICUMessages_type, checkFormatting_type; try discriminate.
  simpl. now rewrite app_nil_r.
Qed.

Lemma checkPlaceholders_count `{Host} (S T : LocaleFile) k se te :
  NoDup (obj_keys (entries S)) ->
  obj_get k (entries S) = Some se ->
  obj_get k (entries T) = Some te ->
  length (issues_at placeholderMismatch k (checkPlaceholders S T))
  = if placeholders_differ (extractPlaceholders (value se)) (extractPlaceholders (value te))
    then 1 else 0.
Proof.
  intros HS Hs Ht. unfold checkPlaceholders.
  set (keep := fun (k' : string) (e : LocaleEntry) =>
         match obj_get k' (entries T) with
         | Some te' => placeholders_differ (extractPlaceholders (value e))
                                           (extractPlaceholders (value te'))
         | None => false
         end).
  set (mk := fun (k' : string) (e : LocaleEntry) =>
         let tv := match obj_get k' (entries T) with
                   | Some te' => value te' | None => EmptyString end in
         {| i_type := placeholderMismatch; i_locale := locale T; i_key := k';
            i_message := "Placeholder mismatch: expected ["
                         +:+ join ", " (extractPlaceholders (value e)) +:+ "], found ["
                         +:+ join ", " (extractPlaceholders tv) +:+ "]";
            i_severity := error; i_sourceValue := Some (value e);
            i_targetValue := Some tv; i_suggestion := None |}).
  erewrite flat_map_ext; [rewrite (count_keyed_flat_map placeholderMismatch keep mk)|].
  - rewrite Hs. unfold keep. now rewrite Ht.
  - intros; split; reflexivity.
  - exact HS.
  - intros [k' e]. unfold keep, mk. destruct (obj_get k' (entries T)); reflexivity.
Qed.

(** C4.  For a key present in both documents a placeholder-mismatch issue
    (an error) is raised, once, exactly when it is not the case that the
    two lists of extracted names have the same length and every source
    name is among the target names; a reordering of the names alone, or
    the absence of names on both sides, raises none. *)
Theorem C4_placeholder_mismatch_iff `{Host} (S T : LocaleFile) (k : string)
        (se te : LocaleEntry) :
  NoDup (obj_keys (entries S)) ->
  obj_get k (entries S) = Some se ->
  obj_get k (entries T) = Some te ->
  let sp := extractPlaceholders (value se) in
  let tp := extractPlaceholders (value te) in
  let raised := length (issues_at placeholderMismatch k (validateTarget S T)) in
  (~ (length sp = length tp /\ forall p, In p sp -> In p tp) -> raised = 1)
  /\ ((length sp = length tp /\ forall p, In p sp -> In p tp) -> raised = 0)
  /\ (Permutation sp tp -> raised = 0)
  /\ (sp = [] -> tp = [] -> raised = 0)
  /\ (forall i, In i (validateTarget S T) -> i_type i = placeholderMismatch ->
        i_severity i = error).
Proof.
  intros HS Hs Ht sp tp raised.
  assert (Hr : raised = if placeholders_differ sp tp then 1 else 0).
  { unfold raised. rewrite issues_at_validateTarget_placeholder.
    now apply checkPlaceholders_count. }
  assert (Hno : (length sp = length tp /\ forall p, In p sp -> In p tp) -> raised = 0).
  { intros Hc. apply placeholders_differ_false in Hc. now rewrite Hr, Hc. }
  split; [|split; [|split; [|split]]].
  - intros Hn. rewrite Hr. destruct (placeholders_differ sp tp) eqn:Hd; [reflexivity|].
    apply placeholders_differ_false in Hd. contradiction.
  - exact Hno.
  - intros Hp. apply Hno. split; [now apply Permutation_length|].
    intros p. now apply Permutation_in.
  - intros Hsp Htp. apply Hno. rewrite Hsp, Htp. split; [reflexivity | tauto].
  - clear. intros i Hi Hty. apply validateTarget_In_type in Hi. rewrite Hty in Hi.
    unfold checkPlaceholders in Hi. apply in_flat_map in Hi.
    destruct Hi as ([k' e'] & _ & Hi).
    destruct (obj_get k' (entries T)); [|contradiction].
    destruct (placeholders_differ _ _); [|contradiction].
    destruct Hi as [<-|[]]. reflexivity.
Qed.

Lemma C4_witness :
  let S := file_of "en" json [("a", "{x} and {y}"); ("b", "Hi {user}"); ("c", "plain")] in
  let T := file_of "es" json [("a", "{y} y {x}"); ("b", "Hola"); ("c", "llano")] in
  length (issues_at placeholderMismatch "a" (@validateTarget literal_host S T)) = 0
  /\ length (issues_at placeholderMismatch "b" (@validateTarget literal_host S T)) = 1
  /\ length (issues_at placeholderMismatch "c" (@validateTarget literal_host S T)) = 0.
Proof.
  intros S T.
  assert (HS : NoDup (obj_keys (entries S))) by (repeat constructor; simpl; intuition discriminate).
  split; [|split].
  - refine (proj1 (proj2 (proj2
      (@C4_placeholder_mismatch_iff literal_host S T "a"
         (plain_entry "a" "{x} and {y}") (plain_entry "a" "{y} y {x}")
         HS eq_refl eq_refl))) _).
    apply perm_swap.
  - refine (proj1
      (@C4_placeholder_mismatch_iff literal_host S T "b"
         (plain_entry "b" "Hi {user}") (plain_entry "b" "Hola")
         HS eq_refl eq_refl) _).
    intros [Hl _]. discriminate Hl.
  - refine (proj1 (proj2 (proj2 (proj2
      (@C4_placeholder_mismatch_iff literal_host S T "c"
         (plain_entry "c" "plain") (plain_entry "c" "llano")
         HS eq_refl eq_refl)))) eq_refl eq_refl).
Defined.

(** ** The order of the pass *)

Lemma sorted_rank_app (l1 l2 : list ValidationIssue) (n : nat) :
  StronglySorted le (map (fun i => pass_rank (i_type i)) l1) ->
  StronglySorted le (map (fun i => pass_rank (i_type i)) l2) ->
  Forall (fun i => pass_rank (i_type i) <= n) l1 ->
  Forall (fun i => n <= pass_rank (i_type i)) l2 ->
  StronglySorted le (map (fun i => pass_rank (i_type i)) (l1 ++ l2)).
Proof.
  intros H1 H2 Hle Hge. induction l1 as [|a l1 IH]; simpl; [assumption|].
  simpl in H1. apply StronglySorted_inv in H1 as [Hs Ha].
  apply Forall_cons_iff in Hle as [Hale Hle].
  constructor; [auto|].
  rewrite map_app. apply Forall_app. split; [assumption|].
  apply Forall_map. eapply Forall_impl; [|exact Hge]. simpl. intros; lia.
Qed.

Lemma sorted_rank_const (l : list ValidationIssue) (t : IssueType) :
  Forall (fun i => i_type i = t) l ->
  StronglySorted le (map (fun i => pass_rank (i_type i)) l).
Proof.
  intros Hall. induction Hall as [|a l Ha Hall IH]; simpl; constructor; [assumption|].
  apply Forall_map. eapply Forall_impl; [|exact Hall].
  simpl. intros b Hb. rewrite Ha, Hb. lia.
Qed.

Lemma Forall_type_rank (l : list ValidationIssue) (t : IssueType) (P : nat -> Prop) :
  P (pass_rank t) ->
  Forall (fun i => i_type i = t) l -> Forall (fun i => P (pass_rank (i_type i))) l.
Proof.
  intros HP Hall. eapply Forall_impl; [|exact Hall]. simpl. intros a ->. exact HP.
Qed.

Lemma issues_of_type_same (t : IssueType) (l : list ValidationIssue) :
  Forall (fun i => i_type i = t) l -> issues_of_type t l = l.
Proof.
  intros Hall. induction Hall as [|a l Ha _ IH]; [reflexivity|].
  unfold issues_of_type in *. cbn [filter]. rewrite IH, Ha.
  now replace (IssueType_eqb t t) with true by (now destruct t).
Qed.

Lemma issues_of_type_other (t t' : IssueType) (l : list ValidationIssue) :
  t' <> t -> Forall (fun i => i_type i = t') l -> issues_of_type t l = [].
Proof.
  intros Hne Hall. induction Hall as [|a l Ha _ IH]; [reflexivity|].
  unfold issues_of_type in *. cbn [filter]. rewrite IH.
  destruct (IssueType_eqb (i_type a) t) eqn:He; [|reflexivity].
  apply IssueType_eqb_eq in He. congruence.
Qed.

Lemma issues_of_type_validateTarget `{Host} (S T : LocaleFile) (t : IssueType) :
  issues_of_type t (validateTarget S T)
  = match t with
    | missing => checkMissingKeys S T
    | extra => checkExtraKeys S T
    | duplicate => checkDuplicates T
    | placeholderMismatch => checkPlaceholders S T
    | icuError => checkICUMessages S T
    | formatting => checkFormatting T
    end.
Proof.
  unfold validateTarget, issues_of_type. rewrite !filter_app.
  fold (issues_of_type t (checkMissingKeys S T)) (issues_of_type t (checkExtraKeys S T))
       (issues_of_type t (checkDuplicates T)) (issues_of_type t (checkPlaceholders S T))
       (issues_of_type t (checkICUMessages S T)) (issues_of_type t (checkFormatting T)).
  pose proof (checkMissingKeys_type S T) as H1. pose proof (checkExtraKeys_type S T) as H2.
  pose proof (checkDuplicates_type T) as H3. pose proof (checkPlaceholders_type S T) as H4.
  pose proof (checkICUMessages_type S T) as H5. pose proof (checkFormatting_type T) as H6.
  destruct t;
    repeat match goal with
      | Hx : Forall (fun i => i_type i = ?t') ?l |- context [issues_of_type ?t ?l] =>
          first [ rewrite (issues_of_type_same t l Hx)
                | rewrite (issues_of_type_other t t' l) by first [discriminate | exact Hx] ]
      end;
    simpl; now rewrite ?app_nil_r.
Qed.

(** *** What a run reads *)

Lemma key_values_Forall2 (A B : LocaleFile) :
  key_values A = key_values B -> Forall2 same_key_value (entries A) (entries B).
Proof.
  unfold key_values. generalize (entries A) (entries B).
  intros l. induction l as [|[k1 e1] l IH]; intros [|[k2 e2] l'] Heq; try discriminate;
    [constructor|].
  cbn [map] in Heq. injection Heq as Hk Hv Hl.
  constructor; [split; assumption | now apply IH].
Qed.

Lemma key_values_keys (A B : LocaleFile) :
  key_values A = key_values B -> obj_keys (entries A) = obj_keys (entries B).
Proof.
  intros Heq. apply key_values_Forall2 in Heq. unfold obj_keys.
  induction Heq as [|p q l l' [Hk _] _ IH]; [reflexivity|].
  cbn [map]. now rewrite Hk, IH.
Qed.

Lemma key_values_get (A B : LocaleFile) (k : string) :
  key_values A = key_values B ->
  option_map value (obj_get k (entries A)) = option_map value (obj_get k (entries B)).
Proof.
  intros Heq. apply key_values_Forall2 in Heq.
  induction Heq as [|[k1 e1] [k2 e2] l l' [Hk Hv] _ IH]; [reflexivity|].
  cbn [fst snd] in Hk, Hv. subst k2. cbn [obj_get].
  destruct (String.eqb k1 k); [cbn; now rewrite Hv | exact IH].
Qed.

Lemma flat_map_Forall2 {A B : Type} (R : A -> A -> Prop) (f f' : A -> list B)
      (l l' : list A) :
  Forall2 R l l' -> (forall a a', R a a' -> f a = f' a') -> flat_map f l = flat_map f' l'.
Proof.
  intros Hall Hf. induction Hall as [|a a' l l' Ha _ IH]; [reflexivity|].
  cbn [flat_map]. now rewrite (Hf a a' Ha), IH.
Qed.

Lemma fold_left_Forall2 {A B : Type} (R : A -> A -> Prop) (f f' : B -> A -> B)
      (l l' : list A) (b : B) :
  Forall2 R l l' -> (forall b a a', R a a' -> f b a = f' b a') ->
  fold_left f l b = fold_left f' l' b.
Proof.
  intros Hall Hf. revert b. induction Hall as [|a a' l l' Ha _ IH]; intros b; [reflexivity|].
  cbn [fold_left]. now rewrite (Hf b a a' Ha), IH.
Qed.

Section SameContent.
Context `{Host}.
Variables S S' T T' : LocaleFile.
Hypothesis HS : key_values S = key_values S'.
Hypothesis HT : key_values T = key_values T'.
Hypothesis HL : locale T = locale T'.

Lemma checkMissingKeys_content : checkMissingKeys S T = checkMissingKeys S' T'.
Proof.
  unfold checkMissingKeys. rewrite (key_values_keys T T' HT), HL.
  apply (flat_map_Forall2 same_key_value); [now apply key_values_Forall2|].
  intros [k e] [k' e'] [Hk Hv]. cbn [fst snd] in Hk, Hv. subst k'. now rewrite Hv.
Qed.

Lemma checkExtraKeys_content : checkExtraKeys S T = checkExtraKeys S' T'.
Proof.
  unfold checkExtraKeys. rewrite (key_values_keys S S' HS), HL.
  apply (flat_map_Forall2 same_key_value); [now apply key_values_Forall2|].
  intros [k e] [k' e'] [Hk Hv]. cbn [fst snd] in Hk, Hv. subst k'. now rewrite Hv.
Qed.

Lemma checkDuplicates_content : checkDuplicates T = checkDuplicates T'.
Proof.
  unfold checkDuplicates, seenValues. rewrite HL. f_equal.
  apply (fold_left_Forall2 same_key_value); [now apply key_values_Forall2|].
  intros m [k e] [k' e'] [Hk Hv]. cbn [fst snd] in Hk, Hv. subst k'. now rewrite Hv.
Qed.

Lemma checkPlaceholders_content : checkPlaceholders S T = checkPlaceholders S' T'.
Proof.
  unfold checkPlaceholders. rewrite HL.
  apply (flat_map_Forall2 same_key_value); [now apply key_values_Forall2|].
  intros [k e] [k' e'] [Hk Hv]. cbn [fst snd] in Hk, Hv. subst k'.
  pose proof (key_values_get T T' k HT) as Hg.
  destruct (obj_get k (entries T)) as [te|], (obj_get k (entries T')) as [te'|];
    try discriminate Hg; [|reflexivity].
  cbn [option_map] in Hg. injection Hg as Hg. now rewrite Hv, Hg.
Qed.

Lemma checkICUMessages_content : checkICUMessages S T = checkICUMessages S' T'.
Proof.
  unfold checkICUMessages. rewrite HL.
  apply (flat_map_Forall2 same_key_value); [now apply key_values_Forall2|].
  intros [k e] [k' e'] [Hk Hv]. cbn [fst snd] in Hk, Hv. subst k'.
  pose proof (key_values_get T T' k HT) as Hg.
  destruct (obj_get k (entries T)) as [te|], (obj_get k (entries T')) as [te'|];
    try discriminate Hg; [|reflexivity].
  cbn [option_map] in Hg. injection Hg as Hg. now rewrite Hv, Hg.
Qed.

Lemma checkFormatting_content : checkFormatting T = checkFormatting T'.
Proof.
  unfold checkFormatting. rewrite HL.
  apply (flat_map_Forall2 same_key_value); [now apply key_values_Forall2|].
  intros [k e] [k' e'] [Hk Hv]. cbn [fst snd] in Hk, Hv. subst k'. now rewrite Hv.
Qed.

(** The issues of a target are a function of the keys and values of the
    two documents and of the locale of the target. *)
Lemma validateTarget_content : validateTarget S T = validateTarget S' T'.
Proof.
  unfold validateTarget.
  now rewrite checkMissingKeys_content, checkExtraKeys_content, checkDuplicates_content,
    checkPlaceholders_content, checkICUMessages_content, checkFormatting_content.
Qed.
End SameContent.

Lemma validate_content `{Host} (S S' : LocaleFile) (Ts Ts' : list LocaleFile) :
  key_values S = key_values S' -> Forall2 same_target Ts Ts' ->
  validate S Ts = validate S' Ts'.
Proof.
  intros HS Hall. unfold validate.
  apply (fold_left_Forall2 same_target); [exact Hall|].
  intros reports A B (HT & HL & HF).
  rewrite (validateTarget_content S S' A B HS HT HL), HL, HF.
  unfold calculateStats. now rewrite (key_values_keys S S' HS).
Qed.

(** C9.  Two runs of the validation, on documents that have the same keys
    in the same order with the same values, the targets with the same
    locale and format, give equal issue lists and equal reports, whatever
    else the documents of the two runs hold; and the issues of a target
    come grouped in the order of the pass: missing, extra, duplicate,
    placeholder, structured message, formatting. *)
Theorem C9_validate_deterministic_ordered `{Host}
        (S S' : LocaleFile) (T T' : LocaleFile) (Ts Ts' : list LocaleFile) :
  key_values S = key_values S' -> same_target T T' -> Forall2 same_target Ts Ts' ->
  validateTarget S T = validateTarget S' T'
  /\ validate S Ts = validate S' Ts'
  /\ StronglySorted le (map (fun i => pass_rank (i_type i)) (validateTarget S T))
  /\ validateTarget S T
     = issues_of_type missing (validateTarget S T)
       ++ issues_of_type extra (validateTarget S T)
       ++ issues_of_type duplicate (validateTarget S T)
       ++ issues_of_type placeholderMismatch (validateTarget S T)
       ++ issues_of_type icuError (validateTarget S T)
       ++ issues_of_type formatting (validateTarget S T).
Proof.
  intros HS (HT & HL & _) HTs.
  split; [now apply validateTarget_content | split; [now apply validate_content | split]].
  - pose proof (checkMissingKeys_type S T) as H1. pose proof (checkExtraKeys_type S T) as H2.
    pose proof (checkDuplicates_type T) as H3. pose proof (checkPlaceholders_type S T) as H4.
    pose proof (checkICUMessages_type S T) as H5. pose proof (checkFormatting_type T) as H6.
    unfold validateTarget.
    apply (sorted_rank_app _ _ 1); [now apply (sorted_rank_const _ missing) | | | ].
    2: { apply (Forall_type_rank _ missing (fun n => n <= 1)); [simpl; lia | assumption]. }
    2: { repeat (apply Forall_app; split);
         [ apply (Forall_type_rank _ extra (fun n => 1 <= n))
         | apply (Forall_type_rank _ duplicate (fun n => 1 <= n))
         | apply (Forall_type_rank _ placeholderMismatch (fun n => 1 <= n))
         | apply (Forall_type_rank _ icuError (fun n => 1 <= n))
         | apply (Forall_type_rank _ formatting (fun n => 1 <= n)) ];
         simpl; try lia; assumption. }
    apply (sorted_rank_app _ _ 2); [now apply (sorted_rank_const _ extra) | | | ].
    2: { apply (Forall_type_rank _ extra (fun n => n <= 2)); [simpl; lia | assumption]. }
    2: { repeat (apply Forall_app; split);
         [ apply (Forall_type_rank _ duplicate (fun n => 2 <= n))
         | apply (Forall_type_rank _ placeholderMismatch (fun n => 2 <= n))
         | apply (Forall_type_rank _ icuError (fun n => 2 <= n))
         | apply (Forall_type_rank _ formatting (fun n => 2 <= n)) ];
         simpl; try lia; assumption. }
    apply (sorted_rank_app _ _ 3); [now apply (sorted_rank_const _ duplicate) | | | ].
    2: { apply (Forall_type_rank _ duplicate (fun n => n <= 3)); [simpl; lia | assumption]. }
    2: { repeat (apply Forall_app; split);
         [ apply (Forall_type_rank _ placeholderMismatch (fun n => 3 <= n))
         | apply (Forall_type_rank _ icuError (fun n => 3 <= n))
         | apply (Forall_type_rank _ formatting (fun n => 3 <= n)) ];
         simpl; try lia; assumption. }
    apply (sorted_rank_app _ _ 4);
      [now apply (sorted_rank_const _ placeholderMismatch) | | | ].
    2: { apply (Forall_type_rank _ placeholderMismatch (fun n => n <= 4));
         [simpl; lia | assumption]. }
    2: { repeat (apply Forall_app; split);
         [ apply (Forall_type_rank _ icuError (fun n => 4 <= n))
         | apply (Forall_type_rank _ formatting (fun n => 4 <= n)) ];
         simpl; try lia; assumption. }
    apply (sorted_rank_app _ _ 5);
      [ now apply (sorted_rank_const _ icuError)
      | now apply (sorted_rank_const _ formatting)
      | apply (Forall_type_rank _ icuError (fun n => n <= 5)); [simpl; lia | assumption]
      | apply (Forall_type_rank _ formatting (fun n => 5 <= n)); [simpl; lia | assumption] ].
  - rewrite !issues_of_type_validateTarget. reflexivity.
Qed.

(** The same translations loaded twice: once from a plain file, once from
    a file with a description, under another path and with a date. *)
Lemma C9_witness :
  let S := file_of "en" json [("a", "Hi {user}"); ("b", "Bye")] in
  let T := file_of "es" json [("a", " Hola  {usuario}"); ("c", "x"); ("d", "x")] in
  let S' := {| locale := "en"; path := "lib/l10n/en.json"; format := json;
               entries := [("a", {| key := "a"; value := "Hi {user}";
                                    metadata := JObj [("description", JStr "greeting")];
                                    description := JStr "greeting";
                                    placeholders := JUndef; context := JUndef;
                                    tags := JUndef |});
                           ("b", plain_entry "b" "Bye")];
               raw := [("a", JStr "Hi {user}");
                       ("@a", JObj [("description", JStr "greeting")]);
                       ("b", JStr "Bye")];
               lastModified := Some 1700000000%Z |} in
  let T' := {| locale := "es"; path := "lib/l10n/es.json"; format := json;
               entries := entries T; raw := []; lastModified := Some 1700000001%Z |} in
  S <> S' /\ T <> T'
  /\ @validateTarget literal_host S T = @validateTarget literal_host S' T'
  /\ @validate literal_host S [T] = @validate literal_host S' [T']
  /\ map i_type (@validateTarget literal_host S T)
     = [missing; extra; extra; duplicate; placeholderMismatch; formatting; formatting]
  /\ StronglySorted le
       (map (fun i => pass_rank (i_type i)) (@validateTarget literal_host S T)).
Proof.
  intros S T S' T'.
  assert (HT : same_target T T') by (repeat split; reflexivity).
  assert (HTs : Forall2 same_target [T] [T']) by (repeat constructor; reflexivity).
  destruct (@C9_validate_deterministic_ordered literal_host S S' T T' [T] [T']
              eq_refl HT HTs)
    as (Hv & Hr & Hs & _).
  split; [discriminate | split; [discriminate|]].
  split; [exact Hv | split; [exact Hr | split; [reflexivity | exact Hs]]].
Defined.

(** ** Fixer: the fix of a missing key *)

Example spec_template_ex :
  spec_template "Hello {name}, you have {count} items" = "TODO{name}TODO{count}TODO"
  /\ spec_template "Hello" = "TODO".
Proof. split; reflexivity. Qed.

(** What [generateMissingKeyFix] returns, for a key of the source. *)
Lemma generateMissingKeyFix_newValue (S : LocaleFile) (issue : ValidationIssue)
      (se : LocaleEntry) :
  obj_get (i_key issue) (entries S) = Some se ->
  exists fx, generateMissingKeyFix S issue = Some fx
    /\ f_type fx = addMissing /\ f_key fx = i_key issue
    /\ f_newValue fx
       = Some (match extractPlaceholders (value se) with
               | [] => "TODO"
               | _ => replace_nonbrace_runs (value se)
               end).
Proof.
  intros Hs. unfold generateMissingKeyFix. rewrite Hs.
  eexists. split; [reflexivity|]. simpl. repeat split.
  now destruct (extractPlaceholders (value se)).
Qed.

(** C1.  At the source entry greeting = Hello {name} the fix of the
    missing key has the new value TODO{TODO}: the braces are kept, the
    placeholder name is replaced by the marker like any other run, so the
    value is not the placeholder-preserving template TODO{name}.  A source
    value without placeholder does give TODO. *)
Theorem C1_missing_fix_replaces_names :
  let S := file_of "en" json [("greeting", "Hello {name}"); ("bye", "Bye")] in
  let T := file_of "es" json [] in
  map (fun i => (i_type i, i_key i, i_sourceValue i)) (@validateTarget literal_host S T)
  = [(missing, "greeting", Some "Hello {name}"); (missing, "bye", Some "Bye")]
  /\ map (fun i => option_map f_newValue (@generateMissingKeyFix S i))
         (@validateTarget literal_host S T)
     = [Some (Some "TODO{TODO}"); Some (Some "TODO")]
  /\ spec_template "Hello {name}" = "TODO{name}"
  /\ extractPlaceholders "TODO{TODO}" = ["TODO"]
  /\ (exists T' fixes,
        @autoFix literal_host {| doAutoFix := true; preferOrder := None |} S T
                 (@validateTarget literal_host S T) = Some (T', fixes)
        /\ option_map value (obj_get "greeting" (entries T')) = Some "TODO{TODO}").
Proof.
  intros S T. repeat split.
  eexists _, _. split; reflexivity.
Qed.

(** ** Fixer: applying a value fix *)

Lemma applyFix_value_fix (S : LocaleFile) (fx : Fix) (T : LocaleFile) :
  is_value_fix (f_type fx) = true ->
  applyFix S fx T
  = match f_newValue fx, obj_get (f_key fx) (entries T) with
    | Some (String a nv), Some e =>
        Some (set_entries T (obj_set (f_key fx) (set_value e (String a nv)) (entries T)))
    | _, _ => Some T
    end.
Proof.
  unfold applyFix. destruct (f_type fx); simpl; intros Hv; try discriminate; reflexivity.
Qed.

(** C10, as worded, fails for a fix that carries the empty string as its
    new value: the entry exists, and its value is left as it was. *)
Lemma C10_counterexample :
  let S := file_of "en" json [("a", "A")] in
  let T := file_of "es" json [("a", "  ")] in
  let fx := {| f_type := fixFormatting; f_locale := "es"; f_key := "a";
               f_oldValue := Some "  "; f_newValue := Some EmptyString;
               f_description := "Fix formatting issues in a" |} in
  applyFix S fx T = Some T
  /\ ~ value_fix_as_worded S fx T.
Proof.
  intros S T fx. split; [reflexivity|].
  intros Hc. destruct (Hc eq_refl) as [_ Hset].
  destruct (Hset EmptyString (plain_entry "a" "  ") eq_refl eq_refl) as (T' & Happ & Hget).
  injection Happ as <-. discriminate Hget.
Qed.

(** C10, amended.  A fix of kind fixPlaceholder, fixFormatting or fixICU
    whose [newValue] is absent or the empty string, or whose key has no
    entry, leaves the document as it is.  Otherwise only the value of that
    entry changes: the keys and their order, the other fields of the
    entry, every other entry, the raw data and the other fields of the
    file are those of the input. *)
Theorem C10_value_fix_frame (S : LocaleFile) (fx : Fix) (T : LocaleFile) :
  is_value_fix (f_type fx) = true ->
  ((truthy_str (f_newValue fx) = false \/ obj_get (f_key fx) (entries T) = None) ->
     applyFix S fx T = Some T)
  /\ (forall nv e,
        f_newValue fx = Some nv -> nv <> EmptyString ->
        obj_get (f_key fx) (entries T) = Some e ->
        exists T' e',
          applyFix S fx T = Some T'
          /\ obj_get (f_key fx) (entries T') = Some e'
          /\ value e' = nv /\ key e' = key e /\ metadata e' = metadata e
          /\ description e' = description e /\ placeholders e' = placeholders e
          /\ context e' = context e /\ tags e' = tags e
          /\ obj_keys (entries T') = obj_keys (entries T)
          /\ (forall k', k' <> f_key fx ->
                obj_get k' (entries T') = obj_get k' (entries T))
          /\ raw T' = raw T /\ locale T' = locale T /\ path T' = path T
          /\ format T' = format T /\ lastModified T' = lastModified T).
Proof.
  intros Hv. rewrite (applyFix_value_fix S fx T Hv). split.
  - intros [Hn|Hk].
    + destruct (f_newValue fx) as [[|a nv]|]; [reflexivity | discriminate Hn | reflexivity].
    + rewrite Hk. now destruct (f_newValue fx) as [[|a nv]|].
  - intros nv e Hnv Hne Hk. rewrite Hnv, Hk.
    destruct nv as [|a nv]; [congruence|].
    eexists _, _. split; [reflexivity|]. simpl.
    split; [apply obj_get_set_eq|]. simpl. repeat split.
    + rewrite obj_keys_set. unfold obj_has. now rewrite Hk.
    + intros k' Hk'. now apply obj_get_set_ne.
Qed.

Lemma C10_witness :
  let S := file_of "en" json [("a", "A"); ("b", "B")] in
  let T := file_of "es" json [("a", "  OK  "); ("b", "x")] in
  let fx := {| f_type := fixFormatting; f_locale := "es"; f_key := "a";
               f_oldValue := Some "  OK  "; f_newValue := Some "OK";
               f_description := "Fix formatting issues in a" |} in
  exists T' e',
    applyFix S fx T = Some T'
    /\ obj_get "a" (entries T') = Some e' /\ value e' = "OK"
    /\ obj_get "b" (entries T') = obj_get "b" (entries T)
    /\ raw T' = raw T.
Proof.
  intros S T fx.
  destruct (proj2 (C10_value_fix_frame S fx T eq_refl)
              "OK" (plain_entry "a" "  OK  ") eq_refl ltac:(discriminate) eq_refl)
    as (T' & e' & Happ & Hget & Hval & _ & _ & _ & _ & _ & _ & _ & Hother & Hraw & _).
  exists T', e'. repeat split; try assumption.
  apply Hother. discriminate.
Defined.

(** ** Diff generator *)

Section PatchFacts.
Context `{Host}.

Lemma patches_loop_spec (O M : list (string * LocaleFile)) (acc : list Patch) :
  patches_loop O M acc
  = acc ++ map (fun '(_, (o, m)) => generatePatch o m unified) (changed_locales O M).
Proof.
  revert acc. induction M as [|[loc m] M IH]; intros acc; simpl.
  - now rewrite app_nil_r.
  - unfold changed_locales. cbn [flat_map]. fold (changed_locales O M).
    destruct (obj_get loc O) as [o|]; [|apply IH].
    unfold hasChanges. destruct (String.eqb (serializeARB o) (serializeARB m)); simpl.
    + apply IH.
    + rewrite IH, <- app_assoc. reflexivity.
Qed.

Lemma changed_locales_In (O M : list (string * LocaleFile)) loc o m :
  In (loc, (o, m)) (changed_locales O M) <->
  In (loc, m) M /\ obj_get loc O = Some o /\ serializeARB o <> serializeARB m.
Proof.
  unfold changed_locales. rewrite in_flat_map. split.
  - intros ([loc' m'] & Hin & Hx).
    destruct (obj_get loc' O) as [o'|] eqn:Ho; [|contradiction].
    destruct (String.eqb_spec (serializeARB o') (serializeARB m')); [contradiction|].
    destruct Hx as [[= -> -> ->]|[]]. auto.
  - intros (Hin & Ho & Hne). exists (loc, m). split; [assumption|].
    rewrite Ho. destruct (String.eqb_spec (serializeARB o) (serializeARB m)); [contradiction|].
    now left.
Qed.

Lemma changed_locales_NoDup (O M : list (string * LocaleFile)) :
  NoDup (obj_keys M) -> NoDup (map fst (changed_locales O M)).
Proof.
  induction M as [|[loc m] M IH]; simpl; intros Hnd; [constructor|].
  apply NoDup_cons_iff in Hnd as [Hni Hnd].
  unfold changed_locales. cbn [flat_map]. fold (changed_locales O M).
  rewrite map_app. apply NoDup_app; [| now apply IH |].
  - destruct (obj_get loc O) as [o|]; [|constructor].
    destruct (String.eqb _ _); repeat constructor. simpl. tauto.
  - intros a Ha Hb.
    destruct (obj_get loc O) as [o|]; [|contradiction].
    destruct (String.eqb _ _); [contradiction|].
    destruct Ha as [<-|[]]. simpl in Hb.
    apply in_map_iff in Hb. destruct Hb as ([l' [o' m']] & Hl & Hin). simpl in Hl. subst l'.
    apply changed_locales_In in Hin. destruct Hin as (Hin & _).
    apply Hni. change (In loc (map fst M)). apply in_map_iff. now exists (loc, m').
Qed.
End PatchFacts.

(** C8.  [generatePatches] returns one Patch for each locale that is in
    both Maps with canonical serializations that differ, in the order of
    the Map of modified files, and nothing else: a locale absent from the
    originals, or whose serialization is the same before and after, is
    not among them. *)
Theorem C8_patches_exactly_changed `{Host} (O M : list (string * LocaleFile)) :
  NoDup (obj_keys M) ->
  generatePatches O M
  = map (fun '(_, (o, m)) => generatePatch o m unified) (changed_locales O M)
  /\ NoDup (map fst (changed_locales O M))
  /\ (forall loc o m,
        In (loc, (o, m)) (changed_locales O M) <->
        obj_get loc M = Some m /\ obj_get loc O = Some o
        /\ serializeARB o <> serializeARB m)
  /\ (forall loc, obj_get loc O = None -> ~ In loc (map fst (changed_locales O M)))
  /\ (forall loc o m, obj_get loc O = Some o -> obj_get loc M = Some m ->
        serializeARB o = serializeARB m -> ~ In loc (map fst (changed_locales O M))).
Proof.
  intros Hnd. split; [|split; [|split; [|split]]].
  - unfold generatePatches. now rewrite patches_loop_spec.
  - now apply changed_locales_NoDup.
  - intros loc o m. rewrite changed_locales_In. split.
    + intros (Hin & Ho & Hne). split; [now apply In_obj_get | auto].
    + intros (Hm & Ho & Hne). split; [now apply obj_get_In | auto].
  - intros loc Ho Hin. apply in_map_iff in Hin. destruct Hin as ([l [o m]] & Hl & Hin).
    simpl in Hl. subst l. apply changed_locales_In in Hin. destruct Hin as (_ & Ho' & _).
    congruence.
  - intros loc o m Ho Hm Heq Hin. apply in_map_iff in Hin.
    destruct Hin as ([l [o' m']] & Hl & Hin). simpl in Hl. subst l.
    apply changed_locales_In in Hin. destruct Hin as (Hin & Ho' & Hne).
    apply (In_obj_get _ _ _ Hnd) in Hin. congruence.
Qed.

Lemma C8_witness :
  let en := file_of "en" arb [("a", "A")] in
  let es := file_of "es" arb [("a", "x")] in
  let es' := file_of "es" arb [("a", "y")] in
  let fr := file_of "fr" arb [("a", "z")] in
  @generatePatches literal_host [("en", en); ("es", es)] [("en", en); ("es", es'); ("fr", fr)]
  = [@generatePatch literal_host es es' unified].
Proof.
  intros en es es' fr.
  assert (Hnd : NoDup (obj_keys [("en", en); ("es", es'); ("fr", fr)]))
    by (repeat constructor; simpl; intuition discriminate).
  rewrite (proj1 (@C8_patches_exactly_changed literal_host
                    [("en", en); ("es", es)] [("en", en); ("es", es'); ("fr", fr)] Hnd)).
  reflexivity.
Defined.

(** ** Fixer: what a round of fixes does to the keys *)

Lemma In_sort_keys (k : string) (l : list string) : In k (sort_keys l) <-> In k l.
Proof.
  assert (Hins : forall x l', In k (insert_sorted x l') <-> k = x \/ In k l').
  { intros x l'. induction l' as [|y l' IH]; simpl.
    - intuition.
    - destruct (String.leb x y); simpl; [intuition|]. rewrite IH. intuition. }
  induction l as [|x l IH]; simpl; [tauto|].
  rewrite Hins, IH. intuition.
Qed.

Section KeyFacts.
Context `{Host}.
Variable config : LocalzConfig.
Variable S : LocaleFile.

Lemma generateFix_type (i : ValidationIssue) (T : LocaleFile) (fx : Fix) :
  generateFix S i T = Some fx ->
  f_type fx = fix_type_of (i_type i) /\ f_key fx = i_key i.
Proof.
  unfold generateFix. destruct (i_type i) eqn:Ht; simpl.
  - unfold generateMissingKeyFix. destruct (obj_get _ _); [|discriminate].
    intros [= <-]. split; reflexivity.
  - intros [= <-]. split; reflexivity.
  - intros [= <-]. split; reflexivity.
  - intros [= <-]. unfold generateICUFix. destruct (truthy_str _); split; reflexivity.
  - unfold generatePlaceholderFix.
    destruct (i_sourceValue i) as [[|a sv]|]; try (intros [= <-]; split; reflexivity).
    destruct (i_targetValue i) as [[|b tv]|]; try (intros [= <-]; split; reflexivity).
    destruct (apply_renames _ _); [|discriminate]. intros [= <-]. split; reflexivity.
  - intros [= <-]. split; reflexivity.
Qed.

Lemma applyFix_keys (i : ValidationIssue) (T T1 : LocaleFile) (fx : Fix) :
  f_type fx = fix_type_of (i_type i) -> f_key fx = i_key i ->
  applyFix S fx T = Some T1 ->
  obj_keys (entries T1) = key_step (obj_keys (entries T)) i.
Proof.
  intros Hty Hk. unfold applyFix, key_step. rewrite Hty, Hk.
  destruct (i_type i); simpl.
  - destruct (obj_get (i_key i) (entries S)); [|discriminate].
    intros [= <-]. simpl. rewrite obj_keys_set. unfold obj_has.
    now rewrite mem_str_obj_get.
  - intros [= <-]. simpl. apply obj_keys_delete.
  - intros [= <-]. simpl. apply obj_keys_delete.
  - destruct (f_newValue fx) as [[|a nv]|]; try (intros [= <-]; reflexivity).
    destruct (obj_get (i_key i) (entries T)) eqn:Hg; intros [= <-]; [|reflexivity].
    simpl. rewrite obj_keys_set. unfold obj_has. now rewrite Hg.
  - destruct (f_newValue fx) as [[|a nv]|]; try (intros [= <-]; reflexivity).
    destruct (obj_get (i_key i) (entries T)) eqn:Hg; intros [= <-]; [|reflexivity].
    simpl. rewrite obj_keys_set. unfold obj_has. now rewrite Hg.
  - destruct (f_newValue fx) as [[|a nv]|]; try (intros [= <-]; reflexivity).
    destruct (obj_get (i_key i) (entries T)) eqn:Hg; intros [= <-]; [|reflexivity].
    simpl. rewrite obj_keys_set. unfold obj_has. now rewrite Hg.
Qed.

(** With auto-fix authorized, a completed loop has applied the key step
    of every issue, and pushed one fix per issue, of the matching kind. *)
Lemma fix_loop_keys (issues : list ValidationIssue) (T T1 : LocaleFile)
      (acc fixes : list Fix) :
  doAutoFix config = true ->
  fix_loop config S issues T acc = Some (T1, fixes) ->
  obj_keys (entries T1) = fold_left key_step issues (obj_keys (entries T))
  /\ exists new, fixes = acc ++ new
       /\ map f_type new = map (fun i => fix_type_of (i_type i)) issues.
Proof.
  intros Hauto. revert T acc. induction issues as [|i issues IH]; intros T acc; simpl.
  - intros [= <- <-]. split; [reflexivity|]. exists []. now rewrite app_nil_r.
  - destruct (generateFix S i T) as [fx|] eqn:Hg; [|discriminate].
    rewrite Hauto.
    destruct (applyFix S fx T) as [T'|] eqn:Ha; [|discriminate].
    intros Hloop. destruct (generateFix_type _ _ _ Hg) as [Hty Hk].
    apply IH in Hloop. destruct Hloop as (Hkeys & new & -> & Hnew).
    rewrite (applyFix_keys i T T' fx Hty Hk Ha) in Hkeys. split; [assumption|].
    exists (fx :: new). rewrite <- app_assoc. split; [reflexivity|].
    simpl. now rewrite Hty, Hnew.
Qed.

Lemma In_key_step (k : string) (ks : list string) (i : ValidationIssue) :
  In k (key_step ks i) <->
  (In k ks /\ ~ (is_removal i = true /\ i_key i = k))
  \/ (i_type i = missing /\ i_key i = k).
Proof.
  unfold key_step, is_removal. destruct (i_type i) eqn:Ht.
  - destruct (mem_str (i_key i) ks) eqn:Hm.
    + apply mem_str_In in Hm. split.
      * intros Hin. left. split; [assumption | intros [? _]; discriminate].
      * intros [[Hin _]|[_ <-]]; assumption.
    + rewrite in_app_iff. simpl. split.
      * intros [Hin|[<-|[]]]; [left; split; [assumption | intros [? _]; discriminate] | now right].
      * intros [[Hin _]|[_ <-]]; auto.
  - rewrite filter_In. destruct (String.eqb_spec k (i_key i)) as [->|Hne]; simpl.
    + split; [intros [_ ?]; discriminate | intros [[_ Hn]|[? _]]; [exfalso; auto | discriminate]].
    + split; [intros [Hin _]; left; split; [assumption | intros [_ ?]; congruence]
             | intros [[Hin _]|[? _]]; [auto | discriminate]].
  - rewrite filter_In. destruct (String.eqb_spec k (i_key i)) as [->|Hne]; simpl.
    + split; [intros [_ ?]; discriminate | intros [[_ Hn]|[? _]]; [exfalso; auto | discriminate]].
    + split; [intros [Hin _]; left; split; [assumption | intros [_ ?]; congruence]
             | intros [[Hin _]|[? _]]; [auto | discriminate]].
  - split; [intros Hin; left; split; [assumption | intros [? _]; discriminate]
           | intros [[Hin _]|[? _]]; [assumption | discriminate]].
  - split; [intros Hin; left; split; [assumption | intros [? _]; discriminate]
           | intros [[Hin _]|[? _]]; [assumption | discriminate]].
  - split; [intros Hin; left; split; [assumption | intros [? _]; discriminate]
           | intros [[Hin _]|[? _]]; [assumption | discriminate]].
Qed.

(** A key found after the loop was there before and never removed, or
    was added for a missing issue. *)
Lemma In_keys_after (k : string) (issues : list ValidationIssue) (ks : list string) :
  In k (fold_left key_step issues ks) ->
  (In k ks /\ forall i, In i issues -> ~ (is_removal i = true /\ i_key i = k))
  \/ (exists i, In i issues /\ i_type i = missing /\ i_key i = k).
Proof.
  revert ks. induction issues as [|i issues IH]; intros ks; simpl.
  - intros Hin. left. split; [assumption | tauto].
  - intros Hin. apply IH in Hin. destruct Hin as [[Hin Hno]|(j & Hj & Hm)].
    + apply In_key_step in Hin. destruct Hin as [[Hin Hni]|Hm].
      * left. split; [assumption|]. intros j [<-|Hj]; auto.
      * right. exists i. split; [now left | assumption].
    + right. exists j. split; [now right | assumption].
Qed.

(** A key that was there or is added, and that no issue removes, is
    found after the loop. *)
Lemma keys_after_In (k : string) (issues : list ValidationIssue) (ks : list string) :
  (forall i, In i issues -> ~ (is_removal i = true /\ i_key i = k)) ->
  In k ks \/ (exists i, In i issues /\ i_type i = missing /\ i_key i = k) ->
  In k (fold_left key_step issues ks).
Proof.
  revert ks. induction issues as [|i issues IH]; intros ks Hno; simpl.
  - intros [Hin|(j & [] & _)]. assumption.
  - intros Hor. apply IH; [intros j Hj; apply Hno; now right|].
    destruct Hor as [Hin|(j & [<-|Hj] & Hm)].
    + left. apply In_key_step. left. split; [assumption | apply Hno; now left].
    + left. apply In_key_step. now right.
    + right. exists j. split; assumption.
Qed.

Lemma In_keys_reorderToMatchSource (k : string) (T : LocaleFile) :
  In k (obj_keys (entries (reorderToMatchSource S T))) <-> In k (obj_keys (entries T)).
Proof.
  unfold reorderToMatchSource. simpl.
  set (sourceKeys := obj_keys (entries S)).
  assert (H1 : forall (l : list string) (acc : list (string * LocaleEntry)),
             In k (obj_keys (fold_left (fun acc k0 =>
                      match obj_get k0 (entries T) with
                      | Some e => obj_set k0 e acc
                      | None => acc
                      end) l acc))
             <-> In k (obj_keys acc) \/ (In k l /\ In k (obj_keys (entries T)))).
  { induction l as [|x l IHl]; intros acc; simpl; [tauto|].
    rewrite IHl. destruct (obj_get x (entries T)) eqn:Hg.
    - rewrite In_keys_set. assert (In x (obj_keys (entries T))) by (apply obj_get_In_keys; eauto).
      split; [intros [[->|?]|[? ?]]; auto | intros [?|[[<-|?] ?]]; auto].
    - apply obj_get_None in Hg.
      split; [intros [?|[? ?]]; auto | intros [?|[[<-|?] ?]]; auto; contradiction]. }
  assert (H2 : forall (l : list (string * LocaleEntry)) (acc : list (string * LocaleEntry)),
             In k (obj_keys (fold_left (fun acc '(k0, e) => obj_set k0 e acc) l acc))
             <-> In k (obj_keys acc) \/ In k (obj_keys l)).
  { induction l as [|[x e] l IHl]; intros acc; simpl; [tauto|].
    rewrite IHl, In_keys_set. intuition. }
  rewrite H2, H1. simpl.
  assert (H3 : In k (obj_keys (filter (fun '(k0, _) => negb (mem_str k0 sourceKeys)) (entries T)))
               <-> In k (obj_keys (entries T)) /\ ~ In k sourceKeys).
  { unfold obj_keys. rewrite !in_map_iff. split.
    - intros ([k' e] & <- & Hin). apply filter_In in Hin. destruct Hin as [Hin Hm].
      simpl. split; [exists (k', e); auto|].
      apply mem_str_not_In. now apply negb_true_iff.
    - intros (([k' e] & <- & Hin) & Hni). exists (k', e). split; [reflexivity|].
      apply filter_In. split; [assumption|]. apply negb_true_iff. now apply mem_str_not_In. }
  rewrite H3. destruct (in_dec string_dec k sourceKeys); tauto.
Qed.

Lemma In_keys_reorderAlphabetically (k : string) (T : LocaleFile) :
  In k (obj_keys (entries (reorderAlphabetically T))) <-> In k (obj_keys (entries T)).
Proof.
  unfold reorderAlphabetically. simpl.
  assert (H1 : forall (l : list string) (acc : list (string * LocaleEntry)),
             In k (obj_keys (fold_left (fun acc k0 =>
                      match obj_get k0 (entries T) with
                      | Some e => obj_set k0 e acc
                      | None => acc
                      end) l acc))
             <-> In k (obj_keys acc) \/ (In k l /\ In k (obj_keys (entries T)))).
  { induction l as [|x l IHl]; intros acc; simpl; [tauto|].
    rewrite IHl. destruct (obj_get x (entries T)) eqn:Hg.
    - rewrite In_keys_set. assert (In x (obj_keys (entries T))) by (apply obj_get_In_keys; eauto).
      split; [intros [[->|?]|[? ?]]; auto | intros [?|[[<-|?] ?]]; auto].
    - apply obj_get_None in Hg.
      split; [intros [?|[? ?]]; auto | intros [?|[[<-|?] ?]]; auto; contradiction]. }
  rewrite H1, In_sort_keys. simpl. tauto.
Qed.

Lemma In_keys_reorder (k : string) (T : LocaleFile) :
  In k (obj_keys (entries (reorder config S T))) <-> In k (obj_keys (entries T)).
Proof.
  unfold reorder. destruct (preferOrder config) as [[|]|].
  - apply In_keys_reorderToMatchSource.
  - apply In_keys_reorderAlphabetically.
  - tauto.
Qed.
End KeyFacts.

Lemma fixes_come_from_issues (new : list Fix) (issues : list ValidationIssue) (fx : Fix) :
  map f_type new = map (fun i => fix_type_of (i_type i)) issues ->
  In fx new -> exists i, In i issues /\ fix_type_of (i_type i) = f_type fx.
Proof.
  intros Hmap Hin. apply (in_map f_type) in Hin. rewrite Hmap in Hin.
  apply in_map_iff in Hin. destruct Hin as (i & Hi & Hin). eauto.
Qed.

Lemma validateTarget_has_missing `{Host} (S T : LocaleFile) i :
  In i (checkMissingKeys S T) -> In i (validateTarget S T).
Proof. unfold validateTarget. rewrite !in_app_iff. auto. Qed.

Lemma validateTarget_has_extra `{Host} (S T : LocaleFile) i :
  In i (checkExtraKeys S T) -> In i (validateTarget S T).
Proof. unfold validateTarget. rewrite !in_app_iff. auto. Qed.

(** The keys of the fixed document, after a round on the issues of
    validation. *)
Lemma autoFix_keys `{Host} (config : LocalzConfig) (S T T1 : LocaleFile)
      (issues : list ValidationIssue) (fixes1 : list Fix) :
  doAutoFix config = true ->
  autoFix config S T issues = Some (T1, fixes1) ->
  (forall k, In k (obj_keys (entries T1))
             <-> In k (fold_left key_step issues (obj_keys (entries T))))
  /\ map f_type fixes1 = map (fun i => fix_type_of (i_type i)) issues.
Proof.
  intros Hauto. unfold autoFix.
  destruct (fix_loop config S issues T []) as [[T' fixes']|] eqn:Hloop; [|discriminate].
  intros [= <- <-]. apply (fix_loop_keys config S _ _ _ _ _ Hauto) in Hloop.
  destruct Hloop as (Hkeys & new & -> & Hnew). split; [|exact Hnew].
  intros k. rewrite In_keys_reorder, Hkeys. tauto.
Qed.

(** C6, as worded, fails.  Two keys missing from the target are both
    added with the value TODO; the second validation flags the second as
    a duplicate of the first, and the second round removes it.  And a
    duplicate removed in the first round, when its key is a key of the
    source, is missing in the second validation and added again. *)
Lemma C6_counterexample :
  let config := {| doAutoFix := true; preferOrder := None |} in
  ~ @fix_idempotent_as_worded literal_host config
      (file_of "en" json [("a", "Hi"); ("b", "Bye")]) (file_of "es" json [])
  /\ ~ @fix_idempotent_as_worded literal_host config
      (file_of "en" json [("a", "OK"); ("b", "OK")])
      (file_of "es" json [("a", "OK"); ("b", "OK")]).
Proof.
  intros config. split; intros Hc; unfold fix_idempotent_as_worded in Hc.
  - match eval vm_compute in
      (@autoFix literal_host config (file_of "en" json [("a", "Hi"); ("b", "Bye")])
         (file_of "es" json [])
         (@validateTarget literal_host (file_of "en" json [("a", "Hi"); ("b", "Bye")])
            (file_of "es" json []))) with
    | Some (?T1, ?f1) =>
        match eval vm_compute in
          (@autoFix literal_host config (file_of "en" json [("a", "Hi"); ("b", "Bye")]) T1
             (@validateTarget literal_host (file_of "en" json [("a", "Hi"); ("b", "Bye")]) T1)) with
        | Some (?T2, ?f2) =>
            specialize (Hc T1 f1 T2 f2 eq_refl eq_refl);
            match f2 with
            | ?fx :: _ => destruct (Hc fx (or_introl eq_refl)) as (_ & _ & Hd)
            end
        end
    end.
    apply Hd. reflexivity.
  - match eval vm_compute in
      (@autoFix literal_host config (file_of "en" json [("a", "OK"); ("b", "OK")])
         (file_of "es" json [("a", "OK"); ("b", "OK")])
         (@validateTarget literal_host (file_of "en" json [("a", "OK"); ("b", "OK")])
            (file_of "es" json [("a", "OK"); ("b", "OK")]))) with
    | Some (?T1, ?f1) =>
        match eval vm_compute in
          (@autoFix literal_host config (file_of "en" json [("a", "OK"); ("b", "OK")]) T1
             (@validateTarget literal_host (file_of "en" json [("a", "OK"); ("b", "OK")]) T1)) with
        | Some (?T2, ?f2) =>
            specialize (Hc T1 f1 T2 f2 eq_refl eq_refl);
            match f2 with
            | ?fx :: _ => destruct (Hc fx (or_introl eq_refl)) as (Hd & _ & _)
            end
        end
    end.
    apply Hd. reflexivity.
Qed.

(** C6, amended.  With auto-fix authorized, after a round of [autoFix] on
    the issues of validation, a second validation against the same
    source and a second round yield no fix of kind removeExtra; and they
    yield no fix of kind addMissing provided the first validation raised
    no duplicate issue on a key of the source. *)
Theorem C6_second_round `{Host} (config : LocalzConfig) (S T T1 T2 : LocaleFile)
        (fixes1 fixes2 : list Fix) :
  doAutoFix config = true ->
  autoFix config S T (validateTarget S T) = Some (T1, fixes1) ->
  autoFix config S T1 (validateTarget S T1) = Some (T2, fixes2) ->
  (forall fx, In fx fixes2 -> f_type fx <> removeExtra)
  /\ ((forall i, In i (validateTarget S T) -> i_type i = duplicate ->
         ~ In (i_key i) (obj_keys (entries S))) ->
      forall fx, In fx fixes2 -> f_type fx <> addMissing).
Proof.
  intros Hauto H1 H2.
  destruct (autoFix_keys config S T T1 _ _ Hauto H1) as [Hk1 _].
  destruct (autoFix_keys config S T1 T2 _ _ Hauto H2) as [_ Hf2].
  split.
  - intros fx Hfx Hty.
    destruct (fixes_come_from_issues _ _ _ Hf2 Hfx) as (i & Hi & Hit).
    rewrite Hty in Hit. assert (Hex : i_type i = extra) by (destruct (i_type i); discriminate || reflexivity).
    apply validateTarget_In_type in Hi. rewrite Hex in Hi.
    apply checkExtraKeys_In in Hi. destruct Hi as (k & e & Hin & Hns & _).
    assert (Hk : In k (obj_keys (entries T1))) by (apply in_map_iff; now exists (k, e)).
    apply Hk1, In_keys_after in Hk. destruct Hk as [[HkT Hno]|(j & Hj & Hjm & Hjk)].
    + apply in_map_iff in HkT. destruct HkT as ([k' e'] & Hk' & HinT). simpl in Hk'. subst k'.
      apply (Hno {| i_type := extra; i_locale := locale T; i_key := k;
                    i_message := "Key " +:+ quoted k +:+ " not in source locale";
                    i_severity := warning; i_sourceValue := None;
                    i_targetValue := Some (value e'); i_suggestion := None |}).
      * apply validateTarget_has_extra, checkExtraKeys_In. exists k, e'. auto.
      * split; reflexivity.
    + apply validateTarget_In_type in Hj. rewrite Hjm in Hj.
      apply checkMissingKeys_In in Hj. destruct Hj as (k' & e' & HinS & _ & ->).
      simpl in Hjk. subst k'. apply Hns. apply in_map_iff. now exists (k, e').
  - intros Hdup fx Hfx Hty.
    destruct (fixes_come_from_issues _ _ _ Hf2 Hfx) as (i & Hi & Hit).
    rewrite Hty in Hit. assert (Hmi : i_type i = missing) by (destruct (i_type i); discriminate || reflexivity).
    apply validateTarget_In_type in Hi. rewrite Hmi in Hi.
    apply checkMissingKeys_In in Hi. destruct Hi as (k & e & HinS & HnT1 & _).
    apply HnT1, Hk1. apply keys_after_In.
    + intros j Hj [Hrem Hjk]. unfold is_removal in Hrem.
      destruct (i_type j) eqn:Hjt; try discriminate.
      * apply validateTarget_In_type in Hj. rewrite Hjt in Hj.
        apply checkExtraKeys_In in Hj. destruct Hj as (k' & e' & _ & HnS & ->).
        simpl in Hjk. subst k'. apply HnS. apply in_map_iff. now exists (k, e).
      * apply (Hdup j Hj Hjt). rewrite Hjk. apply in_map_iff. now exists (k, e).
    + destruct (in_dec string_dec k (obj_keys (entries T))) as [HkT|HkT]; [now left|].
      right. eexists. split; [apply validateTarget_has_missing, checkMissingKeys_In;
                              exists k, e; eauto|].
      split; reflexivity.
Qed.

Lemma C6_witness :
  let config := {| doAutoFix := true; preferOrder := Some mirror_source |} in
  let S := file_of "en" json [("a", "Hi {user}"); ("b", "Bye")] in
  let T := file_of "es" json [("x", "old"); ("a", "Hola {usuario}")] in
  exists T1 fixes1 T2 fixes2,
    @autoFix literal_host config S T (@validateTarget literal_host S T) = Some (T1, fixes1)
    /\ @autoFix literal_host config S T1 (@validateTarget literal_host S T1) = Some (T2, fixes2)
    /\ map f_type fixes1 = [addMissing; removeExtra; fixPlaceholder]
    /\ (forall fx, In fx fixes2 -> f_type fx <> removeExtra)
    /\ (forall fx, In fx fixes2 -> f_type fx <> addMissing).
Proof.
  intros config S T.
  match eval vm_compute in (@autoFix literal_host config S T (@validateTarget literal_host S T)) with
  | Some (?T1, ?f1) =>
      match eval vm_compute in
        (@autoFix literal_host config S T1 (@validateTarget literal_host S T1)) with
      | Some (?T2, ?f2) =>
          exists T1, f1, T2, f2;
          pose proof (@C6_second_round literal_host config S T T1 T2 f1 f2
                        eq_refl eq_refl eq_refl) as [Hx Hm]
      end
  end.
  split; [reflexivity | split; [reflexivity | split; [reflexivity | split; [exact Hx|]]]].
  apply Hm. intros i Hi Hd. exfalso.
  simpl in Hi.
  repeat (destruct Hi as [<-|Hi]; [discriminate Hd|]). exact Hi.
Defined.

(** ** Strings: append, prefix, and the scans over a rendered template *)

Lemma app_cons c s t : String c s +:+ t = String c (s +:+ t).
Proof. reflexivity. Qed.
Lemma app_empty t : EmptyString +:+ t = t.
Proof. reflexivity. Qed.
Lemma str_app_assoc s t u : (s +:+ t) +:+ u = s +:+ (t +:+ u).
Proof. induction s as [|c s IH]; [reflexivity|]. rewrite !app_cons. now rewrite IH. Qed.
Lemma str_app_length s t : String.length (s +:+ t) = String.length s + String.length t.
Proof. induction s as [|c s IH]; [reflexivity|]. rewrite app_cons. simpl. now rewrite IH. Qed.

Lemma all_chars_app p s t : all_chars p (s +:+ t) = all_chars p s && all_chars p t.
Proof. induction s as [|c s IH]; [reflexivity|]. rewrite app_cons. simpl. now rewrite IH, andb_assoc. Qed.

Lemma regex_plain_no_brace n : regex_plain n = true -> all_chars (fun c => negb (is_brace c)) n = true.
Proof.
  induction n as [|c n IH]; [reflexivity|]. unfold regex_plain in *. simpl.
  intros Hc. apply andb_true_iff in Hc as [Hc Hn]. rewrite (IH Hn), andb_true_r.
  clear -Hc. unfold is_regex_syntax in Hc. unfold is_brace, is_open, is_close.
  simpl in Hc. rewrite !negb_orb in Hc. rewrite !andb_true_iff in Hc.
  destruct Hc as (_&_&_&_&_&_&_&_&_&_&_&Ho&Hcl&_).
  rewrite negb_orb. now rewrite Ho, Hcl.
Qed.

Lemma regex_plain_dollar_free n : regex_plain n = true -> dollar_free n = true.
Proof.
  induction n as [|c n IH]; [reflexivity|]. unfold regex_plain, dollar_free in *. simpl.
  intros Hc. apply andb_true_iff in Hc as [Hc Hn]. rewrite (IH Hn), andb_true_r.
  clear -Hc. unfold is_regex_syntax in Hc. simpl in Hc. rewrite !negb_orb in Hc.
  rewrite !andb_true_iff in Hc. tauto.
Qed.

Ltac norm_app := repeat (rewrite app_cons || rewrite app_empty).

Lemma no_brace_cons c n :
  all_chars (fun c => negb (is_brace c)) (String c n) = true ->
  is_open c = false /\ is_close c = false /\ all_chars (fun c => negb (is_brace c)) n = true.
Proof.
  simpl. intros Hc. apply andb_true_iff in Hc as [Hc Hn].
  unfold is_brace in Hc. rewrite negb_orb in Hc. apply andb_true_iff in Hc as [Ho Hcl].
  apply negb_true_iff in Ho, Hcl. auto.
Qed.

Lemma span_to_close_name n rest :
  all_chars (fun c => negb (is_brace c)) n = true ->
  span_to_close (n +:+ String "}" rest) = Some (n, rest).
Proof.
  induction n as [|c n IH]; intros Hn; [reflexivity|].
  apply no_brace_cons in Hn as (_ & Hcl & Hn).
  rewrite app_cons. simpl. rewrite Hcl, (IH Hn). reflexivity.
Qed.

Lemma extract_from_skip a k r :
  extract_from (String.length a + k) (a +:+ r) = extract_from k r.
Proof. induction a as [|c a IH]; [reflexivity|]. rewrite app_cons. simpl. exact IH. Qed.

Lemma app_close n r : n +:+ String "}" r = (n +:+ "}") +:+ r.
Proof. now rewrite str_app_assoc. Qed.

Lemma extract_render segs :
  Forall wf_seg segs -> extractPlaceholders (render segs) = names segs.
Proof.
  unfold extractPlaceholders. induction 1 as [|x segs Hx _ IH]; [reflexivity|].
  destruct x as [c|n]; simpl in Hx.
  - simpl. unfold is_brace in Hx. apply orb_false_iff in Hx as [Ho _]. now rewrite Ho.
  - destruct Hx as [Hne Hpl]. apply regex_plain_no_brace in Hpl.
    cbn [render names extract_from].
    change (is_open "{") with true. cbv iota.
    rewrite (span_to_close_name n (render segs) Hpl).
    destruct n as [|a n]; [congruence|]. f_equal.
    rewrite <- IH.
    replace (S (String.length (String a n)))
      with (String.length (String a n +:+ "}") + 0)
      by (rewrite str_app_length; simpl; lia).
    rewrite (app_close (String a n) (render segs)). apply extract_from_skip.
Qed.

Lemma prefix_cons a s b t :
  String.prefix (String a s) (String b t) = Ascii.eqb a b && String.prefix s t.
Proof.
  simpl. destruct (ascii_dec a b) as [->|Hne].
  - now rewrite Ascii.eqb_refl.
  - destruct (Ascii.eqb_spec a b); [congruence | reflexivity].
Qed.

Lemma prefix_empty t : String.prefix EmptyString t = true.
Proof. now destruct t. Qed.

Lemma str_eqb_cons a s b t :
  String.eqb (String a s) (String b t) = Ascii.eqb a b && String.eqb s t.
Proof. simpl. now destruct (Ascii.eqb a b). Qed.

Lemma prefix_close old n rest :
  all_chars (fun c => negb (is_brace c)) old = true ->
  all_chars (fun c => negb (is_brace c)) n = true ->
  String.prefix (old +:+ "}") (n +:+ String "}" rest) = String.eqb n old.
Proof.
  revert n. induction old as [|a old IH]; intros n Ho Hn.
  - destruct n as [|c n]; norm_app; rewrite prefix_cons.
    + now rewrite prefix_empty.
    + apply no_brace_cons in Hn as (_ & Hcl & _).
      unfold is_close in Hcl. rewrite Ascii.eqb_sym, Hcl. reflexivity.
  - apply no_brace_cons in Ho as (_ & Hcla & Ho).
    destruct n as [|c n]; norm_app; rewrite prefix_cons.
    + unfold is_close in Hcla. rewrite Hcla. reflexivity.
    + apply no_brace_cons in Hn as (_ & _ & Hn).
      rewrite str_eqb_cons, (IH n Ho Hn). now rewrite Ascii.eqb_sym.
Qed.

Lemma replaceAll_from_skip pat rep a k r :
  replaceAll_from pat rep (String.length a + k) (a +:+ r) = replaceAll_from pat rep k r.
Proof. induction a as [|c a IH]; [reflexivity|]. rewrite app_cons. simpl. exact IH. Qed.

Lemma replaceAll_from_no_open pat rep a r :
  all_chars (fun c => negb (is_open c)) a = true ->
  replaceAll_from (String "{" pat) rep 0 (a +:+ r)
  = a +:+ replaceAll_from (String "{" pat) rep 0 r.
Proof.
  induction a as [|c a IH]; intros Ha; [reflexivity|].
  simpl in Ha. apply andb_true_iff in Ha as [Hc Ha]. apply negb_true_iff in Hc.
  rewrite !app_cons. cbn [replaceAll_from str_nonempty andb].
  rewrite prefix_cons. unfold is_open in Hc. rewrite Ascii.eqb_sym, Hc. cbn [andb].
  now rewrite (IH Ha).
Qed.

Lemma no_brace_no_open n :
  all_chars (fun c => negb (is_brace c)) n = true ->
  all_chars (fun c => negb (is_open c)) (n +:+ "}") = true.
Proof.
  induction n as [|c n IH]; intros Hn; [reflexivity|].
  apply no_brace_cons in Hn as (Ho & _ & Hn). rewrite app_cons. simpl.
  now rewrite Ho, (IH Hn).
Qed.

Lemma braced_cons n : braced n = String "{" (n +:+ "}").
Proof. reflexivity. Qed.

Lemma replaceAll_render old new segs :
  plain_name old ->
  Forall wf_seg segs ->
  replaceAll (braced old) (braced new) (render segs) = render (rename_all old new segs).
Proof.
  intros [_ Hold]. apply regex_plain_no_brace in Hold.
  unfold replaceAll. rewrite !braced_cons.
  induction 1 as [|x segs Hx _ IH]; [reflexivity|].
  destruct x as [c|n]; simpl in Hx.
  - cbn [render rename_all map]. cbn [replaceAll_from str_nonempty andb].
    unfold is_brace in Hx. apply orb_false_iff in Hx as [Ho _].
    rewrite prefix_cons. unfold is_open in Ho. rewrite Ascii.eqb_sym, Ho. cbn [andb].
    fold (rename_all old new segs). now rewrite IH.
  - destruct Hx as [Hne Hpl]. apply regex_plain_no_brace in Hpl.
    cbn [rename_all map]. fold (rename_all old new segs).
    cbn [render replaceAll_from str_nonempty andb].
    rewrite prefix_cons, Ascii.eqb_refl. cbn [andb].
    rewrite (prefix_close old n (render segs) Hold Hpl).
    unfold rename_name. destruct (String.eqb_spec n old) as [->|Hno].
    + replace (String.length (String "{" (old +:+ "}")) - 1)
        with (String.length (old +:+ "}") + 0) by (simpl; lia).
      rewrite (app_close old (render segs)), replaceAll_from_skip, IH.
      norm_app. now rewrite <- app_close.
    + rewrite (app_close n (render segs)).
      rewrite (replaceAll_from_no_open _ _ _ _ (no_brace_no_open n Hpl)).
      rewrite IH. now rewrite <- app_close.
Qed.


(** ** Fixer: the placeholder fix *)

Lemma rename_all_wf old new segs :
  plain_name new -> Forall wf_seg segs -> Forall wf_seg (rename_all old new segs).
Proof.
  intros Hnew Hwf. unfold rename_all. apply Forall_map.
  eapply Forall_impl; [|exact Hwf]. intros [c|n]; simpl; [auto|].
  unfold rename_name. now destruct (String.eqb n old).
Qed.

Lemma rename_by_map_seq m segs : rename_by_map m segs = map_seg (seq_name m) segs.
Proof.
  revert segs. induction m as [|[old new] m IH]; intros segs.
  - unfold rename_by_map, map_seg. simpl. induction segs as [|[c|n] segs IHs]; simpl; congruence.
  - unfold rename_by_map in *. cbn [fold_left]. rewrite IH.
    unfold map_seg, rename_all. rewrite map_map. apply map_ext. now intros [c|n].
Qed.

Lemma apply_renames_render `{Host} m segs :
  Forall wf_seg segs ->
  (forall old new, In (old, new) m -> plain_name old /\ plain_name new) ->
  apply_renames m (render segs) = Some (render (rename_by_map m segs)).
Proof.
  revert segs. induction m as [|[old new] m IH]; intros segs Hwf Hm; [reflexivity|].
  destruct (Hm old new (or_introl eq_refl)) as [Hold Hnew].
  cbn [apply_renames].
  rewrite regexp_replace_braced_plain;
    [| apply Hold | apply regex_plain_dollar_free, Hnew].
  rewrite (replaceAll_render old new segs Hold Hwf).
  rewrite IH; [reflexivity | now apply rename_all_wf |].
  intros o n Hin. apply Hm. now right.
Qed.

Lemma In_obj_set {V} k v k' v' (o : list (string * V)) :
  In (k', v') (obj_set k v o) -> (k', v') = (k, v) \/ In (k', v') o.
Proof.
  induction o as [|[k1 v1] o IH]; simpl.
  - intros [Heq|[]]; auto.
  - destruct (String.eqb_spec k1 k) as [->|Hne]; simpl.
    + intros [Heq|Hin]; auto.
    + intros [Heq|Hin]; auto. destruct (IH Hin); auto.
Qed.

Lemma placeholderMap_In sp tp old new :
  In (old, new) (placeholderMap sp tp) -> In old tp /\ In new sp.
Proof.
  unfold placeholderMap.
  assert (Hgen : forall pairs acc,
             (forall o n, In (o, n) acc -> In o tp /\ In n sp) ->
             (forall s t, In (s, t) pairs -> In s sp /\ In t tp) ->
             In (old, new)
                (fold_left (fun m '(s, t) => if negb (String.eqb s t) then obj_set t s m else m)
                           pairs acc) ->
             In old tp /\ In new sp).
  { induction pairs as [|[s t] pairs IH]; intros acc Hacc Hp; simpl; [apply Hacc|].
    apply IH.
    - intros o n Hin. destruct (negb (String.eqb s t)); [|now apply Hacc].
      apply In_obj_set in Hin. destruct Hin as [[= -> ->]|Hin]; [|now apply Hacc].
      destruct (Hp s t (or_introl eq_refl)). auto.
    - intros s' t' Hin. apply Hp. now right. }
  apply Hgen; [intros o n [] |].
  intros s t Hin. split; [eapply in_combine_l | eapply in_combine_r]; eassumption.
Qed.

Lemma obj_set_absent {V} k v (o : list (string * V)) :
  ~ In k (obj_keys o) -> obj_set k v o = o ++ [(k, v)].
Proof.
  induction o as [|[k1 v1] o IH]; simpl; [reflexivity|].
  intros Hni. destruct (String.eqb_spec k1 k) as [->|Hne]; [exfalso; auto|].
  rewrite IH; auto.
Qed.

Lemma map_of_pairs_keys pairs t :
  In t (obj_keys (map_of_pairs pairs)) -> In t (map snd pairs).
Proof.
  unfold obj_keys, map_of_pairs. rewrite in_map_iff.
  intros ([t' s'] & Heq & Hin). simpl in Heq. subst t'. apply in_flat_map in Hin.
  destruct Hin as ([s t0] & Hin & Hx). destruct (String.eqb s t0); [contradiction|].
  destruct Hx as [[= -> ->]|[]]. apply in_map_iff. now exists (s', t).
Qed.

Lemma placeholderMap_NoDup sp tp :
  NoDup tp -> placeholderMap sp tp = map_of_pairs (combine sp tp).
Proof.
  intros Hnd. unfold placeholderMap.
  assert (Hgen : forall pairs acc,
             NoDup (map snd pairs) ->
             (forall t, In t (map snd pairs) -> ~ In t (obj_keys acc)) ->
             fold_left (fun m '(s, t) => if negb (String.eqb s t) then obj_set t s m else m)
                       pairs acc
             = acc ++ map_of_pairs pairs).
  { induction pairs as [|[s t] pairs IH]; intros acc Hn Hacc; simpl.
    - now rewrite app_nil_r.
    - simpl in Hn. apply NoDup_cons_iff in Hn as [Hni Hn].
      unfold map_of_pairs. cbn [flat_map]. fold (map_of_pairs pairs).
      destruct (String.eqb s t); simpl.
      + apply IH; [assumption|]. intros t' Ht'. apply Hacc. now right.
      + rewrite obj_set_absent by (apply Hacc; now left).
        rewrite IH; [now rewrite <- app_assoc | assumption |].
        intros t' Ht'. unfold obj_keys. rewrite map_app, in_app_iff. simpl.
        intros [Hin|[<-|[]]]; [apply (Hacc t'); [now right | assumption] | contradiction]. }
  rewrite Hgen; [reflexivity | | intros t _ []].
  clear Hgen. revert sp. induction Hnd as [|t tp Hni Hnd IH]; intros sp.
  - destruct sp; constructor.
  - destruct sp as [|s sp]; [constructor|]. simpl. constructor; [|apply IH].
    intros Hin. apply Hni. apply in_map_iff in Hin. destruct Hin as ([s' t'] & <- & Hin).
    eapply in_combine_r. eassumption.
Qed.

Lemma seq_name_app m1 m2 n : seq_name (m1 ++ m2) n = seq_name m2 (seq_name m1 n).
Proof. unfold seq_name. apply fold_left_app. Qed.

Lemma seq_name_fixed m n :
  ~ In n (obj_keys m) -> seq_name m n = n.
Proof.
  induction m as [|[old new] m IH]; simpl; [reflexivity|].
  intros Hni. unfold seq_name. cbn [fold_left]. unfold rename_name at 2.
  destruct (String.eqb_spec n old) as [->|Hne]; [exfalso; auto|].
  apply IH. auto.
Qed.

Lemma seq_positional tp : forall sp,
  NoDup tp ->
  (forall s t, In (s, t) (combine sp tp) -> s <> t -> ~ In s tp) ->
  map (seq_name (map_of_pairs (combine sp tp))) tp = pos_names sp tp.
Proof.
  induction tp as [|t tp IH]; intros sp Hnd Hfresh; [reflexivity|].
  apply NoDup_cons_iff in Hnd as [Hni Hnd].
  destruct sp as [|s sp].
  - simpl. f_equal. specialize (IH [] Hnd). simpl in IH. apply IH. intros s t' [].
  - cbn [combine pos_names]. unfold map_of_pairs. cbn [flat_map].
    fold (map_of_pairs (combine sp tp)). cbn [map].
    assert (Hs : ~ In s tp).
    { destruct (String.eqb_spec s t) as [->|Hne]; [assumption|].
      intros Hin. apply (Hfresh s t (or_introl eq_refl) Hne). now right. }
    assert (Hsub : forall x, In x (obj_keys (map_of_pairs (combine sp tp))) -> In x tp).
    { intros x Hx. apply map_of_pairs_keys in Hx. apply in_map_iff in Hx.
      destruct Hx as ([s' t'] & <- & Hin). eapply in_combine_r. eassumption. }
    f_equal.
    + rewrite seq_name_app.
      replace (seq_name (if String.eqb s t then [] else [(t, s)]) t) with s.
      * apply seq_name_fixed. intros Hin. apply Hs. now apply Hsub.
      * destruct (String.eqb_spec s t) as [->|Hne]; [reflexivity|].
        unfold seq_name, rename_name. simpl. now rewrite String.eqb_refl.
    + rewrite <- (IH sp Hnd).
      * apply map_ext_in. intros n Hn. rewrite seq_name_app. f_equal.
        destruct (String.eqb s t); [reflexivity|].
        unfold seq_name, rename_name. simpl.
        destruct (String.eqb_spec n t) as [->|Hne]; [contradiction | reflexivity].
      * intros s' t' Hin Hne Hin'. apply (Hfresh s' t'); [now right | assumption | now right].
Qed.

Lemma names_map_seg f segs : names (map_seg f segs) = map f (names segs).
Proof. induction segs as [|[c|n] segs IH]; simpl; congruence. Qed.

Lemma positional_as_map segs : forall sp f,
  map f (names segs) = pos_names sp (names segs) ->
  map_seg f segs = rename_positional sp segs.
Proof.
  induction segs as [|[c|n] segs IH]; intros sp f Hmap; [reflexivity| |].
  - simpl. f_equal. now apply IH.
  - simpl in Hmap. cbn [map_seg map rename_positional]. fold (map_seg f segs).
    destruct sp as [|s sp]; injection Hmap as Hn Hrest; rewrite Hn; f_equal; now apply IH.
Qed.


Lemma render_nonempty segs : segs <> [] -> render segs <> EmptyString.
Proof. destruct segs as [|[c|n] segs]; [congruence | discriminate | discriminate]. Qed.

Lemma generatePlaceholderFix_nonempty `{Host} (issue : ValidationIssue) (sv tv : string) :
  i_sourceValue issue = Some sv -> sv <> EmptyString ->
  i_targetValue issue = Some tv -> tv <> EmptyString ->
  generatePlaceholderFix issue
  = match apply_renames (placeholderMap (extractPlaceholders sv) (extractPlaceholders tv)) tv with
    | Some fixedValue =>
        Some {| f_type := fixPlaceholder; f_locale := i_locale issue; f_key := i_key issue;
                f_oldValue := Some tv; f_newValue := Some fixedValue;
                f_description := "Fix placeholder names to match source" |}
    | None => None
    end.
Proof.
  intros Hs Hsne Ht Htne. unfold generatePlaceholderFix. rewrite Hs, Ht.
  destruct sv; [congruence|]. destruct tv; [congruence|]. reflexivity.
Qed.



(** ** The Fixer on the store: frame and refinement *)

Lemma frame_refl n0 h : frame n0 h h.
Proof. split; auto. Qed.

Lemma frame_trans n0 h1 h2 h3 : frame n0 h1 h2 -> frame n0 h2 h3 -> frame n0 h1 h3.
Proof.
  intros [L1 F1] [L2 F2]. split; [lia|]. intros l Hl. rewrite F2, F1; auto.
Qed.

Lemma frame_alloc n0 h c : n0 <= length h -> frame n0 h (h ++ [c]).
Proof.
  intros Hn. split; [rewrite length_app; simpl; lia|].
  intros l Hl. apply lookup_app_l. lia.
Qed.

Lemma frame_store n0 h l c : n0 <= l -> frame n0 h (<[l := c]> h).
Proof.
  intros Hn. split; [now rewrite length_insert|].
  intros l' Hl'. apply list_lookup_insert_ne. lia.
Qed.

Lemma get_file_Some f h x :
  get_file f h = Some x ->
  exists lc p fm es rw lm, x = (lc, p, fm, es, rw, lm) /\ h !! f = Some (CFile lc p fm es rw lm).
Proof.
  unfold get_file. destruct (h !! f) as [[lc p fm es rw lm| | |]|]; try discriminate.
  intros [= <-]. eauto 10.
Qed.

Lemma get_entries_Some l h m : get_entries l h = Some m <-> h !! l = Some (CEntries m).
Proof.
  unfold get_entries. destruct (h !! l) as [[| m' | |]|]; split; intros Hx; try discriminate;
    congruence.
Qed.

Lemma get_entry_Some l h e : get_entry l h = Some e <-> h !! l = Some (CEntry e).
Proof.
  unfold get_entry. destruct (h !! l) as [[| | e' |]|]; split; intros Hx; try discriminate;
    congruence.
Qed.

Lemma get_raw_Some l h o : get_raw l h = Some o <-> h !! l = Some (CRaw o).
Proof.
  unfold get_raw. destruct (h !! l) as [[| | | o']|]; split; intros Hx; try discriminate;
    congruence.
Qed.

Lemma lookup_store_ne (h : heap) l l' c : l <> l' -> <[l := c]> h !! l' = h !! l'.
Proof. apply list_lookup_insert_ne. Qed.

Lemma lookup_store_eq (h : heap) l c c0 : h !! l = Some c0 -> <[l := c]> h !! l = Some c.
Proof. intros Hl. apply list_lookup_insert_eq. eapply lookup_lt_Some; eassumption. Qed.

Lemma lookup_alloc_old (h : heap) l c c0 : h !! l = Some c0 -> (h ++ [c]) !! l = Some c0.
Proof. intros Hl. rewrite lookup_app_l; [assumption|]. eapply lookup_lt_Some; eassumption. Qed.

Lemma lookup_alloc_new (h : heap) c : (h ++ [c]) !! length h = Some c.
Proof. now apply list_lookup_middle. Qed.

Lemma Forall_snd_obj_set (n0 : nat) k (l : loc) (m : list (string * loc)) :
  n0 <= l -> Forall (fun kl => n0 <= snd kl) m ->
  Forall (fun kl => n0 <= snd kl) (obj_set k l m).
Proof.
  intros Hl. induction 1 as [|[k' l'] m Hx Hm IH]; simpl.
  - constructor; [assumption | constructor].
  - destruct (String.eqb k' k); constructor; simpl; auto.
Qed.

Lemma Forall_snd_obj_delete (n0 : nat) k (m : list (string * loc)) :
  Forall (fun kl => n0 <= snd kl) m ->
  Forall (fun kl => n0 <= snd kl) (obj_delete k m).
Proof.
  induction 1 as [|[k' l'] m Hx Hm IH]; simpl; [constructor|].
  destruct (String.eqb k' k); [assumption | constructor; assumption].
Qed.

Lemma Forall_snd_obj_get (n0 : nat) k (l : loc) (m : list (string * loc)) :
  Forall (fun kl => n0 <= snd kl) m -> obj_get k m = Some l -> n0 <= l.
Proof.
  intros Hall Hg. apply obj_get_In in Hg. rewrite Forall_forall in Hall.
  exact (Hall _ Hg).
Qed.

Lemma owned_intro n0 f h lc p fm es rw lm m :
  n0 <= f -> h !! f = Some (CFile lc p fm es rw lm) ->
  n0 <= es -> n0 <= rw ->
  (h !! es = Some (CEntries m) -> Forall (fun kl => n0 <= snd kl) m) ->
  (forall m', h !! es = Some (CEntries m') -> m' = m) ->
  owned n0 f h.
Proof.
  intros Hf Hfile Hes Hrw Hm Huniq. split; [assumption|].
  intros lc' p' fm' es' rw' lm' Hg. unfold get_file in Hg. rewrite Hfile in Hg.
  injection Hg as <- <- <- <- <- <-. split; [assumption | split; [assumption|]].
  intros m' Hm'. apply get_entries_Some in Hm'. pose proof (Huniq _ Hm') as ->.
  now apply Hm.
Qed.

Lemma owned_frame_length n0 h h' : frame n0 h h' -> n0 <= length h -> n0 <= length h'.
Proof. intros [L _] Hn. lia. Qed.

Section StoreFacts.
Context `{Host}.
Variable config : LocalzConfig.
Variable source : loc.

(** Applying a fix writes to cells of the clone only. *)
Lemma applyFix_store_frame (n0 : nat) (fx : Fix) (f : loc) (h : heap) :
  n0 <= length h -> owned n0 f h ->
  frame n0 h (fst (applyFix_store source fx f h))
  /\ owned n0 f (fst (applyFix_store source fx f h)).
Proof.
  intros Hn [Hf Hown]. unfold applyFix_store, bind, lift.
  destruct (get_file f h) as [[[[[[lc p] fm] es] rw] lm]|] eqn:Hgf;
    [|simpl; split; [apply frame_refl | split; [assumption|]]; intros; congruence].
  destruct (Hown _ _ _ _ _ _ eq_refl) as (Hes & Hrw & Hm).
  apply get_file_Some in Hgf.
  destruct Hgf as (lc' & p' & fm' & es' & rw' & lm' & [= <- <- <- <- <- <-] & Hfile).
  assert (Hsame : owned n0 f h).
  { split; [assumption|]. intros ? ? ? ? ? ? Hg. unfold get_file in Hg. rewrite Hfile in Hg.
    injection Hg as <- <- <- <- <- <-. auto. }
  destruct (get_entries es h) as [m|] eqn:Hge;
    [|simpl; split; [apply frame_refl | exact Hsame]].
  specialize (Hm m eq_refl). apply get_entries_Some in Hge.
  assert (Hfes : f <> es) by (intros ->; congruence).
  assert (Hremove :
    let m0 := (_ <- store es (CEntries (obj_delete (f_key fx) m)) ;;
               o <- lift (get_raw rw) ;;
               store rw (CRaw (obj_delete ("@" +:+ f_key fx) (obj_delete (f_key fx) o)))) in
    frame n0 h (fst (m0 h)) /\ owned n0 f (fst (m0 h))).
  { unfold bind, lift, store. simpl.
    set (h1 := <[es := CEntries (obj_delete (f_key fx) m)]> h).
    assert (Hf1 : h1 !! f = Some (CFile lc p fm es rw lm))
      by (unfold h1; rewrite lookup_store_ne by auto; assumption).
    assert (He1 : h1 !! es = Some (CEntries (obj_delete (f_key fx) m)))
      by (unfold h1; eapply lookup_store_eq; eassumption).
    assert (Hfr1 : frame n0 h h1) by (apply frame_store; assumption).
    assert (Hown1 : owned n0 f h1).
    { eapply (owned_intro n0 f _ lc p fm es rw lm (obj_delete (f_key fx) m));
        try eassumption.
      - intros _. apply Forall_snd_obj_delete; assumption.
      - intros m' Hm'. congruence. }
    destruct (get_raw rw h1) as [o|] eqn:Hgr; simpl; [|split; assumption].
    apply get_raw_Some in Hgr.
    assert (Hfrw : f <> rw) by (intros ->; congruence).
    assert (Herw : es <> rw) by (intros ->; congruence).
    split.
    + eapply frame_trans; [exact Hfr1 | apply frame_store; assumption].
    + eapply (owned_intro n0 f _ lc p fm es rw lm (obj_delete (f_key fx) m));
        try assumption.
      * rewrite lookup_store_ne by auto. exact Hf1.
      * intros _. apply Forall_snd_obj_delete; assumption.
      * intros m' Hm'. rewrite lookup_store_ne in Hm' by auto. congruence. }
  assert (Hvalue :
    let m0 := match f_newValue fx, obj_get (f_key fx) m with
              | Some (String a nv), Some l =>
                  e <- lift (get_entry l) ;;
                  store l (CEntry (set_value e (String a nv)))
              | _, _ => ret tt
              end in
    frame n0 h (fst (m0 h)) /\ owned n0 f (fst (m0 h))).
  { destruct (f_newValue fx) as [[|a nv]|];
      destruct (obj_get (f_key fx) m) as [l|] eqn:Hg; simpl;
      try (split; [apply frame_refl | exact Hsame]).
    unfold bind, lift, store.
    destruct (get_entry l h) as [e|] eqn:Hle; simpl;
      [|split; [apply frame_refl | exact Hsame]].
    apply get_entry_Some in Hle.
    pose proof (Forall_snd_obj_get n0 _ _ _ Hm Hg) as Hl.
    assert (Hlf : l <> f) by (intros ->; congruence).
    assert (Hle' : l <> es) by (intros ->; congruence).
    split; [apply frame_store; assumption|].
    eapply (owned_intro n0 f _ lc p fm es rw lm m); try assumption.
    - rewrite lookup_store_ne by auto. exact Hfile.
    - intros _. assumption.
    - intros m' Hm'. rewrite lookup_store_ne in Hm' by auto. congruence. }
  destruct (f_type fx); try exact Hremove; try exact Hvalue.
  (* addMissing *)
  destruct (load_file source h) as [sourceFile|];
    [|simpl; split; [apply frame_refl | exact Hsame]].
  destruct (obj_get (f_key fx) (entries sourceFile)) as [sourceEntry|];
    [|simpl; split; [apply frame_refl | exact Hsame]].
  unfold alloc, store. simpl. split.
  + eapply frame_trans; [apply frame_alloc; lia | apply frame_store; lia].
  + eapply (owned_intro n0 f _ lc p fm es rw lm
              (obj_set (f_key fx) (length h) m)); try assumption.
    * rewrite lookup_store_ne by auto. eapply lookup_alloc_old; eassumption.
    * intros _. apply Forall_snd_obj_set; assumption.
    * intros m' Hm'. erewrite lookup_store_eq in Hm' by (eapply lookup_alloc_old; eassumption).
      congruence.
Qed.


Lemma reorderToMatchSource_store_frame (n0 : nat) (f : loc) (h : heap) :
  n0 <= length h -> n0 <= f ->
  frame n0 h (fst (reorderToMatchSource_store source f h)).
Proof.
  intros Hn Hf. unfold reorderToMatchSource_store, bind, lift.
  destruct (load_file source h) as [sourceFile|]; [|apply frame_refl].
  destruct (get_file f h) as [[[[[[lc p] fm] es] rw] lm]|]; [|apply frame_refl].
  destruct (get_entries es h) as [m|]; [|apply frame_refl].
  unfold alloc, store. simpl.
  eapply frame_trans; [apply frame_alloc; lia | apply frame_store; lia].
Qed.

Lemma reorderAlphabetically_store_frame (n0 : nat) (f : loc) (h : heap) :
  n0 <= length h -> n0 <= f ->
  frame n0 h (fst (reorderAlphabetically_store f h)).
Proof.
  intros Hn Hf. unfold reorderAlphabetically_store, bind, lift.
  destruct (get_file f h) as [[[[[[lc p] fm] es] rw] lm]|]; [|apply frame_refl].
  destruct (get_entries es h) as [m|]; [|apply frame_refl].
  unfold alloc, store. simpl.
  eapply frame_trans; [apply frame_alloc; lia | apply frame_store; lia].
Qed.

Lemma fix_loop_store_frame (n0 : nat) (f : loc) (issues : list ValidationIssue) :
  forall (acc : list Fix) (h : heap),
  n0 <= length h -> owned n0 f h ->
  frame n0 h (fst (fix_loop_store config source issues f acc h))
  /\ owned n0 f (fst (fix_loop_store config source issues f acc h)).
Proof.
  induction issues as [|issue issues IH]; intros acc h Hn Hown.
  - simpl. split; [apply frame_refl | assumption].
  - destruct (fix_loop_store config source (issue :: issues) f acc h) as [h' r] eqn:E.
    cbn [fix_loop_store] in E. unfold bind at 1, lift at 1 in E.
    destruct (load_file source h) as [sourceFile|];
      [|injection E as <- <-; split; [apply frame_refl | assumption]].
    unfold bind at 1, lift at 1 in E.
    destruct (load_file f h) as [targetFile|];
      [|injection E as <- <-; split; [apply frame_refl | assumption]].
    destruct (generateFix sourceFile issue targetFile) as [fx|];
      [|injection E as <- <-; split; [apply frame_refl | assumption]].
    destruct (doAutoFix config).
    + unfold bind in E.
      destruct (applyFix_store_frame n0 fx f h Hn Hown) as [Hfr Hown'].
      destruct (applyFix_store source fx f h) as [h1 [[]|]]; simpl in Hfr, Hown';
        [|injection E as <- <-; split; assumption].
      pose proof (owned_frame_length _ _ _ Hfr Hn) as Hn1.
      destruct (IH (acc ++ [fx]) h1 Hn1 Hown') as [Hfr2 Hown2].
      rewrite E in Hfr2, Hown2. simpl in Hfr2, Hown2.
      split; [eapply frame_trans; eassumption | assumption].
    + destruct (IH acc h Hn Hown) as [Hfr2 Hown2].
      rewrite E in Hfr2, Hown2. split; assumption.
Qed.

Lemma clone_entries_spec (n0 : nat) (m : list (string * loc)) :
  forall (memo : list (loc * loc)) (h : heap),
  n0 <= length h ->
  Forall (fun p => n0 <= snd p) memo ->
  frame n0 h (fst (clone_entries m memo h))
  /\ forall m', snd (clone_entries m memo h) = Some m' ->
       Forall (fun kl => n0 <= snd kl) m'.
Proof.
  induction m as [|[k l] m IH]; intros memo h Hn Hmemo.
  - simpl. split; [apply frame_refl|]. intros m' [= <-]. constructor.
  - destruct (clone_entries ((k, l) :: m) memo h) as [h' r] eqn:E.
    cbn [clone_entries] in E.
    destruct (find (fun p => Nat.eqb (fst p) l) memo) as [[l0 l']|] eqn:Hfind.
    + apply find_some in Hfind. destruct Hfind as [Hin _].
      pose proof Hmemo as Hmemo'.
      rewrite Forall_forall in Hmemo'. pose proof (Hmemo' _ Hin) as Hl'. simpl in Hl'.
      unfold bind in E. destruct (IH memo h Hn Hmemo) as [Hfr Hres].
      destruct (clone_entries m memo h) as [h1 [rest|]]; simpl in *;
        injection E as <- <-; (split; [assumption|]).
      * intros m' [= <-]. constructor; [assumption | now apply Hres].
      * intros m' [=].
    + unfold bind at 1, lift in E.
      destruct (get_entry l h) as [e|];
        [|injection E as <- <-; split; [apply frame_refl | intros m' [=]]].
      unfold bind at 1, alloc in E.
      assert (Hn1 : n0 <= length (h ++ [CEntry e])) by (rewrite length_app; simpl; lia).
      assert (Hmemo1 : Forall (fun p => n0 <= snd p) ((l, length h) :: memo))
        by (constructor; [simpl; lia | assumption]).
      unfold bind in E. destruct (IH _ _ Hn1 Hmemo1) as [Hfr Hres].
      destruct (clone_entries m ((l, length h) :: memo) (h ++ [CEntry e])) as [h1 [rest|]];
        simpl in *; injection E as <- <-;
        (split; [eapply frame_trans; [apply frame_alloc; lia | exact Hfr]|]).
      * intros m' [= <-]. constructor; [simpl; lia | now apply Hres].
      * intros m' [=].
Qed.

Lemma cloneDeep_spec (t : loc) (h : heap) :
  frame (length h) h (fst (cloneDeep t h))
  /\ forall f, snd (cloneDeep t h) = Some f ->
       owned (length h) f (fst (cloneDeep t h)).
Proof.
  destruct (cloneDeep t h) as [h' r] eqn:E.
  unfold cloneDeep, bind at 1, lift at 1 in E.
  destruct (get_file t h) as [[[[[[lc p] fm] es] rw] lm]|];
    [|injection E as <- <-; split; [apply frame_refl | intros f [=]]].
  unfold bind at 1, lift at 1 in E.
  destruct (get_entries es h) as [m|];
    [|injection E as <- <-; split; [apply frame_refl | intros f [=]]].
  unfold bind at 1 in E.
  destruct (clone_entries_spec (length h) m [] h (le_n _) (Forall_nil _)) as [Hfr Hres].
  destruct (clone_entries m [] h) as [h1 [m'|]];
    simpl in Hfr, Hres; [|injection E as <- <-; split; [assumption | intros f [=]]].
  specialize (Hres m' eq_refl).
  pose proof (owned_frame_length _ _ _ Hfr (le_n _)) as Hn1.
  unfold bind at 1, alloc at 1 in E. unfold bind at 1, lift at 1 in E.
  set (h2 := h1 ++ [CEntries m']) in *.
  assert (Hfr2 : frame (length h) h h2)
    by (eapply frame_trans; [exact Hfr | apply frame_alloc; assumption]).
  destruct (get_raw rw h2) as [o|];
    [|injection E as <- <-; split; [assumption | intros f [=]]].
  unfold bind, alloc in E. simpl in E.
  set (h3 := h2 ++ [CRaw o]) in *.
  assert (Hl2 : length h2 = S (length h1)) by (unfold h2; rewrite length_app; simpl; lia).
  assert (Hl3 : length h3 = S (length h2)) by (unfold h3; rewrite length_app; simpl; lia).
  injection E as <- <-. simpl. split.
  - eapply frame_trans; [exact Hfr2|].
    eapply frame_trans; apply frame_alloc; lia.
  - intros f [= <-].
    eapply (owned_intro _ _ _ lc p fm (length h1) (length h2) lm m'); try lia.
    + apply lookup_alloc_new.
    + intros _. exact Hres.
    + intros m0 Hm0.
      assert (Hes : (h3 ++ [CFile lc p fm (length h1) (length h2) lm]) !! length h1
                    = Some (CEntries m')).
      { eapply lookup_alloc_old. unfold h3. eapply lookup_alloc_old.
        unfold h2. apply lookup_alloc_new. }
      congruence.
Qed.
End StoreFacts.



Lemma frame_extends (h h' : heap) : frame (length h) h h' -> extends h h'.
Proof.
  intros [_ Hf] l c Hl. rewrite Hf; [assumption|]. eapply lookup_lt_Some; eassumption.
Qed.

Lemma get_entry_extends h h' l e : extends h h' -> get_entry l h = Some e -> get_entry l h' = Some e.
Proof. intros Hx Hg. apply get_entry_Some. apply Hx. now apply get_entry_Some. Qed.

Lemma load_entries_extends h h' m es :
  extends h h' -> load_entries m h = Some es -> load_entries m h' = Some es.
Proof.
  intros Hx. revert es. induction m as [|[k l] m IH]; intros es; simpl; [auto|].
  destruct (get_entry l h) as [e|] eqn:He; [|discriminate].
  destruct (load_entries m h) as [es'|]; [|discriminate].
  intros [= <-]. rewrite (get_entry_extends _ _ _ _ Hx He), (IH es' eq_refl). reflexivity.
Qed.

Lemma load_file_extends h h' l T :
  extends h h' -> load_file l h = Some T -> load_file l h' = Some T.
Proof.
  intros Hx. unfold load_file.
  destruct (get_file l h) as [[[[[[lc p] fm] es] rw] lm]|] eqn:Hgf; [|discriminate].
  destruct (get_entries es h) as [m|] eqn:Hge; [|discriminate].
  destruct (get_raw rw h) as [o|] eqn:Hgr; [|discriminate].
  destruct (load_entries m h) as [ens|] eqn:Hle; [|discriminate].
  intros [= <-].
  apply get_file_Some in Hgf.
  destruct Hgf as (? & ? & ? & ? & ? & ? & [= <- <- <- <- <- <-] & Hfile).
  apply get_entries_Some in Hge. apply get_raw_Some in Hgr.
  unfold get_file, get_entries, get_raw.
  rewrite (Hx _ _ Hfile), (Hx _ _ Hge), (Hx _ _ Hgr), (load_entries_extends _ _ _ _ Hx Hle).
  reflexivity.
Qed.

Lemma obj_delete_locs (m : list (string * loc)) k l :
  In l (map snd (obj_delete k m)) -> In l (map snd m).
Proof.
  induction m as [|[k2 l2] m IH]; simpl; [tauto|].
  destruct (String.eqb k2 k); simpl; tauto.
Qed.


Lemma denotes_load f T h : denotes f T h -> load_file f h = Some T.
Proof.
  intros (es & rw & m & Hf & He & Hr & Hl & _). unfold load_file, get_file, get_entries, get_raw.
  rewrite Hf, He, Hr, Hl. now destruct T.
Qed.

Lemma load_entries_locs m h es l :
  load_entries m h = Some es -> In l (map snd m) -> exists e, h !! l = Some (CEntry e).
Proof.
  revert es. induction m as [|[k l1] m IH]; intros es; simpl; [tauto|].
  destruct (get_entry l1 h) as [e|] eqn:He; [|discriminate].
  destruct (load_entries m h) as [es'|]; [|discriminate].
  intros _ [<-|Hin]; [apply get_entry_Some in He; eauto | eapply IH; eauto].
Qed.

Lemma load_entries_keys m h es : load_entries m h = Some es -> obj_keys es = obj_keys m.
Proof.
  revert es. induction m as [|[k l] m IH]; intros es; simpl; [now intros [= <-]|].
  destruct (get_entry l h); [|discriminate].
  destruct (load_entries m h) as [es'|]; [|discriminate].
  intros [= <-]. simpl. f_equal. now apply IH.
Qed.

Lemma load_entries_obj_get m h es k :
  load_entries m h = Some es ->
  match obj_get k m with
  | Some l => exists e, h !! l = Some (CEntry e) /\ obj_get k es = Some e
  | None => obj_get k es = None
  end.
Proof.
  revert es. induction m as [|[k1 l1] m IH]; intros es; simpl; [now intros [= <-]|].
  destruct (get_entry l1 h) as [e|] eqn:He; [|discriminate].
  destruct (load_entries m h) as [es'|]; [|discriminate].
  intros [= <-]. simpl. destruct (String.eqb k1 k).
  - exists e. split; [now apply get_entry_Some | reflexivity].
  - now apply IH.
Qed.

Lemma load_entries_obj_set m h es k l e :
  load_entries m h = Some es -> h !! l = Some (CEntry e) ->
  load_entries (obj_set k l m) h = Some (obj_set k e es).
Proof.
  intros Hl He. apply get_entry_Some in He.
  revert es Hl. induction m as [|[k1 l1] m IH]; intros es; simpl.
  - intros [= <-]. simpl. now rewrite He.
  - destruct (get_entry l1 h) as [e1|] eqn:He1; [|discriminate].
    destruct (load_entries m h) as [es'|] eqn:Hm; [|discriminate].
    intros [= <-]. simpl. destruct (String.eqb k1 k); simpl.
    + now rewrite He, Hm.
    + now rewrite He1, (IH es' eq_refl).
Qed.

Lemma load_entries_obj_delete m h es k :
  load_entries m h = Some es ->
  load_entries (obj_delete k m) h = Some (obj_delete k es).
Proof.
  revert es. induction m as [|[k1 l1] m IH]; intros es; simpl; [now intros [= <-]|].
  destruct (get_entry l1 h) as [e1|] eqn:He1; [|discriminate].
  destruct (load_entries m h) as [es'|]; [|discriminate].
  intros [= <-]. simpl. destruct (String.eqb k1 k); simpl.
  - now apply IH.
  - now rewrite He1, (IH es' eq_refl).
Qed.

Lemma load_entries_store_other m h es l c :
  load_entries m h = Some es -> ~ In l (map snd m) ->
  load_entries m (<[l := c]> h) = Some es.
Proof.
  revert es. induction m as [|[k1 l1] m IH]; intros es; simpl; [auto|].
  destruct (get_entry l1 h) as [e1|] eqn:He1; [|discriminate].
  destruct (load_entries m h) as [es'|]; [|discriminate].
  intros [= <-] Hni. unfold get_entry in *.
  rewrite lookup_store_ne by (intros ->; apply Hni; now left).
  rewrite He1, (IH es' eq_refl); [reflexivity|]. intros Hin. apply Hni. now right.
Qed.

Lemma load_entries_store_entry m h es k l e e' :
  load_entries m h = Some es -> NoDup (map snd m) ->
  obj_get k m = Some l -> h !! l = Some (CEntry e) ->
  load_entries m (<[l := CEntry e']> h) = Some (obj_set k e' es).
Proof.
  intros Hl Hnd Hg He. revert es Hl Hnd Hg.
  induction m as [|[k1 l1] m IH]; intros es; simpl; [discriminate|].
  destruct (get_entry l1 h) as [e1|] eqn:He1; [|discriminate].
  destruct (load_entries m h) as [es'|] eqn:Hm; [|discriminate].
  intros [= <-] Hnd Hg. apply NoDup_cons_iff in Hnd as [Hni Hnd]. simpl.
  destruct (String.eqb k1 k).
  - injection Hg as ->. unfold get_entry. erewrite lookup_store_eq by eassumption.
    now rewrite (load_entries_store_other _ _ _ _ _ Hm Hni).
  - assert (Hne : l <> l1).
    { intros ->. apply Hni. apply obj_get_In in Hg. apply in_map_iff. now exists (k, l1). }
    unfold get_entry in *. rewrite lookup_store_ne by auto. rewrite He1.
    now rewrite (IH es' eq_refl Hnd Hg).
Qed.

Lemma NoDup_snd_obj_set (m : list (string * loc)) k l :
  NoDup (map snd m) -> ~ In l (map snd m) -> NoDup (map snd (obj_set k l m)).
Proof.
  induction m as [|[k1 l1] m IH]; simpl; intros Hnd Hni.
  - constructor; [tauto | constructor].
  - apply NoDup_cons_iff in Hnd as [Hn1 Hnd].
    destruct (String.eqb k1 k); simpl.
    + constructor; [tauto | assumption].
    + constructor; [|apply IH; tauto].
      intros Hin. apply in_map_iff in Hin. destruct Hin as ([k2 l2] & Heq & Hin).
      simpl in Heq. subst l2. apply In_obj_set in Hin.
      destruct Hin as [[= _ ->]|Hin]; [tauto|].
      apply Hn1. apply in_map_iff. now exists (k2, l1).
Qed.

Lemma NoDup_snd_obj_delete (m : list (string * loc)) k :
  NoDup (map snd m) -> NoDup (map snd (obj_delete k m)).
Proof.
  induction m as [|[k1 l1] m IH]; simpl; intros Hnd; [constructor|].
  apply NoDup_cons_iff in Hnd as [Hn1 Hnd].
  destruct (String.eqb k1 k); simpl; [auto|].
  constructor; [|auto]. intros Hin. apply Hn1.
  clear -Hin. induction m as [|[k2 l2] m IH]; simpl in *; [contradiction|].
  destruct (String.eqb k2 k); simpl in *; tauto.
Qed.

Ltac kinds_differ :=
  match goal with
  | |- ?a <> ?b => let E := fresh in intros E; subst; congruence
  end.

Lemma entry_loc_not (h : heap) m es l c :
  load_entries m h = Some es -> h !! l = Some c ->
  (forall e, c <> CEntry e) -> ~ In l (map snd m).
Proof.
  intros Hl Hc Hne Hin. destruct (load_entries_locs _ _ _ _ Hl Hin) as [e He].
  apply (Hne e). congruence.
Qed.

Lemma load_entries_fresh (h : heap) m es :
  load_entries m h = Some es -> ~ In (length h) (map snd m).
Proof.
  intros Hl Hin. destruct (load_entries_locs _ _ _ _ Hl Hin) as [e He].
  apply lookup_lt_Some in He. lia.
Qed.

Lemma extends_alloc (h : heap) c : extends h (h ++ [c]).
Proof. intros l c0 Hl. eapply lookup_alloc_old; eassumption. Qed.

Lemma NoDup_snd_unique (m : list (string * loc)) k k' l :
  NoDup (map snd m) -> In (k, l) m -> In (k', l) m -> k = k'.
Proof.
  induction m as [|[k1 l1] m IH]; simpl; [tauto|].
  intros Hnd. apply NoDup_cons_iff in Hnd as [Hni Hnd].
  intros [H1|H1] [H2|H2].
  - congruence.
  - injection H1 as -> ->. exfalso. apply Hni. apply in_map_iff. now exists (k', l).
  - injection H2 as -> ->. exfalso. apply Hni. apply in_map_iff. now exists (k, l).
  - now apply IH.
Qed.

Lemma NoDup_snd_sub (acc m : list (string * loc)) :
  sub_obj acc m -> NoDup (map snd m) -> NoDup (obj_keys acc) -> NoDup (map snd acc).
Proof.
  intros Hsub Hnd. induction acc as [|[k l] acc IH]; simpl; intros Hk; [constructor|].
  apply NoDup_cons_iff in Hk as [Hni Hk]. constructor.
  - intros Hin. apply in_map_iff in Hin. destruct Hin as ([k' l'] & Heq & Hin).
    simpl in Heq. subst l'.
    assert (k = k').
    { eapply NoDup_snd_unique; [exact Hnd | apply Hsub; now left | apply Hsub; now right]. }
    subst k'. apply Hni. apply in_map_iff. now exists (k, l).
  - apply IH; [|assumption]. intros k' l' Hin. apply Hsub. now right.
Qed.

Lemma sub_obj_set (acc m : list (string * loc)) k l :
  sub_obj acc m -> In (k, l) m -> sub_obj (obj_set k l acc) m.
Proof.
  intros Hsub Hin k' l' Hin'. apply In_obj_set in Hin'.
  destruct Hin' as [[= -> ->]|Hin']; auto.
Qed.

Lemma fold_keys_sim (m : list (string * loc)) (h : heap) (es : list (string * LocaleEntry))
      (ks : list string) :
  load_entries m h = Some es ->
  forall accl acce,
    load_entries accl h = Some acce -> sub_obj accl m -> NoDup (obj_keys accl) ->
    let rl := fold_left (fun acc k => match obj_get k m with
                                      | Some l => obj_set k l acc
                                      | None => acc end) ks accl in
    load_entries rl h
    = Some (fold_left (fun acc k => match obj_get k es with
                                    | Some e => obj_set k e acc
                                    | None => acc end) ks acce)
    /\ sub_obj rl m /\ NoDup (obj_keys rl).
Proof.
  intros Hl. induction ks as [|k ks IH]; intros accl acce Ha Hsub Hnk; simpl; [auto|].
  pose proof (load_entries_obj_get m h es k Hl) as Hg.
  destruct (obj_get k m) as [l|] eqn:Hgm.
  - destruct Hg as (e & Hle & Hge). rewrite Hge. apply IH.
    + now apply load_entries_obj_set.
    + apply sub_obj_set; [assumption | now apply obj_get_In].
    + now apply NoDup_keys_set.
  - rewrite Hg. now apply IH.
Qed.

Lemma fold_pairs_sim (h : heap) (m : list (string * loc)) :
  forall (ml : list (string * loc)) (el : list (string * LocaleEntry)),
  load_entries ml h = Some el -> sub_obj ml m ->
  forall accl acce,
    load_entries accl h = Some acce -> sub_obj accl m -> NoDup (obj_keys accl) ->
    let rl := fold_left (fun acc '(k, l) => obj_set k l acc) ml accl in
    load_entries rl h = Some (fold_left (fun acc '(k, e) => obj_set k e acc) el acce)
    /\ sub_obj rl m /\ NoDup (obj_keys rl).
Proof.
  induction ml as [|[k l] ml IH]; intros el Hl Hsm accl acce Ha Hsub Hnk; simpl in Hl.
  - injection Hl as <-. simpl. auto.
  - destruct (get_entry l h) as [e|] eqn:He; [|discriminate].
    destruct (load_entries ml h) as [el'|] eqn:Hml; [|discriminate].
    injection Hl as <-. cbn [fold_left]. apply IH.
    + reflexivity.
    + intros k' l' Hin. apply Hsm. now right.
    + apply load_entries_obj_set; [assumption | now apply get_entry_Some].
    + apply sub_obj_set; [assumption | apply Hsm; now left].
    + now apply NoDup_keys_set.
Qed.

Lemma load_entries_filter (h : heap) (P : string -> bool) (m : list (string * loc)) :
  forall es, load_entries m h = Some es ->
  load_entries (filter (fun '(k, _) => P k) m) h
  = Some (filter (fun '(k, _) => P k) es).
Proof.
  induction m as [|[k l] m IH]; intros es; simpl; [now intros [= <-]|].
  destruct (get_entry l h) as [e|] eqn:He; [|discriminate].
  destruct (load_entries m h) as [es'|]; [|discriminate].
  intros [= <-]. simpl. destruct (P k); simpl; [rewrite He|]; now rewrite (IH es' eq_refl).
Qed.

Section Refinement.
Context `{Host}.
Variable config : LocalzConfig.
Variable source : loc.

Lemma remove_store_sim (T : LocaleFile) (k : string) (f es rw : loc)
      (m : list (string * loc)) (h : heap) :
  h !! f = Some (CFile (locale T) (path T) (format T) es rw (lastModified T)) ->
  h !! es = Some (CEntries m) ->
  h !! rw = Some (CRaw (raw T)) ->
  load_entries m h = Some (entries T) ->
  NoDup (map snd m) -> NoDup (obj_keys m) ->
  exists h',
    (_ <- store es (CEntries (obj_delete k m)) ;;
     o <- lift (get_raw rw) ;;
     store rw (CRaw (obj_delete ("@" +:+ k) (obj_delete k o)))) h = (h', Some tt)
    /\ denotes f {| locale := locale T; path := path T; format := format T;
                   entries := obj_delete k (entries T);
                   raw := obj_delete ("@" +:+ k) (obj_delete k (raw T));
                   lastModified := lastModified T |} h'.
Proof.
  intros Hf He Hr Hl Hnd Hnk.
  assert (Hfes : f <> es) by kinds_differ.
  assert (Hfrw : f <> rw) by kinds_differ.
  assert (Herw : es <> rw) by kinds_differ.
  assert (Hes_not : ~ In es (map snd m))
    by (eapply entry_loc_not; [exact Hl | exact He | discriminate]).
  assert (Hrw_not : ~ In rw (map snd m))
    by (eapply entry_loc_not; [exact Hl | exact Hr | discriminate]).
  unfold bind, lift, store. simpl. unfold get_raw. rewrite lookup_store_ne by auto. rewrite Hr.
  eexists. split; [reflexivity|].
  exists es, rw, (obj_delete k m). simpl.
  repeat split.
  - rewrite !lookup_store_ne by auto. exact Hf.
  - rewrite lookup_store_ne by auto. eapply lookup_store_eq; eassumption.
  - eapply lookup_store_eq. rewrite lookup_store_ne by auto. eassumption.
  - apply load_entries_store_other;
      [|intros Hin; apply obj_delete_locs in Hin; contradiction].
    apply load_entries_store_other;
      [|intros Hin; apply obj_delete_locs in Hin; contradiction].
    now apply load_entries_obj_delete.
  - now apply NoDup_snd_obj_delete.
  - now apply NoDup_keys_delete.
Qed.

Lemma value_store_sim (T : LocaleFile) (k : string) (nvo : option string) (f es rw : loc)
      (m : list (string * loc)) (h : heap) :
  h !! f = Some (CFile (locale T) (path T) (format T) es rw (lastModified T)) ->
  h !! es = Some (CEntries m) ->
  h !! rw = Some (CRaw (raw T)) ->
  load_entries m h = Some (entries T) ->
  NoDup (map snd m) -> NoDup (obj_keys m) ->
  exists h',
    match nvo, obj_get k m with
    | Some (String a nv), Some l =>
        e <- lift (get_entry l) ;;
        store l (CEntry (set_value e (String a nv)))
    | _, _ => ret tt
    end h = (h', Some tt)
    /\ denotes f match nvo, obj_get k (entries T) with
                | Some (String a nv), Some e =>
                    set_entries T (obj_set k (set_value e (String a nv)) (entries T))
                | _, _ => T
                end h'.
Proof.
  intros Hf He Hr Hl Hnd Hnk.
  assert (Hsame : denotes f T h) by (exists es, rw, m; auto 10).
  pose proof (load_entries_obj_get m h (entries T) k Hl) as Hg.
  destruct nvo as [[|a nv]|]; destruct (obj_get k m) as [l|] eqn:Hgm.
  all: try (destruct Hg as (e & Hle & Hge); rewrite Hge).
  all: try rewrite Hg.
  all: try (exists h; split; [reflexivity | exact Hsame]).
  unfold bind, lift, get_entry, store. rewrite Hle.
  eexists. split; [reflexivity|].
  assert (Hlf : l <> f) by kinds_differ.
  assert (Hle' : l <> es) by kinds_differ.
  assert (Hlr : l <> rw) by kinds_differ.
  exists es, rw, m. simpl. repeat split; try assumption.
  - rewrite lookup_store_ne by auto. exact Hf.
  - rewrite lookup_store_ne by auto. exact He.
  - rewrite lookup_store_ne by auto. exact Hr.
  - eapply load_entries_store_entry; eassumption.
Qed.

Lemma applyFix_store_unfold (fx : Fix) (f es rw : loc) (lc p : string)
      (fm : LocaleFileFormat) (lm : option Z) (m : list (string * loc)) (h : heap) :
  h !! f = Some (CFile lc p fm es rw lm) ->
  h !! es = Some (CEntries m) ->
  applyFix_store source fx f h
  = match f_type fx with
    | addMissing =>
        sourceFile <- lift (load_file source) ;;
        match obj_get (f_key fx) (entries sourceFile) with
        | None => throw
        | Some sourceEntry =>
            l <- alloc (CEntry
                   {| key := f_key fx;
                      value := default "TODO" (or_str (f_newValue fx) (Some "TODO"));
                      metadata := metadata sourceEntry;
                      description := description sourceEntry;
                      placeholders := placeholders sourceEntry;
                      context := JUndef; tags := JUndef |}) ;;
            store es (CEntries (obj_set (f_key fx) l m))
        end
    | removeExtra | removeDuplicate =>
        _ <- store es (CEntries (obj_delete (f_key fx) m)) ;;
        o <- lift (get_raw rw) ;;
        store rw (CRaw (obj_delete ("@" +:+ f_key fx) (obj_delete (f_key fx) o)))
    | fixPlaceholder | fixFormatting | fixICU =>
        match f_newValue fx, obj_get (f_key fx) m with
        | Some (String a nv), Some l =>
            e <- lift (get_entry l) ;;
            store l (CEntry (set_value e (String a nv)))
        | _, _ => ret tt
        end
    end h.
Proof.
  intros Hf He. unfold applyFix_store.
  unfold bind at 1, lift at 1, get_file. rewrite Hf.
  unfold bind at 1, lift at 1, get_entries. rewrite He. reflexivity.
Qed.

Lemma applyFix_store_sim (S T : LocaleFile) (fx : Fix) (f : loc) (h : heap) :
  denotes f T h -> load_file source h = Some S ->
  match applyFix S fx T with
  | Some T' => exists h', applyFix_store source fx f h = (h', Some tt) /\ denotes f T' h'
  | None => snd (applyFix_store source fx f h) = None
  end.
Proof.
  intros (es & rw & m & Hf & He & Hr & Hl & Hnd & Hnk) HS.
  rewrite (applyFix_store_unfold fx f es rw _ _ _ _ m h Hf He).
  unfold applyFix.
  destruct (f_type fx).
  - (* addMissing *)
    assert (Hfes : f <> es) by kinds_differ.
    assert (Hfrw : f <> rw) by kinds_differ.
    assert (Herw : es <> rw) by kinds_differ.
    assert (Hes_not : ~ In es (map snd m))
      by (eapply entry_loc_not; [exact Hl | exact He | discriminate]).
    unfold bind, lift. rewrite HS.
    destruct (obj_get (f_key fx) (entries S)) as [se|]; [|reflexivity].
    unfold alloc, store. simpl. eexists. split; [reflexivity|].
    exists es, rw, (obj_set (f_key fx) (length h) m). simpl.
    pose proof (load_entries_fresh h m _ Hl) as Hfresh.
    repeat split.
    + rewrite lookup_store_ne by auto. eapply lookup_alloc_old; eassumption.
    + eapply lookup_store_eq. eapply lookup_alloc_old; eassumption.
    + rewrite lookup_store_ne by auto. eapply lookup_alloc_old; eassumption.
    + apply load_entries_store_other.
      * apply load_entries_obj_set; [|apply lookup_alloc_new].
        eapply load_entries_extends; [apply extends_alloc | exact Hl].
      * intros Hin. apply in_map_iff in Hin. destruct Hin as ([k2 l2] & Heq & Hin).
        simpl in Heq. subst l2. apply In_obj_set in Hin.
        destruct Hin as [[= _ ->]|Hin].
        -- apply lookup_lt_Some in He. lia.
        -- apply Hes_not. apply in_map_iff. now exists (k2, es).
    + now apply NoDup_snd_obj_set.
    + now apply NoDup_keys_set.
  - exact (remove_store_sim T (f_key fx) f es rw m h Hf He Hr Hl Hnd Hnk).
  - exact (remove_store_sim T (f_key fx) f es rw m h Hf He Hr Hl Hnd Hnk).
  - pose proof (value_store_sim T (f_key fx) (f_newValue fx) f es rw m h Hf He Hr Hl Hnd Hnk)
      as Hv.
    destruct (f_newValue fx) as [[|a nv]|]; try exact Hv.
    destruct (obj_get (f_key fx) (entries T)); exact Hv.
  - pose proof (value_store_sim T (f_key fx) (f_newValue fx) f es rw m h Hf He Hr Hl Hnd Hnk)
      as Hv.
    destruct (f_newValue fx) as [[|a nv]|]; try exact Hv.
    destruct (obj_get (f_key fx) (entries T)); exact Hv.
  - pose proof (value_store_sim T (f_key fx) (f_newValue fx) f es rw m h Hf He Hr Hl Hnd Hnk)
      as Hv.
    destruct (f_newValue fx) as [[|a nv]|]; try exact Hv.
    destruct (obj_get (f_key fx) (entries T)); exact Hv.
Qed.

Lemma clone_entries_sim (m : list (string * loc)) :
  forall (memo : list (loc * loc)) (h : heap) (es : list (string * LocaleEntry)),
  load_entries m h = Some es ->
  NoDup (map snd m) ->
  (forall l, In l (map snd m) -> ~ In l (map fst memo)) ->
  exists h' m',
    clone_entries m memo h = (h', Some m')
    /\ extends h h'
    /\ load_entries m' h' = Some es
    /\ obj_keys m' = obj_keys m
    /\ NoDup (map snd m')
    /\ (forall l, In l (map snd m') -> length h <= l).
Proof.
  induction m as [|[k l] m IH]; intros memo h es Hl Hnd Hmemo.
  - simpl in Hl. injection Hl as <-. exists h, []. simpl.
    repeat split; try constructor; try tauto. intros l c Hc. exact Hc.
  - simpl in Hl.
    destruct (get_entry l h) as [e|] eqn:He; [|discriminate].
    destruct (load_entries m h) as [es'|] eqn:Hm; [|discriminate].
    injection Hl as <-. simpl in Hnd. apply NoDup_cons_iff in Hnd as [Hni Hnd].
    cbn [clone_entries].
    assert (Hfind : find (fun p => Nat.eqb (fst p) l) memo = None).
    { destruct (find (fun p => Nat.eqb (fst p) l) memo) as [[l0 l1]|] eqn:Hf; [|reflexivity].
      apply find_some in Hf. destruct Hf as [Hin Heq]. simpl in Heq.
      apply Nat.eqb_eq in Heq. subst l0. exfalso.
      apply (Hmemo l (or_introl eq_refl)). apply in_map_iff. now exists (l, l1). }
    rewrite Hfind. unfold bind at 1, lift. rewrite He. unfold bind at 1, alloc.
    destruct (IH ((l, length h) :: memo) (h ++ [CEntry e]) es') as
      (h' & rest & Hc & Hx & Hlr & Hk & Hndr & Hge).
    + eapply load_entries_extends; [apply extends_alloc | exact Hm].
    + exact Hnd.
    + intros l' Hin [Heq|Hin']; [simpl in Heq; subst l'; contradiction|].
      apply (Hmemo l' (or_intror Hin) Hin').
    + unfold bind. rewrite Hc. simpl. exists h', ((k, length h) :: rest).
      split; [reflexivity|].
      assert (Hx' : extends h h').
      { intros l' c Hl'. apply Hx. eapply lookup_alloc_old; eassumption. }
      split; [exact Hx'|]. simpl.
      assert (Hnew : get_entry (length h) h' = Some e).
      { apply get_entry_Some. apply Hx. apply lookup_alloc_new. }
      rewrite Hnew, Hlr. repeat split.
      * f_equal. exact Hk.
      * constructor; [|exact Hndr]. intros Hin. apply Hge in Hin.
        rewrite length_app in Hin. simpl in Hin. lia.
      * intros l' [<-|Hin]; [lia|]. apply Hge in Hin.
        rewrite length_app in Hin. simpl in Hin. lia.
Qed.

Lemma cloneDeep_sim (t : loc) (T : LocaleFile) (h : heap) :
  denotes t T h ->
  exists h' f, cloneDeep t h = (h', Some f) /\ denotes f T h' /\ length h <= f.
Proof.
  intros (es & rw & m & Hf & He & Hr & Hl & Hnd & Hnk).
  unfold cloneDeep. unfold bind at 1, lift at 1, get_file. rewrite Hf.
  unfold bind at 1, lift at 1, get_entries. rewrite He.
  destruct (clone_entries_sim m [] h _ Hl Hnd ltac:(intros l _ [])) as
    (h1 & m' & Hc & Hx & Hl' & Hk & Hnd' & Hge).
  unfold bind at 1. rewrite Hc.
  unfold bind at 1, alloc at 1. unfold bind at 1, lift at 1.
  assert (Hr2 : get_raw rw (h1 ++ [CEntries m']) = Some (raw T)).
  { apply get_raw_Some. eapply lookup_alloc_old. now apply Hx. }
  rewrite Hr2. unfold bind, alloc. simpl.
  set (h2 := h1 ++ [CEntries m']). set (h3 := h2 ++ [CRaw (raw T)]).
  eexists _, _. split; [reflexivity|].
  assert (Hlen1 : length h <= length h1).
  { destruct (le_lt_dec (length h) (length h1)) as [Hle|Hlt]; [assumption|].
    exfalso. apply lookup_lt_Some in Hf.
    destruct (lookup_lt_is_Some_2 h (length h1) Hlt) as [c Hc1].
    apply Hx in Hc1. apply lookup_lt_Some in Hc1. lia. }
  assert (Hl2 : length h2 = S (length h1)) by (unfold h2; rewrite length_app; simpl; lia).
  assert (Hl3 : length h3 = S (length h2)) by (unfold h3; rewrite length_app; simpl; lia).
  split; [|lia].
  exists (length h1), (length h2), m'. repeat split.
  - apply lookup_alloc_new.
  - eapply lookup_alloc_old. unfold h3. eapply lookup_alloc_old. apply lookup_alloc_new.
  - eapply lookup_alloc_old. apply lookup_alloc_new.
  - eapply load_entries_extends; [|exact Hl'].
    intros l c Hc1. eapply lookup_alloc_old. unfold h3. eapply lookup_alloc_old.
    unfold h2. eapply lookup_alloc_old. exact Hc1.
  - exact Hnd'.
  - unfold obj_keys in *. now rewrite Hk.
Qed.

Lemma reorder_store_final (T : LocaleFile) (f es rw : loc) (m m2 : list (string * loc))
      (es2 : list (string * LocaleEntry)) (h : heap) :
  h !! f = Some (CFile (locale T) (path T) (format T) es rw (lastModified T)) ->
  h !! rw = Some (CRaw (raw T)) ->
  load_entries m2 h = Some es2 ->
  sub_obj m2 m -> NoDup (map snd m) -> NoDup (obj_keys m2) ->
  denotes f (set_entries T es2)
         (<[f := CFile (locale T) (path T) (format T) (length h) rw (lastModified T)]>
            (h ++ [CEntries m2])).
Proof.
  intros Hf Hr Hl Hsub Hnd Hnk.
  assert (Hfrw : f <> rw) by kinds_differ.
  assert (Hflt : f < length h) by (eapply lookup_lt_Some; eassumption).
  exists (length h), rw, m2. simpl. repeat split.
  - eapply lookup_store_eq. eapply lookup_alloc_old; eassumption.
  - rewrite lookup_store_ne by lia. apply lookup_alloc_new.
  - rewrite lookup_store_ne by auto. eapply lookup_alloc_old; eassumption.
  - apply load_entries_store_other.
    + eapply load_entries_extends; [apply extends_alloc | exact Hl].
    + eapply entry_loc_not; [exact Hl | exact Hf | discriminate].
  - eapply NoDup_snd_sub; eassumption.
  - assumption.
Qed.

Lemma reorderToMatchSource_store_sim (S T : LocaleFile) (f : loc) (h : heap) :
  denotes f T h -> load_file source h = Some S ->
  exists h', reorderToMatchSource_store source f h = (h', Some tt)
             /\ denotes f (reorderToMatchSource S T) h'.
Proof.
  intros (es & rw & m & Hf & He & Hr & Hl & Hnd & Hnk) HS.
  unfold reorderToMatchSource_store. unfold bind at 1, lift at 1. rewrite HS.
  unfold bind at 1, lift at 1, get_file. rewrite Hf.
  unfold bind at 1, lift at 1, get_entries. rewrite He.
  unfold bind, alloc, store. simpl. eexists. split; [reflexivity|].
  unfold reorderToMatchSource.
  destruct (fold_keys_sim m h (entries T) (obj_keys (entries S)) Hl [] [] eq_refl
              ltac:(intros ? ? []) ltac:(constructor)) as (H1 & H2 & H3).
  destruct (fold_pairs_sim h m _ _
              (load_entries_filter h (fun k => negb (mem_str k (obj_keys (entries S)))) m _ Hl)
              ltac:(intros k l Hin; apply filter_In in Hin; tauto)
              _ _ H1 H2 H3) as (H4 & H5 & H6).
  eapply reorder_store_final; eassumption.
Qed.

Lemma reorderAlphabetically_store_sim (T : LocaleFile) (f : loc) (h : heap) :
  denotes f T h ->
  exists h', reorderAlphabetically_store f h = (h', Some tt)
             /\ denotes f (reorderAlphabetically T) h'.
Proof.
  intros (es & rw & m & Hf & He & Hr & Hl & Hnd & Hnk).
  unfold reorderAlphabetically_store.
  unfold bind at 1, lift at 1, get_file. rewrite Hf.
  unfold bind at 1, lift at 1, get_entries. rewrite He.
  unfold bind, alloc, store. simpl. eexists. split; [reflexivity|].
  unfold reorderAlphabetically. rewrite (load_entries_keys _ _ _ Hl).
  destruct (fold_keys_sim m h (entries T) (sort_keys (obj_keys m)) Hl [] [] eq_refl
              ltac:(intros ? ? []) ltac:(constructor)) as (H1 & H2 & H3).
  eapply reorder_store_final; eassumption.
Qed.

Lemma fix_loop_store_step (S T : LocaleFile) (f : loc) (issue : ValidationIssue)
      (issues : list ValidationIssue) (acc : list Fix) (h : heap) :
  load_file source h = Some S -> load_file f h = Some T ->
  fix_loop_store config source (issue :: issues) f acc h
  = match generateFix S issue T with
    | None => (h, None)
    | Some fx =>
        if doAutoFix config then
          match applyFix_store source fx f h with
          | (h1, Some _) => fix_loop_store config source issues f (acc ++ [fx]) h1
          | (h1, None) => (h1, None)
          end
        else fix_loop_store config source issues f acc h
    end.
Proof.
  intros HS HT. cbn [fix_loop_store].
  unfold bind at 1, lift at 1. rewrite HS. unfold bind at 1, lift at 1. rewrite HT.
  destruct (generateFix S issue T); [|reflexivity].
  destruct (doAutoFix config); reflexivity.
Qed.

Lemma fix_loop_store_sim (S : LocaleFile) (h0 : heap) (f : loc)
      (issues : list ValidationIssue) :
  load_file source h0 = Some S ->
  forall (acc : list Fix) (T : LocaleFile) (h : heap),
  frame (length h0) h0 h -> owned (length h0) f h -> denotes f T h ->
  match fix_loop config S issues T acc with
  | Some (T', fixes) =>
      exists h', fix_loop_store config source issues f acc h = (h', Some fixes)
                 /\ frame (length h0) h0 h' /\ denotes f T' h'
  | None => snd (fix_loop_store config source issues f acc h) = None
  end.
Proof.
  intros HS. induction issues as [|issue issues IH]; intros acc T h Hfr Hown Hh.
  - simpl. exists h. auto.
  - assert (HSh : load_file source h = Some S)
      by (eapply load_file_extends; [apply frame_extends; exact Hfr | exact HS]).
    pose proof (denotes_load f T h Hh) as HTh.
    rewrite (fix_loop_store_step S T f issue issues acc h HSh HTh).
    cbn [fix_loop].
    destruct (generateFix S issue T) as [fx|]; [|reflexivity].
    destruct (doAutoFix config); [|now apply IH].
    pose proof (applyFix_store_sim S T fx f h Hh HSh) as Hsim.
    assert (Hn : length h0 <= length h) by (destruct Hfr; assumption).
    destruct (applyFix_store_frame source (length h0) fx f h Hn Hown) as [Hfr1 Hown1].
    destruct (applyFix S fx T) as [T1|].
    + destruct Hsim as (h1 & Happ & Hh1). rewrite Happ in *. simpl in Hfr1, Hown1.
      apply IH; [eapply frame_trans; eassumption | assumption | assumption].
    + destruct (applyFix_store source fx f h) as [h1 [[]|]]; [discriminate | reflexivity].
Qed.
End Refinement.



Section Main.
Context `{Host}.
Variable config : LocalzConfig.
Variable source : loc.

Lemma autoFix_store_unfold (target : loc) (issues : list ValidationIssue) (h : heap) :
  autoFix_store config source target issues h
  = match cloneDeep target h with
    | (h1, None) => (h1, None)
    | (h1, Some f) =>
        match fix_loop_store config source issues f [] h1 with
        | (h2, None) => (h2, None)
        | (h2, Some fixes) =>
            match reorder_store config source f h2 with
            | (h3, None) => (h3, None)
            | (h3, Some _) => (h3, Some (f, fixes))
            end
        end
    end.
Proof.
  unfold autoFix_store, reorder_store, bind.
  destruct (cloneDeep target h) as [h1 [f|]]; [|reflexivity].
  destruct (fix_loop_store config source issues f [] h1) as [h2 [fixes|]]; [|reflexivity].
  destruct (preferOrder config) as [[|]|]; reflexivity.
Qed.

Lemma reorder_store_frame (n0 : nat) (f : loc) (h : heap) :
  n0 <= length h -> n0 <= f -> frame n0 h (fst (reorder_store config source f h)).
Proof.
  intros Hn Hf. unfold reorder_store. destruct (preferOrder config) as [[|]|].
  - now apply reorderToMatchSource_store_frame.
  - now apply reorderAlphabetically_store_frame.
  - apply frame_refl.
Qed.

Lemma autoFix_store_frame (target : loc) (issues : list ValidationIssue) (h : heap) :
  frame (length h) h (fst (autoFix_store config source target issues h)).
Proof.
  rewrite autoFix_store_unfold.
  destruct (cloneDeep_spec target h) as [Hfr1 Hown1].
  destruct (cloneDeep target h) as [h1 [f|]]; simpl in Hfr1, Hown1; [|exact Hfr1].
  specialize (Hown1 f eq_refl).
  assert (Hn1 : length h <= length h1) by (destruct Hfr1; assumption).
  destruct (fix_loop_store_frame config source (length h) f issues [] h1 Hn1 Hown1)
    as [Hfr2 Hown2].
  destruct (fix_loop_store config source issues f [] h1) as [h2 [fixes|]];
    simpl in Hfr2, Hown2; [|eapply frame_trans; eassumption].
  assert (Hn2 : length h <= length h2) by (destruct Hfr2; lia).
  pose proof (reorder_store_frame (length h) f h2 Hn2 (proj1 Hown2)) as Hfr3.
  destruct (reorder_store config source f h2) as [h3 [[]|]]; simpl in *;
    (eapply frame_trans; [exact Hfr1 | eapply frame_trans; eassumption]).
Qed.

(** C7.  [autoFix] on the store leaves every object that existed before
    the call as it was: the input file, its entries, its raw data, the
    source.  The file read back at the input location is the same
    document, entries in the same order.  When the input location holds a
    document (one entry object per key), the call returns what the
    function on values returns: the same fixes, and a file object
    allocated by the call (the deep copy) that holds the fixed document; when
    the function on values throws, so does the call. *)
Theorem C7_autoFix_leaves_input (target : loc) (issues : list ValidationIssue) (h : heap) :
  let h' := fst (autoFix_store config source target issues h) in
  (forall l c, h !! l = Some c -> h' !! l = Some c)
  /\ (forall T, load_file target h = Some T -> load_file target h' = Some T)
  /\ (forall S T,
        load_file source h = Some S -> denotes target T h ->
        match autoFix config S T issues with
        | Some (T', fixes) =>
            exists fixed,
              snd (autoFix_store config source target issues h) = Some (fixed, fixes)
              /\ length h <= fixed
              /\ load_file fixed h' = Some T'
        | None => snd (autoFix_store config source target issues h) = None
        end).
Proof.
  intros h'. pose proof (autoFix_store_frame target issues h) as Hfr.
  pose proof (frame_extends _ _ Hfr) as Hx. fold h' in Hx.
  split; [exact Hx | split; [intros T; now apply load_file_extends|]].
  intros S T HS HT. unfold h'. clear h' Hx Hfr.
  rewrite autoFix_store_unfold. unfold autoFix.
  destruct (cloneDeep_sim target T h HT) as (h1 & f & Hc & Hh1 & Hf).
  destruct (cloneDeep_spec target h) as [Hfr1 Hown1]. rewrite Hc in *. simpl in Hfr1, Hown1.
  specialize (Hown1 f eq_refl).
  pose proof (fix_loop_store_sim config source S h f issues HS [] T h1 Hfr1 Hown1 Hh1) as Hloop.
  destruct (fix_loop config S issues T []) as [[T1 fixes]|].
  - destruct Hloop as (h2 & Hl & Hfr2 & Hh2). rewrite Hl.
    assert (HS2 : load_file source h2 = Some S)
      by (eapply load_file_extends; [apply frame_extends; exact Hfr2 | exact HS]).
    unfold reorder_store, reorder.
    destruct (preferOrder config) as [[|]|].
    + destruct (reorderToMatchSource_store_sim source S T1 f h2 Hh2 HS2) as (h3 & Hr & Hh3).
      rewrite Hr. exists f. simpl. split; [reflexivity | split; [assumption|]].
      now apply denotes_load.
    + destruct (reorderAlphabetically_store_sim T1 f h2 Hh2) as (h3 & Hr & Hh3).
      rewrite Hr. exists f. simpl. split; [reflexivity | split; [assumption|]].
      now apply denotes_load.
    + exists f. simpl. split; [reflexivity | split; [assumption|]].
      now apply denotes_load.
  - destruct (fix_loop_store config source issues f [] h1) as [h2 [fixes|]];
      [discriminate Hloop | reflexivity].
Qed.
End Main.

Lemma C7_witness :
  let config := {| doAutoFix := true; preferOrder := Some mirror_source |} in
  let S := file_of "en" json [("a", "Hi {user}")] in
  let T := file_of "es" json [("x", "old"); ("a", "Hola {usuario}")] in
  let issues := @validateTarget literal_host S T in
  let result := @autoFix_store literal_host config 3 8 issues wit_heap in
  load_file 8 wit_heap = Some T
  /\ load_file 8 (fst result) = Some T
  /\ exists fixed fixes,
       snd result = Some (fixed, fixes)
       /\ length wit_heap <= fixed
       /\ map f_type fixes = [removeExtra; fixPlaceholder]
       /\ option_map (fun F => map (fun '(k, e) => (k, value e)) (entries F))
                     (load_file fixed (fst result))
          = Some [("a", "Hola {user}")].
Proof.
  intros config S T issues result.
  assert (HT : denotes 8 T wit_heap).
  { exists 6, 7, [("x", 4); ("a", 5)].
    repeat split; try reflexivity; repeat constructor; simpl; intuition discriminate. }
  destruct (@C7_autoFix_leaves_input literal_host config 3 8 issues wit_heap)
    as (_ & Hkeep & Href).
  split; [reflexivity | split; [apply Hkeep; reflexivity|]].
  specialize (Href S T eq_refl HT).
  match eval vm_compute in (@autoFix literal_host config S T issues) with
  | Some (?T1, ?f1) =>
      change (@autoFix literal_host config S T issues) with (Some (T1, f1)) in Href
  end.
  destruct Href as (fixed & Hres & Hfresh & Hload).
  exists fixed. eexists. split; [exact Hres|]. split; [exact Hfresh|].
  split; [reflexivity|]. fold result in Hload. rewrite Hload. reflexivity.
Defined.

(** ** Round trip of the key/value formats *)

Lemma startsWith_at k : startsWith "@" ("@" +:+ k) = true.
Proof. unfold startsWith. norm_app. rewrite prefix_cons, prefix_empty. reflexivity. Qed.

Lemma entry_key_not_at k k' : is_entry_key k = true -> k <> "@" +:+ k'.
Proof.
  intros Hk ->. unfold is_entry_key in Hk. now rewrite startsWith_at in Hk.
Qed.

Lemma at_inj k k' : "@" +:+ k = "@" +:+ k' -> k = k'.
Proof. norm_app. now intros [= ->]. Qed.

Lemma obj_set_fresh_keys {V} k (v : V) o :
  ~ In k (obj_keys o) -> obj_keys (obj_set k v o) = obj_keys o ++ [k].
Proof.
  intros Hni. rewrite obj_keys_set. unfold obj_has.
  apply obj_get_None in Hni. now rewrite Hni.
Qed.

Lemma fold_left_pointwise {A B : Type} (f g : A -> B -> A) (l : list B) (a : A) :
  (forall x y, f x y = g x y) -> fold_left f l a = fold_left g l a.
Proof.
  intros Hfg. revert a. induction l as [|y l IH]; intros a; simpl; [reflexivity|].
  now rewrite Hfg, IH.
Qed.

Lemma parseJsonEntries_fold raw :
  parseJsonEntries raw = fold_left (parse_step raw) raw [].
Proof.
  unfold parseJsonEntries. apply fold_left_pointwise. intros acc [k v].
  unfold parse_step, entry_of_raw. destruct (startsWith "@" k); [reflexivity|].
  now destruct (truthy (raw_get ("@" +:+ k) raw)).
Qed.

Lemma parse_fold raw0 : forall raw acc,
  NoDup (obj_keys raw) ->
  (forall k, In k (obj_keys raw) -> ~ In k (obj_keys acc)) ->
  obj_keys (fold_left (parse_step raw0) raw acc) = obj_keys acc ++ entry_keys raw
  /\ forall k, obj_get k (fold_left (parse_step raw0) raw acc)
               = match obj_get k raw with
                 | Some v => if is_entry_key k then Some (entry_of_raw raw0 k v)
                             else obj_get k acc
                 | None => obj_get k acc
                 end.
Proof.
  intros l. induction l as [|[k v] raw IH]; intros acc Hnd Hacc.
  - simpl. split; [now rewrite app_nil_r | reflexivity].
  - simpl in Hnd. apply NoDup_cons_iff in Hnd as [Hni Hnd].
    cbn [fold_left]. unfold parse_step at 2 4. unfold entry_keys. cbn [obj_keys map fst filter].
    fold (obj_keys raw). unfold is_entry_key at 1.
    destruct (startsWith "@" k) eqn:Hat; cbn [negb].
    + destruct (IH acc Hnd) as [Hk Hg].
      { intros k' Hin. apply Hacc. now right. }
      split; [exact Hk|]. intros k'. rewrite (Hg k'). cbn [obj_get].
      destruct (String.eqb_spec k k') as [<-|Hne]; [|reflexivity].
      apply obj_get_None in Hni. rewrite Hni. unfold is_entry_key. now rewrite Hat.
    + assert (Hka : ~ In k (obj_keys acc)) by (apply Hacc; now left).
      destruct (IH (obj_set k (entry_of_raw raw0 k v) acc) Hnd) as [Hk Hg].
      { intros k' Hin Hin'. apply In_keys_set in Hin'. destruct Hin' as [->|Hin'].
        - contradiction.
        - apply (Hacc k'); [now right | assumption]. }
      split.
      * rewrite Hk, obj_set_fresh_keys by assumption.
        now rewrite <- app_assoc.
      * intros k'. rewrite (Hg k'). cbn [obj_get].
        destruct (String.eqb_spec k k') as [<-|Hne].
        -- apply obj_get_None in Hni. rewrite Hni, obj_get_set_eq.
           unfold is_entry_key. now rewrite Hat.
        -- rewrite obj_get_set_ne by auto. reflexivity.
Qed.

Lemma parseJsonEntries_spec raw :
  NoDup (obj_keys raw) ->
  obj_keys (parseJsonEntries raw) = entry_keys raw
  /\ forall k, obj_get k (parseJsonEntries raw)
               = match obj_get k raw with
                 | Some v => if is_entry_key k then Some (entry_of_raw raw k v) else None
                 | None => None
                 end.
Proof.
  intros Hnd. rewrite parseJsonEntries_fold.
  destruct (parse_fold raw raw [] Hnd ltac:(intros k _ [])) as [Hk Hg].
  split; [exact Hk|]. intros k. rewrite (Hg k). reflexivity.
Qed.

Lemma emit_entry_eq wm E out k e :
  obj_get k E = Some e ->
  emit_entry wm E out k
  = match emitted_metadata wm e with
    | Some md => obj_set ("@" +:+ k) md (obj_set k (JStr (value e)) out)
    | None => obj_set k (JStr (value e)) out
    end.
Proof.
  intros He. unfold emit_entry, emitted_metadata. rewrite He.
  destruct (wm && has_metadata e); [|reflexivity].
  cbn [andb]. now destruct (Nat.ltb 0 _).
Qed.

Lemma emit_entry_get wm E out k e x :
  obj_get k E = Some e -> is_entry_key k = true ->
  obj_get x (emit_entry wm E out k)
  = if String.eqb x k then Some (JStr (value e))
    else if String.eqb x ("@" +:+ k)
         then match emitted_metadata wm e with
              | Some md => Some md
              | None => obj_get x out
              end
         else obj_get x out.
Proof.
  intros He Hk. rewrite (emit_entry_eq _ _ _ _ _ He).
  pose proof (entry_key_not_at k k Hk) as Hne.
  destruct (String.eqb_spec x k) as [->|Hxk].
  - destruct (emitted_metadata wm e); [rewrite obj_get_set_ne by auto|]; apply obj_get_set_eq.
  - destruct (String.eqb_spec x ("@" +:+ k)) as [->|Hxa].
    + destruct (emitted_metadata wm e); [apply obj_get_set_eq|].
      now rewrite obj_get_set_ne by auto.
    + destruct (emitted_metadata wm e); rewrite ?obj_get_set_ne by auto; reflexivity.
Qed.

Section EmitFold.
Variable wm : bool.
Variable E : list (string * LocaleEntry).

Lemma emit_fold_other (ks : list string) : forall out x,
  (forall k, In k ks -> is_entry_key k = true /\ exists e, obj_get k E = Some e) ->
  ~ In x ks -> (forall k, In k ks -> x <> "@" +:+ k) ->
  obj_get x (fold_left (emit_entry wm E) ks out) = obj_get x out.
Proof.
  induction ks as [|k ks IH]; intros out x Hks Hni Hna; [reflexivity|].
  cbn [fold_left]. rewrite IH.
  - destruct (Hks k (or_introl eq_refl)) as [Hk [e He]].
    rewrite (emit_entry_get wm E out k e x He Hk).
    destruct (String.eqb_spec x k) as [->|_]; [exfalso; apply Hni; now left|].
    destruct (String.eqb_spec x ("@" +:+ k)) as [->|_]; [|reflexivity].
    exfalso. apply (Hna k); [now left | reflexivity].
  - intros k' Hin. apply Hks. now right.
  - intros Hin. apply Hni. now right.
  - intros k' Hin. apply Hna. now right.
Qed.

Lemma emit_fold_value (ks : list string) : forall out k e,
  (forall k, In k ks -> is_entry_key k = true /\ exists e, obj_get k E = Some e) ->
  NoDup ks -> In k ks -> obj_get k E = Some e ->
  obj_get k (fold_left (emit_entry wm E) ks out) = Some (JStr (value e)).
Proof.
  induction ks as [|k0 ks IH]; intros out k e Hks Hnd Hin He; [contradiction|].
  apply NoDup_cons_iff in Hnd as [Hni Hnd]. cbn [fold_left].
  assert (Hks' : forall k, In k ks -> is_entry_key k = true /\ exists e, obj_get k E = Some e)
    by (intros k' Hin'; apply Hks; now right).
  destruct Hin as [->|Hin]; [|now apply IH].
  destruct (Hks k (or_introl eq_refl)) as [Hk _].
  rewrite emit_fold_other; try assumption.
  - rewrite (emit_entry_get wm E out k e k He Hk). now rewrite String.eqb_refl.
  - intros k' _. now apply entry_key_not_at.
Qed.

Lemma emit_fold_metadata (ks : list string) : forall out k e,
  (forall k, In k ks -> is_entry_key k = true /\ exists e, obj_get k E = Some e) ->
  NoDup ks -> In k ks -> obj_get k E = Some e ->
  obj_get ("@" +:+ k) (fold_left (emit_entry wm E) ks out)
  = match emitted_metadata wm e with
    | Some md => Some md
    | None => obj_get ("@" +:+ k) out
    end.
Proof.
  induction ks as [|k0 ks IH]; intros out k e Hks Hnd Hin He; [contradiction|].
  apply NoDup_cons_iff in Hnd as [Hni Hnd]. cbn [fold_left].
  assert (Hks' : forall k, In k ks -> is_entry_key k = true /\ exists e, obj_get k E = Some e)
    by (intros k' Hin'; apply Hks; now right).
  destruct (Hks k0 (or_introl eq_refl)) as [Hk0 [e0 He0]].
  destruct Hin as [->|Hin].
  - rewrite emit_fold_other; try assumption.
    + rewrite (emit_entry_get wm E out k e _ He Hk0).
      destruct (String.eqb_spec ("@" +:+ k) k) as [Heq|_];
        [symmetry in Heq; now apply entry_key_not_at in Heq|].
      now rewrite String.eqb_refl.
    + intros Hin. apply Hks' in Hin. destruct Hin as [Hin _].
      unfold is_entry_key in Hin. now rewrite startsWith_at in Hin.
    + intros k' Hin Heq. apply at_inj in Heq. subst k'. contradiction.
  - rewrite (IH _ k e Hks' Hnd Hin He).
    destruct (emitted_metadata wm e); [reflexivity|].
    rewrite (emit_entry_get wm E out k0 e0 _ He0 Hk0).
    destruct (String.eqb_spec ("@" +:+ k) k0) as [Heq|_];
      [symmetry in Heq; now apply entry_key_not_at in Heq|].
    destruct (String.eqb_spec ("@" +:+ k) ("@" +:+ k0)) as [Heq|_]; [|reflexivity].
    apply at_inj in Heq. subst k0. contradiction.
Qed.

Lemma entry_keys_app {V} (o1 o2 : list (string * V)) :
  entry_keys (o1 ++ o2) = entry_keys o1 ++ entry_keys o2.
Proof. unfold entry_keys, obj_keys. now rewrite map_app, filter_app. Qed.

Lemma entry_keys_set {V} k (v : V) (o : list (string * V)) :
  entry_keys (obj_set k v o)
  = if obj_has k o then entry_keys o
    else if is_entry_key k then entry_keys o ++ [k] else entry_keys o.
Proof.
  unfold entry_keys. rewrite obj_keys_set. destruct (obj_has k o); [reflexivity|].
  rewrite filter_app. simpl. destruct (is_entry_key k); [reflexivity | now rewrite app_nil_r].
Qed.

Lemma emit_fold_keys (ks : list string) : forall out,
  (forall k, In k ks -> is_entry_key k = true /\ exists e, obj_get k E = Some e) ->
  NoDup ks -> (forall k, In k ks -> ~ In k (obj_keys out)) ->
  entry_keys (fold_left (emit_entry wm E) ks out) = entry_keys out ++ ks.
Proof.
  induction ks as [|k ks IH]; intros out Hks Hnd Hout; [now rewrite app_nil_r|].
  apply NoDup_cons_iff in Hnd as [Hni Hnd]. cbn [fold_left].
  destruct (Hks k (or_introl eq_refl)) as [Hk [e He]].
  assert (Hkout : ~ In k (obj_keys out)) by (apply Hout; now left).
  assert (Hkeys : forall x, In x (obj_keys (emit_entry wm E out k)) ->
                            x = k \/ x = "@" +:+ k \/ In x (obj_keys out)).
  { intros x. rewrite (emit_entry_eq _ _ _ _ _ He).
    destruct (emitted_metadata wm e); rewrite ?In_keys_set; tauto. }
  rewrite IH.
  - rewrite (emit_entry_eq _ _ _ _ _ He).
    assert (Hbase : entry_keys (obj_set k (JStr (value e)) out) = entry_keys out ++ [k]).
    { rewrite entry_keys_set, Hk. unfold obj_has.
      apply obj_get_None in Hkout. now rewrite Hkout. }
    destruct (emitted_metadata wm e).
    + rewrite entry_keys_set, Hbase. unfold is_entry_key at 1. rewrite startsWith_at.
      cbn [negb]. destruct (obj_has _ _); now rewrite <- app_assoc.
    + rewrite Hbase. now rewrite <- app_assoc.
  - intros k' Hin. apply Hks. now right.
  - exact Hnd.
  - intros k' Hin Hin'. apply Hkeys in Hin'. destruct Hin' as [->|[->|Hin']].
    + contradiction.
    + destruct (Hks ("@" +:+ k) (or_intror Hin)) as [Hbad _].
      unfold is_entry_key in Hbad. now rewrite startsWith_at in Hbad.
    + apply (Hout k'); [now right | assumption].
Qed.
End EmitFold.

Lemma assign_get (x : string) (props : list (string * JValue)) : forall t0,
  NoDup (obj_keys props) ->
  obj_get x (fold_left (fun t '(k, v) => obj_set k v t) props t0)
  = match obj_get x props with
    | Some v => Some v
    | None => obj_get x t0
    end.
Proof.
  induction props as [|[k v] props IH]; intros t0 Hnd; [reflexivity|].
  simpl in Hnd. apply NoDup_cons_iff in Hnd as [Hni Hnd].
  cbn [fold_left obj_get]. rewrite (IH _ Hnd).
  destruct (String.eqb_spec k x) as [->|Hne].
  - apply obj_get_None in Hni. rewrite Hni. apply obj_get_set_eq.
  - now rewrite obj_get_set_ne by auto.
Qed.

Lemma assign_get_absent (x : string) (props : list (string * JValue)) : forall t0,
  ~ In x (obj_keys props) ->
  obj_get x (fold_left (fun t '(k, v) => obj_set k v t) props t0) = obj_get x t0.
Proof.
  induction props as [|[k v] props IH]; intros t0 Hni; [reflexivity|].
  cbn [fold_left]. simpl in Hni. rewrite IH by tauto.
  apply obj_get_set_ne. intros ->. tauto.
Qed.

Lemma index_strings_not_field (n : nat) (field : string) :
  is_metadata_field field -> ~ In field (index_strings n).
Proof.
  intros Hf Hin. unfold index_strings in Hin. apply in_map_iff in Hin.
  destruct Hin as (i & Hi & _).
  destruct Hf as [-> | ->]; destruct (Nat.to_uint i); discriminate Hi.
Qed.

Lemma own_props_not_field (m : JValue) (field : string) :
  is_metadata_field field ->
  (forall fields, m <> JObj fields) ->
  ~ In field (obj_keys (js_own_props m)).
Proof.
  intros Hf Hno Hin. destruct m; simpl in Hin; try contradiction.
  - apply in_map_iff in Hin. destruct Hin as ([k v] & Hk & Hin). simpl in Hk. subst k.
    apply in_combine_l in Hin. now apply index_strings_not_field in Hin.
  - apply in_map_iff in Hin. destruct Hin as ([k v] & Hk & Hin). simpl in Hk. subst k.
    apply in_combine_l in Hin. now apply index_strings_not_field in Hin.
  - now apply (Hno fields).
Qed.

Lemma metadata_block_field (m : JValue) (k s field : string) :
  is_metadata_field field -> unique_keys m -> truthy m = true ->
  obj_get field (entry_metadata (entry_with k s m))
  = match m with JObj fields => obj_get field fields | _ => None end.
Proof.
  intros Hf Hu Htr. unfold entry_metadata, entry_with.
  cbn [description placeholders metadata]. rewrite Htr. unfold Object_assign.
  destruct m as [| | b | r | s0 | items | fields];
    try (rewrite assign_get_absent by (apply own_props_not_field; [assumption | discriminate]);
         cbn [js_prop truthy]; reflexivity).
  cbn [js_own_props]. rewrite (assign_get field fields _ Hu).
  destruct (obj_get field fields) as [x|] eqn:Hg; [reflexivity|].
  destruct Hf as [-> | ->]; cbn [js_prop]; rewrite Hg; cbn [truthy].
  - destruct (truthy match obj_get "placeholders" fields with
                     | Some x => x | None => JUndef end); reflexivity.
  - destruct (truthy match obj_get "description" fields with
                     | Some x => x | None => JUndef end); reflexivity.
Qed.

Lemma entry_of_raw_eq (raw : list (string * JValue)) (k : string) (v : JValue) :
  entry_of_raw raw k v
  = if truthy (raw_get ("@" +:+ k) raw)
    then entry_with k (js_String v) (raw_get ("@" +:+ k) raw)
    else plain_entry k (js_String v).
Proof. reflexivity. Qed.

(** The field of the metadata block written for an entry is the field of
    the block that was parsed. *)
Lemma entry_metadata_field (raw : list (string * JValue)) (k : string) (v : JValue)
      (field : string) :
  is_metadata_field field ->
  unique_keys (raw_get ("@" +:+ k) raw) ->
  js_prop (match emitted_metadata true (entry_of_raw raw k v) with
           | Some md => md
           | None => JUndef
           end) field
  = js_prop (raw_get ("@" +:+ k) raw) field.
Proof.
  intros Hf Hu. rewrite entry_of_raw_eq.
  generalize dependent (raw_get ("@" +:+ k) raw). intros m Hu.
  destruct (truthy m) eqn:Htr.
  - pose proof (metadata_block_field m k (js_String v) field Hf Hu Htr) as Hget.
    unfold emitted_metadata, has_metadata.
    replace (truthy (metadata (entry_with k (js_String v) m))) with true by (symmetry; exact Htr).
    cbn [orb andb].
    destruct (Nat.ltb 0 _) eqn:Hlen.
    + cbn [js_prop]. rewrite Hget. now destruct m.
    + apply Nat.ltb_ge in Hlen.
      assert (Hnone : obj_get field (entry_metadata (entry_with k (js_String v) m)) = None).
      { apply obj_get_None. destruct (obj_keys _); [tauto | simpl in Hlen; lia]. }
      rewrite Hget in Hnone. destruct m; cbn [js_prop]; try reflexivity. now rewrite Hnone.
  - unfold emitted_metadata, has_metadata, plain_entry. cbn [metadata description placeholders].
    cbn [truthy orb andb js_prop].
    destruct m; try reflexivity. discriminate Htr.
Qed.

Lemma object_block_field (fields : list (string * JValue)) (k s field : string) :
  NoDup (obj_keys fields) ->
  obj_get field (entry_metadata (entry_with k s (JObj fields))) = obj_get field fields.
Proof.
  intros Hu. unfold entry_metadata, entry_with.
  cbn [description placeholders metadata truthy]. unfold Object_assign.
  cbn [js_own_props]. rewrite (assign_get field fields _ Hu).
  destruct (obj_get field fields) as [x|] eqn:Hg; [reflexivity|].
  cbn [js_prop].
  destruct (obj_get "description" fields) as [d|] eqn:Hd;
    destruct (obj_get "placeholders" fields) as [ph|] eqn:Hp; cbn [truthy].
  - destruct (truthy d), (truthy ph); cbn [obj_set obj_get];
      repeat match goal with
             | |- context [String.eqb ?a ?b] =>
                 destruct (String.eqb_spec a b); subst; cbn [obj_set obj_get]
             end; congruence.
  - destruct (truthy d); cbn [obj_set obj_get];
      repeat match goal with
             | |- context [String.eqb ?a ?b] =>
                 destruct (String.eqb_spec a b); subst; cbn [obj_set obj_get]
             end; congruence.
  - destruct (truthy ph); cbn [obj_set obj_get];
      repeat match goal with
             | |- context [String.eqb ?a ?b] =>
                 destruct (String.eqb_spec a b); subst; cbn [obj_set obj_get]
             end; congruence.
  - reflexivity.
Qed.

(** Every field of an object metadata block is the field of the block that
    is written. *)
Lemma entry_metadata_object (raw : list (string * JValue)) (k : string) (v : JValue)
      (fields : list (string * JValue)) (field : string) :
  raw_get ("@" +:+ k) raw = JObj fields ->
  NoDup (obj_keys fields) ->
  js_prop (match emitted_metadata true (entry_of_raw raw k v) with
           | Some md => md
           | None => JUndef
           end) field
  = js_prop (JObj fields) field.
Proof.
  intros Hm Hu. rewrite entry_of_raw_eq, Hm. cbn [truthy].
  pose proof (object_block_field fields k (js_String v) field Hu) as Hget.
  unfold emitted_metadata, has_metadata.
  replace (truthy (metadata (entry_with k (js_String v) (JObj fields)))) with true
    by reflexivity.
  cbn [orb andb].
  set (md := entry_metadata (entry_with k (js_String v) (JObj fields))) in *.
  destruct (Nat.ltb 0 (length (obj_keys md))) eqn:Hlen.
  - cbn [js_prop]. now rewrite Hget.
  - apply Nat.ltb_ge in Hlen.
    assert (Hnone : obj_get field md = None).
    { apply obj_get_None. destruct (obj_keys md); [tauto | simpl in Hlen; lia]. }
    rewrite Hget in Hnone. cbn [js_prop]. now rewrite Hnone.
Qed.

Lemma NoDup_sort_keys (l : list string) : NoDup l -> NoDup (sort_keys l).
Proof.
  assert (Hins : forall x l', NoDup l' -> ~ In x l' -> NoDup (insert_sorted x l')).
  { intros x l'. induction l' as [|y l' IH]; intros Hnd Hni; simpl.
    - constructor; [tauto | constructor].
    - destruct (String.leb x y); [constructor; assumption|].
      apply NoDup_cons_iff in Hnd as [Hy Hnd]. constructor.
      + intros Hin. assert (Hor : y = x \/ In y l').
        { clear -Hin. induction l' as [|z l' IH]; simpl in Hin.
          - destruct Hin as [->|[]]. now left.
          - destruct (String.leb x z); simpl in Hin.
            + destruct Hin as [->|[->|Hin]]; [now left | right; now left | right; now right].
            + destruct Hin as [->|Hin]; [right; now left|].
              destruct (IH Hin); [now left | right; now right]. }
        destruct Hor as [->|Hor]; [apply Hni; now left | contradiction].
      + apply IH; [assumption|]. intros Hin. apply Hni. now right. }
  induction 1 as [|x l Hx Hnd IH]; simpl; [constructor|].
  apply Hins; [assumption|]. now rewrite In_sort_keys.
Qed.

Lemma wf_raw_get_unique raw k : wf_raw raw -> unique_keys (raw_get k raw).
Proof.
  intros (_ & _ & Hu & _). unfold raw_get. destruct (obj_get k raw) as [v|] eqn:Hg; [|exact I].
  apply obj_get_In in Hg. eapply Hu. eassumption.
Qed.

Lemma In_entry_keys {V} (k : string) (o : list (string * V)) :
  In k (entry_keys o) <-> In k (obj_keys o) /\ is_entry_key k = true.
Proof. unfold entry_keys. apply filter_In. Qed.

Section RoundTrip.
Variable config : LocalzConfig.
Variables (lc p : string) (lm : option Z).
Variable raw : list (string * JValue).
Hypothesis Hwf : wf_raw raw.

Let E := parseJsonEntries raw.
Let ks := if is_alphabetical config then sort_keys (obj_keys E) else obj_keys E.

Lemma roundtrip_keys_ok :
  NoDup ks
  /\ (forall k, In k ks <-> In k (entry_keys raw))
  /\ (forall k, In k ks -> is_entry_key k = true /\ exists e, obj_get k E = Some e).
Proof.
  destruct Hwf as (Hnd & _).
  destruct (parseJsonEntries_spec raw Hnd) as [Hk Hg]. fold E in Hk, Hg.
  assert (HndE : NoDup (entry_keys raw)) by (unfold entry_keys; now apply NoDup_filter).
  assert (Hin : forall k, In k ks <-> In k (entry_keys raw)).
  { intros k. unfold ks. destruct (is_alphabetical config);
      [rewrite In_sort_keys|]; now rewrite Hk. }
  split; [|split; [exact Hin|]].
  - unfold ks. destruct (is_alphabetical config); [apply NoDup_sort_keys|]; now rewrite Hk.
  - intros k Hkin. apply Hin, In_entry_keys in Hkin. destruct Hkin as [Hkin Hek].
    split; [assumption|]. rewrite (Hg k), Hek.
    apply obj_get_In_keys in Hkin. destruct Hkin as [v Hv]. rewrite Hv. eauto.
Qed.

Lemma roundtrip_output (fmt : LocaleFileFormat) :
  generateJsonOutput config (parsed_json lc p fmt raw lm)
  = fold_left (emit_entry (is_arb fmt) E) ks
      (if is_arb fmt && truthy (raw_get "@@locale" raw)
       then [("@@locale", raw_get "@@locale" raw)] else []).
Proof. reflexivity. Qed.

Lemma roundtrip_values_ok (fmt : LocaleFileFormat) :
  roundtrip_values raw (generateJsonOutput config (parsed_json lc p fmt raw lm)).
Proof.
  destruct roundtrip_keys_ok as (Hnd & Hin & Hks).
  destruct Hwf as (HndR & Hstr & _).
  destruct (parseJsonEntries_spec raw HndR) as [_ Hg]. fold E in Hg.
  intros k Hk. rewrite roundtrip_output.
  set (out0 := if is_arb fmt && truthy (raw_get "@@locale" raw)
               then [("@@locale", raw_get "@@locale" raw)] else []).
  assert (Hout0 : obj_get k out0 = None).
  { unfold out0. destruct (is_arb fmt && truthy _); [|reflexivity]. cbn [obj_get].
    destruct (String.eqb_spec "@@locale" k) as [<-|_]; [discriminate Hk | reflexivity]. }
  destruct (in_dec string_dec k ks) as [Hkin|Hkin].
  - destruct (Hks k Hkin) as [_ [e He]].
    rewrite (emit_fold_value _ E ks out0 k e Hks Hnd Hkin He).
    rewrite (Hg k), Hk in He. destruct (obj_get k raw) as [v|] eqn:Hv; [|discriminate].
    injection He as <-. apply obj_get_In in Hv.
    destruct (Hstr k v Hv Hk) as [s ->]. unfold entry_of_raw.
    destruct (truthy (raw_get ("@" +:+ k) raw)); reflexivity.
  - rewrite (emit_fold_other _ E ks out0 k Hks Hkin
               ltac:(intros k' _; now apply entry_key_not_at)).
    rewrite Hout0. symmetry. apply obj_get_None. intros Hraw. apply Hkin, Hin.
    apply In_entry_keys. auto.
Qed.

Lemma roundtrip_order_ok (fmt : LocaleFileFormat) :
  entry_keys (generateJsonOutput config (parsed_json lc p fmt raw lm))
  = if is_alphabetical config then sort_keys (entry_keys raw) else entry_keys raw.
Proof.
  destruct roundtrip_keys_ok as (Hnd & Hin & Hks).
  destruct Hwf as (HndR & _).
  destruct (parseJsonEntries_spec raw HndR) as [Hk _]. fold E in Hk.
  rewrite roundtrip_output, emit_fold_keys; try assumption.
  - unfold ks. rewrite Hk.
    destruct (is_arb fmt && truthy _); reflexivity.
  - intros k Hkin Hout. destruct (Hks k Hkin) as [Hek _].
    destruct (is_arb fmt && truthy _); [|contradiction].
    destruct Hout as [<-|[]]. discriminate Hek.
Qed.

Lemma roundtrip_metadata_ok :
  roundtrip_metadata raw (generateJsonOutput config (parsed_json lc p arb raw lm)).
Proof.
  destruct roundtrip_keys_ok as (Hnd & Hin & Hks).
  pose proof Hwf as (HndR & _ & _ & Hloc).
  destruct (parseJsonEntries_spec raw HndR) as [_ Hg]. fold E in Hg.
  rewrite roundtrip_output. cbn [is_arb andb].
  set (out0 := if truthy (raw_get "@@locale" raw)
               then [("@@locale", raw_get "@@locale" raw)] else []).
  split.
  - intros k field Hk Hf. apply Hin in Hk. destruct (Hks k Hk) as [Hek [e He]].
    unfold raw_get at 1.
    rewrite (emit_fold_metadata _ E ks out0 k e Hks Hnd Hk He).
    assert (Hout0 : obj_get ("@" +:+ k) out0 = None).
    { unfold out0. destruct (truthy _); [|reflexivity]. cbn [obj_get].
      destruct (String.eqb_spec "@@locale" ("@" +:+ k)) as [Heq|_]; [|reflexivity].
      change "@@locale" with ("@" +:+ "@locale") in Heq. apply at_inj in Heq.
      subst k. discriminate Hek. }
    rewrite Hout0.
    rewrite (Hg k), Hek in He. destruct (obj_get k raw) as [v|]; [|discriminate].
    injection He as <-.
    rewrite <- (entry_metadata_field raw k v field Hf (wf_raw_get_unique raw _ Hwf)).
    now destruct (emitted_metadata true (entry_of_raw raw k v)).
  - unfold raw_get at 1.
    rewrite (emit_fold_other _ E ks out0 "@@locale" Hks).
    + unfold out0. destruct (truthy (raw_get "@@locale" raw)) eqn:Htr; [reflexivity|].
      destruct Hloc as [Hnone|Htrue]; [|congruence].
      unfold raw_get. now rewrite Hnone.
    + intros Hkin. apply Hks in Hkin. destruct Hkin as [Hbad _]. discriminate Hbad.
    + intros k Hkin Heq. change "@@locale" with ("@" +:+ "@locale") in Heq.
      apply at_inj in Heq. subst k. apply Hks in Hkin. destruct Hkin as [Hbad _].
      discriminate Hbad.
Qed.

Lemma roundtrip_object_block_ok (k : string) (fields : list (string * JValue))
      (field : string) :
  In k (entry_keys raw) ->
  obj_get ("@" +:+ k) raw = Some (JObj fields) ->
  js_prop (raw_get ("@" +:+ k) (generateJsonOutput config (parsed_json lc p arb raw lm))) field
  = js_prop (JObj fields) field.
Proof.
  intros Hk Hblock.
  destruct roundtrip_keys_ok as (Hnd & Hin & Hks).
  pose proof Hwf as (HndR & _ & Huniq & _).
  destruct (parseJsonEntries_spec raw HndR) as [_ Hg]. fold E in Hg.
  rewrite roundtrip_output. cbn [is_arb andb].
  set (out0 := if truthy (raw_get "@@locale" raw)
               then [("@@locale", raw_get "@@locale" raw)] else []).
  apply Hin in Hk. destruct (Hks k Hk) as [Hek [e He]].
  unfold raw_get at 1.
  rewrite (emit_fold_metadata _ E ks out0 k e Hks Hnd Hk He).
  assert (Hout0 : obj_get ("@" +:+ k) out0 = None).
  { unfold out0. destruct (truthy _); [|reflexivity]. cbn [obj_get].
    destruct (String.eqb_spec "@@locale" ("@" +:+ k)) as [Heq|_]; [|reflexivity].
    change "@@locale" with ("@" +:+ "@locale") in Heq. apply at_inj in Heq.
    subst k. discriminate Hek. }
  rewrite Hout0.
  rewrite (Hg k), Hek in He. destruct (obj_get k raw) as [v|]; [|discriminate].
  injection He as <-.
  assert (Hm : raw_get ("@" +:+ k) raw = JObj fields) by (unfold raw_get; now rewrite Hblock).
  rewrite <- (entry_metadata_object raw k v fields field Hm).
  - now destruct (emitted_metadata true (entry_of_raw raw k v)).
  - apply obj_get_In in Hblock. exact (Huniq _ _ Hblock).
Qed.

Lemma json_output_no_metadata (k : string) :
  is_entry_key k = false ->
  obj_get k (generateJsonOutput config (parsed_json lc p json raw lm)) = None.
Proof.
  intros Hk. destruct roundtrip_keys_ok as (Hnd & Hin & Hks).
  rewrite roundtrip_output. cbn [is_arb andb].
  assert (Hgen : forall l out,
             (forall k', In k' l -> is_entry_key k' = true) ->
             obj_get k (fold_left (emit_entry false E) l out) = obj_get k out).
  { induction l as [|k0 l IH]; intros out Hl; [reflexivity|]. cbn [fold_left].
    rewrite IH by (intros k' Hk'; apply Hl; now right).
    unfold emit_entry. destruct (obj_get k0 E); [|reflexivity]. cbn [andb].
    apply obj_get_set_ne. intros ->. rewrite (Hl k0 (or_introl eq_refl)) in Hk. discriminate. }
  rewrite Hgen; [reflexivity|]. intros k' Hk'. now apply Hks.
Qed.
End RoundTrip.

Lemma arb_sample_wf : wf_raw arb_sample.
Proof.
  split; [|split; [|split]].
  - repeat constructor; simpl; intuition discriminate.
  - intros k v Hin Hk. simpl in Hin.
    destruct Hin as [[= <- <-]|[[= <- <-]|[[= <- <-]|[[= <- <-]|[]]]]];
      try discriminate Hk; eauto.
  - intros k v Hin. simpl in Hin.
    destruct Hin as [[= <- <-]|[[= <- <-]|[[= <- <-]|[[= <- <-]|[]]]]]; simpl; auto.
    repeat constructor; simpl; intuition discriminate.
  - right. reflexivity.
Qed.




(** * Further properties of the code *)

(** ** Validator: the statistics and the Map of reports *)

Lemma count_issue_fold (issues : list ValidationIssue) : forall t m x d i p f,
  fold_left count_issue issues (Build_Stats t m x d i p f)
  = Build_Stats t
      (m + length (issues_of_type missing issues))
      (x + length (issues_of_type extra issues))
      (d + length (issues_of_type duplicate issues))
      (i + length (issues_of_type icuError issues))
      (p + length (issues_of_type placeholderMismatch issues))
      (f + length (issues_of_type formatting issues)).
Proof.
  induction issues as [|a issues IH]; intros t m x d i p f.
  - simpl. now rewrite !Nat.add_0_r.
  - cbn [fold_left]. unfold count_issue at 2. unfold issues_of_type. cbn [filter].
    destruct (i_type a); cbn [IssueType_eqb]; rewrite IH; unfold issues_of_type;
      cbn [length]; f_equal; lia.
Qed.

Lemma issues_by_type_total (issues : list ValidationIssue) :
  length (issues_of_type missing issues) + length (issues_of_type extra issues)
  + length (issues_of_type duplicate issues) + length (issues_of_type icuError issues)
  + length (issues_of_type placeholderMismatch issues)
  + length (issues_of_type formatting issues)
  = length issues.
Proof.
  unfold issues_of_type. induction issues as [|a issues IH]; [reflexivity|].
  cbn [filter]. destruct (i_type a); cbn [IssueType_eqb length]; lia.
Qed.

(** X1.  The counters of [calculateStats] are the numbers of issues of each
    type, they add up to the number of issues, and [totalKeys] is the number
    of keys of the source. *)
Theorem calculateStats_counts (S : LocaleFile) (issues : list ValidationIssue) :
  let st := calculateStats S issues in
  totalKeys st = length (obj_keys (entries S))
  /\ missingKeys st = length (issues_of_type missing issues)
  /\ extraKeys st = length (issues_of_type extra issues)
  /\ duplicates st = length (issues_of_type duplicate issues)
  /\ icuErrors st = length (issues_of_type icuError issues)
  /\ placeholderMismatches st = length (issues_of_type placeholderMismatch issues)
  /\ formattingWarnings st = length (issues_of_type formatting issues)
  /\ missingKeys st + extraKeys st + duplicates st + icuErrors st
     + placeholderMismatches st + formattingWarnings st = length issues.
Proof.
  intros st. unfold st, calculateStats. rewrite count_issue_fold.
  cbn [totalKeys missingKeys extraKeys duplicates icuErrors placeholderMismatches
       formattingWarnings]. rewrite !Nat.add_0_l.
  repeat split. apply issues_by_type_total.
Qed.

Section ValidateFacts.
Context `{Host}.
Variable S : LocaleFile.

Lemma validate_fold (Ts : list LocaleFile) : forall acc,
  fold_left (fun reports targetFile =>
    let issues := validateTarget S targetFile in
    let stats := calculateStats S issues in
    obj_set (locale targetFile)
      {| r_locale := locale targetFile; r_format := format targetFile;
         r_issues := issues; r_stats := stats |} reports) Ts acc
  = fold_left (fun reports T => obj_set (locale T) (report_of S T) reports) Ts acc.
Proof. reflexivity. Qed.

Lemma validate_fold_keys (Ts : list LocaleFile) : forall acc,
  NoDup (obj_keys acc) ->
  NoDup (obj_keys (fold_left (fun reports T => obj_set (locale T) (report_of S T) reports) Ts acc))
  /\ forall l, In l (obj_keys (fold_left (fun reports T => obj_set (locale T) (report_of S T) reports)
                                Ts acc))
               <-> In l (obj_keys acc) \/ In l (map locale Ts).
Proof.
  induction Ts as [|T Ts IH]; intros acc Hnd.
  - simpl. split; [assumption | tauto].
  - cbn [fold_left map]. destruct (IH (obj_set (locale T) (report_of S T) acc)) as [H1 H2].
    + now apply NoDup_keys_set.
    + split; [assumption|]. intros l. rewrite H2, In_keys_set. simpl.
      intuition congruence.
Qed.

Lemma validate_fold_get (Ts : list LocaleFile) : forall acc l,
  ~ In l (map locale Ts) ->
  obj_get l (fold_left (fun reports T => obj_set (locale T) (report_of S T) reports) Ts acc)
  = obj_get l acc.
Proof.
  induction Ts as [|T Ts IH]; intros acc l Hni; [reflexivity|].
  cbn [fold_left]. simpl in Hni. rewrite IH by tauto.
  apply obj_get_set_ne. intros ->. tauto.
Qed.

Lemma validate_fold_app (Ts1 Ts2 : list LocaleFile) acc :
  fold_left (fun reports T => obj_set (locale T) (report_of S T) reports) (Ts1 ++ Ts2) acc
  = fold_left (fun reports T => obj_set (locale T) (report_of S T) reports) Ts2
      (fold_left (fun reports T => obj_set (locale T) (report_of S T) reports) Ts1 acc).
Proof. apply fold_left_app. Qed.
End ValidateFacts.

(** X2.  [validate] keeps one report per locale: the locales of the reports are
    those of the target files, each once, and the report of a locale is that
    of the last target file carrying it. *)
Theorem validate_last_wins `{Host} (S : LocaleFile) (Ts1 Ts2 : list LocaleFile) (T : LocaleFile) :
  ~ In (locale T) (map locale Ts2) ->
  let reports := validate S (Ts1 ++ T :: Ts2) in
  obj_get (locale T) reports = Some (report_of S T)
  /\ NoDup (obj_keys reports)
  /\ (forall l, In l (obj_keys reports) <-> In l (map locale (Ts1 ++ T :: Ts2))).
Proof.
  intros Hlast reports. unfold reports, validate. rewrite validate_fold.
  destruct (validate_fold_keys S (Ts1 ++ T :: Ts2) [] ltac:(constructor)) as [Hnd Hk].
  split; [|split; [exact Hnd|]].
  - rewrite validate_fold_app. cbn [fold_left].
    rewrite validate_fold_get by assumption. apply obj_get_set_eq.
  - intros l. rewrite Hk. simpl. tauto.
Qed.

Lemma validate_last_wins_witness :
  let S := file_of "en" json [("a", "Hi")] in
  let T1 := file_of "fr" json [] in
  let T2 := file_of "fr" json [("a", "Salut")] in
  option_map r_issues (obj_get "fr" (@validate literal_host S [T1; T2])) = Some []
  /\ length (@validate literal_host S [T1; T2]) = 1.
Proof.
  intros S T1 T2.
  destruct (@validate_last_wins literal_host S [T1] [] T2) as (Hget & _ & _).
  - simpl. tauto.
  - split; [|reflexivity].
    change (locale T2) with "fr" in Hget. change ([T1] ++ T2 :: []) with [T1; T2] in Hget.
    rewrite Hget. reflexivity.
Defined.

(** ** Validator: duplicates *)

Lemma seen_push_get v k m v' :
  obj_get v' (seen_push v k m)
  = if String.eqb v v' then Some (default [] (obj_get v m) ++ [k]) else obj_get v' m.
Proof.
  induction m as [|[v0 ks] m IH]; cbn [seen_push obj_get].
  - destruct (String.eqb_spec v v'); reflexivity.
  - destruct (String.eqb_spec v0 v) as [->|Hne]; cbn [obj_get].
    + destruct (String.eqb_spec v v'); reflexivity.
    + rewrite IH. destruct (String.eqb_spec v0 v') as [->|Hne'].
      * destruct (String.eqb_spec v v'); [congruence | reflexivity].
      * reflexivity.
Qed.

Lemma seen_push_keys v k m :
  obj_keys (seen_push v k m) = if obj_has v m then obj_keys m else obj_keys m ++ [v].
Proof.
  unfold obj_has. induction m as [|[v0 ks] m IH]; cbn [seen_push obj_get obj_keys map fst].
  - reflexivity.
  - destruct (String.eqb_spec v0 v) as [->|Hne]; [reflexivity|].
    cbn [map fst]. fold (obj_keys (seen_push v k m)). fold (obj_keys m). rewrite IH.
    now destruct (obj_get v m).
Qed.

Lemma seen_push_NoDup v k m : NoDup (obj_keys m) -> NoDup (obj_keys (seen_push v k m)).
Proof.
  intros Hnd. rewrite seen_push_keys. unfold obj_has.
  destruct (obj_get v m) eqn:Hg; [assumption|].
  apply obj_get_None in Hg. apply NoDup_app; [assumption | repeat constructor; simpl; tauto|].
  intros a Ha [<-|[]]. contradiction.
Qed.

Lemma seenValues_fold T : seenValues T = fold_left seen_step (entries T) [].
Proof. reflexivity. Qed.

Lemma seen_fold_NoDup l : forall m,
  NoDup (obj_keys m) -> NoDup (obj_keys (fold_left seen_step l m)).
Proof.
  induction l as [|[k e] l IH]; intros m Hnd; [assumption|].
  cbn [fold_left seen_step]. apply IH. now apply seen_push_NoDup.
Qed.

Lemma seen_fold_get l : forall m v,
  obj_get v (fold_left seen_step l m)
  = match obj_get v m, keys_with_value v l with
    | None, [] => None
    | o, g => Some (default [] o ++ g)
    end.
Proof.
  induction l as [|[k e] l IH]; intros m v.
  - cbn [fold_left keys_with_value filter map]. destruct (obj_get v m); [|reflexivity].
    simpl. now rewrite app_nil_r.
  - cbn [fold_left seen_step]. rewrite IH, seen_push_get.
    unfold keys_with_value. cbn [filter].
    destruct (String.eqb_spec (trim (value e)) v) as [Heq|Hne]; cbn [map fst].
    + rewrite Heq. fold (keys_with_value v l).
      destruct (obj_get v m) as [ks|]; cbn [from_option id].
      * rewrite <- app_assoc. reflexivity.
      * reflexivity.
    + reflexivity.
Qed.

Lemma keys_with_value_app v l1 l2 :
  keys_with_value v (l1 ++ l2) = keys_with_value v l1 ++ keys_with_value v l2.
Proof. unfold keys_with_value. now rewrite filter_app, map_app. Qed.

Lemma keys_with_value_In v l k :
  In k (keys_with_value v l) <-> exists e, In (k, e) l /\ trim (value e) = v.
Proof.
  unfold keys_with_value. rewrite in_map_iff. split.
  - intros ([k' e] & Hk & Hin). simpl in Hk. subst k'. apply filter_In in Hin as [Hin Hv].
    apply String.eqb_eq in Hv. eauto.
  - intros (e & Hin & Hv). exists (k, e). split; [reflexivity|].
    apply filter_In. split; [assumption|]. now apply String.eqb_eq.
Qed.

Lemma keys_with_value_find v l :
  keys_with_value v l
  = match find (fun '(_, e) => String.eqb (trim (value e)) v) l with
    | Some (k0, _) => k0 :: tl (keys_with_value v l)
    | None => []
    end.
Proof.
  unfold keys_with_value. induction l as [|[k e] l IH]; [reflexivity|].
  cbn [find filter]. destruct (String.eqb (trim (value e)) v); [reflexivity | exact IH].
Qed.

Lemma issues_at_flat_map {A : Type} t k (g : A -> list ValidationIssue) (l : list A) :
  issues_at t k (flat_map g l) = flat_map (fun a => issues_at t k (g a)) l.
Proof.
  unfold issues_at. induction l as [|a l IH]; [reflexivity|].
  cbn [flat_map]. now rewrite filter_app, IH.
Qed.

Lemma flat_map_single {A B : Type} (f : string * A -> list B) (m : list (string * A))
      (v : string) :
  NoDup (obj_keys m) ->
  (forall v' a', In (v', a') m -> v' <> v -> f (v', a') = []) ->
  flat_map f m = match obj_get v m with Some a => f (v, a) | None => [] end.
Proof.
  induction m as [|[v0 a0] m IH]; intros Hnd Hoth; [reflexivity|].
  simpl in Hnd. apply NoDup_cons_iff in Hnd as [Hni Hnd]. cbn [flat_map obj_get].
  rewrite IH; [|assumption|intros v' a' Hin; apply Hoth; now right].
  destruct (String.eqb_spec v0 v) as [->|Hne].
  - apply obj_get_None in Hni. rewrite Hni. apply app_nil_r.
  - rewrite (Hoth v0 a0); [reflexivity | now left | assumption].
Qed.

Lemma issues_at_duplicates (T : LocaleFile) (v k0 k : string) (rest : list string) :
  NoDup rest ->
  issues_at duplicate k (map (duplicate_issue T v k0) rest)
  = if mem_str k rest then [duplicate_issue T v k0 k] else [].
Proof.
  unfold issues_at. induction rest as [|x rest IH]; intros Hnd; [reflexivity|].
  apply NoDup_cons_iff in Hnd as [Hni Hnd]. cbn [map filter].
  cbn [duplicate_issue i_type i_key IssueType_eqb andb]. rewrite (IH Hnd).
  unfold mem_str. cbn [existsb]. rewrite (String.eqb_sym k x).
  destruct (String.eqb_spec x k) as [->|Hne]; cbn [orb].
  - fold (mem_str k rest). apply mem_str_not_In in Hni. now rewrite Hni.
  - reflexivity.
Qed.

Lemma checkDuplicates_eq (T : LocaleFile) :
  checkDuplicates T
  = flat_map (fun '(v, keys) =>
                match keys with
                | k0 :: rest => map (duplicate_issue T v k0) rest
                | [] => []
                end) (seenValues T).
Proof. reflexivity. Qed.

Lemma keys_with_value_NoDup v l : NoDup (obj_keys l) -> NoDup (keys_with_value v l).
Proof.
  unfold keys_with_value, obj_keys. induction l as [|[k e] l IH]; intros Hnd; [constructor|].
  simpl in Hnd. apply NoDup_cons_iff in Hnd as [Hni Hnd]. cbn [filter].
  destruct (String.eqb (trim (value e)) v); [|now apply IH].
  cbn [map fst]. constructor; [|now apply IH].
  intros Hin. apply Hni. apply in_map_iff in Hin as (p & Hp & Hin).
  apply filter_In in Hin as [Hin _]. apply in_map_iff. eauto.
Qed.

(** X3.  [checkDuplicates] flags a key exactly when an earlier entry of the
    target has the same trimmed value; the issue is raised once, carries
    the trimmed value and names the first key that has it. *)
Theorem checkDuplicates_flags_later_keys (T : LocaleFile)
        (l1 l2 : list (string * LocaleEntry)) (k : string) (e : LocaleEntry) :
  NoDup (obj_keys (entries T)) ->
  entries T = l1 ++ (k, e) :: l2 ->
  issues_at duplicate k (checkDuplicates T)
  = match find (fun '(_, e0) => String.eqb (trim (value e0)) (trim (value e))) l1 with
    | Some (k0, _) => [duplicate_issue T (trim (value e)) k0 k]
    | None => []
    end.
Proof.
  intros Hnd Hsplit. set (v := trim (value e)).
  rewrite checkDuplicates_eq, issues_at_flat_map, seenValues_fold.
  assert (Hm : NoDup (obj_keys (fold_left seen_step (entries T) [])))
    by (apply seen_fold_NoDup; constructor).
  assert (Hgroup : forall v', NoDup (keys_with_value v' (entries T)))
    by (intros v'; now apply keys_with_value_NoDup).
  assert (Hk : forall v', In k (keys_with_value v' (entries T)) -> v' = v).
  { intros v' Hin. apply keys_with_value_In in Hin as (e' & Hin & Hv).
    assert (He : obj_get k (entries T) = Some e') by now apply In_obj_get.
    assert (He' : obj_get k (entries T) = Some e).
    { apply In_obj_get; [assumption|]. rewrite Hsplit. apply in_or_app. right. now left. }
    rewrite He in He'. injection He' as ->. symmetry. exact Hv. }
  rewrite (flat_map_single _ _ v Hm).
  - rewrite seen_fold_get. cbn [obj_get from_option id app].
    rewrite Hsplit in Hnd, Hgroup |- *.
    rewrite keys_with_value_app. unfold keys_with_value at 2. cbn [filter].
    fold v. rewrite String.eqb_refl. cbn [map fst]. fold (keys_with_value v l2).
    rewrite (keys_with_value_find v l1).
    specialize (Hgroup v). rewrite keys_with_value_app in Hgroup.
    unfold keys_with_value at 2 in Hgroup. cbn [filter] in Hgroup. fold v in Hgroup.
    rewrite String.eqb_refl in Hgroup. cbn [map fst] in Hgroup.
    fold (keys_with_value v l2) in Hgroup.
    rewrite (keys_with_value_find v l1) in Hgroup.
    destruct (find _ l1) as [[k0 e0]|].
    + cbn [app] in *. apply NoDup_cons_iff in Hgroup as [_ Hgroup].
      rewrite issues_at_duplicates by assumption.
      replace (mem_str k (tl (keys_with_value v l1) ++ k :: keys_with_value v l2)) with true;
        [reflexivity|]. symmetry. apply mem_str_In, in_or_app. right. now left.
    + cbn [app] in *. apply NoDup_cons_iff in Hgroup as [Hni Hgroup].
      rewrite issues_at_duplicates by assumption.
      apply mem_str_not_In in Hni. now rewrite Hni.
  - intros v' ks Hin Hne. apply In_obj_get in Hin; [|assumption].
    rewrite seen_fold_get in Hin. cbn [obj_get from_option id app] in Hin.
    destruct ks as [|k0 rest]; [reflexivity|].
    assert (Hks : keys_with_value v' (entries T) = k0 :: rest)
      by (destruct (keys_with_value v' (entries T)); congruence).
    specialize (Hgroup v'). rewrite Hks in Hgroup. apply NoDup_cons_iff in Hgroup as [_ Hgroup].
    rewrite issues_at_duplicates by assumption.
    destruct (mem_str k rest) eqn:Hmem; [|reflexivity].
    apply mem_str_In in Hmem. exfalso. apply Hne, Hk. rewrite Hks. now right.
Qed.

Lemma checkDuplicates_flags_later_keys_witness :
  let T := file_of "fr" json [("a", "OK"); ("b", "x"); ("c", " OK ")] in
  issues_at duplicate "c" (checkDuplicates T) = [duplicate_issue T "OK" "a" "c"]
  /\ issues_at duplicate "a" (checkDuplicates T) = [].
Proof.
  intros T. split.
  - apply (checkDuplicates_flags_later_keys T
             [("a", plain_entry "a" "OK"); ("b", plain_entry "b" "x")] []
             "c" (plain_entry "c" " OK ")).
    + repeat constructor; simpl; intuition discriminate.
    + reflexivity.
  - apply (checkDuplicates_flags_later_keys T []
             [("b", plain_entry "b" "x"); ("c", plain_entry "c" " OK ")]
             "a" (plain_entry "a" "OK")).
    + repeat constructor; simpl; intuition discriminate.
    + reflexivity.
Defined.

(** ** Validator: structured messages *)

Lemma issues_at_validateTarget_icu `{Host} (S T : LocaleFile) k :
  issues_at icuError k (validateTarget S T) = issues_at icuError k (checkICUMessages S T).
Proof.
  unfold validateTarget. rewrite !issues_at_app.
  rewrite (issues_at_other_type icuError missing k (checkMissingKeys S T)),
    (issues_at_other_type icuError extra k (checkExtraKeys S T)),
    (issues_at_other_type icuError duplicate k (checkDuplicates T)),
    (issues_at_other_type icuError placeholderMismatch k (checkPlaceholders S T)),
    (issues_at_other_type icuError formatting k (checkFormatting T));
    auto using checkMissingKeys_type, checkExtraKeys_type, checkDuplicates_type,
      checkPlaceholders_type, checkFormatting_type; try discriminate.
  simpl. now rewrite app_nil_r.
Qed.

(** X4.  For a source with unique keys the validation of a target raises at
    most one ICU issue for a key that names no member of
    [Object.prototype]: none when the target lacks the key or when the
    source value does not contain a brace and one of the texts [, plural,],
    [, select,], [, selectordinal,]; otherwise one exactly when the source
    or the target value fails to parse or their structures differ. *)
Theorem checkICUMessages_count `{Host} (S T : LocaleFile) (k : string) :
  NoDup (obj_keys (entries S)) ->
  inherited_name k = false ->
  length (issues_at icuError k (validateTarget S T))
  = match obj_get k (entries S), obj_get k (entries T) with
    | Some se, Some te => if icu_differs (value se) (value te) then 1 else 0
    | _, _ => 0
    end.
Proof.
  intros HS _. rewrite issues_at_validateTarget_icu. unfold checkICUMessages.
  set (keep := fun (k' : string) (e : LocaleEntry) =>
         match obj_get k' (entries T) with
         | Some te' => icu_differs (value e) (value te')
         | None => false
         end).
  set (mk := fun (k' : string) (e : LocaleEntry) =>
         let tv := match obj_get k' (entries T) with
                   | Some te' => value te' | None => EmptyString end in
         let invalid err :=
           {| i_type := icuError; i_locale := locale T; i_key := k';
              i_message := "Invalid ICU message: " +:+ err; i_severity := error;
              i_sourceValue := None; i_targetValue := Some tv; i_suggestion := None |} in
         match parseICU (value e) with
         | inl err => invalid err
         | inr _ =>
             match parseICU tv with
             | inl err => invalid err
             | inr _ =>
                 {| i_type := icuError; i_locale := locale T; i_key := k';
                    i_message := "ICU structure mismatch with source"; i_severity := error;
                    i_sourceValue := Some (value e); i_targetValue := Some tv;
                    i_suggestion := None |}
             end
         end).
  erewrite flat_map_ext; [rewrite (count_keyed_flat_map icuError keep mk)|].
  - unfold keep. destruct (obj_get k (entries S)); [|reflexivity].
    now destruct (obj_get k (entries T)).
  - intros k' e. unfold mk. cbn zeta.
    destruct (parseICU (value e)); [split; reflexivity|].
    destruct (parseICU _); split; reflexivity.
  - exact HS.
  - intros [k' e]. unfold keep, mk, icu_differs. cbn zeta.
    destruct (obj_get k' (entries T)) as [te|]; [|reflexivity].
    destruct (isICUMessage (value e)); [|reflexivity]. cbn [andb].
    destruct (parseICU (value e)); [reflexivity|].
    destruct (parseICU (value te)); [reflexivity|].
    now destruct (compareICUStructure _ _).
Qed.

Lemma checkICUMessages_count_witness :
  let S := file_of "en" json [("n", "{count, plural, one{# item} other{# items}}");
                              ("g", "{sex, select, male{He} other{They}}");
                              ("m", "{count,plural,one{# item} other{# items}}");
                              ("z", "{sex, select, male{He} other{They}}")] in
  let T := file_of "fr" json [("n", "{count, plural, one{# objet} other{# objets}}");
                              ("g", "Ils");
                              ("m", "Ils")] in
  length (issues_at icuError "n" (@validateTarget sample_icu_host S T)) = 0
  /\ length (issues_at icuError "g" (@validateTarget sample_icu_host S T)) = 1
  /\ length (issues_at icuError "m" (@validateTarget sample_icu_host S T)) = 0
  /\ length (issues_at icuError "z" (@validateTarget sample_icu_host S T)) = 0.
Proof.
  intros S T.
  assert (HS : NoDup (obj_keys (entries S)))
    by (repeat constructor; simpl; intuition discriminate).
  split; [|split; [|split]].
  - now rewrite (@checkICUMessages_count sample_icu_host S T "n" HS eq_refl).
  - now rewrite (@checkICUMessages_count sample_icu_host S T "g" HS eq_refl).
  - now rewrite (@checkICUMessages_count sample_icu_host S T "m" HS eq_refl).
  - now rewrite (@checkICUMessages_count sample_icu_host S T "z" HS eq_refl).
Defined.

(** ** Placeholder names, the ICU fix, and auto-fix switched off *)

Lemma span_to_close_inv s : forall name rest,
  span_to_close s = Some (name, rest) ->
  s = name +:+ String "}" rest /\ all_chars (fun c => negb (is_close c)) name = true.
Proof.
  induction s as [|c s IH]; intros name rest Hs; [discriminate|].
  cbn [span_to_close] in Hs. destruct (is_close c) eqn:Hc.
  - injection Hs as <- <-. split; [|reflexivity].
    unfold is_close in Hc. apply Ascii.eqb_eq in Hc. subst c. now rewrite app_empty.
  - destruct (span_to_close s) as [[n r]|]; [|discriminate].
    injection Hs as <- <-. destruct (IH n r eq_refl) as [-> Hn].
    split; [now rewrite app_cons|]. cbn [all_chars]. now rewrite Hc, Hn.
Qed.

Lemma includes_cons sub c s : includes sub s = true -> includes sub (String c s) = true.
Proof. intros Hs. cbn [includes]. rewrite Hs. apply orb_true_r. Qed.

Lemma prefix_append s t : String.prefix s (s +:+ t) = true.
Proof.
  induction s as [|c s IH]; [apply prefix_empty|].
  rewrite app_cons, prefix_cons, IH, Ascii.eqb_refl. reflexivity.
Qed.

Lemma includes_prefix sub s : String.prefix sub s = true -> includes sub s = true.
Proof. intros Hp. destruct s; cbn [includes]; now rewrite Hp. Qed.

Lemma extract_from_names s : forall skip n,
  In n (extract_from skip s) ->
  n <> EmptyString
  /\ all_chars (fun c => negb (is_close c)) n = true
  /\ includes (braced n) s = true.
Proof.
  induction s as [|c s IH]; intros skip n Hin; [contradiction|].
  cbn [extract_from] in Hin. destruct skip as [|skip].
  - destruct (is_open c) eqn:Hc.
    + destruct (span_to_close s) as [[[|a name] rest]|] eqn:Hs.
      * destruct (IH _ _ Hin) as (H1 & H2 & H3). auto using includes_cons.
      * destruct Hin as [<-|Hin].
        -- destruct (span_to_close_inv _ _ _ Hs) as [-> Hn].
           split; [discriminate | split; [assumption|]].
           apply includes_prefix. unfold is_open in Hc. apply Ascii.eqb_eq in Hc. subst c.
           rewrite braced_cons, prefix_cons, Ascii.eqb_refl. cbn [andb].
           rewrite (app_close (String a name) rest). apply prefix_append.
        -- destruct (IH _ _ Hin) as (H1 & H2 & H3). auto using includes_cons.
      * destruct (IH _ _ Hin) as (H1 & H2 & H3). auto using includes_cons.
    + destruct (IH _ _ Hin) as (H1 & H2 & H3). auto using includes_cons.
  - destruct (IH _ _ Hin) as (H1 & H2 & H3). auto using includes_cons.
Qed.

Lemma extract_from_no_open s : forall skip,
  all_chars (fun c => negb (is_open c)) s = true -> extract_from skip s = [].
Proof.
  induction s as [|c s IH]; intros skip Hs; [reflexivity|].
  cbn [all_chars] in Hs. apply andb_true_iff in Hs as [Hc Hs].
  cbn [extract_from]. destruct skip; [|now apply IH].
  apply negb_true_iff in Hc. rewrite Hc. now apply IH.
Qed.

(** X5.  Every name [extractPlaceholders] returns is non-empty, holds no closing
    brace, and stands between braces in the value; a value without an
    opening brace has no placeholder. *)
Theorem extractPlaceholders_names (v : string) :
  Forall (fun n => n <> EmptyString
                   /\ all_chars (fun c => negb (is_close c)) n = true
                   /\ includes (braced n) v = true) (extractPlaceholders v)
  /\ (all_chars (fun c => negb (is_open c)) v = true -> extractPlaceholders v = []).
Proof.
  split.
  - apply Forall_forall. intros n Hin. now apply (extract_from_names v 0).
  - apply extract_from_no_open.
Qed.

Lemma has_brace_close s : has_brace (s +:+ "}") = true.
Proof.
  induction s as [|c s IH]; [reflexivity|].
  rewrite app_cons. cbn [has_brace]. rewrite IH. apply orb_true_r.
Qed.

Lemma icu_todo_skeleton s : forall in_run,
  all_chars is_skeleton_char (icu_todo_from in_run (s +:+ "}")) = true.
Proof.
  induction s as [|c s IH]; intros in_run; [reflexivity|].
  rewrite app_cons. cbn [icu_todo_from]. destruct (is_icu_sep c) eqn:Hc.
  - cbn [all_chars]. unfold is_skeleton_char at 1. rewrite Hc. cbn [orb andb]. apply IH.
  - destruct in_run; [apply IH|]. rewrite has_brace_close.
    rewrite all_chars_app, IH. reflexivity.
Qed.

Lemma icu_match_here_close c s full :
  icu_match_here c s = Some full -> exists s0, full = s0 +:+ "}".
Proof.
  unfold icu_match_here. destruct (is_open c); [|discriminate].
  destruct (span_to_comma s) as [[[|a arg] r1]|]; try discriminate.
  destruct (span_ws r1) as [ws r2]. destruct (icu_keyword r2) as [[kw r3]|]; [|discriminate].
  destruct (span_to_close r3) as [[[|b opts] r4]|]; try discriminate.
  intros [= <-].
  exists ("{" +:+ String a arg +:+ "," +:+ ws +:+ kw +:+ String b opts).
  now rewrite !str_app_assoc.
Qed.

Lemma icu_matchAll_from_close s : forall skip full,
  In full (icu_matchAll_from skip s) -> exists s0, full = s0 +:+ "}".
Proof.
  induction s as [|c s IH]; intros skip full Hin; [contradiction|].
  cbn [icu_matchAll_from] in Hin. destruct skip; [|now apply (IH skip)].
  destruct (icu_match_here c s) as [m|] eqn:Hm; [|now apply (IH 0)].
  destruct Hin as [<-|Hin]; [now apply (icu_match_here_close c s) | now apply (IH _ _ Hin)].
Qed.

Lemma fold_left_last {A B : Type} (g : B -> A) (l : list B) (b : B) (a : A) :
  fold_left (fun _ x => g x) (l ++ [b]) a = g b.
Proof. now rewrite fold_left_app. Qed.

(** X6.  When the source value holds a structured message, the value
    [generateICUFix] proposes is computed from the last such message of the
    source alone: the target value plays no part in it, and it consists of
    braces, equals signs, whitespace and the marker TODO only. *)
Theorem generateICUFix_discards_target (issue : ValidationIssue) (sv m : string)
        (ms : list string) :
  i_sourceValue issue = Some sv ->
  icu_matchAll sv = ms ++ [m] ->
  f_newValue (generateICUFix issue) = Some (icu_structureOnly m)
  /\ all_chars is_skeleton_char (icu_structureOnly m) = true.
Proof.
  intros Hsv Hms.
  assert (Hne : truthy_str (i_sourceValue issue) = true).
  { rewrite Hsv. destruct sv; [|reflexivity]. destruct ms; discriminate Hms. }
  split.
  - unfold generateICUFix. rewrite Hne. cbn [f_newValue]. rewrite Hsv.
    cbn [from_option id]. rewrite Hms. now rewrite fold_left_last.
  - destruct (icu_matchAll_from_close sv 0 m) as [s0 ->].
    + unfold icu_matchAll in Hms. rewrite Hms. apply in_or_app. right. now left.
    + apply icu_todo_skeleton.
Qed.

Lemma generateICUFix_discards_target_witness :
  let issue tv :=
    {| i_type := icuError; i_locale := "fr"; i_key := "items";
       i_message := "ICU structure mismatch with source"; i_severity := error;
       i_sourceValue := Some "{count, plural, one{# item} other{# items}}";
       i_targetValue := tv; i_suggestion := None |} in
  f_newValue (generateICUFix (issue (Some "{count, plural, one{# objet} other{# objets}}")))
  = Some "{TODO TODO TODO{TODO TODO}"
  /\ f_newValue (generateICUFix (issue None)) = Some "{TODO TODO TODO{TODO TODO}".
Proof.
  intros issue. split.
  - destruct (generateICUFix_discards_target
                (issue (Some "{count, plural, one{# objet} other{# objets}}"))
                "{count, plural, one{# item} other{# items}}"
                "{count, plural, one{# item}" [] eq_refl eq_refl) as [Hv _].
    exact Hv.
  - destruct (generateICUFix_discards_target (issue None)
                "{count, plural, one{# item} other{# items}}"
                "{count, plural, one{# item}" [] eq_refl eq_refl) as [Hv _].
    exact Hv.
Defined.

Lemma fix_loop_not_authorized `{Host} (config : LocalzConfig) (S T : LocaleFile)
      (issues : list ValidationIssue) : forall fixes,
  doAutoFix config = false ->
  fix_loop config S issues T fixes
  = if forallb (fun i => match generateFix S i T with Some _ => true | None => false end) issues
    then Some (T, fixes) else None.
Proof.
  induction issues as [|i issues IH]; intros fixes Hoff; [reflexivity|].
  cbn [fix_loop forallb]. destruct (generateFix S i T); [|reflexivity].
  rewrite Hoff. cbn [andb]. now apply IH.
Qed.

(** X7.  With auto-fix switched off, [autoFix] changes no value and reports no
    fix, yet it still generates a fix for every issue (and fails when one
    cannot be generated) and still reorders the entries as the ordering
    policy says. *)
Theorem autoFix_not_authorized `{Host} (config : LocalzConfig) (S T : LocaleFile)
        (issues : list ValidationIssue) :
  doAutoFix config = false ->
  autoFix config S T issues
  = if forallb (fun i => match generateFix S i T with Some _ => true | None => false end) issues
    then Some (reorder config S T, []) else None.
Proof.
  intros Hoff. unfold autoFix. rewrite fix_loop_not_authorized by assumption.
  now destruct (forallb _ issues).
Qed.

Lemma autoFix_not_authorized_witness :
  let config := {| doAutoFix := false; preferOrder := Some alphabetical |} in
  let S := file_of "en" json [("a", "Hi"); ("b", "Bye")] in
  let T := file_of "fr" json [("b", "Salut"); ("a", " Hi")] in
  option_map (fun r => (obj_keys (entries (fst r)), snd r))
             (@autoFix literal_host config S T (@validateTarget literal_host S T))
  = Some (["a"; "b"], []).
Proof.
  intros config S T.
  rewrite (@autoFix_not_authorized literal_host config S T
             (@validateTarget literal_host S T) eq_refl).
  reflexivity.
Defined.

(** ** Formatting: the suggestions *)

Lemma trimStart_no_space s : starts_with_space s = false -> trimStart s = s.
Proof. destruct s as [|c s]; [reflexivity|]. cbn. now intros ->. Qed.

Lemma trimStart_starts s : starts_with_space (trimStart s) = false.
Proof.
  induction s as [|c s IH]; [reflexivity|]. cbn [trimStart].
  destruct (is_space c) eqn:Hc; [exact IH | cbn; exact Hc].
Qed.

Lemma trimEnd_starts s : starts_with_space s = false -> starts_with_space (trimEnd s) = false.
Proof.
  destruct s as [|c s]; [reflexivity|]. cbn [starts_with_space trimEnd]. intros Hc.
  destruct (trimEnd s); [rewrite Hc; cbn; exact Hc | exact Hc].
Qed.

Lemma trimEnd_idem s : trimEnd (trimEnd s) = trimEnd s.
Proof.
  induction s as [|c s IH]; [reflexivity|]. cbn [trimEnd].
  destruct (trimEnd s) as [|d r] eqn:Hr.
  - destruct (is_space c) eqn:Hc; [reflexivity|]. cbn [trimEnd]. now rewrite Hc.
  - cbn [trimEnd]. cbn [trimEnd] in IH. rewrite IH. reflexivity.
Qed.

Lemma trim_idem s : trim (trim s) = trim s.
Proof.
  unfold trim. rewrite (trimStart_no_space (trimEnd (trimStart s))).
  - apply trimEnd_idem.
  - apply trimEnd_starts, trimStart_starts.
Qed.

Lemma space_is_space : is_space " "%char = true.
Proof. reflexivity. Qed.

Lemma prefix_two_spaces s :
  String.prefix "  " s
  = match s with
    | String a (String b _) => Ascii.eqb " "%char a && Ascii.eqb " "%char b
    | _ => false
    end.
Proof.
  destruct s as [|a [|b r]]; try reflexivity.
  - change (String.prefix "  " (String a EmptyString))
      with (String.prefix (String " " (String " " EmptyString)) (String a EmptyString)).
    rewrite prefix_cons. destruct (Ascii.eqb " " a); reflexivity.
  - change (String.prefix "  " (String a (String b r)))
      with (String.prefix (String " " (String " " EmptyString)) (String a (String b r))).
    now rewrite !prefix_cons, prefix_empty, andb_true_r.
Qed.

Lemma collapse_no_double s : forall in_run,
  includes "  " (collapse_ws_from in_run s) = false
  /\ (in_run = true -> starts_with_space (collapse_ws_from in_run s) = false).
Proof.
  induction s as [|c s IH]; intros in_run; [split; reflexivity|].
  cbn [collapse_ws_from]. destruct (is_space c) eqn:Hc.
  - destruct (IH true) as [Hinc Hst]. specialize (Hst eq_refl). destruct in_run.
    + split; [exact Hinc | intros _; exact Hst].
    + split; [|discriminate]. cbn [includes]. rewrite Hinc, orb_false_r.
      rewrite prefix_two_spaces. destruct (collapse_ws_from true s) as [|b r]; [reflexivity|].
      cbn [starts_with_space] in Hst.
      destruct (Ascii.eqb_spec " "%char b) as [<-|_]; [discriminate Hst | apply andb_false_r].
  - destruct (IH false) as [Hinc _]. split; [|intros _; cbn; exact Hc].
    cbn [includes]. rewrite Hinc, orb_false_r. rewrite prefix_two_spaces.
    destruct (collapse_ws_from false s); [reflexivity|].
    destruct (Ascii.eqb_spec " "%char c) as [<-|_]; [discriminate Hc | reflexivity].
Qed.

(** X8.  Each suggestion of [checkFormatting] passes the test that raised it:
    the suggestion for leading or trailing whitespace is its own trim, and
    the suggestion for consecutive spaces holds no two consecutive spaces. *)
Theorem checkFormatting_suggestions_pass (T : LocaleFile) :
  Forall (fun i => exists s,
            i_suggestion i = Some s
            /\ ((i_message i = "Value has leading or trailing whitespace"
                 /\ String.eqb s (trim s) = true)
                \/ (i_message i = "Value contains multiple consecutive spaces"
                    /\ includes "  " s = false)))
         (checkFormatting T).
Proof.
  apply Forall_forall. intros i Hin. unfold checkFormatting in Hin.
  apply in_flat_map in Hin as ([k e] & _ & Hin). cbn beta zeta in Hin.
  apply in_app_or in Hin as [Hin|Hin].
  - destruct (negb _); [|contradiction]. destruct Hin as [<-|[]].
    exists (trim (value e)). cbn [i_suggestion i_message].
    split; [reflexivity | left; split; [reflexivity|]].
    rewrite trim_idem. apply String.eqb_refl.
  - destruct (includes "  " (value e)); [|contradiction]. destruct Hin as [<-|[]].
    exists (collapse_ws (value e)). cbn [i_suggestion i_message].
    split; [reflexivity | right; split; [reflexivity|]].
    apply collapse_no_double.
Qed.

(** ** Formatting: the fixes applied *)

Lemma set_value_same e : set_value e (value e) = e.
Proof. now destruct e. Qed.

Lemma obj_get_middle {V : Type} (k : string) (v : V) (done rest : list (string * V)) :
  ~ In k (obj_keys done) -> obj_get k (done ++ (k, v) :: rest) = Some v.
Proof.
  induction done as [|[k0 v0] done IH]; intros Hni; cbn [app obj_get].
  - now rewrite String.eqb_refl.
  - simpl in Hni. destruct (String.eqb_spec k0 k) as [->|_]; [tauto|]. apply IH. tauto.
Qed.

Lemma obj_set_middle {V : Type} (k : string) (v v' : V) (done rest : list (string * V)) :
  ~ In k (obj_keys done) ->
  obj_set k v' (done ++ (k, v) :: rest) = done ++ (k, v') :: rest.
Proof.
  induction done as [|[k0 v0] done IH]; intros Hni; cbn [app obj_set].
  - now rewrite String.eqb_refl.
  - simpl in Hni. destruct (String.eqb_spec k0 k) as [->|_]; [tauto|]. f_equal. apply IH. tauto.
Qed.

Lemma collapse_nonempty v : includes "  " v = true -> str_nonempty (collapse_ws v) = true.
Proof.
  destruct v as [|c v]; [discriminate|]. intros _. unfold collapse_ws. cbn [collapse_ws_from].
  destruct (is_space c); reflexivity.
Qed.

Lemma nonempty_inv s : str_nonempty s = true -> exists a r, s = String a r.
Proof. destruct s; [discriminate | eauto]. Qed.

Section FormattingFixes.
Context `{Host}.
Variable config : LocalzConfig.
Variable S : LocaleFile.
Hypothesis Hon : doAutoFix config = true.

Lemma checkFormatting_eq T :
  checkFormatting T = flat_map (formatting_issues (locale T)) (entries T).
Proof. reflexivity. Qed.

Lemma fix_loop_app (is1 is2 : list ValidationIssue) : forall F fixes F1 fixes1,
  fix_loop config S is1 F fixes = Some (F1, fixes1) ->
  fix_loop config S (is1 ++ is2) F fixes = fix_loop config S is2 F1 fixes1.
Proof.
  induction is1 as [|i is1 IH]; intros F fixes F1 fixes1 H1.
  - injection H1 as <- <-. reflexivity.
  - cbn [app fix_loop] in *. destruct (generateFix S i F) as [fx|]; [|discriminate].
    rewrite Hon in *. destruct (applyFix S fx F) as [F'|]; [|discriminate].
    now apply IH.
Qed.

Lemma applyFix_formatting (i : ValidationIssue) (F : LocaleFile) :
  applyFix S (generateFormattingFix i) F
  = match or_str (i_suggestion i)
                 (option_map (fun t => collapse_ws (trim t)) (i_targetValue i)),
          obj_get (i_key i) (entries F) with
    | Some (String a nv), Some e =>
        Some (set_entries F (obj_set (i_key i) (set_value e (String a nv)) (entries F)))
    | _, _ => Some F
    end.
Proof. reflexivity. Qed.

Lemma fix_one_entry (T : LocaleFile) (done rest : list (string * LocaleEntry))
      (k : string) (e : LocaleEntry) (fixes : list Fix) :
  ~ In k (obj_keys done) ->
  exists fixes1,
    fix_loop config S (formatting_issues (locale T) (k, e))
             (set_entries T (done ++ (k, e) :: rest)) fixes
    = Some (set_entries T (done ++ format_entry (k, e) :: rest), fixes ++ fixes1)
    /\ length fixes1 = length (formatting_issues (locale T) (k, e)).
Proof.
  intros Hni. unfold formatting_issues, format_entry, formatted.
  set (v := value e).
  assert (Hcol : includes "  " v = true ->
                 exists a r, collapse_ws v = String a r).
  { intros Hd. apply nonempty_inv. now apply collapse_nonempty. }
  destruct (includes "  " v) eqn:Hdbl; destruct (String.eqb v (trim v)) eqn:Htrim;
    cbn [negb app fix_loop generateFix i_type]; rewrite ?Hon.
  - (* two consecutive spaces only *)
    destruct (Hcol eq_refl) as (a & r & Hc).
    rewrite applyFix_formatting. cbn [i_suggestion i_key i_targetValue set_entries entries].
    unfold or_str. rewrite Hc. cbn [truthy_str str_nonempty].
    rewrite obj_get_middle, obj_set_middle by assumption.
    eexists [_]. split; reflexivity.
  - (* both issues *)
    destruct (Hcol eq_refl) as (a & r & Hc).
    rewrite applyFix_formatting. cbn [i_suggestion i_key i_targetValue set_entries entries].
    unfold or_str at 1. cbn [truthy_str option_map].
    destruct (trim v) as [|a0 r0] eqn:Ht; cbn [str_nonempty].
    + change (collapse_ws EmptyString) with EmptyString. cbv iota.
      rewrite applyFix_formatting. cbn [i_suggestion i_key i_targetValue set_entries entries].
      unfold or_str. rewrite Hc. cbn [truthy_str str_nonempty].
      rewrite obj_get_middle, obj_set_middle by assumption.
      eexists [_; _]. split; [rewrite <- app_assoc; reflexivity | reflexivity].
    + rewrite obj_get_middle, obj_set_middle by assumption.
      rewrite applyFix_formatting. cbn [i_suggestion i_key i_targetValue set_entries entries].
      unfold or_str. rewrite Hc. cbn [truthy_str str_nonempty].
      rewrite obj_get_middle, obj_set_middle by assumption.
      eexists [_; _]. split; [rewrite <- app_assoc; reflexivity | reflexivity].
  - (* no issue *)
    apply String.eqb_eq in Htrim. exists []. rewrite app_nil_r. split; [|reflexivity].
    do 3 f_equal. rewrite <- Htrim. destruct (str_nonempty v); unfold v; now rewrite set_value_same.
  - (* leading or trailing whitespace only *)
    rewrite applyFix_formatting. cbn [i_suggestion i_key i_targetValue set_entries entries].
    unfold or_str. cbn [truthy_str option_map].
    destruct (trim v) as [|a0 r0] eqn:Ht; cbn [str_nonempty].
    + change (collapse_ws EmptyString) with EmptyString. cbv iota.
      eexists [_]. split; [|reflexivity]. do 4 f_equal.
      unfold v. now rewrite set_value_same.
    + rewrite obj_get_middle, obj_set_middle by assumption.
      eexists [_]. split; reflexivity.
Qed.

Lemma fix_formatting_entries (T : LocaleFile) (todo : list (string * LocaleEntry)) :
  forall done fixes,
  NoDup (obj_keys (done ++ todo)) ->
  exists fixes1,
    fix_loop config S (flat_map (formatting_issues (locale T)) todo)
             (set_entries T (done ++ todo)) fixes
    = Some (set_entries T (done ++ map format_entry todo), fixes ++ fixes1)
    /\ length fixes1 = length (flat_map (formatting_issues (locale T)) todo).
Proof.
  induction todo as [|[k e] todo IH]; intros done fixes Hnd.
  - exists []. cbn [map flat_map fix_loop]. rewrite !app_nil_r. split; reflexivity.
  - assert (Hni : ~ In k (obj_keys done)).
    { unfold obj_keys in Hnd |- *. rewrite map_app in Hnd. apply NoDup_remove_2 in Hnd.
      intros Hin. apply Hnd. apply in_or_app. now left. }
    destruct (fix_one_entry T done todo k e fixes Hni) as (f1 & H1 & Hl1).
    cbn [flat_map map]. rewrite (fix_loop_app _ _ _ _ _ _ H1).
    destruct (IH (done ++ [format_entry (k, e)]) (fixes ++ f1)) as (f2 & H2 & Hl2).
    { unfold obj_keys in Hnd |- *. rewrite <- app_assoc. cbn [app format_entry].
      rewrite map_app in Hnd |- *. exact Hnd. }
    rewrite <- !app_assoc in H2. cbn [app] in H2.
    exists (f1 ++ f2). split; [rewrite H2; now rewrite (app_assoc fixes f1 f2)|].
    rewrite !length_app. congruence.
Qed.
End FormattingFixes.

(** X9.  Applying the fixes of the formatting issues of a target, in the order
    they are raised, leaves every entry in place and gives it the value
    [formatted]: where the value has two consecutive spaces the second
    fix overwrites the first with the original value, whitespace runs
    replaced by one space and not trimmed; a value of whitespace only is
    never emptied. *)
Theorem formatting_fixes_result `{Host} (config : LocalzConfig) (S T : LocaleFile) :
  doAutoFix config = true ->
  NoDup (obj_keys (entries T)) ->
  exists fixes,
    fix_loop config S (checkFormatting T) T [] = Some (set_entries T (map format_entry (entries T)), fixes)
    /\ length fixes = length (checkFormatting T).
Proof.
  intros Hon Hnd.
  destruct (fix_formatting_entries config S Hon T (entries T) [] [] Hnd) as (fixes & Hf & Hl).
  exists fixes. rewrite checkFormatting_eq. split; [|exact Hl].
  cbn [app] in Hf. replace (set_entries T (entries T)) with T in Hf by now destruct T.
  exact Hf.
Qed.

Lemma formatting_fixes_result_witness :
  let config := {| doAutoFix := true; preferOrder := None |} in
  let S := file_of "en" json [("a", "Hi"); ("b", "there"); ("c", "x")] in
  let T := file_of "fr" json [("a", " Bonjour  le monde"); ("b", "   "); ("c", " x ")] in
  option_map (fun r => map (fun p => value (snd p)) (entries (fst r)))
             (@fix_loop literal_host config S (checkFormatting T) T [])
  = Some [" Bonjour le monde"; " "; "x"].
Proof.
  intros config S T.
  destruct (@formatting_fixes_result literal_host config S T eq_refl) as (fixes & Hf & _).
  - repeat constructor; simpl; intuition discriminate.
  - rewrite Hf. reflexivity.
Defined.

(** ** The order of the keys *)

Lemma ascii_compare_refl c : Ascii.compare c c = Eq.
Proof. unfold Ascii.compare. apply N.compare_refl. Qed.

Lemma ascii_compare_lt_trans a b c :
  Ascii.compare a b = Lt -> Ascii.compare b c = Lt -> Ascii.compare a c = Lt.
Proof. unfold Ascii.compare. rewrite !N.compare_lt_iff. lia. Qed.

Lemma str_compare_trans s1 : forall s2 s3 r,
  String.compare s1 s2 <> Gt -> String.compare s2 s3 <> Gt -> r = String.compare s1 s3 ->
  r <> Gt.
Proof.
  induction s1 as [|c1 s1 IH]; intros [|c2 s2] [|c3 s3] r H12 H23 ->; cbn [String.compare] in *;
    try congruence.
  destruct (Ascii.compare c1 c2) eqn:E12; try congruence.
  - apply Ascii.compare_eq_iff in E12. subst c2.
    destruct (Ascii.compare c1 c3); try congruence. now apply (IH s2 s3).
  - destruct (Ascii.compare c2 c3) eqn:E23; try congruence.
    + apply Ascii.compare_eq_iff in E23. subst c3. now rewrite E12.
    + now rewrite (ascii_compare_lt_trans _ _ _ E12 E23).
Qed.

Lemma str_le_trans a b c : str_le a b -> str_le b c -> str_le a c.
Proof.
  unfold str_le, String.leb. intros Hab Hbc.
  assert (H : String.compare a c <> Gt).
  { apply (str_compare_trans a b c); [| |reflexivity].
    - destruct (String.compare a b); congruence.
    - destruct (String.compare b c); congruence. }
  destruct (String.compare a c); congruence.
Qed.

Lemma In_insert_sorted k x l : In x (insert_sorted k l) <-> x = k \/ In x l.
Proof.
  induction l as [|y l IH]; simpl; [intuition congruence|].
  destruct (String.leb k y); simpl; [intuition congruence|]. rewrite IH. intuition congruence.
Qed.

Lemma insert_sorted_sorted k l :
  StronglySorted str_le l -> StronglySorted str_le (insert_sorted k l).
Proof.
  induction 1 as [|y l Hl IH Hy]; simpl; [repeat constructor|].
  destruct (String.leb k y) eqn:Hky.
  - constructor; [now constructor|]. constructor; [exact Hky|].
    eapply Forall_impl; [|exact Hy]. intros z Hz. now apply (str_le_trans k y z).
  - constructor; [assumption|]. apply Forall_forall. intros z Hz.
    apply In_insert_sorted in Hz as [->|Hz].
    + destruct (String.leb_total y k) as [Hyk|Hyk]; [exact Hyk | congruence].
    + rewrite Forall_forall in Hy. now apply Hy.
Qed.

Lemma sort_keys_sorted l : StronglySorted str_le (sort_keys l).
Proof.
  induction l as [|k l IH]; simpl; [constructor | now apply insert_sorted_sorted].
Qed.

Lemma insert_sorted_perm k l : Permutation (insert_sorted k l) (k :: l).
Proof.
  induction l as [|y l IH]; simpl; [reflexivity|].
  destruct (String.leb k y); [reflexivity|].
  rewrite IH. apply perm_swap.
Qed.

Lemma sort_keys_perm l : Permutation (sort_keys l) l.
Proof.
  induction l as [|k l IH]; simpl; [constructor|].
  rewrite insert_sorted_perm. now constructor.
Qed.

Lemma sorted_perm_eq (l : list string) : forall l',
  StronglySorted str_le l -> StronglySorted str_le l' -> Permutation l l' -> l = l'.
Proof.
  induction l as [|a l IH]; intros l' Hs Hs' Hp.
  - now apply Permutation_nil in Hp.
  - destruct l' as [|b l']; [now apply Permutation_sym, Permutation_nil in Hp|].
    apply StronglySorted_inv in Hs as [Hs Ha]. apply StronglySorted_inv in Hs' as [Hs' Hb].
    rewrite Forall_forall in Ha, Hb.
    assert (Hab : a = b).
    { assert (Hin1 : In a (b :: l')) by (eapply Permutation_in; [exact Hp | now left]).
      assert (Hin2 : In b (a :: l))
        by (eapply Permutation_in; [apply Permutation_sym; exact Hp | now left]).
      destruct Hin1 as [->|Hin1]; [reflexivity|].
      destruct Hin2 as [->|Hin2]; [reflexivity|].
      apply String.leb_antisym; [now apply Ha | now apply Hb]. }
    subst b. f_equal. apply IH; try assumption. now apply Permutation_cons_inv in Hp.
Qed.

Lemma sort_keys_of_perm l l' : Permutation l l' -> sort_keys l = sort_keys l'.
Proof.
  intros Hp. apply sorted_perm_eq; try apply sort_keys_sorted.
  now rewrite !sort_keys_perm.
Qed.

Lemma fold_set_fresh {V : Type} (l : list (string * V)) : forall acc,
  NoDup (obj_keys l) -> (forall k, In k (obj_keys l) -> ~ In k (obj_keys acc)) ->
  fold_left (fun acc '(k, e) => obj_set k e acc) l acc = acc ++ l.
Proof.
  induction l as [|[k e] l IH]; intros acc Hnd Hfresh; [now rewrite app_nil_r|].
  simpl in Hnd. apply NoDup_cons_iff in Hnd as [Hni Hnd]. cbn [fold_left].
  assert (Hk : ~ In k (obj_keys acc)) by (apply Hfresh; now left).
  rewrite obj_set_absent by assumption. rewrite IH; [now rewrite <- app_assoc|assumption|].
  intros k' Hin Hin'. unfold obj_keys in Hin'. rewrite map_app in Hin'.
  apply in_app_or in Hin' as [Hin'|[<-|[]]].
  - apply (Hfresh k'); [now right | assumption].
  - contradiction.
Qed.

Lemma pick_entries_fold ks es : forall acc,
  fold_left (fun acc k => match obj_get k es with
                          | Some e => obj_set k e acc
                          | None => acc
                          end) ks acc
  = fold_left (fun acc '(k, e) => obj_set k e acc) (pick_entries ks es) acc.
Proof.
  induction ks as [|k ks IH]; intros acc; [reflexivity|].
  cbn [fold_left pick_entries flat_map]. rewrite fold_left_app.
  fold (pick_entries ks es). destruct (obj_get k es); cbn [fold_left]; apply IH.
Qed.

Lemma obj_keys_app {V : Type} (a b : list (string * V)) :
  obj_keys (a ++ b) = obj_keys a ++ obj_keys b.
Proof. apply map_app. Qed.

Lemma pick_entries_keys ks es :
  obj_keys (pick_entries ks es) = filter (fun k => mem_str k (obj_keys es)) ks.
Proof.
  induction ks as [|k ks IH]; [reflexivity|].
  cbn [pick_entries flat_map filter]. fold (pick_entries ks es).
  rewrite obj_keys_app, IH, mem_str_obj_get. now destruct (obj_get k es).
Qed.

Lemma pick_entries_In ks es k e :
  In (k, e) (pick_entries ks es) <-> In k ks /\ obj_get k es = Some e.
Proof.
  unfold pick_entries. rewrite in_flat_map. split.
  - intros (k' & Hin & Hke). destruct (obj_get k' es) eqn:Hg; [|contradiction].
    destruct Hke as [[= <- <-]|[]]. auto.
  - intros [Hin Hg]. exists k. split; [assumption|]. rewrite Hg. now left.
Qed.

Lemma NoDup_filter_keys (f : string -> bool) (l : list string) : NoDup l -> NoDup (filter f l).
Proof. apply NoDup_filter. Qed.

Lemma obj_keys_filter {V : Type} (f : string -> bool) (es : list (string * V)) :
  obj_keys (filter (fun '(k, _) => f k) es) = filter f (obj_keys es).
Proof.
  induction es as [|[k e] es IH]; [reflexivity|].
  cbn [filter obj_keys map fst]. destruct (f k); cbn [map fst]; fold (obj_keys es);
    unfold obj_keys in IH |- *; now rewrite IH.
Qed.

Section ReorderFacts.
Variables S T : LocaleFile.
Hypothesis HS : NoDup (obj_keys (entries S)).
Hypothesis HT : NoDup (obj_keys (entries T)).

Let reordered : list (string * LocaleEntry) :=
  pick_entries (obj_keys (entries S)) (entries T)
  ++ filter (fun '(k, _) => negb (mem_str k (obj_keys (entries S)))) (entries T).

Lemma reorderToMatchSource_entries :
  entries (reorderToMatchSource S T) = reordered.
Proof.
  unfold reorderToMatchSource, set_entries. cbn [entries].
  rewrite pick_entries_fold.
  rewrite (fold_set_fresh (pick_entries _ _) []);
    [|rewrite pick_entries_keys; now apply NoDup_filter | intros k _ []].
  cbn [app]. rewrite fold_set_fresh; [reflexivity| |].
  - rewrite obj_keys_filter. now apply NoDup_filter.
  - intros k Hin Hin'. rewrite obj_keys_filter in Hin. apply filter_In in Hin as [_ Hk].
    rewrite pick_entries_keys in Hin'. apply filter_In in Hin' as [Hin' _].
    apply negb_true_iff, mem_str_not_In in Hk. contradiction.
Qed.

Lemma reordered_keys :
  obj_keys reordered
  = filter (fun k => mem_str k (obj_keys (entries T))) (obj_keys (entries S))
    ++ filter (fun k => negb (mem_str k (obj_keys (entries S)))) (obj_keys (entries T)).
Proof.
  unfold reordered. now rewrite obj_keys_app, pick_entries_keys, obj_keys_filter.
Qed.

Lemma reordered_NoDup : NoDup (obj_keys reordered).
Proof.
  rewrite reordered_keys. apply NoDup_app; try now apply NoDup_filter.
  intros k Hin Hin'. apply filter_In in Hin as [Hin _]. apply filter_In in Hin' as [_ Hk].
  apply negb_true_iff, mem_str_not_In in Hk. contradiction.
Qed.

Lemma reordered_get k : obj_get k reordered = obj_get k (entries T).
Proof.
  destruct (obj_get k (entries T)) as [e|] eqn:Hg.
  - apply In_obj_get; [apply reordered_NoDup|]. unfold reordered. apply in_or_app.
    destruct (in_dec string_dec k (obj_keys (entries S))) as [Hin|Hni].
    + left. now apply pick_entries_In.
    + right. apply filter_In. split; [now apply obj_get_In|].
      apply negb_true_iff. now apply mem_str_not_In.
  - apply obj_get_None. apply obj_get_None in Hg. intros Hin. apply Hg.
    rewrite reordered_keys in Hin. apply in_app_or in Hin as [Hin|Hin].
    + apply filter_In in Hin as [_ Hin]. now apply mem_str_In.
    + now apply filter_In in Hin as [Hin _].
Qed.
End ReorderFacts.

Lemma reorderToMatchSource_facts (S T : LocaleFile) :
  NoDup (obj_keys (entries S)) -> NoDup (obj_keys (entries T)) ->
  (forall k, obj_get k (entries (reorderToMatchSource S T)) = obj_get k (entries T))
  /\ Permutation (obj_keys (entries (reorderToMatchSource S T))) (obj_keys (entries T)).
Proof.
  intros HS HT. rewrite (reorderToMatchSource_entries S T HS HT).
  split; [apply reordered_get; assumption|].
  apply NoDup_Permutation; [now apply reordered_NoDup | assumption|].
  intros k. rewrite <- !obj_get_In_keys. now rewrite reordered_get.
Qed.

(** X10.  On files whose keys are not array indices, the source naming no
    member of [Object.prototype], [reorderToMatchSource] lists first the
    entries whose key the source has, in the order of the source, then the
    entries the source lacks, in their own order; no entry is lost, added
    or changed. *)
Theorem reorderToMatchSource_order (S T : LocaleFile) :
  NoDup (obj_keys (entries S)) -> NoDup (obj_keys (entries T)) ->
  forallb ordinary_key (obj_keys (entries S)) = true ->
  forallb plain_key (obj_keys (entries T)) = true ->
  entries (reorderToMatchSource S T)
  = pick_entries (obj_keys (entries S)) (entries T)
    ++ filter (fun '(k, _) => negb (mem_str k (obj_keys (entries S)))) (entries T)
  /\ (forall k, obj_get k (entries (reorderToMatchSource S T)) = obj_get k (entries T))
  /\ Permutation (obj_keys (entries (reorderToMatchSource S T))) (obj_keys (entries T)).
Proof.
  intros HS HT _ _. split; [now apply reorderToMatchSource_entries|].
  now apply reorderToMatchSource_facts.
Qed.

Lemma reorderToMatchSource_order_witness :
  let S := file_of "en" json [("a", "Hi"); ("b", "Bye"); ("c", "Yes")] in
  let T := file_of "fr" json [("x", "Quoi"); ("c", "Oui"); ("a", "Salut")] in
  obj_keys (entries (reorderToMatchSource S T)) = ["a"; "c"; "x"].
Proof.
  intros S T.
  destruct (reorderToMatchSource_order S T) as (Heq & _ & _).
  - repeat constructor; simpl; intuition discriminate.
  - repeat constructor; simpl; intuition discriminate.
  - reflexivity.
  - reflexivity.
  - rewrite Heq. reflexivity.
Defined.

Lemma sorted_fold_entries (es : list (string * LocaleEntry)) (ks : list string) :
  NoDup ks -> (forall k, In k ks -> In k (obj_keys es)) ->
  fold_left (fun acc k => match obj_get k es with
                          | Some e => obj_set k e acc
                          | None => acc
                          end) ks []
  = pick_entries ks es
  /\ obj_keys (pick_entries ks es) = ks.
Proof.
  intros Hnd Hin. split.
  - rewrite pick_entries_fold. rewrite fold_set_fresh; [reflexivity| |intros k _ []].
    rewrite pick_entries_keys. now apply NoDup_filter.
  - rewrite pick_entries_keys. apply forallb_filter_id. apply forallb_forall.
    intros k Hk. apply mem_str_In. now apply Hin.
Qed.

Lemma reorderAlphabetically_facts (T : LocaleFile) :
  NoDup (obj_keys (entries T)) ->
  obj_keys (entries (reorderAlphabetically T)) = sort_keys (obj_keys (entries T))
  /\ (forall k, obj_get k (entries (reorderAlphabetically T)) = obj_get k (entries T)).
Proof.
  intros HT.
  assert (Hnd : NoDup (sort_keys (obj_keys (entries T))))
    by (eapply Permutation_NoDup; [apply Permutation_sym, sort_keys_perm | assumption]).
  destruct (sorted_fold_entries (entries T) (sort_keys (obj_keys (entries T))) Hnd
              ltac:(intros k; apply In_sort_keys)) as [Hfold Hkeys].
  unfold reorderAlphabetically, set_entries. cbn [entries]. rewrite Hfold, Hkeys.
  split; [reflexivity|].
  intros k. destruct (obj_get k (entries T)) as [e|] eqn:Hg.
  - apply In_obj_get; [now rewrite Hkeys|]. apply pick_entries_In. split; [|assumption].
    apply In_sort_keys. apply obj_get_In_keys. eauto.
  - apply obj_get_None. rewrite Hkeys, In_sort_keys. now apply obj_get_None.
Qed.

(** X11.  On a file whose keys are not array indices,
    [reorderAlphabetically] lists the entries by ascending key, in the
    order of [sort()]; no entry is lost, added or changed. *)
Theorem reorderAlphabetically_sorted (T : LocaleFile) :
  NoDup (obj_keys (entries T)) ->
  forallb plain_key (obj_keys (entries T)) = true ->
  obj_keys (entries (reorderAlphabetically T)) = sort_keys (obj_keys (entries T))
  /\ StronglySorted str_le (obj_keys (entries (reorderAlphabetically T)))
  /\ (forall k, obj_get k (entries (reorderAlphabetically T)) = obj_get k (entries T))
  /\ Permutation (obj_keys (entries (reorderAlphabetically T))) (obj_keys (entries T)).
Proof.
  intros HT _. destruct (reorderAlphabetically_facts T HT) as [Hkeys Hget].
  rewrite Hkeys.
  split; [reflexivity | split; [apply sort_keys_sorted | split; [exact Hget|]]].
  apply sort_keys_perm.
Qed.

Lemma reorderAlphabetically_sorted_witness :
  let T := file_of "fr" json [("b", "Oui"); ("a", "Non"); ("B", "Si")] in
  obj_keys (entries (reorderAlphabetically T)) = ["B"; "a"; "b"].
Proof.
  intros T. destruct (reorderAlphabetically_sorted T) as (Heq & _).
  - repeat constructor; simpl; intuition discriminate.
  - reflexivity.
  - rewrite Heq. reflexivity.
Defined.

(** ** Reordering and the patches *)

Lemma emit_entry_same_lookup wm (E E' : list (string * LocaleEntry)) out k :
  obj_get k E' = obj_get k E -> emit_entry wm E' out k = emit_entry wm E out k.
Proof. unfold emit_entry. now intros ->. Qed.

Lemma serializeARB_output_same (T T' : LocaleFile) :
  raw T' = raw T ->
  Permutation (obj_keys (entries T')) (obj_keys (entries T)) ->
  (forall k, obj_get k (entries T') = obj_get k (entries T)) ->
  serializeARB_output T' = serializeARB_output T.
Proof.
  intros Hraw Hperm Hget. unfold serializeARB_output.
  rewrite Hraw, (sort_keys_of_perm _ _ Hperm).
  apply fold_left_pointwise. intros out k. now apply emit_entry_same_lookup.
Qed.

Lemma reorder_same_content (config : LocalzConfig) (S T : LocaleFile) :
  NoDup (obj_keys (entries S)) -> NoDup (obj_keys (entries T)) ->
  raw (reorder config S T) = raw T
  /\ path (reorder config S T) = path T
  /\ Permutation (obj_keys (entries (reorder config S T))) (obj_keys (entries T))
  /\ (forall k, obj_get k (entries (reorder config S T)) = obj_get k (entries T)).
Proof.
  intros HS HT. unfold reorder. destruct (preferOrder config) as [[|]|].
  - destruct (reorderToMatchSource_facts S T HS HT) as (Hget & Hperm). auto.
  - destruct (reorderAlphabetically_facts T HT) as (Hkeys & Hget).
    repeat split; try assumption; try reflexivity. rewrite Hkeys. apply sort_keys_perm.
  - auto.
Qed.

(** X12.  The text [serializeARB] compares lists the keys sorted, so a file whose
    entries were only reordered has no changes: [hasChanges] is false between
    a file and its reordering, under either ordering policy, and
    [generatePatches] returns no patch for it. *)
Theorem reorder_makes_no_patch `{Host} (config : LocalzConfig) (S T : LocaleFile) (l : string) :
  NoDup (obj_keys (entries S)) -> NoDup (obj_keys (entries T)) ->
  hasChanges T (reorder config S T) = false
  /\ generatePatches [(l, T)] [(l, reorder config S T)] = [].
Proof.
  intros HS HT. destruct (reorder_same_content config S T HS HT) as (Hraw & _ & Hperm & Hget).
  assert (Hsame : hasChanges T (reorder config S T) = false).
  { unfold hasChanges, serializeARB.
    rewrite (serializeARB_output_same T (reorder config S T) Hraw Hperm Hget).
    now rewrite String.eqb_refl. }
  split; [exact Hsame|].
  unfold generatePatches. cbn [patches_loop obj_get]. rewrite String.eqb_refl.
  now rewrite Hsame.
Qed.

Lemma reorder_makes_no_patch_witness :
  let config := {| doAutoFix := true; preferOrder := Some mirror_source |} in
  let S := file_of "en" json [("a", "Hi"); ("b", "Bye")] in
  let T := file_of "fr" json [("b", "Salut"); ("a", "Ciao")] in
  obj_keys (entries (reorder config S T)) = ["a"; "b"]
  /\ @generatePatches literal_host [("fr", T)] [("fr", reorder config S T)] = [].
Proof.
  intros config S T. split; [reflexivity|].
  destruct (@reorder_makes_no_patch literal_host config S T "fr") as [_ Hp].
  - repeat constructor; simpl; intuition discriminate.
  - repeat constructor; simpl; intuition discriminate.
  - exact Hp.
Defined.

(** ** The patch on the terminal *)

Lemma split_on_nonempty sep s : split_on sep s <> [].
Proof.
  destruct s as [|c s]; cbn [split_on]; [discriminate|].
  destruct (Ascii.eqb c sep); [discriminate|]. now destruct (split_on sep s).
Qed.

Lemma join_cons sep x y rest : join sep (x :: y :: rest) = x +:+ sep +:+ join sep (y :: rest).
Proof. reflexivity. Qed.

Lemma newline_app t : newline +:+ t = String "010"%char t.
Proof. unfold newline. now norm_app. Qed.

Lemma join_split s : join newline (split_on "010"%char s) = s.
Proof.
  induction s as [|c s IH]; [reflexivity|]. cbn [split_on].
  destruct (Ascii.eqb_spec c "010"%char) as [->|Hne].
  - pose proof (split_on_nonempty "010"%char s) as Hnil.
    destruct (split_on "010"%char s) as [|x rest]; [contradiction|].
    rewrite join_cons, IH. now rewrite newline_app, app_empty.
  - pose proof (split_on_nonempty "010"%char s) as Hnil.
    destruct (split_on "010"%char s) as [|x rest]; [contradiction|].
    destruct rest as [|y rest].
    + cbn [join] in *. now rewrite IH.
    + rewrite join_cons in *. rewrite app_cons. now rewrite IH.
Qed.

Lemma split_join (ls : list string) :
  ls <> [] -> Forall (fun l => no_newline l = true) ls ->
  split_on "010"%char (join newline ls) = ls.
Proof.
  induction ls as [|x ls IH]; intros Hne Hall; [contradiction|].
  apply Forall_cons_iff in Hall as [Hx Hall].
  destruct ls as [|y ls].
  - cbn [join]. clear IH Hne Hall. induction x as [|c x IHx]; [reflexivity|].
    cbn [no_newline all_chars] in Hx. apply andb_true_iff in Hx as [Hc Hx].
    cbn [split_on]. apply negb_true_iff in Hc. rewrite Hc.
    unfold no_newline in IHx. now rewrite (IHx Hx).
  - rewrite join_cons. specialize (IH ltac:(discriminate) Hall). clear Hne.
    induction x as [|c x IHx].
    + rewrite app_empty, newline_app. cbn [split_on]. rewrite Ascii.eqb_refl. now rewrite IH.
    + cbn [no_newline all_chars] in Hx. apply andb_true_iff in Hx as [Hc Hx].
      rewrite app_cons. cbn [split_on]. apply negb_true_iff in Hc. rewrite Hc.
      unfold no_newline in IHx. now rewrite (IHx Hx).
Qed.

Lemma split_on_no_newline s : Forall (fun l => no_newline l = true) (split_on "010"%char s).
Proof.
  induction s as [|c s IH]; [repeat constructor|]. cbn [split_on].
  destruct (Ascii.eqb c "010"%char) eqn:Hc; [constructor; [reflexivity | exact IH]|].
  destruct (split_on "010"%char s) as [|x rest]; [repeat constructor; cbn; now rewrite Hc|].
  apply Forall_cons_iff in IH as [Hx Hrest]. constructor; [|exact Hrest].
  cbn [no_newline all_chars]. rewrite Hc. exact Hx.
Qed.

Lemma format_line_no_newline l : no_newline l = true -> no_newline (format_line l) = true.
Proof.
  intros Hl. unfold format_line, ansi, no_newline, esc.
  repeat match goal with |- context [if ?b then _ else _] => destruct b end;
    rewrite ?all_chars_app; try exact Hl; unfold no_newline in Hl; rewrite Hl; reflexivity.
Qed.

(** X13.  [formatPatchForDisplay] keeps the lines of the patch, each one wrapped
    in the colour its first characters select or left as it is; a patch
    with no line that starts with a plus sign, a minus sign or two at-signs
    is displayed unchanged. *)
Theorem formatPatchForDisplay_lines (patch : Patch) :
  split_on "010"%char (formatPatchForDisplay patch)
  = map format_line (split_on "010"%char (p_diff patch))
  /\ (Forall (fun l => startsWith "+" l = false /\ startsWith "-" l = false
                       /\ startsWith "@@" l = false)
             (split_on "010"%char (p_diff patch)) ->
      formatPatchForDisplay patch = p_diff patch).
Proof.
  unfold formatPatchForDisplay. split.
  - apply split_join.
    + pose proof (split_on_nonempty "010"%char (p_diff patch)).
      now destruct (split_on "010"%char (p_diff patch)).
    + apply Forall_map. eapply Forall_impl; [|apply split_on_no_newline].
      intros l. apply format_line_no_newline.
  - intros Hplain. rewrite <- (join_split (p_diff patch)) at 2. f_equal.
    rewrite <- (map_id (split_on "010"%char (p_diff patch))) at 2.
    apply map_ext_in. intros l Hl. rewrite Forall_forall in Hplain.
    destruct (Hplain l Hl) as (Hp & Hm & Ha). unfold format_line.
    assert (Hppp : startsWith "+++" l = false).
    { unfold startsWith in *. destruct l as [|c l]; [reflexivity|].
      change "+++" with (String "+" "++"). change "+" with (String "+" EmptyString) in Hp.
      rewrite prefix_cons in Hp |- *. rewrite prefix_empty, andb_true_r in Hp. now rewrite Hp. }
    assert (Hmmm : startsWith "---" l = false).
    { unfold startsWith in *. destruct l as [|c l]; [reflexivity|].
      change "---" with (String "-" "--"). change "-" with (String "-" EmptyString) in Hm.
      rewrite prefix_cons in Hm |- *. rewrite prefix_empty, andb_true_r in Hm. now rewrite Hm. }
    now rewrite Hppp, Hmmm, Ha, Hp, Hm.
Qed.

Lemma formatPatchForDisplay_lines_witness :
  let patch := {| p_path := "fr.arb";
                  p_diff := "--- a" +:+ newline +:+ "+++ b" +:+ newline +:+ "@@ -1 +1 @@"
                            +:+ newline +:+ "-x" +:+ newline +:+ "+y" +:+ newline +:+ " z";
                  p_format := unified |} in
  split_on "010"%char (formatPatchForDisplay patch)
  = [ ansi "36" "--- a"; ansi "36" "+++ b"; ansi "35" "@@ -1 +1 @@";
      ansi "31" "-x"; ansi "32" "+y"; " z" ]
  /\ formatPatchForDisplay {| p_path := "fr.arb"; p_diff := " a" +:+ newline +:+ " b";
                              p_format := unified |}
     = " a" +:+ newline +:+ " b".
Proof.
  intros patch. split.
  - destruct (formatPatchForDisplay_lines patch) as [Hl _]. rewrite Hl. reflexivity.
  - destruct (formatPatchForDisplay_lines
                {| p_path := "fr.arb"; p_diff := " a" +:+ newline +:+ " b";
                   p_format := unified |}) as [_ Hplain].
    apply Hplain. repeat constructor.
Defined.

(** ** Report generator *)

Lemma push_issue_fold (issues : list ValidationIssue) : forall m x d p i f,
  pl_missingKeys (fold_left push_issue issues (Build_PerLocale m x d p i f))
  = m ++ map i_key (issues_of_type missing issues)
  /\ pl_extraKeys (fold_left push_issue issues (Build_PerLocale m x d p i f))
     = x ++ map i_key (issues_of_type extra issues)
  /\ pl_duplicates (fold_left push_issue issues (Build_PerLocale m x d p i f))
     = d ++ map i_key (issues_of_type duplicate issues).
Proof.
  induction issues as [|a issues IH]; intros m x d p i f.
  - cbn. now rewrite !app_nil_r.
  - cbn [fold_left]. set (F := fold_left push_issue issues) in *.
    unfold push_issue, issues_of_type. cbn [filter].
    destruct (i_type a); cbn [IssueType_eqb map];
      match goal with
      | |- context [F (Build_PerLocale ?m' ?x' ?d' ?p' ?i' ?f')] =>
          destruct (IH m' x' d' p' i' f') as (H1 & H2 & H3)
      end; rewrite H1, H2, H3; unfold issues_of_type;
      rewrite <- ?app_assoc; auto.
Qed.

Lemma checkMissingKeys_keys `{Host} (S T : LocaleFile) :
  map i_key (checkMissingKeys S T)
  = filter (fun k => negb (mem_str k (obj_keys (entries T)))) (obj_keys (entries S)).
Proof.
  unfold checkMissingKeys. induction (entries S) as [|[k e] es IH]; [reflexivity|].
  cbn [flat_map obj_keys map fst filter]. rewrite map_app. fold (obj_keys es). rewrite IH.
  now destruct (negb (mem_str k (obj_keys (entries T)))).
Qed.

Lemma checkExtraKeys_keys `{Host} (S T : LocaleFile) :
  map i_key (checkExtraKeys S T)
  = filter (fun k => negb (mem_str k (obj_keys (entries S)))) (obj_keys (entries T)).
Proof.
  unfold checkExtraKeys. induction (entries T) as [|[k e] es IH]; [reflexivity|].
  cbn [flat_map obj_keys map fst filter]. rewrite map_app. fold (obj_keys es). rewrite IH.
  now destruct (negb (mem_str k (obj_keys (entries S)))).
Qed.

(** X14.  The per-locale part of the report, built from a report of [validate]:
    its missing keys are the keys of the source that the target lacks, in
    the order of the source, its extra keys the keys of the target that
    the source lacks, in the order of the target, each key once. *)
Theorem generateLocaleReport_keys `{Host} (S T : LocaleFile) :
  let r := generateLocaleReport (report_of S T) in
  pl_missingKeys r
  = filter (fun k => negb (mem_str k (obj_keys (entries T)))) (obj_keys (entries S))
  /\ pl_extraKeys r
     = filter (fun k => negb (mem_str k (obj_keys (entries S)))) (obj_keys (entries T))
  /\ pl_duplicates r = map i_key (checkDuplicates T).
Proof.
  intros r. unfold r, generateLocaleReport, report_of. cbn [r_issues].
  destruct (push_issue_fold (validateTarget S T) [] [] [] [] [] []) as (H1 & H2 & H3).
  rewrite H1, H2, H3. cbn [app].
  rewrite !issues_of_type_validateTarget.
  now rewrite checkMissingKeys_keys, checkExtraKeys_keys.
Qed.

Lemma add_stats_fold (reports : list (string * LocaleReport)) : forall c,
  (forall l r, In (l, r) reports ->
     missingKeys (r_stats r) = length (issues_of_type missing (r_issues r))
     /\ extraKeys (r_stats r) = length (issues_of_type extra (r_issues r))
     /\ duplicates (r_stats r) = length (issues_of_type duplicate (r_issues r))
     /\ icuErrors (r_stats r) = length (issues_of_type icuError (r_issues r))
     /\ placeholderMismatches (r_stats r)
        = length (issues_of_type placeholderMismatch (r_issues r))
     /\ formattingWarnings (r_stats r) = length (issues_of_type formatting (r_issues r))) ->
  let all := flat_map (fun p => r_issues (snd p)) reports in
  fold_left (fun issues '(_, report) => add_stats issues report) reports c
  = {| n_missing := n_missing c + length (issues_of_type missing all);
       n_extra := n_extra c + length (issues_of_type extra all);
       n_duplicate := n_duplicate c + length (issues_of_type duplicate all);
       n_icuError := n_icuError c + length (issues_of_type icuError all);
       n_placeholderMismatch :=
         n_placeholderMismatch c + length (issues_of_type placeholderMismatch all);
       n_formatting := n_formatting c + length (issues_of_type formatting all) |}.
Proof.
  induction reports as [|[l r] reports IH]; intros c Hst all.
  - destruct c. cbn. now rewrite !Nat.add_0_r.
  - destruct (Hst l r (or_introl eq_refl)) as (H1 & H2 & H3 & H4 & H5 & H6).
    cbn [fold_left]. rewrite IH by (intros l' r' Hin; apply (Hst l' r'); now right).
    unfold all. cbn [flat_map snd]. unfold issues_of_type. rewrite !filter_app, !length_app.
    fold (issues_of_type missing (r_issues r)). fold (issues_of_type extra (r_issues r)).
    fold (issues_of_type duplicate (r_issues r)). fold (issues_of_type icuError (r_issues r)).
    fold (issues_of_type placeholderMismatch (r_issues r)).
    fold (issues_of_type formatting (r_issues r)).
    unfold add_stats. cbn [n_missing n_extra n_duplicate n_icuError n_placeholderMismatch
                           n_formatting].
    rewrite H1, H2, H3, H4, H5, H6. f_equal; lia.
Qed.

Lemma validate_reports `{Host} (S : LocaleFile) (Ts : list LocaleFile) l r :
  In (l, r) (validate S Ts) -> exists T, In T Ts /\ r = report_of S T.
Proof.
  unfold validate. rewrite validate_fold.
  assert (Hgen : forall acc,
             (forall l r, In (l, r) acc -> exists T, In T Ts /\ r = report_of S T) ->
             forall Ts', incl Ts' Ts ->
             In (l, r) (fold_left (fun reports T => obj_set (locale T) (report_of S T) reports)
                                  Ts' acc) ->
             exists T, In T Ts /\ r = report_of S T).
  { intros acc Hacc Ts'. revert acc Hacc.
    induction Ts' as [|T Ts' IH]; intros acc Hacc Hincl Hin; [now apply (Hacc l r)|].
    cbn [fold_left] in Hin. apply (IH (obj_set (locale T) (report_of S T) acc)); trivial.
    - intros l' r' Hin'. apply In_obj_set in Hin' as [[= -> ->]|Hin'].
      + exists T. split; [apply Hincl; now left | reflexivity].
      + now apply (Hacc l' r').
    - intros x Hx. apply Hincl. now right. }
  apply (Hgen []); [intros ? ? [] | apply incl_refl].
Qed.

(** X15.  The issue totals of the summary, computed from the reports of
    [validate], are the numbers of issues of each type over all reports;
    the files scanned are the target files and the source. *)
Theorem generateSummary_totals `{Host} (config : ReportConfig) (S : LocaleFile)
        (Ts : list LocaleFile) (targetFiles : list (string * LocaleFile))
        (appliedFixes : list (string * list Fix)) (translations : list Translation) :
  let reports := validate S Ts in
  let all := flat_map (fun p => r_issues (snd p)) reports in
  let s := generateSummary config S targetFiles reports appliedFixes translations in
  n_missing (s_issues s) = length (issues_of_type missing all)
  /\ n_extra (s_issues s) = length (issues_of_type extra all)
  /\ n_duplicate (s_issues s) = length (issues_of_type duplicate all)
  /\ n_icuError (s_issues s) = length (issues_of_type icuError all)
  /\ n_placeholderMismatch (s_issues s) = length (issues_of_type placeholderMismatch all)
  /\ n_formatting (s_issues s) = length (issues_of_type formatting all)
  /\ n_missing (s_issues s) + n_extra (s_issues s) + n_duplicate (s_issues s)
     + n_icuError (s_issues s) + n_placeholderMismatch (s_issues s)
     + n_formatting (s_issues s) = length all
  /\ s_filesScanned s = length targetFiles + 1.
Proof.
  intros reports all s. unfold s, generateSummary. cbn [s_issues s_filesScanned].
  rewrite add_stats_fold.
  - cbn [n_missing n_extra n_duplicate n_icuError n_placeholderMismatch n_formatting].
    rewrite !Nat.add_0_l. fold all. repeat split. apply issues_by_type_total.
  - intros l r Hin. apply validate_reports in Hin as (T & _ & ->).
    unfold report_of. cbn [r_stats r_issues].
    unfold calculateStats. rewrite count_issue_fold.
    cbn [missingKeys extraKeys duplicates icuErrors placeholderMismatches formattingWarnings].
    rewrite !Nat.add_0_l. repeat split.
Qed.

(** ** The results on the terminal and the key list *)

Lemma flat_map_all_nil {A B : Type} (f : A -> list B) (l : list A) :
  (forall a, In a l -> f a = []) -> flat_map f l = [].
Proof.
  induction l as [|a l IH]; intros Hf; [reflexivity|].
  cbn [flat_map]. rewrite (Hf a (or_introl eq_refl)), IH; [reflexivity|].
  intros b Hb. apply Hf. now right.
Qed.

Lemma validateTarget_empty_target `{Host} (S T : LocaleFile) :
  entries T = [] ->
  validateTarget S T = checkMissingKeys S T
  /\ length (checkMissingKeys S T) = length (obj_keys (entries S)).
Proof.
  intros HT. split.
  - unfold validateTarget.
    assert (Hx : checkExtraKeys S T = []) by (unfold checkExtraKeys; now rewrite HT).
    assert (Hd : checkDuplicates T = [])
      by (unfold checkDuplicates, seenValues; now rewrite HT).
    assert (Hp : checkPlaceholders S T = []).
    { unfold checkPlaceholders. rewrite HT. apply flat_map_all_nil. now intros [k e] _. }
    assert (Hi : checkICUMessages S T = []).
    { unfold checkICUMessages. rewrite HT. apply flat_map_all_nil. now intros [k e] _. }
    assert (Hf : checkFormatting T = []) by (unfold checkFormatting; now rewrite HT).
    rewrite Hx, Hd, Hp, Hi, Hf. now rewrite !app_nil_r.
  - unfold checkMissingKeys. rewrite HT. cbn [obj_keys map mem_str existsb negb].
    induction (entries S) as [|[k e] es IH]; [reflexivity|].
    cbn [flat_map app length map]. now rewrite IH.
Qed.

(** X16.  A target file without entries lacks every key of the source, and
    when no key of the source names a member of [Object.prototype],
    [displayValidationResults] prints for it the line that says no issue was
    found: a counter equal to the number of source keys is not counted as an
    issue. *)
Theorem display_empty_target_no_issue `{Host}
        (bold cyan green red yellow : string -> string)
        (check_mark cross_mark warn_mark : string) (S T : LocaleFile) :
  entries T = [] ->
  forallb (fun k => negb (inherited_name k)) (obj_keys (entries S)) = true ->
  missingKeys (r_stats (report_of S T)) = length (obj_keys (entries S))
  /\ displayValidationResults bold cyan green red yellow check_mark cross_mark warn_mark
       (validate S [T])
     = [ newline +:+ bold "Validation Results:";
         newline +:+ cyan (locale T) +:+ ":";
         green ("  " +:+ check_mark +:+ " No issues found") ].
Proof.
  intros HT _. destruct (validateTarget_empty_target S T HT) as [Hv Hlen].
  assert (Hstats : r_stats (report_of S T)
                   = Build_Stats (length (obj_keys (entries S)))
                                 (length (obj_keys (entries S))) 0 0 0 0 0).
  { unfold report_of. cbn [r_stats]. unfold calculateStats. rewrite count_issue_fold.
    rewrite Hv.
    rewrite (issues_of_type_same missing) by apply checkMissingKeys_type.
    rewrite !(issues_of_type_other _ missing) by (discriminate || apply checkMissingKeys_type).
    cbn [length]. rewrite Hlen. reflexivity. }
  split; [now rewrite Hstats|].
  unfold validate. cbn [fold_left obj_set]. fold (report_of S T).
  unfold displayValidationResults. cbn [flat_map app]. unfold display_report.
  rewrite Hstats. unfold hasIssues, stats_values.
  cbn [totalKeys missingKeys extraKeys duplicates icuErrors placeholderMismatches
       formattingWarnings existsb].
  rewrite Nat.eqb_refl. cbn [negb andb orb Nat.ltb Nat.leb].
  rewrite !andb_false_r. reflexivity.
Qed.

Lemma display_empty_target_no_issue_witness :
  let S := file_of "en" json [("a", "Hi"); ("b", "Bye")] in
  let T := file_of "fr" json [] in
  option_map (fun r => missingKeys (r_stats r)) (obj_get "fr" (@validate literal_host S [T]))
  = Some 2
  /\ displayValidationResults id id id id id "v" "x" "!" (@validate literal_host S [T])
     = [ newline +:+ "Validation Results:"; newline +:+ "fr:"; "  v No issues found" ].
Proof.
  intros S T. split; [reflexivity|].
  destruct (@display_empty_target_no_issue literal_host id id id id id "v" "x" "!" S T
              eq_refl eq_refl) as [_ Hd].
  exact Hd.
Defined.

Lemma filter_exists_missing `{Host} (S T : LocaleFile) (k : string) :
  In k (obj_keys (entries T)) ->
  existsb (fun issue => String.eqb (i_key issue) k)
          (filter (fun issue => IssueType_eqb (i_type issue) missing) (validateTarget S T))
  = false.
Proof.
  intros Hk. fold (issues_of_type missing (validateTarget S T)).
  rewrite issues_of_type_validateTarget.
  destruct (existsb _ _) eqn:Hex; [|reflexivity].
  apply existsb_exists in Hex as (i & Hin & Hki). apply String.eqb_eq in Hki.
  apply checkMissingKeys_In in Hin as (k' & e & _ & Hni & ->). cbn [i_key] in Hki. now subst.
Qed.

Lemma filter_exists_extra `{Host} (S T : LocaleFile) (k : string) :
  In k (obj_keys (entries T)) ->
  existsb (fun issue => String.eqb (i_key issue) k)
          (filter (fun issue => IssueType_eqb (i_type issue) extra) (validateTarget S T))
  = negb (mem_str k (obj_keys (entries S))).
Proof.
  intros Hk. fold (issues_of_type extra (validateTarget S T)).
  rewrite issues_of_type_validateTarget.
  destruct (mem_str k (obj_keys (entries S))) eqn:Hm; cbn [negb].
  - destruct (existsb _ _) eqn:Hex; [|reflexivity].
    apply existsb_exists in Hex as (i & Hin & Hki). apply String.eqb_eq in Hki.
    apply checkExtraKeys_In in Hin as (k' & e & _ & Hni & ->). cbn [i_key] in Hki. subst k'.
    apply mem_str_In in Hm. contradiction.
  - apply existsb_exists. apply obj_get_In_keys in Hk as [e He].
    eexists. split.
    + apply checkExtraKeys_In. exists k, e. split; [now apply obj_get_In|].
      split; [now apply mem_str_not_In | reflexivity].
    + cbn [i_key]. apply String.eqb_refl.
Qed.

Lemma filter_ext_in {A : Type} (f g : A -> bool) (l : list A) :
  (forall a, In a l -> f a = g a) -> filter f l = filter g l.
Proof.
  induction l as [|a l IH]; intros Hfg; [reflexivity|].
  cbn [filter]. rewrite (Hfg a (or_introl eq_refl)), IH; [reflexivity|].
  intros b Hb. apply Hfg. now right.
Qed.

(** X17.  On a state filled from the reports of the validator, the key list under
    the filter for missing keys is empty: the list shows keys of the target
    file, and a missing key is not one of them.  Under the filter for extra
    keys it holds the keys of the target that the source lacks, sorted. *)
Theorem getFilteredKeys_missing_is_empty `{Host} (S T : LocaleFile) (a : ascii) (lc : string)
        (targetFiles : list (string * LocaleFile))
        (issues : list (string * list ValidationIssue)) :
  obj_get (String a lc) targetFiles = Some T ->
  obj_get (String a lc) issues = Some (validateTarget S T) ->
  getFilteredKeys (Some (String a lc)) targetFiles issues (Some missing) = []
  /\ getFilteredKeys (Some (String a lc)) targetFiles issues (Some extra)
     = sort_keys (filter (fun k => negb (mem_str k (obj_keys (entries S))))
                         (obj_keys (entries T)))
  /\ getIssueCount (Some (String a lc)) issues (Some missing)
     = length (filter (fun k => negb (mem_str k (obj_keys (entries T))))
                      (obj_keys (entries S))).
Proof.
  intros HT Hi. unfold getFilteredKeys, getIssueCount. rewrite HT, Hi. cbn [from_option id].
  split; [|split].
  - rewrite (filter_ext_in _ (fun _ => false)); [|intros k Hk; now apply filter_exists_missing].
    now induction (obj_keys (entries T)).
  - f_equal. apply filter_ext_in. intros k Hk. now apply filter_exists_extra.
  - fold (issues_of_type missing (validateTarget S T)).
    rewrite issues_of_type_validateTarget, <- checkMissingKeys_keys. now rewrite length_map.
Qed.

Lemma getFilteredKeys_missing_is_empty_witness :
  let S := file_of "en" json [("a", "Hi"); ("b", "Bye")] in
  let T := file_of "fr" json [("z", "Quoi"); ("a", "Salut")] in
  let issues := [("fr", @validateTarget literal_host S T)] in
  getFilteredKeys (Some "fr") [("fr", T)] issues (Some missing) = []
  /\ getFilteredKeys (Some "fr") [("fr", T)] issues (Some extra) = ["z"]
  /\ getIssueCount (Some "fr") issues (Some missing) = 1.
Proof.
  intros S T issues.
  destruct (@getFilteredKeys_missing_is_empty literal_host S T "f"%char "r" [("fr", T)] issues
              eq_refl eq_refl) as (H1 & H2 & H3).
  split; [exact H1 | split; [exact H2 | exact H3]].
Defined.

(** ** Translator *)

Lemma slice_skipn {A : Type} (l : list A) (i n : nat) :
  slice i (i + n) l = firstn n (skipn i l).
Proof. unfold slice. f_equal. lia. Qed.

Lemma chunk_loop_spec (keys : list string) (n : nat) :
  0 < n ->
  forall fuel i chunks,
    length keys - i <= fuel ->
    exists cs,
      chunk_loop fuel keys n i chunks = Some (chunks ++ cs)
      /\ concat cs = skipn i keys
      /\ Forall (fun c => 0 < length c <= n) cs
      /\ length cs * n < length keys - i + n
      /\ length keys - i <= length cs * n.
Proof.
  intros Hn. induction fuel as [|fuel IH]; intros i chunks Hfuel.
  - cbn [chunk_loop]. destruct (Nat.ltb_spec i (length keys)) as [Hlt|Hge]; [lia|].
    exists []. rewrite app_nil_r, skipn_all2 by lia. cbn. repeat split; try constructor; lia.
  - cbn [chunk_loop]. destruct (Nat.ltb_spec i (length keys)) as [Hlt|Hge].
    + destruct (IH (i + n) (chunks ++ [slice i (i + n) keys]) ltac:(lia))
        as (cs & Hrun & Hcat & Hall & Hub & Hlb).
      exists (slice i (i + n) keys :: cs). rewrite Hrun, <- app_assoc. cbn [app concat length].
      rewrite Hcat, slice_skipn.
      split; [reflexivity | split; [|split; [|split]]].
      * replace (skipn (i + n) keys) with (skipn n (skipn i keys))
          by (rewrite skipn_skipn; f_equal; lia).
        apply firstn_skipn.
      * constructor; [|exact Hall]. rewrite length_firstn, length_skipn. lia.
      * cbn [Nat.mul]. destruct (le_lt_dec (i + n) (length keys)) as [Hle|Hgt]; [lia|].
        assert (Hz : length cs * n < n) by lia.
        assert (Hcs : length cs = 0) by nia. rewrite Hcs. lia.
      * cbn [Nat.mul]. lia.
    + exists []. rewrite app_nil_r, skipn_all2 by lia. cbn. repeat split; try constructor; lia.
Qed.

(** X18.  With a positive chunk size and one unit of fuel per key, [chunkKeys]
    returns: the chunks put end to end are the keys, every chunk holds at
    least one key and at most [chunkSize], and their number is the number of
    keys divided by [chunkSize], rounded up. *)
Theorem chunkKeys_partition (keys : list string) (chunkSize fuel : nat) :
  0 < chunkSize -> length keys <= fuel ->
  exists chunks,
    chunkKeys fuel keys chunkSize = Some chunks
    /\ concat chunks = keys
    /\ Forall (fun c => 0 < length c <= chunkSize) chunks
    /\ length chunks = (length keys + chunkSize - 1) / chunkSize.
Proof.
  intros Hn Hfuel.
  destruct (chunk_loop_spec keys chunkSize Hn fuel 0 [] ltac:(lia))
    as (cs & Hrun & Hcat & Hall & Hub & Hlb).
  exists cs. unfold chunkKeys. rewrite Hrun. rewrite Nat.sub_0_r in *.
  split; [reflexivity | split; [exact Hcat | split; [exact Hall|]]].
  apply Nat.div_unique with (r := length keys + chunkSize - 1 - length cs * chunkSize); nia.
Qed.

Lemma chunkKeys_partition_witness :
  exists chunks,
    chunkKeys 5 ["a"; "b"; "c"; "d"; "e"] 2 = Some chunks
    /\ concat chunks = ["a"; "b"; "c"; "d"; "e"]
    /\ Forall (fun c => 0 < length c <= 2) chunks
    /\ length chunks = 3.
Proof.
  apply (chunkKeys_partition ["a"; "b"; "c"; "d"; "e"] 2 5); simpl; lia.
Defined.

Lemma chunk_loop_zero (keys : list string) (i : nat) :
  i < length keys -> forall fuel chunks, chunk_loop fuel keys 0 i chunks = None.
Proof.
  intros Hi. induction fuel as [|fuel IH]; intros chunks; cbn [chunk_loop];
    destruct (Nat.ltb_spec i (length keys)); try lia; [reflexivity|].
  rewrite Nat.add_0_r. apply IH.
Qed.

(** X19.  With a chunk size of zero and at least one key, the loop of [chunkKeys]
    does not end: no amount of fuel lets it return. *)
Theorem chunkKeys_zero_size_diverges (keys : list string) (fuel : nat) :
  keys <> [] -> chunkKeys fuel keys 0 = None.
Proof.
  intros Hne. apply chunk_loop_zero. destruct keys; [contradiction | simpl; lia].
Qed.

Lemma chunkKeys_zero_size_diverges_witness : chunkKeys 1000 ["a"] 0 = None.
Proof. apply chunkKeys_zero_size_diverges. discriminate. Defined.

Lemma filter_nil_incl (sp tp : list string) :
  filter (fun p => negb (mem_str p tp)) sp = [] <-> incl sp tp.
Proof.
  induction sp as [|x sp IH]; cbn [filter].
  - split; [intros _ a [] | reflexivity].
  - destruct (mem_str x tp) eqn:Hx; cbn [negb].
    + rewrite IH. apply mem_str_In in Hx. split.
      * intros Hi a [<-|Ha]; auto.
      * intros Hi a Ha. apply Hi. now right.
    + split; [discriminate|]. intros Hi. apply mem_str_not_In in Hx. exfalso. apply Hx, Hi. now left.
Qed.

Lemma forallb_mem_incl (sp tp : list string) :
  forallb (fun p => mem_str p tp) sp = true <-> incl sp tp.
Proof.
  rewrite forallb_forall. split.
  - intros Hf a Ha. apply mem_str_In. now apply Hf.
  - intros Hi a Ha. apply mem_str_In. now apply Hi.
Qed.

(** X20.  The flag [placeholdersPreserved] of the translator is the negation of
    the test of [checkPlaceholders]: a translation stored as the target
    value raises a placeholder mismatch for its key exactly when the flag
    is false.  When no name is repeated on either side, the flag holds
    exactly when [validateTranslation] lists no issue. *)
Theorem validateTranslation_agrees_with_validator `{Host} (S T : LocaleFile) (k : string)
        (se te : LocaleEntry) :
  NoDup (obj_keys (entries S)) ->
  obj_get k (entries S) = Some se ->
  obj_get k (entries T) = Some te ->
  let r := validateTranslation (value se) (value te) in
  length (issues_at placeholderMismatch k (validateTarget S T)) = (if fst r then 0 else 1)
  /\ (NoDup (extractPlaceholders (value se)) -> NoDup (extractPlaceholders (value te)) ->
      (fst r = true <-> snd r = [])).
Proof.
  intros HS Hs Ht r. split.
  - rewrite issues_at_validateTarget_placeholder, (checkPlaceholders_count S T k se te HS Hs Ht).
    unfold r, validateTranslation, placeholders_differ. cbn [fst].
    destruct (Nat.eqb _ _); destruct (forallb _ _); reflexivity.
  - intros Hsp Htp. unfold r, validateTranslation. cbn [fst snd].
    set (sp := extractPlaceholders (value se)) in *.
    set (tp := extractPlaceholders (value te)) in *.
    rewrite andb_true_iff, Nat.eqb_eq, forallb_mem_incl.
    pose proof (filter_nil_incl sp tp) as Hm. pose proof (filter_nil_incl tp sp) as Hx.
    split.
    + intros [Hlen Hincl].
      assert (Hincl' : incl tp sp) by (apply NoDup_length_incl; [assumption | lia | assumption]).
      apply Hm in Hincl. apply Hx in Hincl'. now rewrite Hincl, Hincl'.
    + intros Hnil.
      destruct (filter (fun p => negb (mem_str p tp)) sp) as [|m ms] eqn:Em;
        [|cbn in Hnil;
          destruct (length (filter (fun p => negb (mem_str p sp)) tp)); discriminate].
      destruct (filter (fun p => negb (mem_str p sp)) tp) as [|x xs] eqn:Ex;
        [|discriminate].
      assert (H1 : incl sp tp) by now apply Hm.
      assert (H2 : incl tp sp) by now apply Hx.
      split; [|assumption].
      apply Nat.le_antisymm; now apply NoDup_incl_length.
Qed.

Lemma validateTranslation_agrees_with_validator_witness :
  let S := file_of "en" json [("hi", "Hello {name}, {count} new")] in
  let T := file_of "fr" json [("hi", "{count} nouveaux, {name}")] in
  validateTranslation "Hello {name}, {count} new" "{count} nouveaux, {name}" = (true, [])
  /\ length (issues_at placeholderMismatch "hi" (@validateTarget literal_host S T)) = 0.
Proof.
  intros S T. split; [reflexivity|].
  destruct (@validateTranslation_agrees_with_validator literal_host S T "hi"
              (plain_entry "hi" "Hello {name}, {count} new")
              (plain_entry "hi" "{count} nouveaux, {name}")) as [Hc _].
  - repeat constructor; simpl; intuition discriminate.
  - reflexivity.
  - reflexivity.
  - exact Hc.
Defined.

(** ** The files of a run *)

Lemma target_map_invariant (targetLocales : list string) (all files : list LocaleFile) :
  forall acc,
  incl files all ->
  NoDup (obj_keys acc) ->
  (forall l f, In (l, f) acc -> locale f = l /\ In l targetLocales /\ In f all) ->
  let m := fold_left (fun targetFiles file =>
                        if mem_str (locale file) targetLocales
                        then obj_set (locale file) file targetFiles
                        else targetFiles) files acc in
  NoDup (obj_keys m)
  /\ (forall l f, In (l, f) m -> locale f = l /\ In l targetLocales /\ In f all).
Proof.
  induction files as [|file files IH]; intros acc Hincl Hnd Hacc; [split; assumption|].
  assert (Hincl' : incl files all) by (intros x Hx; apply Hincl; now right).
  cbn [fold_left]. destruct (mem_str (locale file) targetLocales) eqn:Hm.
  - apply IH; [assumption | now apply NoDup_keys_set|].
    intros l f Hin. apply In_obj_set in Hin as [[= -> ->]|Hin]; [|now apply Hacc].
    split; [reflexivity | split; [now apply mem_str_In | apply Hincl; now left]].
  - now apply IH.
Qed.

Lemma validate_distinct `{Host} (S : LocaleFile) (Ts : list LocaleFile) : forall acc,
  NoDup (map locale Ts) ->
  (forall l, In l (map locale Ts) -> ~ In l (obj_keys acc)) ->
  fold_left (fun reports T => obj_set (locale T) (report_of S T) reports) Ts acc
  = acc ++ map (fun T => (locale T, report_of S T)) Ts.
Proof.
  induction Ts as [|T Ts IH]; intros acc Hnd Hacc; [now rewrite app_nil_r|].
  cbn [map] in Hnd. apply NoDup_cons_iff in Hnd as [Hni Hnd]. cbn [fold_left map].
  rewrite obj_set_absent by (apply Hacc; now left). rewrite IH; [now rewrite <- app_assoc|assumption|].
  intros l Hl Hin. unfold obj_keys in Hin. rewrite map_app in Hin.
  apply in_app_or in Hin as [Hin|[<-|[]]].
  - apply (Hacc l); [now right | assumption].
  - contradiction.
Qed.



(** ** Round trip of the YAML format *)

Lemma JValue_nested_ind (P : JValue -> Prop) :
  P JUndef -> P JNull -> (forall b, P (JBool b)) -> (forall r, P (JNum r)) ->
  (forall s, P (JStr s)) ->
  (forall items, Forall P items -> P (JArr items)) ->
  (forall fields, Forall (fun p => P (snd p)) fields -> P (JObj fields)) ->
  forall v, P v.
Proof.
  intros Hu Hn Hb Hr Hs Ha Ho. fix IH 1.
  intros [| | b | r | s | items | fields];
    [exact Hu | exact Hn | apply Hb | apply Hr | apply Hs | | ].
  - apply Ha. induction items as [|x items IHi]; constructor; [apply IH | exact IHi].
  - apply Ho. induction fields as [|[k x] fields IHf]; constructor; [apply IH | exact IHf].
Qed.

Lemma entries_of_obj fullKey fields :
  entries_of fullKey (JObj fields)
  = if has_value (JObj fields) then [(fullKey, yaml_entry fullKey (JObj fields))]
    else flat_map (fun p => entries_of (full_key fullKey (fst p)) (snd p)) fields.
Proof.
  cbn [entries_of]. destruct (has_value (JObj fields)); [reflexivity|].
  induction fields as [|[k v] fields IH]; [reflexivity|].
  cbn [flat_map fst snd]. now rewrite IH.
Qed.

Lemma flatten_value_obj fullKey fields entries :
  flatten_value fullKey (JObj fields) entries
  = if has_value (JObj fields)
    then obj_set fullKey (yaml_entry fullKey (JObj fields)) entries
    else fold_left (fun entries p => flatten_value (full_key fullKey (fst p)) (snd p) entries)
                   fields entries.
Proof.
  cbn [flatten_value]. fold (has_value (JObj fields)).
  destruct (has_value (JObj fields)); [reflexivity|].
  revert entries. induction fields as [|[k v] fields IH]; intros entries; [reflexivity|].
  cbn [fold_left fst snd]. now rewrite IH.
Qed.

Lemma flatten_value_entries_of v : forall fullKey entries,
  flatten_value fullKey v entries
  = fold_left (fun acc '(k, e) => obj_set k e acc) (entries_of fullKey v) entries.
Proof.
  induction v as [| | b | r | s | items _ | fields IH] using JValue_nested_ind;
    intros fullKey entries; try reflexivity.
  rewrite flatten_value_obj, entries_of_obj. destruct (has_value (JObj fields)); [reflexivity|].
  revert entries. induction IH as [|[k v] fields Hv _ IHf]; intros entries; [reflexivity|].
  cbn [fold_left flat_map fst snd]. rewrite fold_left_app, <- IHf. f_equal. apply Hv.
Qed.

Lemma parseYamlEntries_entries_of (raw : list (string * JValue)) :
  parseYamlEntries (JObj raw)
  = fold_left (fun acc '(k, e) => obj_set k e acc)
              (flat_map (fun p => entries_of (fst p) (snd p)) raw) [].
Proof.
  unfold parseYamlEntries. cbn [js_own_props]. generalize (@nil (string * LocaleEntry)).
  induction raw as [|[k v] raw IH]; intros acc; [reflexivity|].
  cbn [fold_left flat_map fst snd]. rewrite fold_left_app, <- IH. f_equal.
  apply flatten_value_entries_of.
Qed.

Lemma node_step_obj k fields current :
  node_step k (JObj fields) current
  = if has_value (JObj fields) then Some (obj_set k (YLeaf (JObj fields)) current)
    else at_path [k] (node_steps fields) current.
Proof.
  cbn [node_step]. destruct (has_value (JObj fields)); [reflexivity|].
  assert (Hext : forall l c,
             (fix steps (l : list (string * JValue)) (c : list (string * YNode))
                : option (list (string * YNode)) :=
                match l with
                | [] => Some c
                | (k', v') :: l' =>
                    match node_step k' v' c with
                    | Some c' => steps l' c'
                    | None => None
                    end
                end) l c = node_steps l c).
  { induction l as [|[k' v'] l IH]; intros c; [reflexivity|].
    cbn [node_steps]. destruct (node_step k' v' c); [apply IH | reflexivity]. }
  cbn [at_path]. destruct (obj_get k current) as [[v|fs]|]; rewrite ?Hext; reflexivity.
Qed.

Lemma split_on_app sep a b :
  split_on sep (a +:+ String sep b) = split_on sep a ++ split_on sep b.
Proof.
  induction a as [|c a IH]; norm_app.
  - cbn [split_on]. now rewrite Ascii.eqb_refl.
  - cbn [split_on]. rewrite IH. destruct (Ascii.eqb c sep); [reflexivity|].
    pose proof (split_on_nonempty sep a) as Hne.
    destruct (split_on sep a); [contradiction | reflexivity].
Qed.

Lemma split_dot_free k : dot_free k = true -> split_on "."%char k = [k].
Proof.
  induction k as [|c k IH]; [reflexivity|]. cbn [dot_free all_chars]. intros Hk.
  apply andb_true_iff in Hk as [Hc Hk]. apply negb_true_iff in Hc.
  cbn [split_on]. rewrite Hc. unfold dot_free in IH. now rewrite (IH Hk).
Qed.

Lemma split_full_key prefix k :
  str_nonempty prefix = true -> dot_free k = true ->
  split_on "."%char (full_key prefix k) = split_on "."%char prefix ++ [k]
  /\ str_nonempty (full_key prefix k) = true.
Proof.
  intros Hp Hk. unfold full_key. rewrite Hp. split.
  - change ("." +:+ k) with (String "."%char k).
    now rewrite split_on_app, (split_dot_free k Hk).
  - destruct prefix; [discriminate | reflexivity].
Qed.

Lemma removelast_snoc {A : Type} (l : list A) (x : A) : removelast (l ++ [x]) = l.
Proof. apply removelast_last. Qed.

Lemma last_snoc {A : Type} (l : list A) (x d : A) : last (l ++ [x]) d = x.
Proof. apply last_last. Qed.

Lemma obj_set_twice {V : Type} k (x y : V) o : obj_set k x (obj_set k y o) = obj_set k x o.
Proof.
  induction o as [|[k0 v0] o IH]; cbn [obj_set].
  - now rewrite String.eqb_refl.
  - destruct (String.eqb_spec k0 k) as [->|Hne]; cbn [obj_set].
    + now rewrite String.eqb_refl.
    + destruct (String.eqb_spec k0 k); [contradiction|]. now rewrite IH.
Qed.

Lemma at_path_ext P g1 g2 : (forall c, g1 c = g2 c) -> forall c, at_path P g1 c = at_path P g2 c.
Proof.
  intros Hg. induction P as [|p P IH]; intros c; cbn [at_path]; [apply Hg|].
  destruct (obj_get p c) as [[v|fs]|]; rewrite ?IH; reflexivity.
Qed.

Lemma at_path_app P Q g : forall c, at_path (P ++ Q) g c = at_path P (at_path Q g) c.
Proof.
  induction P as [|p P IH]; intros c; cbn [app at_path]; [reflexivity|].
  destruct (obj_get p c) as [[v|fs]|]; rewrite ?IH; reflexivity.
Qed.

Lemma assign_path_at P k leaf : forall c,
  assign_path P k leaf c = at_path P (fun c => Some (obj_set k (YLeaf leaf) c)) c.
Proof.
  induction P as [|p P IH]; intros c; cbn [assign_path at_path]; [reflexivity|].
  destruct (obj_get p c) as [[v|fs]|]; rewrite ?IH; reflexivity.
Qed.

Lemma at_path_seq P g1 g2 : forall c,
  match at_path P g1 c with Some c' => at_path P g2 c' | None => None end
  = at_path P (then_step g1 g2) c.
Proof.
  induction P as [|p P IH]; intros c; cbn [at_path]; [reflexivity|].
  assert (Hstep : forall fs,
             match option_map (fun fields' => obj_set p (YMap fields') c) (at_path P g1 fs) with
             | Some c' => at_path (p :: P) g2 c'
             | None => None
             end
             = option_map (fun fields' => obj_set p (YMap fields') c)
                          (at_path P (then_step g1 g2) fs)).
  { intros fs. rewrite <- IH. destruct (at_path P g1 fs) as [fs1|]; [|reflexivity].
    cbn [option_map at_path]. rewrite obj_get_set_eq.
    destruct (at_path P g2 fs1) as [fs2|]; [|reflexivity].
    cbn [option_map]. now rewrite obj_set_twice. }
  destruct (obj_get p c) as [[v|fs]|]; [destruct (truthy v); [reflexivity|]| |]; apply Hstep.
Qed.

Lemma fold_yaml_None l : fold_left yaml_step l None = None.
Proof. induction l as [|[k e] l IH]; [reflexivity | exact IH]. Qed.

Lemma yaml_leaf_plain k s : yaml_leaf (plain_entry k s) = JStr s.
Proof. reflexivity. Qed.

Lemma wf_yaml_node_obj fields :
  wf_yaml_node (JObj fields)
  <-> if has_value (JObj fields) then
        exists s, js_prop (JObj fields) "value" = JStr s
                  /\ fields = yaml_leaf_fields s (js_prop (JObj fields) "description")
                                (js_prop (JObj fields) "context") (js_prop (JObj fields) "tags")
      else fields <> [] /\ NoDup (obj_keys fields)
           /\ Forall (fun p => key_part (fst p) /\ wf_yaml_node (snd p)) fields.
Proof.
  cbn [wf_yaml_node]. destruct (has_value (JObj fields)); [reflexivity|].
  assert (Hf : forall l,
             (fix wf_fields (l : list (string * JValue)) : Prop :=
                match l with
                | [] => True
                | (k, x) :: l' => (key_part k /\ wf_yaml_node x) /\ wf_fields l'
                end) l
             <-> Forall (fun p => key_part (fst p) /\ wf_yaml_node (snd p)) l).
  { induction l as [|[k x] l IH]; [split; constructor|].
    rewrite Forall_cons_iff, IH. reflexivity. }
  now rewrite Hf.
Qed.

Lemma yaml_leaf_entry fullKey fields :
  has_value (JObj fields) = true -> wf_yaml_node (JObj fields) ->
  yaml_leaf (yaml_entry fullKey (JObj fields)) = JObj fields.
Proof.
  intros Hv Hwf. apply wf_yaml_node_obj in Hwf. rewrite Hv in Hwf.
  destruct Hwf as (s & Hs & Hf). unfold yaml_leaf, yaml_entry.
  cbn [description context tags metadata value truthy]. rewrite orb_true_r.
  rewrite Hs. cbn [js_String]. now rewrite <- Hf.
Qed.

Lemma yaml_step_leaf fullKey P kf (e : LocaleEntry) root :
  split_on "."%char fullKey = P ++ [kf] ->
  yaml_step (Some root) (fullKey, e)
  = at_path P (fun c => Some (obj_set kf (YLeaf (yaml_leaf e)) c)) root.
Proof.
  intros Hsplit. cbn [yaml_step]. rewrite Hsplit, removelast_snoc, last_snoc.
  apply assign_path_at.
Qed.

Lemma steps_fold (Q : list string) (fullKey : string) (fields : list (string * JValue)) :
  Forall (fun p => forall root,
            fold_left yaml_step (entries_of (full_key fullKey (fst p)) (snd p)) (Some root)
            = at_path Q (node_step (fst p) (snd p)) root) fields ->
  fields <> [] ->
  forall root,
    fold_left yaml_step
              (flat_map (fun p => entries_of (full_key fullKey (fst p)) (snd p)) fields)
              (Some root)
    = at_path Q (node_steps fields) root.
Proof.
  induction 1 as [|[k v] fields Hc Hrest IH]; intros Hne root; [contradiction|].
  cbn [flat_map fst snd] in *. rewrite fold_left_app, Hc.
  destruct fields as [|c2 fields].
  - cbn [flat_map fold_left]. apply at_path_ext. intros c.
    cbn [node_steps]. now destruct (node_step k v c).
  - specialize (IH ltac:(discriminate)).
    transitivity (match at_path Q (node_step k v) root with
                  | Some r' => at_path Q (node_steps (c2 :: fields)) r'
                  | None => None
                  end).
    + destruct (at_path Q (node_step k v) root) as [r'|]; [apply IH | apply fold_yaml_None].
    + rewrite at_path_seq. apply at_path_ext. intros c. reflexivity.
Qed.

Lemma gen_node (v : JValue) : forall fullKey P kf root,
  wf_yaml_node v ->
  str_nonempty fullKey = true ->
  split_on "."%char fullKey = P ++ [kf] ->
  fold_left yaml_step (entries_of fullKey v) (Some root) = at_path P (node_step kf v) root.
Proof.
  induction v as [| | b | r | s | items _ | fields IH] using JValue_nested_ind;
    intros fullKey P kf root Hwf Hne Hsplit; try contradiction.
  - cbn [entries_of fold_left node_step]. now rewrite (yaml_step_leaf _ P kf).
  - rewrite entries_of_obj, (at_path_ext P _ _ (node_step_obj kf fields)).
    destruct (has_value (JObj fields)) eqn:Hv.
    + cbn [fold_left]. rewrite (yaml_step_leaf _ P kf) by assumption.
      now rewrite yaml_leaf_entry.
    + apply wf_yaml_node_obj in Hwf. rewrite Hv in Hwf. destruct Hwf as (Hnil & Hnd & Hall).
      rewrite <- (at_path_app P [kf]). apply steps_fold; [|assumption].
      rewrite Forall_forall in IH, Hall |- *. intros [k x] Hin root'. cbn [fst snd].
      destruct (Hall _ Hin) as [[Hk1 Hk2] Hx]. cbn [fst snd] in *.
      destruct (split_full_key fullKey k Hne Hk2) as [Hs' Hne'].
      apply (IH _ Hin); [assumption | assumption |]. now rewrite Hs', Hsplit.
Qed.
Lemma node_step_fresh (v : JValue) : forall k current,
  wf_yaml_node v -> ~ In k (obj_keys current) ->
  node_step k v current = Some (current ++ [(k, ynode_of v)]).
Proof.
  induction v as [| | b | r | s | items _ | fields IH] using JValue_nested_ind;
    intros k current Hwf Hk; try contradiction.
  - cbn [node_step ynode_of]. now rewrite obj_set_absent.
  - rewrite node_step_obj. cbn [ynode_of]. destruct (has_value (JObj fields)) eqn:Hv.
    + now rewrite obj_set_absent.
    + apply wf_yaml_node_obj in Hwf. rewrite Hv in Hwf. destruct Hwf as (_ & Hnd & Hall).
      cbn [at_path]. apply obj_get_None in Hk. rewrite Hk.
      assert (Hsteps : forall c,
                 (forall x, In x (obj_keys fields) -> ~ In x (obj_keys c)) ->
                 node_steps fields c
                 = Some (c ++ map (fun p => (fst p, ynode_of (snd p))) fields)).
      { clear Hk Hv. induction fields as [|[k' v'] fields IHf]; intros c Hc.
        - cbn. now rewrite app_nil_r.
        - apply Forall_cons_iff in IH as [IHv IHrest].
          apply Forall_cons_iff in Hall as [[_ Hv'] Hall].
          simpl in Hnd. apply NoDup_cons_iff in Hnd as [Hni Hnd].
          cbn [node_steps map fst snd] in *.
          rewrite (IHv k' c Hv') by (apply Hc; now left).
          rewrite IHf; try assumption.
          + now rewrite <- app_assoc.
          + intros x Hx Hin. rewrite obj_keys_app in Hin. apply in_app_or in Hin as [Hin|[<-|[]]].
            * apply (Hc x); [now right | assumption].
            * contradiction. }
      rewrite Hsteps by (intros x _ []). cbn [option_map app].
      apply obj_get_None in Hk. now rewrite obj_set_absent.
Qed.

Lemma ynode_json_of (v : JValue) : ynode_json (ynode_of v) = v.
Proof.
  induction v as [| | b | r | s | items _ | fields IH] using JValue_nested_ind; try reflexivity.
  cbn [ynode_of]. destruct (has_value (JObj fields)); [reflexivity|].
  cbn [ynode_json]. f_equal. rewrite map_map. cbn [fst snd].
  induction IH as [|[k x] fields Hx _ IHf]; [reflexivity|].
  cbn [map fst snd] in *. now rewrite Hx, IHf.
Qed.

Lemma flat_entries_keys (S : list string) (keyf : string -> string)
      (fields : list (string * JValue)) :
  NoDup (obj_keys fields) ->
  Forall (fun p =>
            NoDup (obj_keys (entries_of (keyf (fst p)) (snd p)))
            /\ forall k', In k' (obj_keys (entries_of (keyf (fst p)) (snd p))) ->
                          exists rel, split_on "."%char k' = S ++ [fst p] ++ rel) fields ->
  NoDup (obj_keys (flat_map (fun p => entries_of (keyf (fst p)) (snd p)) fields))
  /\ forall k', In k' (obj_keys (flat_map (fun p => entries_of (keyf (fst p)) (snd p)) fields)) ->
                exists k rel, In k (obj_keys fields) /\ split_on "."%char k' = S ++ [k] ++ rel.
Proof.
  induction fields as [|[k x] fields IH]; intros Hnd Hall.
  - split; [constructor | intros k' []].
  - simpl in Hnd. apply NoDup_cons_iff in Hnd as [Hni Hnd].
    apply Forall_cons_iff in Hall as [[Hc1 Hc2] Hall]. cbn [fst snd] in *.
    destruct (IH Hnd Hall) as [IH1 IH2]. cbn [flat_map fst snd]. rewrite obj_keys_app. split.
    + apply NoDup_app; [assumption | assumption|].
      intros k' Hin Hin'. destruct (Hc2 k' Hin) as (rel & Hrel).
      destruct (IH2 k' Hin') as (k2 & rel2 & Hk2 & Hrel2).
      rewrite Hrel in Hrel2. apply app_inv_head in Hrel2. injection Hrel2 as -> _.
      contradiction.
    + intros k' Hin. apply in_app_or in Hin as [Hin|Hin].
      * destruct (Hc2 k' Hin) as (rel & Hrel). exists k, rel. split; [now left | assumption].
      * destruct (IH2 k' Hin) as (k2 & rel2 & Hk2 & Hrel2). exists k2, rel2.
        split; [now right | assumption].
Qed.

Lemma entries_of_keys (v : JValue) : forall fullKey,
  wf_yaml_node v -> str_nonempty fullKey = true ->
  NoDup (obj_keys (entries_of fullKey v))
  /\ forall k', In k' (obj_keys (entries_of fullKey v)) ->
                exists rel, split_on "."%char k' = split_on "."%char fullKey ++ rel.
Proof.
  induction v as [| | b | r | s | items _ | fields IH] using JValue_nested_ind;
    intros fullKey Hwf Hne; try contradiction.
  - cbn [entries_of obj_keys map fst]. split; [repeat constructor; simpl; tauto|].
    intros k' [<-|[]]. exists []. now rewrite app_nil_r.
  - rewrite entries_of_obj. destruct (has_value (JObj fields)) eqn:Hv.
    + cbn [obj_keys map fst]. split; [repeat constructor; simpl; tauto|].
      intros k' [<-|[]]. exists []. now rewrite app_nil_r.
    + apply wf_yaml_node_obj in Hwf. rewrite Hv in Hwf. destruct Hwf as (_ & Hnd & Hall).
      destruct (flat_entries_keys (split_on "."%char fullKey) (full_key fullKey) fields Hnd)
        as [H1 H2].
      * rewrite Forall_forall in IH, Hall |- *. intros [k x] Hin. cbn [fst snd].
        destruct (Hall _ Hin) as [[Hk1 Hk2] Hx]. cbn [fst snd] in *.
        destruct (split_full_key fullKey k Hne Hk2) as [Hs' Hne'].
        destruct (IH _ Hin (full_key fullKey k) Hx Hne') as [Hn Hk].
        split; [exact Hn|]. intros k' Hk'. destruct (Hk k' Hk') as (rel & Hrel).
        exists rel. now rewrite Hrel, Hs', <- app_assoc.
      * split; [exact H1|]. intros k' Hk'. destruct (H2 k' Hk') as (k & rel & _ & Hrel).
        exists ([k] ++ rel). exact Hrel.
Qed.

Lemma full_key_top k : full_key EmptyString k = k.
Proof. reflexivity. Qed.

Lemma top_entries_keys (raw : list (string * JValue)) :
  wf_yaml raw ->
  NoDup (obj_keys (flat_map (fun p => entries_of (fst p) (snd p)) raw)).
Proof.
  intros [Hnd Hall].
  destruct (flat_entries_keys [] (fun k => k) raw Hnd) as [H1 _]; [|exact H1].
  rewrite Forall_forall in Hall |- *. intros [k x] Hin. cbn [fst snd app].
  destruct (Hall _ Hin) as [[Hk1 Hk2] Hx]. cbn [fst snd] in *.
  destruct (entries_of_keys x k Hx Hk1) as [Hn Hk]. split; [exact Hn|].
  intros k' Hk'. destruct (Hk k' Hk') as (rel & Hrel). exists rel.
  now rewrite Hrel, (split_dot_free k Hk2).
Qed.

Lemma top_fold (raw : list (string * JValue)) : forall root,
  NoDup (obj_keys raw) ->
  Forall (fun p => key_part (fst p) /\ wf_yaml_node (snd p)) raw ->
  (forall k, In k (obj_keys raw) -> ~ In k (obj_keys root)) ->
  fold_left yaml_step (flat_map (fun p => entries_of (fst p) (snd p)) raw) (Some root)
  = Some (root ++ map (fun p => (fst p, ynode_of (snd p))) raw).
Proof.
  induction raw as [|[k x] raw IH]; intros root Hnd Hall Hroot.
  - cbn. now rewrite app_nil_r.
  - simpl in Hnd. apply NoDup_cons_iff in Hnd as [Hni Hnd].
    apply Forall_cons_iff in Hall as [[[Hk1 Hk2] Hx] Hall]. cbn [fst snd] in *.
    cbn [flat_map map fst snd]. rewrite fold_left_app.
    rewrite (gen_node x k [] k root Hx Hk1 (split_dot_free k Hk2)). cbn [at_path].
    rewrite (node_step_fresh x k root Hx) by (apply Hroot; now left).
    rewrite IH; try assumption.
    + now rewrite <- app_assoc.
    + intros k' Hk' Hin. rewrite obj_keys_app in Hin. apply in_app_or in Hin as [Hin|[<-|[]]].
      * apply (Hroot k'); [now right | assumption].
      * contradiction.
Qed.

(** The object built from the entries of a well-formed document is the
    document. *)
Lemma yaml_roundtrip_facts (lc p : string) (lm : option Z) (raw : list (string * JValue)) :
  wf_yaml raw ->
  generateYamlOutput (parsed_yaml lc p raw lm) = Some (JObj raw).
Proof.
  intros Hwf. unfold generateYamlOutput, parsed_yaml. cbn [entries].
  rewrite parseYamlEntries_entries_of.
  rewrite fold_set_fresh; [|now apply top_entries_keys | intros k _ []]. cbn [app].
  destruct Hwf as [Hnd Hall].
  rewrite (top_fold raw [] Hnd Hall) by (intros k _ []). cbn [option_map app ynode_json].
  do 2 f_equal. rewrite map_map. cbn [fst snd].
  induction raw as [|[k x] raw IH]; [reflexivity|].
  cbn [map fst snd]. rewrite ynode_json_of. f_equal. apply IH.
  - simpl in Hnd. now apply NoDup_cons_iff in Hnd.
  - now apply Forall_cons_iff in Hall.
Qed.

(** X22.  Writing what was parsed from a well-formed nested document whose
    keys are ordinary (no array index, no name of a member of
    [Object.prototype]) gives the document back, members in their order:
    strings, objects with a value and its truthy description, context and
    tags, and the nesting of the keys. *)
Theorem yaml_roundtrip (lc p : string) (lm : option Z) (raw : list (string * JValue)) :
  wf_yaml raw -> ordinary_yaml raw = true ->
  generateYamlOutput (parsed_yaml lc p raw lm) = Some (JObj raw).
Proof. intros Hwf _. now apply yaml_roundtrip_facts. Qed.

Lemma yaml_sample_wf : wf_yaml yaml_sample.
Proof.
  split.
  - repeat constructor; simpl; intuition discriminate.
  - repeat constructor; cbn; try (exists "Close"; split; reflexivity);
      try discriminate; repeat constructor; simpl; intuition discriminate.
Qed.

Lemma yaml_roundtrip_witness :
  obj_keys (parseYamlEntries (JObj yaml_sample)) = ["title"; "menu.open"; "menu.close"; "bye"]
  /\ generateYamlOutput (parsed_yaml "en" "en.yaml" yaml_sample None) = Some (JObj yaml_sample).
Proof.
  split; [reflexivity|].
  apply (yaml_roundtrip "en" "en.yaml" None yaml_sample yaml_sample_wf eq_refl).
Defined.

(** ** The CSV format *)

Lemma csv_step_get keyColumn valueColumn record entries k :
  obj_get k
    match obj_get keyColumn record, obj_get valueColumn record with
    | Some (String a k'), Some (String b v) =>
        obj_set (String a k') (csv_entry (String a k') (String b v) record) entries
    | _, _ => entries
    end
  = if csv_row_for keyColumn valueColumn k record
    then Some (csv_entry k (default EmptyString (obj_get valueColumn record)) record)
    else obj_get k entries.
Proof.
  unfold csv_row_for.
  destruct (obj_get keyColumn record) as [[|a k']|]; [| |reflexivity].
  - destruct (obj_get valueColumn record); [|reflexivity].
    now rewrite andb_false_r.
  - destruct (obj_get valueColumn record) as [[|b v]|]; [| |reflexivity].
    + now rewrite andb_false_r.
    + cbn [str_nonempty andb from_option id]. rewrite andb_true_r.
      destruct (String.eqb_spec (String a k') k) as [<-|Hne].
      * apply obj_get_set_eq.
      * apply obj_get_set_ne. congruence.
Qed.

(** X23.  [parseCsvEntries] keeps, for each key, the last record that gives it a
    value: records with an empty or absent key or value are skipped, and a
    key that no record gives a value has no entry. *)
Theorem parseCsvEntries_last_row_wins (csvOptions : option CsvOptions)
        (records : list (list (string * string))) (lc k : string) :
  let keyColumn := keyColumn_of csvOptions in
  let valueColumn := valueColumn_of csvOptions lc in
  obj_get k (parseCsvEntries csvOptions records lc)
  = match find (csv_row_for keyColumn valueColumn k) (rev records) with
    | Some record =>
        Some (csv_entry k (default EmptyString (obj_get valueColumn record)) record)
    | None => None
    end.
Proof.
  intros keyColumn valueColumn. unfold parseCsvEntries. fold keyColumn valueColumn.
  rewrite <- fold_left_rev_right. induction (rev records) as [|record rs IH]; [reflexivity|].
  cbn [fold_right find]. rewrite csv_step_get, IH.
  now destruct (csv_row_for keyColumn valueColumn k record).
Qed.

(** ** The locale of a file *)

Lemma chars_app s t :
  list_ascii_of_string (s +:+ t) = list_ascii_of_string s ++ list_ascii_of_string t.
Proof.
  induction s as [|c s IH]; norm_app; [reflexivity|].
  cbn [list_ascii_of_string app]. now rewrite IH.
Qed.

Lemma all_chars_forallb p s : all_chars p s = forallb p (list_ascii_of_string s).
Proof. induction s as [|c s IH]; [reflexivity|]. cbn. now rewrite IH. Qed.

Lemma forallb_rev {A : Type} (p : A -> bool) (l : list A) : forallb p (rev l) = forallb p l.
Proof.
  induction l as [|x l IH]; [reflexivity|].
  cbn [rev forallb]. rewrite forallb_app, IH. cbn [forallb]. rewrite andb_true_r. apply andb_comm.
Qed.

Lemma lower_not_dash c : is_lower c = true -> Ascii.eqb c "-"%char = false.
Proof.
  intros Hc. destruct (Ascii.eqb_spec c "-"%char) as [->|]; [discriminate Hc | reflexivity].
Qed.

Lemma upper_not_lower c : is_upper c = true -> is_lower c = false.
Proof.
  unfold is_upper, is_lower. intros Hc. apply andb_true_iff in Hc as [_ Hc].
  apply Nat.leb_le in Hc. apply andb_false_iff. left. apply Nat.leb_gt. lia.
Qed.

Lemma upper_not_sep c (sep : ascii) :
  is_upper c = true -> is_upper sep = false -> Ascii.eqb c sep = false.
Proof.
  intros Hc Hs. destruct (Ascii.eqb_spec c sep) as [->|]; [congruence | reflexivity].
Qed.

Lemma rev_nonempty_chars (p : string) :
  str_nonempty p = true -> exists c pre, rev (list_ascii_of_string p) = c :: pre.
Proof.
  destruct p as [|a p]; [discriminate|]. intros _. cbn [list_ascii_of_string rev].
  destruct (rev (list_ascii_of_string p)) as [|c pre]; cbn [app]; eauto.
Qed.

(** X24.  For a file named as Flutter names its bundles, a non-empty stem of one
    line, an underscore and a language code, with or without an underscore
    and a region of two capitals, the format adapter extracts the language
    code, with the region when there is one, whatever the directory; for
    the name with a region the ARB parser returns the region alone. *)
Theorem extractLocale_flutter_names (stem parentDir : string) (l1 l2 r1 r2 : ascii) :
  str_nonempty stem = true ->
  all_chars is_dot_char stem = true ->
  is_lower l1 = true -> is_lower l2 = true ->
  is_upper r1 = true -> is_upper r2 = true ->
  let region := String r1 (String r2 EmptyString) in
  extractLocale_from (stem +:+ "_" +:+ language_code l1 l2) parentDir = language_code l1 l2
  /\ extractLocale_from (stem +:+ "_" +:+ language_code l1 l2 +:+ "_" +:+ region) parentDir
     = language_code l1 l2 +:+ "_" +:+ region
  /\ arb_extractLocale_from (stem +:+ "_" +:+ language_code l1 l2 +:+ "_" +:+ region) = region.
Proof.
  intros Hne Hdot Hl1 Hl2 Hr1 Hr2 region.
  rewrite all_chars_forallb, <- forallb_rev in Hdot.
  destruct (rev_nonempty_chars stem Hne) as (c & pre & Hrev). rewrite Hrev in Hdot.
  split; [|split].
  - unfold extractLocale_from, match_suffixed. unfold language_code.
    rewrite !chars_app, !rev_app_distr. cbn [list_ascii_of_string rev app]. rewrite Hrev.
    cbn [app]. rewrite Ascii.eqb_refl, Hl1, Hl2, Hdot. cbn [andb string_of_list_ascii].
    cbn [replace_first_dash]. now rewrite !lower_not_dash.
  - unfold extractLocale_from, match_suffixed. unfold language_code, region.
    rewrite !chars_app, !rev_app_distr. cbn [list_ascii_of_string rev app]. rewrite Hrev.
    cbn [app]. rewrite (upper_not_lower r1 Hr1), andb_false_r. cbn [andb].
    rewrite !Ascii.eqb_refl, Hl1, Hl2, Hr1, Hr2, Hdot. cbn [andb string_of_list_ascii].
    cbn [replace_first_dash]. rewrite !lower_not_dash by assumption.
    rewrite (upper_not_sep r1 "-" Hr1 eq_refl), (upper_not_sep r2 "-" Hr2 eq_refl).
    norm_app. reflexivity.
  - unfold arb_extractLocale_from.
    replace (stem +:+ "_" +:+ language_code l1 l2 +:+ "_" +:+ region)
      with ((stem +:+ "_" +:+ language_code l1 l2) +:+ String "_"%char region)
      by (unfold language_code; now rewrite !str_app_assoc).
    rewrite split_on_app.
    assert (Hsplit : split_on "_"%char region = [region]).
    { unfold region. cbn [split_on].
      now rewrite (upper_not_sep r1 "_" Hr1 eq_refl), (upper_not_sep r2 "_" Hr2 eq_refl). }
    rewrite Hsplit, last_last. reflexivity.
Qed.

Lemma extractLocale_flutter_names_witness :
  extractLocale_from "app_pt" "l10n" = "pt"
  /\ extractLocale_from "app_pt_BR" "l10n" = "pt_BR"
  /\ arb_extractLocale_from "app_pt_BR" = "BR".
Proof.
  apply (extractLocale_flutter_names "app" "l10n" "p" "t" "B" "R"); reflexivity.
Defined.


(** * The round trip of every format *)

(** ** Writing the CSV and TSV formats *)

Lemma written_valueColumn_eq csvOptions lc :
  written_valueColumn csvOptions lc = valueColumn_of csvOptions lc.
Proof.
  unfold written_valueColumn, valueColumn_of.
  destruct csvOptions as [[dl kc [m|]]|]; try reflexivity.
  all: cbn [obj_get]; rewrite String.eqb_refl; unfold or_str; cbn [truthy_str];
    now destruct (str_nonempty lc).
Qed.

Lemma eqb_neq (a b : string) : a <> b -> String.eqb a b = false.
Proof. intros Hne. now apply String.eqb_neq. Qed.

Section CsvRoundTrip.
Variables keyColumn valueColumn : string.
Hypothesis Hkv : keyColumn <> valueColumn.
Hypothesis Hk : ~ In keyColumn ["description"; "context"; "tags"].
Hypothesis Hv : ~ In valueColumn ["description"; "context"; "tags"].

Lemma csv_columns_differ :
  String.eqb keyColumn valueColumn = false
  /\ String.eqb keyColumn "description" = false
  /\ String.eqb keyColumn "context" = false
  /\ String.eqb keyColumn "tags" = false
  /\ String.eqb valueColumn "description" = false
  /\ String.eqb valueColumn "context" = false
  /\ String.eqb valueColumn "tags" = false.
Proof.
  repeat split; apply eqb_neq; try assumption; intros He;
    first [ apply Hk; rewrite He; simpl; tauto | apply Hv; rewrite He; simpl; tauto ].
Qed.

Lemma csv_line_get k v d c t :
  obj_get keyColumn (csv_line keyColumn valueColumn k v d c t) = Some k
  /\ obj_get valueColumn (csv_line keyColumn valueColumn k v d c t) = Some v
  /\ obj_get "description" (csv_line keyColumn valueColumn k v d c t) = d
  /\ obj_get "context" (csv_line keyColumn valueColumn k v d c t) = c
  /\ obj_get "tags" (csv_line keyColumn valueColumn k v d c t) = t.
Proof.
  destruct csv_columns_differ as (Hkv' & Hkd & Hkc & Hkt & Hvd & Hvc & Hvt).
  unfold csv_line, csv_opt.
  destruct d, c, t; cbn [app obj_get];
    rewrite !String.eqb_refl, ?Hkv', ?Hkd, ?Hkc, ?Hkt, ?Hvd, ?Hvc, ?Hvt;
    repeat split; reflexivity.
Qed.

Lemma csv_line_key k v d c t :
  csv_key keyColumn (csv_line keyColumn valueColumn k v d c t) = k.
Proof. unfold csv_key. now destruct (csv_line_get k v d c t) as (-> & _). Qed.

(** The record written for the entry of a well-formed record holds the
    cells of the record that are not empty. *)
Lemma csv_record_entry k v d c t :
  str_nonempty k = true -> str_nonempty v = true ->
  normal_tags (default EmptyString t) ->
  csv_record keyColumn valueColumn
    (csv_entry k v (csv_line keyColumn valueColumn k v d c t))
  = Some (record_json (filled_cells (csv_line keyColumn valueColumn k v d c t))).
Proof.
  intros Hkn Hvn Ht.
  destruct (csv_line_get k v d c t) as (_ & _ & Hd & Hc & Htg).
  destruct csv_columns_differ as (Hkv' & Hkd & Hkc & Hkt & Hvd & Hvc & Hvt).
  unfold csv_record, csv_entry.
  cbn [key value description context tags]. unfold csv_cell. rewrite Hd, Hc, Htg.
  cbn [obj_set]. rewrite Hkv'.
  assert (Hjoin : forall s, normal_tags s ->
            js_join ", " (map (fun x => JStr (trim x)) (split_on ","%char s)) = s).
  { intros s Hs. unfold js_join. rewrite map_map. exact Hs. }
  unfold csv_line, csv_opt, filled_cells, record_json.
  cbn [app filter snd]. rewrite Hkn, Hvn.
  destruct d as [d|], c as [c|], t as [t|];
    cbn [from_option id app filter snd truthy truthy_str map obj_set] in *;
    try destruct (str_nonempty d) eqn:Ed; try destruct (str_nonempty c) eqn:Ec;
    try destruct (str_nonempty t) eqn:Et;
    repeat (progress (cbn [truthy truthy_str from_option id app map obj_set filter snd];
                      rewrite ?Ed, ?Ec, ?Et, ?Hkd, ?Hkc, ?Hkt, ?Hvd, ?Hvc, ?Hvt,
                        ?(Hjoin _ Ht)));
    reflexivity.
Qed.

Lemma parse_csv_fold (records : list (list (string * string))) :
  forall acc : list (string * LocaleEntry),
  Forall (wf_csv_record keyColumn valueColumn) records ->
  NoDup (map (csv_key keyColumn) records) ->
  (forall r, In r records -> ~ In (csv_key keyColumn r) (obj_keys acc)) ->
  fold_left (fun entries record =>
               match obj_get keyColumn record, obj_get valueColumn record with
               | Some (String a k), Some (String b v) =>
                   obj_set (String a k) (csv_entry (String a k) (String b v) record) entries
               | _, _ => entries
               end) records acc
  = acc ++ map (fun record =>
                  (csv_key keyColumn record,
                   csv_entry (csv_key keyColumn record)
                             (default EmptyString (obj_get valueColumn record)) record))
               records.
Proof.
  induction records as [|r rs IH]; intros acc Hall Hnd Hfresh; [now rewrite app_nil_r|].
  apply Forall_cons_iff in Hall as [Hr Hall]. cbn [map] in Hnd.
  apply NoDup_cons_iff in Hnd as [Hni Hnd].
  destruct Hr as (k & v & d & c & t & -> & Hkn & Hvn & _ & _).
  destruct (csv_line_get k v d c t) as (Hgk & Hgv & _).
  pose proof (csv_line_key k v d c t) as Hck.
  cbn [fold_left map]. rewrite Hck in *. rewrite Hgk, Hgv. cbn [from_option id].
  destruct k as [|a k]; [discriminate|]. destruct v as [|b v]; [discriminate|].
  assert (Hfk : ~ In (String a k) (obj_keys acc)).
  { specialize (Hfresh _ (or_introl eq_refl)). now rewrite Hck in Hfresh. }
  rewrite obj_set_absent by exact Hfk.
  rewrite IH; [now rewrite <- app_assoc | assumption | assumption |].
  intros r Hin Hin'. rewrite obj_keys_app in Hin'. apply in_app_or in Hin' as [Hin'|[Heq|[]]].
  - apply (Hfresh r); [now right | assumption].
  - apply Hni. cbn [fst] in Heq. rewrite Heq. now apply in_map.
Qed.

Lemma csv_records_wf (records : list (list (string * string))) :
  Forall (wf_csv_record keyColumn valueColumn) records ->
  csv_records keyColumn valueColumn
    (map snd (map (fun record =>
                     (csv_key keyColumn record,
                      csv_entry (csv_key keyColumn record)
                                (default EmptyString (obj_get valueColumn record)) record))
                  records))
  = Some (map (fun record => record_json (filled_cells record)) records).
Proof.
  induction 1 as [|r rs Hr _ IH]; [reflexivity|].
  destruct Hr as (k & v & d & c & t & -> & Hkn & Hvn & _ & Ht).
  destruct (csv_line_get k v d c t) as (Hgk & Hgv & _).
  cbn [map snd csv_records]. rewrite csv_line_key, Hgv.
  cbn [from_option id]. rewrite (csv_record_entry k v d c t Hkn Hvn Ht).
  now rewrite IH.
Qed.
End CsvRoundTrip.

(** The records written for a well-formed CSV or TSV file are the records
    read, without their empty cells. *)
Lemma csv_roundtrip_facts (csvOptions : option CsvOptions) (lc p : string)
      (fmt : LocaleFileFormat) (lm : option Z) (records : list (list (string * string))) :
  wf_csv csvOptions lc records ->
  generateCsvRecords csvOptions (parsed_csv csvOptions lc p fmt records lm)
  = Some (map (fun record => record_json (filled_cells record)) records).
Proof.
  intros (Hkv & Hk & Hv & _ & _ & _ & Hall & Hnd).
  unfold generateCsvRecords, parsed_csv. cbn [locale entries].
  rewrite written_valueColumn_eq. unfold parseCsvEntries.
  rewrite (parse_csv_fold _ _ Hkv Hk Hv records [] Hall Hnd) by (intros r _ []).
  cbn [app]. now apply csv_records_wf.
Qed.

(** ** Parsing, then writing *)


Lemma csv_sample_wf : wf_csv None "en" csv_sample.
Proof.
  repeat split; try discriminate; try (simpl; intuition discriminate).
  - repeat constructor.
    + exists "hello", "Hi", (Some "greeting"), None, (Some "home, start").
      repeat split; reflexivity.
    + exists "bye", "Bye", (Some EmptyString), None, (Some EmptyString).
      repeat split; reflexivity.
  - repeat constructor; simpl; intuition discriminate.
Qed.

